(** * Semantic steganographic encoder: a shallow embedding and its properties

    The development follows the three Python sources of the repository:

    - [backup/steganography.py]: the class [SteganographyLLM] ([preprocess],
      [train], [get_candidates], [encode], [decode]), module [Steg];
    - [backup/data_builder.py]: [preprocess] and [build_model], module
      [BackupBuilder];
    - [scripts/data_builder.py]: [preprocess_streamed],
      [build_model_incremental], [build_trigram_model_incremental] and the
      main block, module [Builder].

    Module [Py] holds the Python built-ins the sources rely on: characters
    and [str] methods, insertion-ordered dictionaries, the stable sort
    behind [sorted]/[list.sort], slices, and exceptions as an error monad. *)

From Stdlib Require Import List String Ascii Bool Arith NArith ZArith Lia.
From Stdlib Require Import Floats DecimalString Permutation Sorted.
Import ListNotations.

(* ================================================================== *)
(** * Python built-ins *)

Module Py.

(** ** Exceptions

    A Python call either returns a value or raises.  Only the exceptions the
    modelled code can raise by itself are listed. *)

Inductive exn : Type :=
| KeyError
| IndexError
| ZeroDivisionError.

Inductive result (A : Type) : Type :=
| Ok (a : A)
| Raise (e : exn).

Arguments Ok {A} a.
Arguments Raise {A} e.

Definition bind {A B : Type} (r : result A) (k : A -> result B) : result B :=
  match r with
  | Ok a => k a
  | Raise e => Raise e
  end.

Notation "x <- e ;; k" := (bind e (fun x => k))
  (at level 61, e at next level, right associativity).
Notation "' p <- e ;; k" := (bind e (fun p => k))
  (at level 61, p pattern, e at next level, right associativity).

(** A [for] loop whose body may raise: the accumulator is the loop's state. *)
Fixpoint foldM {A S : Type} (body : S -> A -> result S) (l : list A) (s : S)
  : result S :=
  match l with
  | [] => Ok s
  | x :: l' => s' <- body s x ;; foldM body l' s'
  end.

(** A list comprehension whose element expression may raise. *)
Fixpoint mapM {A B : Type} (f : A -> result B) (l : list A) : result (list B) :=
  match l with
  | [] => Ok []
  | x :: l' => y <- f x ;; ys <- mapM f l' ;; Ok (y :: ys)
  end.

(** ** Characters

    A character is a code point below 256 (Latin-1), Rocq's [ascii].  The
    predicates below are [str.isspace], [str.isalpha] and [str.lower] on that
    range; the regular-expression class [\s] of a [str] pattern is
    [str.isspace]. *)

Definition code (c : ascii) : N := N_of_ascii c.

Definition in_range (lo hi : N) (c : ascii) : bool :=
  ((lo <=? code c) && (code c <=? hi))%N.

(** [[a-z]] *)
Definition is_az (c : ascii) : bool := in_range 97 122 c.

(** [[A-Z]] *)
Definition is_AZ (c : ascii) : bool := in_range 65 90 c.

(** Tab to carriage return, the four separators 28..31, space, NEL and the
    no-break space. *)
Definition isspace (c : ascii) : bool :=
  in_range 9 13 c || in_range 28 32 c
  || (code c =? 133)%N || (code c =? 160)%N.

(** Letters of Latin-1: A-Z, a-z, the ordinal indicators and micro sign, and
    192..255 without the multiplication and division signs. *)
Definition isalpha (c : ascii) : bool :=
  is_az c || is_AZ c
  || (code c =? 170)%N || (code c =? 181)%N || (code c =? 186)%N
  || in_range 192 214 c || in_range 216 246 c || in_range 248 255 c.

Definition lower (c : ascii) : ascii :=
  if is_AZ c || in_range 192 214 c || in_range 216 222 c
  then ascii_of_N (code c + 32)
  else c.

(** The upper-case (title-case) form of a character, where it is again one
    Latin-1 character: a-z and 224..254 without the division sign.  The
    micro sign, the sharp s and y-diaeresis have theirs outside Latin-1; they
    are left as they are (the encoder only capitalises sentences of [a-z]
    words). *)
Definition upper (c : ascii) : ascii :=
  if is_az c || in_range 224 246 c || in_range 248 254 c
  then ascii_of_N (code c - 32)
  else c.

(** ** Strings *)

Definition chars (s : string) : list ascii := list_ascii_of_string s.
Definition str (l : list ascii) : string := string_of_list_ascii l.

(** [s.lower()] *)
Definition str_lower (s : list ascii) : list ascii := map lower s.

(** [s.capitalize()]: first character upper-cased, the rest lower-cased. *)
Definition capitalize (s : list ascii) : list ascii :=
  match s with
  | [] => []
  | c :: s' => upper c :: map lower s'
  end.

(** [s.split()]: the maximal runs of non-whitespace characters.  [cur] is the
    current run, most recent character first. *)
Fixpoint split_from (cur : list ascii) (s : list ascii) : list string :=
  match s with
  | [] => match cur with [] => [] | _ => [str (rev cur)] end
  | c :: s' =>
      if isspace c
      then match cur with
           | [] => split_from [] s'
           | _ => str (rev cur) :: split_from [] s'
           end
      else split_from (c :: cur) s'
  end.

Definition split (s : list ascii) : list string := split_from [] s.

(** [s.strip()] *)
Fixpoint lstrip (s : list ascii) : list ascii :=
  match s with
  | c :: s' => if isspace c then lstrip s' else s
  | [] => []
  end.

Definition strip (s : list ascii) : list ascii := rev (lstrip (rev (lstrip s))).

(** [re.sub(r'\s+', ' ', s)]: every maximal run of whitespace becomes one
    space.  [in_run] says that the previous character was whitespace. *)
Fixpoint sub_ws_runs (in_run : bool) (s : list ascii) : list ascii :=
  match s with
  | [] => []
  | c :: s' =>
      if isspace c
      then if in_run then sub_ws_runs true s' else " "%char :: sub_ws_runs true s'
      else c :: sub_ws_runs false s'
  end.

(** [sep.join(words)] *)
Fixpoint join (sep : list ascii) (words : list string) : list ascii :=
  match words with
  | [] => []
  | [w] => chars w
  | w :: ws => chars w ++ sep ++ join sep ws
  end.

(** [w[0]] *)
Definition first_char (w : string) : result ascii :=
  match w with
  | String c _ => Ok c
  | EmptyString => Raise IndexError
  end.

(** [str(n)] of a non-negative integer. *)
Definition str_of_nat (n : nat) : string := NilEmpty.string_of_uint (Nat.to_uint n).

(** ** Lists *)

(** [l[-1]] *)
Fixpoint last_item {A : Type} (l : list A) : result A :=
  match l with
  | [] => Raise IndexError
  | [x] => Ok x
  | _ :: l' => last_item l'
  end.

(** [l[0]] *)
Definition first_item {A : Type} (l : list A) : result A :=
  match l with
  | [] => Raise IndexError
  | x :: _ => Ok x
  end.

(** [l[:n]] for any integer [n]: a negative [n] counts from the end. *)
Definition slice_to {A : Type} (n : Z) (l : list A) : list A :=
  if (0 <=? n)%Z then firstn (Z.to_nat n) l
  else firstn (List.length l - Z.to_nat (- n)) l.

(** [enumerate(l)] *)
Definition enumerate {A : Type} (l : list A) : list (nat * A) :=
  combine (seq 0 (List.length l)) l.

(** The windows [(l[i], l[i+1])] for [i in range(len(l) - 1)]. *)
Fixpoint pairs {A : Type} (l : list A) : list (A * A) :=
  match l with
  | x :: (y :: _) as l' => (x, y) :: pairs l'
  | _ => []
  end.

(** The windows [(l[i], l[i+1], l[i+2])] for [i in range(len(l) - 2)]. *)
Fixpoint triples {A : Type} (l : list A) : list (A * A * A) :=
  match l with
  | x :: (y :: z :: _) as l' => (x, y, z) :: triples l'
  | _ => []
  end.

(** ** The stable sort

    [sorted] and [list.sort] are stable.  [insert_by before x l] puts [x],
    which stood in front of the elements of [l], into the sorted [l]: behind
    the elements [q] that must stay before it ([before q x]).  Ascending order
    is [before q x := q < x]; with [reverse=True] it is [before q x := x < q],
    and elements with equal keys keep their order in both. *)

Fixpoint insert_by {A : Type} (before : A -> A -> bool) (x : A) (l : list A)
  : list A :=
  match l with
  | [] => [x]
  | q :: l' => if before q x then q :: insert_by before x l' else x :: q :: l'
  end.

Definition sort_by {A : Type} (before : A -> A -> bool) (l : list A) : list A :=
  fold_right (insert_by before) [] l.

(** [sorted(l, key=key, reverse=True)] for a key compared with [lt]. *)
Definition sorted_desc {A K : Type} (lt : K -> K -> bool) (key : A -> K)
  (l : list A) : list A :=
  sort_by (fun q x => lt (key x) (key q)) l.

(** [sorted(l)] for a list of strings. *)
Definition sorted_str (l : list string) : list string :=
  sort_by String.ltb l.

(** ** Dictionaries

    A [dict] keeps its keys in insertion order, and the sources depend on it
    (ties of a stable sort fall in that order), so a dictionary is the list of
    its items, each key once. *)

Class Key (K : Type) : Type := {
  key_eqb : K -> K -> bool;
  key_eqb_spec : forall x y : K, reflect (x = y) (key_eqb x y)
}.

#[export] Instance string_Key : Key string :=
  {| key_eqb := String.eqb; key_eqb_spec := String.eqb_spec |}.

#[export] Instance nat_Key : Key nat :=
  {| key_eqb := Nat.eqb; key_eqb_spec := Nat.eqb_spec |}.

#[export] Instance ascii_Key : Key ascii :=
  {| key_eqb := Ascii.eqb; key_eqb_spec := Ascii.eqb_spec |}.

#[export] Instance prod_Key (K1 K2 : Type) `{Key K1} `{Key K2} : Key (K1 * K2).
Proof.
  refine {| key_eqb := fun p q => key_eqb (fst p) (fst q) && key_eqb (snd p) (snd q) |}.
  intros [a b] [c d]. simpl.
  destruct (key_eqb_spec a c) as [ -> | Hne ]; simpl.
  - destruct (key_eqb_spec b d) as [ -> | Hne ]; constructor; congruence.
  - constructor. congruence.
Defined.

Definition dict (K V : Type) : Type := list (K * V).

Section Dict.
Context {K V : Type} `{Key K}.

(** [d.get(k)] *)
Fixpoint get (k : K) (d : dict K V) : option V :=
  match d with
  | [] => None
  | (k', v) :: d' => if key_eqb k k' then Some v else get k d'
  end.

(** [k in d] *)
Definition mem (k : K) (d : dict K V) : bool :=
  match get k d with Some _ => true | None => false end.

(** [d[k]] *)
Definition getitem (k : K) (d : dict K V) : result V :=
  match get k d with
  | Some v => Ok v
  | None => Raise KeyError
  end.

(** [d.get(k, default)] *)
Definition get_default (k : K) (default : V) (d : dict K V) : V :=
  match get k d with
  | Some v => v
  | None => default
  end.

(** [d[k] = f(d[k])] where a missing key reads as [None]: an old key keeps its
    place, a new one goes to the end. *)
Fixpoint upd (k : K) (f : option V -> V) (d : dict K V) : dict K V :=
  match d with
  | [] => [(k, f None)]
  | (k', v) :: d' =>
      if key_eqb k k' then (k', f (Some v)) :: d' else (k', v) :: upd k f d'
  end.

(** [d[k] = v] *)
Definition set (k : K) (v : V) (d : dict K V) : dict K V := upd k (fun _ => v) d.

Definition keys (d : dict K V) : list K := map fst d.
Definition values (d : dict K V) : list V := map snd d.

(** [{k: v for k, v in l}] *)
Definition dict_of (l : list (K * V)) : dict K V :=
  fold_left (fun d kv => set (fst kv) (snd kv) d) l [].

End Dict.

(** [c[k] += 1] on a [Counter] or a [defaultdict(int)]. *)
Definition incr {K : Type} `{Key K} (k : K) (c : dict K nat) : dict K nat :=
  upd k (fun o => match o with Some n => S n | None => 1 end) c.

(** The value a [defaultdict] makes for a missing key. *)
Definition or_default {V : Type} (default : V) (o : option V) : V :=
  match o with
  | Some v => v
  | None => default
  end.

(** [d[k1][k2] += 1] on a [defaultdict(Counter)]. *)
Definition incr2 {K1 K2 : Type} `{Key K1} `{Key K2} (k1 : K1) (k2 : K2)
  (d : dict K1 (dict K2 nat)) : dict K1 (dict K2 nat) :=
  upd k1 (fun o => incr k2 (or_default [] o)) d.

(** [d[k1][k2][k3] += 1] on a [defaultdict] of [defaultdict(Counter)]. *)
Definition incr3 {K1 K2 K3 : Type} `{Key K1} `{Key K2} `{Key K3}
  (k1 : K1) (k2 : K2) (k3 : K3)
  (d : dict K1 (dict K2 (dict K3 nat))) : dict K1 (dict K2 (dict K3 nat)) :=
  upd k1 (fun o => incr2 k2 k3 (or_default [] o)) d.

(** [d[k].append(x)] on a [defaultdict(list)]. *)
Definition append_to {K A : Type} `{Key K} (k : K) (x : A)
  (d : dict K (list A)) : dict K (list A) :=
  upd k (fun o => or_default [] o ++ [x]) d.

(** [c.update(l)] on a [Counter]. *)
Definition counter_update {K : Type} `{Key K} (l : list K) (c : dict K nat)
  : dict K nat :=
  fold_left (fun c k => incr k c) l c.

(** [c.most_common()]: the items by descending count, ties in insertion
    order. *)
Definition most_common {K : Type} (c : dict K nat) : list (K * nat) :=
  sorted_desc Nat.ltb snd c.

(** [list(set(l))] up to the order, which no caller observes: each element
    once. *)
Definition set_of (l : list string) : list string := nodup string_dec l.

End Py.

Import Py.

(* ================================================================== *)
(** * backup/steganography.py *)

Module Steg.

(** The attributes of a [SteganographyLLM] object.  [transitions] is
    [{current_word_id: {next_char: {next_word_id: log_prob}}}]. *)
Record SteganographyLLM : Type := {
  vocab : list string;
  word_to_id : dict string nat;
  id_to_word : dict nat string;
  transitions : dict nat (dict ascii (dict nat float));
  words_by_char : dict ascii (list nat)
}.

(** [__init__] *)
Definition init : SteganographyLLM :=
  {| vocab := []; word_to_id := []; id_to_word := [];
     transitions := []; words_by_char := [] |}.

(** [preprocess]: lower-case, drop what is neither [a-z] nor whitespace,
    split. *)
Definition preprocess (text : string) : list string :=
  split (filter (fun c => is_az c || isspace c) (str_lower (chars text))).

(** An [int] as a [float]. *)
Definition float_of_nat (n : nat) : float :=
  PrimFloat.of_uint63 (Uint63.of_Z (Z.of_nat n)).

(** [count / total] *)
Definition true_div (count total : nat) : result float :=
  if total =? 0 then Raise ZeroDivisionError
  else Ok (float_of_nat count / float_of_nat total)%float.

(** [transitions[curr_id][start_char][next_id] = prob] on the nested
    [defaultdict]. *)
Definition set_transition (curr_id : nat) (start_char : ascii) (next_id : nat)
  (prob : float) (tr : dict nat (dict ascii (dict nat float)))
  : dict nat (dict ascii (dict nat float)) :=
  upd curr_id
    (fun by_char =>
       upd start_char (fun nexts => set next_id prob (or_default [] nexts))
         (or_default [] by_char))
    tr.

Section Train.

(** [math.log] is the platform's C library function; the model takes it as
    given.  Its argument below is [count / total] with [1 <= count <= total],
    on which it does not raise. *)
Variable math_log : float -> float.

(** The loop over the items of one [bigram_counts[curr_id]]. *)
Definition log_probs (id_to_word : dict nat string) (curr_id : nat)
  (next_ids : dict nat nat) (tr : dict nat (dict ascii (dict nat float)))
  : result (dict nat (dict ascii (dict nat float))) :=
  let total_occurrences := list_sum (values next_ids) in
  foldM
    (fun tr '(next_id, count) =>
       next_word <- getitem next_id id_to_word ;;
       start_char <- first_char next_word ;;
       q <- true_div count total_occurrences ;;
       Ok (set_transition curr_id start_char next_id (math_log q) tr))
    next_ids tr.

(** [train]: the attributes of [self] after the call. *)
Definition train (self : SteganographyLLM) (text_corpus : string)
  : result SteganographyLLM :=
  let tokens := preprocess text_corpus in
  (* 1. vocabulary *)
  let unique_words := sorted_str (set_of tokens) in
  let word_to_id := dict_of (map (fun iw => (snd iw, fst iw)) (enumerate unique_words)) in
  let id_to_word := dict_of (enumerate unique_words) in
  words_by_char <-
    foldM (fun wbc w =>
             c <- first_char w ;;
             i <- getitem w word_to_id ;;
             Ok (append_to c i wbc))
      unique_words (words_by_char self) ;;
  (* 2. bigram counts *)
  bigram_counts <-
    foldM (fun counts '(curr_w, next_w) =>
             curr_id <- getitem curr_w word_to_id ;;
             next_id <- getitem next_w word_to_id ;;
             Ok (incr2 curr_id next_id counts))
      (pairs tokens) [] ;;
  (* 3. log probabilities *)
  transitions <-
    foldM (fun tr '(curr_id, next_ids) => log_probs id_to_word curr_id next_ids tr)
      bigram_counts (transitions self) ;;
  Ok {| vocab := unique_words; word_to_id := word_to_id; id_to_word := id_to_word;
        transitions := transitions; words_by_char := words_by_char |}.

End Train.

(** A beam path: [{'sequence': [...], 'score': ...}]. *)
Record Path : Type := { sequence : list nat; score : float }.

Definition penalty_score : float := (-20)%float.

(** Strategy A of [get_candidates]: the items of
    [transitions[current_word_id][target_char]], when both keys are there. *)
Definition strategy_a (self : SteganographyLLM) (current_word_id : nat)
  (target_char : ascii) : list (nat * float) :=
  match get current_word_id (transitions self) with
  | Some by_char =>
      match get target_char by_char with
      | Some nexts => nexts
      | None => []
      end
  | None => []
  end.

(** Strategy B of [get_candidates]: the first ten words filed under the
    character, each with the penalty. *)
Definition strategy_b (self : SteganographyLLM) (target_char : ascii)
  : list (nat * float) :=
  let fallback_words := get_default target_char [] (words_by_char self) in
  let selected_fallbacks := slice_to 10 fallback_words in
  map (fun word_id => (word_id, penalty_score)) selected_fallbacks.

(** [get_candidates]: strategy B only if strategy A found nothing. *)
Definition get_candidates (self : SteganographyLLM) (current_word_id : nat)
  (target_char : ascii) : list (nat * float) :=
  match strategy_a self current_word_id target_char with
  | [] => strategy_b self target_char
  | candidates => candidates
  end.

(** [target_chars = [c.lower() for c in hidden_text if c.isalpha()]] *)
Definition target_chars (hidden_text : string) : list ascii :=
  map lower (filter isalpha (chars hidden_text)).

(** The new paths one path of the beam contributes for [target_char]. *)
Definition extend (self : SteganographyLLM) (target_char : ascii) (path : Path)
  : result (list Path) :=
  last_word_id <- last_item (sequence path) ;;
  Ok (map (fun cand =>
             {| sequence := sequence path ++ [fst cand];
                score := (score path + snd cand)%float |})
        (get_candidates self last_word_id target_char)).

(** [new_beam] after the loop over the beam. *)
Definition expand (self : SteganographyLLM) (target_char : ascii)
  (beam : list Path) : result (list Path) :=
  foldM (fun new_beam path =>
           ext <- extend self target_char path ;;
           Ok (new_beam ++ ext))
    beam [].

(** [sorted(beam, key=lambda x: x['score'], reverse=True)[:beam_width]] *)
Definition prune (beam_width : Z) (beam : list Path) : list Path :=
  slice_to beam_width (sorted_desc PrimFloat.ltb score beam).

(** Step 2 of [encode]: the loop over [enumerate(target_chars[1:])].  The
    result is the beam after the loop and, when the loop was left by [break],
    the [char_idx] of the dead end (the warning the code prints). *)
Fixpoint search (self : SteganographyLLM) (beam_width : Z) (beam : list Path)
  (rest : list ascii) (char_idx : nat) : result (list Path * option nat) :=
  match rest with
  | [] => Ok (beam, None)
  | target_char :: rest' =>
      new_beam <- expand self target_char beam ;;
      match new_beam with
      | [] => Ok (beam, Some char_idx)
      | _ => search self beam_width (prune beam_width new_beam) rest' (S char_idx)
      end
  end.

(** Steps 1 and 2 of [encode] for a non-empty target. *)
Definition beam_search (self : SteganographyLLM) (first_char : ascii)
  (rest : list ascii) (beam_width : Z) : result (list Path * option nat) :=
  let start_candidates := get_default first_char [] (words_by_char self) in
  let beam := map (fun w_id => {| sequence := [w_id]; score := 0%float |})
                start_candidates in
  search self beam_width (prune beam_width beam) rest 0.

(** Step 3 of [encode]: the sentence of the best path. *)
Definition render (self : SteganographyLLM) (best_path : Path) : result string :=
  decoded_words <- mapM (fun i => getitem i (id_to_word self)) (sequence best_path) ;;
  let sentence := join (chars " ") decoded_words in
  Ok (str (capitalize sentence ++ chars ".")).

(** [best_path = beam[0]] of [encode], with the dead end met on the way. *)
Definition encode_path (self : SteganographyLLM) (hidden_text : string)
  (beam_width : Z) : result (option (Path * option nat)) :=
  match target_chars hidden_text with
  | [] => Ok None
  | first_char :: rest =>
      '(beam, dead_end) <- beam_search self first_char rest beam_width ;;
      best_path <- first_item beam ;;
      Ok (Some (best_path, dead_end))
  end.

(** The score of the best path [encode] returns the sentence of; [None] for
    the empty target, which has no path. *)
Definition best_score (self : SteganographyLLM) (hidden_text : string)
  (beam_width : Z) : result (option float) :=
  found <- encode_path self hidden_text beam_width ;;
  match found with
  | None => Ok None
  | Some (best_path, _) => Ok (Some (score best_path))
  end.

(** [encode] *)
Definition encode (self : SteganographyLLM) (hidden_text : string)
  (beam_width : Z) : result string :=
  found <- encode_path self hidden_text beam_width ;;
  match found with
  | None => Ok EmptyString
  | Some (best_path, _) => render self best_path
  end.

(** The number of target characters consumed when the search met a dead end,
    which is the position in [target_chars] of the character that found no
    candidate; [None] when the loop ran to its end. *)
Definition dead_end_step (self : SteganographyLLM) (hidden_text : string)
  (beam_width : Z) : option nat :=
  match encode_path self hidden_text beam_width with
  | Ok (Some (_, Some char_idx)) => Some (S char_idx)
  | _ => None
  end.

(** [decode] *)
Definition decode (sentence : string) : result string :=
  let words := split (filter (fun c => is_az c || is_AZ c || isspace c)
                        (chars sentence)) in
  letters <- mapM (fun w => c <- first_char w ;; Ok (lower c)) words ;;
  Ok (str letters).

End Steg.

(* ================================================================== *)
(** * The pruning loop of the data builders

    [build_model], [build_model_incremental] and, one level deeper,
    [build_trigram_model_incremental] end with the same loop over the
    [(context id, Counter of next ids)] items of the raw table; it is modelled
    once, with the two constants it reads as arguments. *)

Module Pruning.

(** The loop that fills [char_groups] for one context. *)
Definition char_groups_of (min_freq : nat) (id_to_word : dict nat string)
  (next_words_map : dict nat nat) : result (dict ascii (list (nat * nat))) :=
  foldM
    (fun char_groups '(next_id, count) =>
       if count <? min_freq then Ok char_groups (* continue *)
       else
         next_word_str <- getitem next_id id_to_word ;;
         start_char <- first_char next_word_str ;;
         Ok (append_to start_char (next_id, count) char_groups))
    next_words_map [].

(** [top_ids] of one character group: sort by count descending, keep
    [top_k], keep the ids only. *)
Definition top_ids (top_k : Z) (candidates : list (nat * nat)) : list nat :=
  map fst (slice_to top_k (sorted_desc Nat.ltb snd candidates)).

(** The loop that fills [optimized_groups]. *)
Definition optimize (top_k : Z) (char_groups : dict ascii (list (nat * nat)))
  : dict ascii (list nat) :=
  fold_left
    (fun optimized_groups '(char, candidates) =>
       set char (top_ids top_k candidates) optimized_groups)
    char_groups [].

(** The whole pruning loop: [final_transitions]. *)
Definition prune_table (top_k : Z) (min_freq : nat) (id_to_word : dict nat string)
  (id_counts : dict nat (dict nat nat))
  : result (dict string (dict ascii (list nat))) :=
  foldM
    (fun final_transitions '(curr_id, next_words_map) =>
       char_groups <- char_groups_of min_freq id_to_word next_words_map ;;
       let optimized_groups := optimize top_k char_groups in
       match optimized_groups with
       | [] => Ok final_transitions
       | _ => Ok (set (str_of_nat curr_id) optimized_groups final_transitions)
       end)
    id_counts [].

(** [sorted_vocab = [w for w, _ in word_counts.most_common()]] *)
Definition sorted_vocab_of (word_counts : dict string nat) : list string :=
  map fst (most_common word_counts).

(** [word_to_id] and [id_to_word] of a vocabulary list. *)
Definition word_to_id_of (sorted_vocab : list string) : dict string nat :=
  dict_of (map (fun iw => (snd iw, fst iw)) (enumerate sorted_vocab)).

Definition id_to_word_of (sorted_vocab : list string) : dict nat string :=
  dict_of (enumerate sorted_vocab).

(** [d[k1][k2] = v] on a [defaultdict(Counter)]. *)
Definition set2 {K1 K2 V : Type} `{Key K1} `{Key K2} (k1 : K1) (k2 : K2) (v : V)
  (d : dict K1 (dict K2 V)) : dict K1 (dict K2 V) :=
  upd k1 (fun o => set k2 v (or_default [] o)) d.

End Pruning.

Import Pruning.

(* ================================================================== *)
(** * backup/data_builder.py *)

Module BackupBuilder.

Definition TOP_K_PER_LETTER : Z := 30.
Definition MIN_BIGRAM_FREQ : nat := 2.

(** [preprocess] *)
Definition preprocess (text : string) : list string :=
  let text := str_lower (chars text) in
  let text := filter (fun c => is_az c || isspace c) text in
  let text := sub_ws_runs false text in
  split (strip text).

(** The raw bigram counts of [build_model], keyed by id. *)
Definition raw_bigrams (word_to_id : dict string nat) (tokens : list string)
  : result (dict nat (dict nat nat)) :=
  foldM
    (fun raw '(curr_w, next_w) =>
       curr_id <- getitem curr_w word_to_id ;;
       next_id <- getitem next_w word_to_id ;;
       Ok (incr2 curr_id next_id raw))
    (pairs tokens) [].

(** [build_model] *)
Definition build_model (tokens : list string)
  : result (dict nat string * dict string (dict ascii (list nat))) :=
  let word_counts := counter_update tokens [] in
  let sorted_vocab := sorted_vocab_of word_counts in
  let word_to_id := word_to_id_of sorted_vocab in
  let id_to_word := id_to_word_of sorted_vocab in
  raw <- raw_bigrams word_to_id tokens ;;
  final_transitions <- prune_table TOP_K_PER_LETTER MIN_BIGRAM_FREQ id_to_word raw ;;
  Ok (id_to_word, final_transitions).

End BackupBuilder.

(* ================================================================== *)
(** * scripts/data_builder.py *)

Module Builder.

Definition TOP_K_PER_LETTER : Z := 30.
Definition MIN_BIGRAM_FREQ : nat := 2.
Definition TOP_K_PER_LETTER_TRIGRAM : Z := 20.
Definition MIN_TRIGRAM_FREQ : nat := 2.
Definition CHUNK_SIZE : Z := 50000.

(** The tokens of one line of the file. *)
Definition line_tokens (line : string) : list string :=
  let line := str_lower (chars line) in
  let line := filter (fun c => is_az c || isspace c) line in
  let line := sub_ws_runs false line in
  split (strip line).

(** [preprocess_streamed]: the chunks the generator yields, the file given by
    its lines.  [buffer] is the generator's buffer. *)
Fixpoint preprocess_streamed_from (chunk_size : Z) (buffer : list string)
  (lines : list string) : list (list string) :=
  match lines with
  | [] => match buffer with [] => [] | _ => [buffer] end
  | line :: rest =>
      let buffer := buffer ++ line_tokens line in
      if (chunk_size <=? Z.of_nat (List.length buffer))%Z
      then buffer :: preprocess_streamed_from chunk_size [] rest
      else preprocess_streamed_from chunk_size buffer rest
  end.

Definition preprocess_streamed (lines : list string) (chunk_size : Z)
  : list (list string) :=
  preprocess_streamed_from chunk_size [] lines.

(** The truth value of [prev_token]: neither [None] nor the empty string. *)
Definition truthy (token : option string) : bool :=
  match token with
  | Some (String _ _) => true
  | _ => false
  end.

Section Builders.

(** The set [english_words], by its membership test. *)
Variable english_words : string -> bool.

(** ** [build_model_incremental] *)

Record BigramState : Type := {
  word_counts : dict string nat;
  raw_bigrams : dict string (dict string nat);
  prev_token : option string
}.

Definition bigram_init : BigramState :=
  {| word_counts := []; raw_bigrams := []; prev_token := None |}.

(** The bigram counts after one more chunk, whose valid tokens are
    [valid_chunk]. *)
Definition bigram_chunk_counts (st : BigramState) (valid_chunk : list string)
  : dict string (dict string nat) :=
  (* bigrams within the chunk *)
  let raw :=
    fold_left (fun raw cn => incr2 (fst cn) (snd cn) raw)
      (pairs valid_chunk) (raw_bigrams st) in
  (* the cross-chunk bigram *)
  match prev_token st, valid_chunk with
  | Some prev, first :: _ =>
      if truthy (prev_token st) then incr2 prev first raw else raw
  | _, _ => raw
  end.

(** The body of the loop over the chunks. *)
Definition bigram_chunk (st : BigramState) (chunk : list string) : BigramState :=
  let valid_chunk := filter english_words chunk in
  let word_counts := counter_update valid_chunk (word_counts st) in
  let raw := bigram_chunk_counts st valid_chunk in
  (* the last token, for the next chunk *)
  let prev :=
    match rev valid_chunk with
    | [] => prev_token st
    | last1 :: _ => Some last1
    end in
  {| word_counts := word_counts; raw_bigrams := raw; prev_token := prev |}.

Definition aggregate_bigrams (chunks : list (list string)) : BigramState :=
  fold_left bigram_chunk chunks bigram_init.

(** The conversion of the word-keyed bigrams to ids. *)
Definition id_bigrams_of (word_to_id : dict string nat)
  (raw : dict string (dict string nat)) : result (dict nat (dict nat nat)) :=
  foldM
    (fun id_bigrams '(curr_w, next_counts) =>
       curr_id <- getitem curr_w word_to_id ;;
       foldM
         (fun id_bigrams '(next_w, count) =>
            next_id <- getitem next_w word_to_id ;;
            Ok (set2 curr_id next_id count id_bigrams))
         next_counts id_bigrams)
    raw [].

(** What follows the loop over the chunks. *)
Definition bigram_finish (st : BigramState)
  : result (dict nat string * dict string (dict ascii (list nat))) :=
  let sorted_vocab := sorted_vocab_of (word_counts st) in
  let word_to_id := word_to_id_of sorted_vocab in
  let id_to_word := id_to_word_of sorted_vocab in
  id_bigrams <- id_bigrams_of word_to_id (raw_bigrams st) ;;
  final_transitions <-
    prune_table TOP_K_PER_LETTER MIN_BIGRAM_FREQ id_to_word id_bigrams ;;
  Ok (id_to_word, final_transitions).

Definition build_model_from_chunks (chunks : list (list string))
  : result (dict nat string * dict string (dict ascii (list nat))) :=
  bigram_finish (aggregate_bigrams chunks).

Definition build_model_incremental (lines : list string)
  : result (dict nat string * dict string (dict ascii (list nat))) :=
  build_model_from_chunks (preprocess_streamed lines CHUNK_SIZE).

(** ** [build_trigram_model_incremental] *)

Record TrigramState : Type := {
  raw_trigrams : dict string (dict string (dict string nat));
  prev_prev_token : option string;
  prev_token3 : option string
}.

Definition trigram_init : TrigramState :=
  {| raw_trigrams := []; prev_prev_token := None; prev_token3 := None |}.

(** The trigram counts after one more chunk, whose valid tokens are
    [valid_chunk]. *)
Definition trigram_chunk_counts (st : TrigramState) (valid_chunk : list string)
  : dict string (dict string (dict string nat)) :=
  (* trigrams within the chunk *)
  let raw :=
    fold_left (fun raw w => incr3 (fst (fst w)) (snd (fst w)) (snd w) raw)
      (triples valid_chunk) (raw_trigrams st) in
  (* case 1: the last two of the previous chunks, the first of this one *)
  let raw :=
    match prev_prev_token st, prev_token3 st, valid_chunk with
    | Some pp, Some p, first :: _ =>
        if truthy (prev_prev_token st) && truthy (prev_token3 st)
        then incr3 pp p first raw else raw
    | _, _, _ => raw
    end in
  (* case 2: the last of the previous chunks, the first two of this one *)
  match prev_token3 st, valid_chunk with
  | Some p, first :: second :: _ =>
      if truthy (prev_token3 st) then incr3 p first second raw else raw
  | _, _ => raw
  end.

(** The body of the loop over the chunks. *)
Definition trigram_chunk (st : TrigramState) (chunk : list string) : TrigramState :=
  let valid_chunk := filter english_words chunk in
  let raw := trigram_chunk_counts st valid_chunk in
  (* the last two tokens, for the next chunk *)
  match rev valid_chunk with
  | last1 :: last2 :: _ =>
      {| raw_trigrams := raw; prev_prev_token := Some last2;
         prev_token3 := Some last1 |}
  | [only] =>
      {| raw_trigrams := raw; prev_prev_token := prev_token3 st;
         prev_token3 := Some only |}
  | [] =>
      {| raw_trigrams := raw; prev_prev_token := prev_prev_token st;
         prev_token3 := prev_token3 st |}
  end.

Definition aggregate_trigrams (chunks : list (list string)) : TrigramState :=
  fold_left trigram_chunk chunks trigram_init.

(** [d[k1][k2][k3] = v] on the nested [defaultdict]. *)
Definition set3 (k1 k2 k3 : nat) (v : nat)
  (d : dict nat (dict nat (dict nat nat))) : dict nat (dict nat (dict nat nat)) :=
  upd k1 (fun o => set2 k2 k3 v (or_default [] o)) d.

(** The conversion of the word-keyed trigrams to ids; a word that is not in
    [word_to_id] is skipped. *)
Definition id_trigrams_of (word_to_id : dict string nat)
  (raw : dict string (dict string (dict string nat)))
  : dict nat (dict nat (dict nat nat)) :=
  fold_left
    (fun id_trigrams '(word1, word2_dict) =>
       match get word1 word_to_id with
       | None => id_trigrams (* continue *)
       | Some word1_id =>
           fold_left
             (fun id_trigrams '(word2, word3_counts) =>
                match get word2 word_to_id with
                | None => id_trigrams
                | Some word2_id =>
                    fold_left
                      (fun id_trigrams '(word3, count) =>
                         match get word3 word_to_id with
                         | None => id_trigrams
                         | Some word3_id =>
                             set3 word1_id word2_id word3_id count id_trigrams
                         end)
                      word3_counts id_trigrams
                end)
             word2_dict id_trigrams
       end)
    raw [].

(** The pruning loop of the trigram builder: the bigram loop inside a loop
    over the first word. *)
Definition prune_trigrams (id_to_word : dict nat string)
  (id_trigrams : dict nat (dict nat (dict nat nat)))
  : result (dict string (dict string (dict ascii (list nat)))) :=
  foldM
    (fun final '(word1_id, word2_dict) =>
       word1_transitions <-
         prune_table TOP_K_PER_LETTER_TRIGRAM MIN_TRIGRAM_FREQ id_to_word word2_dict ;;
       match word1_transitions with
       | [] => Ok final
       | _ => Ok (set (str_of_nat word1_id) word1_transitions final)
       end)
    id_trigrams [].

Definition trigram_finish (word_to_id : dict string nat)
  (id_to_word : dict nat string) (st : TrigramState)
  : result (dict string (dict string (dict ascii (list nat)))) :=
  prune_trigrams id_to_word (id_trigrams_of word_to_id (raw_trigrams st)).

Definition build_trigram_model_from_chunks (chunks : list (list string))
  (word_to_id : dict string nat) (id_to_word : dict nat string)
  : result (dict string (dict string (dict ascii (list nat)))) :=
  trigram_finish word_to_id id_to_word (aggregate_trigrams chunks).

Definition build_trigram_model_incremental (lines : list string)
  (word_to_id : dict string nat) (id_to_word : dict nat string)
  : result (dict string (dict string (dict ascii (list nat)))) :=
  build_trigram_model_from_chunks (preprocess_streamed lines CHUNK_SIZE)
    word_to_id id_to_word.

(** ** The main block, up to the two models it saves *)

Record Artifacts : Type := {
  vocab_list : list string;
  transition_graph : dict string (dict ascii (list nat));
  trigram_graph : dict string (dict string (dict ascii (list nat)))
}.

Definition compile_chunks (chunks : list (list string)) : result Artifacts :=
  '(vocab_map, transition_graph) <- build_model_from_chunks chunks ;;
  vocab_list <- mapM (fun i => getitem i vocab_map) (seq 0 (List.length vocab_map)) ;;
  let word_to_id := word_to_id_of vocab_list in
  trigram_graph <- build_trigram_model_from_chunks chunks word_to_id vocab_map ;;
  Ok {| vocab_list := vocab_list; transition_graph := transition_graph;
        trigram_graph := trigram_graph |}.

Definition main (lines : list string) : result Artifacts :=
  compile_chunks (preprocess_streamed lines CHUNK_SIZE).

End Builders.

End Builder.

(* ================================================================== *)
(** * Vocabulary of the statements *)

Module Spec.

(** A word, as [split] returns them: not empty, no whitespace inside. *)
Definition is_word (w : string) : Prop :=
  w <> EmptyString /\ Forall (fun c => isspace c = false) (chars w).

(** A token, as [preprocess] returns them: a word of letters [a-z]. *)
Definition is_token (w : string) : Prop :=
  w <> EmptyString /\ Forall (fun c => is_az c = true) (chars w).

(** A word of letters, of either case. *)
Definition is_letters (w : string) : Prop :=
  w <> EmptyString /\ Forall (fun c => is_az c = true \/ is_AZ c = true) (chars w).

(** [i] is the id of a token that starts with [c]. *)
Definition names_word_with (id_to_word : dict nat string) (c : ascii) (i : nat)
  : Prop :=
  exists w, get i id_to_word = Some w /\ is_token w /\ first_char w = Ok c.

(** What [get_candidates] relies on: the ids filed under a character, in
    [words_by_char] and in [transitions], name words that start with it. *)
Definition wf_model (self : Steg.SteganographyLLM) : Prop :=
  (forall c ids,
      get c (Steg.words_by_char self) = Some ids ->
      Forall (names_word_with (Steg.id_to_word self) c) ids)
  /\
  (forall cur by_char c nexts,
      get cur (Steg.transitions self) = Some by_char ->
      get c by_char = Some nexts ->
      Forall (fun cand => names_word_with (Steg.id_to_word self) c (fst cand)) nexts).

(** The words of the path start with the characters [cs], one each. *)
Definition spells (self : Steg.SteganographyLLM) (cs : list ascii) (p : Steg.Path)
  : Prop :=
  Forall2 (fun i c => names_word_with (Steg.id_to_word self) c i) (Steg.sequence p) cs.

(** The candidate rule in the words of the specification (section 4.5,
    Step), by the ids it yields: the trigram table keyed by the last two word
    ids of the path first; without an entry there, or on a path of fewer than
    two words, the bigram table keyed by the last word id; without an entry
    there, the fallback pool.  The two lower tiers are [get_candidates]; the
    trigram table is the artifact of the trigram builder, keyed by
    [str(id)]. *)
Definition spec_candidate_ids
  (trigram_graph : dict string (dict string (dict ascii (list nat))))
  (self : Steg.SteganographyLLM) (sequence : list nat) (target_char : ascii)
  : list nat :=
  let from_trigrams :=
    match rev sequence with
    | w2 :: w1 :: _ =>
        match get (str_of_nat w1) trigram_graph with
        | Some by_w2 =>
            match get (str_of_nat w2) by_w2 with
            | Some by_char => get_default target_char [] by_char
            | None => []
            end
        | None => []
        end
    | _ => []
    end in
  match from_trigrams, rev sequence with
  | _ :: _, _ => from_trigrams
  | [], last :: _ => map fst (Steg.get_candidates self last target_char)
  | [], [] => []
  end.

(** How often [k] occurs in [l]. *)
Definition occurrences {K : Type} `{Key K} (k : K) (l : list K) : nat :=
  List.length (filter (key_eqb k) l).

(** The count a [Counter] holds for a key, zero for a missing one; and the
    same in the nested tables. *)
Definition count1 {K : Type} `{Key K} (c : dict K nat) (k : K) : nat :=
  or_default 0 (get k c).

Definition count2 {K1 K2 : Type} `{Key K1} `{Key K2}
  (d : dict K1 (dict K2 nat)) (k1 : K1) (k2 : K2) : nat :=
  count1 (or_default [] (get k1 d)) k2.

Definition count3 {K1 K2 K3 : Type} `{Key K1} `{Key K2} `{Key K3}
  (d : dict K1 (dict K2 (dict K3 nat))) (k1 : K1) (k2 : K2) (k3 : K3) : nat :=
  count2 (or_default [] (get k1 d)) k2 k3.

(** The vocabulary holds each token once, and the two dictionaries number its
    words [0 .. len(vocab) - 1] in the order of the list: the ids are dense,
    without gaps or duplicates. *)
Definition dense_vocabulary (vocab tokens : list string)
  (word_to_id : dict string nat) (id_to_word : dict nat string) : Prop :=
  NoDup vocab
  /\ (forall w, In w vocab <-> In w tokens)
  /\ id_to_word = enumerate vocab
  /\ (forall w i, get w word_to_id = Some i <-> nth_error vocab i = Some w).

(** The words of the vocabulary stand in non-increasing order of their
    frequency among the tokens. *)
Definition by_frequency (vocab tokens : list string) : Prop :=
  StronglySorted (fun w1 w2 => occurrences w2 tokens <= occurrences w1 tokens) vocab.

(** The valid tokens of the whole corpus, chunk after chunk. *)
Definition valid_tokens (english_words : string -> bool)
  (chunks : list (list string)) : list string :=
  filter english_words (List.concat chunks).

(** The windows of two and of three tokens that lie across the seam between
    the token lists [l1] and [l2]. *)
Definition seam_pairs {A : Type} (l1 l2 : list A) : list (A * A) :=
  match rev l1, l2 with
  | x :: _, y :: _ => [(x, y)]
  | _, _ => []
  end.

Definition seam_triples {A : Type} (l1 l2 : list A) : list (A * A * A) :=
  match rev l1, l2 with
  | p :: pp :: _, c0 :: _ => [(pp, p, c0)]
  | _, _ => []
  end
  ++
  match rev l1, l2 with
  | p :: _, c0 :: c1 :: _ => [(p, c0, c1)]
  | _, _ => []
  end.

(** The state of the two aggregation loops after the valid tokens [V]: the
    counters hold the number of occurrences of every word and window of [V],
    and the remembered tokens are the last ones of [V]. *)
Definition bigram_inv (V : list string) (st : Builder.BigramState) : Prop :=
  Builder.word_counts st = counter_update V []
  /\ (forall w1 w2,
        count2 (Builder.raw_bigrams st) w1 w2 = occurrences (w1, w2) (pairs V))
  /\ Builder.prev_token st = hd_error (rev V).

Definition trigram_inv (V : list string) (st : Builder.TrigramState) : Prop :=
  (forall w1 w2 w3,
      count3 (Builder.raw_trigrams st) w1 w2 w3
      = occurrences (w1, w2, w3) (triples V))
  /\ Builder.prev_token3 st = hd_error (rev V)
  /\ Builder.prev_prev_token st = hd_error (tl (rev V)).

(** The bucket of a compiled bigram table under a context key and a letter,
    if there is one. *)
Definition lookup_bucket (table : dict string (dict ascii (list nat)))
  (key : string) (letter : ascii) : option (list nat) :=
  match get key table with
  | Some groups => get letter groups
  | None => None
  end.

(** The invariants of one letter bucket [ids], filed under [letter], of a
    compiled table: every id names a word that starts with the letter; at
    most [top_k] ids; every id has a raw count of at least [min_freq]; the
    ids stand in descending order of raw count.  [count] is the raw count of
    an id under the context of the bucket. *)
Definition bucket_ok (top_k : Z) (min_freq : nat) (id_to_word : dict nat string)
  (count : nat -> nat) (letter : ascii) (ids : list nat) : Prop :=
  Forall (fun id => exists w, get id id_to_word = Some w /\ first_char w = Ok letter) ids
  /\ (Z.of_nat (List.length ids) <= top_k)%Z
  /\ Forall (fun id => min_freq <= count id) ids
  /\ StronglySorted (fun id1 id2 => count id2 <= count id1) ids.

(** Every bucket of the compiled table [table] is filed under the [str] of a
    context id of the raw table [id_counts], and satisfies the invariants
    with the raw counts of that context. *)
Definition table_ok (top_k : Z) (min_freq : nat) (id_to_word : dict nat string)
  (id_counts : dict nat (dict nat nat)) (table : dict string (dict ascii (list nat)))
  : Prop :=
  forall key groups letter ids,
    In (key, groups) table -> In (letter, ids) groups ->
    exists ctx,
      key = str_of_nat ctx /\ In ctx (keys id_counts)
      /\ bucket_ok top_k min_freq id_to_word (count2 id_counts ctx) letter ids.

(** The keys of a nested table are distinct, at both levels. *)
Definition distinct_keys2 {K1 K2 V : Type} (d : dict K1 (dict K2 V)) : Prop :=
  NoDup (keys d) /\ Forall (fun kv => NoDup (keys (snd kv))) d.

(** The keys of a nested table satisfy [Q1] at the outer and [Q2] at the
    inner level. *)
Definition keys2_in {K1 K2 V : Type} (Q1 : K1 -> Prop) (Q2 : K2 -> Prop)
  (d : dict K1 (dict K2 V)) : Prop :=
  forall k v, In (k, v) d -> Q1 k /\ forall k', In k' (keys v) -> Q2 k'.

(** [id] is the id of some word in [word_to_id]. *)
Definition id_of_word (word_to_id : dict string nat) (id : nat) : Prop :=
  exists w, get w word_to_id = Some id.

(** The id-keyed raw counts that the pruning loops of
    [build_model_incremental] and [build_trigram_model_incremental] read. *)
Definition id_bigrams (english_words : string -> bool) (chunks : list (list string))
  : result (dict nat (dict nat nat)) :=
  let st := Builder.aggregate_bigrams english_words chunks in
  Builder.id_bigrams_of
    (word_to_id_of (sorted_vocab_of (Builder.word_counts st)))
    (Builder.raw_bigrams st).

Definition id_trigrams (english_words : string -> bool) (chunks : list (list string))
  (word_to_id : dict string nat) : dict nat (dict nat (dict nat nat)) :=
  Builder.id_trigrams_of word_to_id
    (Builder.raw_trigrams (Builder.aggregate_trigrams english_words chunks)).

(** The same for a compiled trigram table: under the [str] of a first word id
    of the raw table stands a table that satisfies [table_ok] with the raw
    counts under that first word. *)
Definition trigram_table_ok (top_k : Z) (min_freq : nat) (id_to_word : dict nat string)
  (id_counts : dict nat (dict nat (dict nat nat)))
  (table : dict string (dict string (dict ascii (list nat)))) : Prop :=
  forall key1 by_word2,
    In (key1, by_word2) table ->
    exists word1,
      key1 = str_of_nat word1 /\ In word1 (keys id_counts)
      /\ table_ok top_k min_freq id_to_word (or_default [] (get word1 id_counts))
           by_word2.

(** The keys of a table nested three deep are distinct and satisfy [Q]. *)
Definition keys3_ok {V : Type} (Q : nat -> Prop)
  (d : dict nat (dict nat (dict nat V))) : Prop :=
  NoDup (keys d)
  /\ forall k v, In (k, v) d -> Q k /\ distinct_keys2 v /\ keys2_in Q Q v.

(** The new beam of the first round of the search, before it is pruned: the
    paths of two words that extend the initial paths of the word ids
    [ids]. *)
Definition first_round (m : Steg.SteganographyLLM) (c1 : ascii) (ids : list nat) : list Steg.Path :=
  flat_map
    (fun w_id =>
       map (fun cand => {| Steg.sequence := [w_id; fst cand];
                           Steg.score := (0 + snd cand)%float |})
         (Steg.get_candidates m w_id c1))
    ids.

(** Highest key first. *)
Definition desc {A : Type} (key : A -> nat) (a b : A) : Prop := key b <= key a.

End Spec.

Import Spec.

(** Case analysis over the 256 characters. *)
Ltac by_cases_on_char c :=
  destruct c as [[] [] [] [] [] [] [] []]; vm_compute; intuition congruence.

(* ================================================================== *)
(** * Concrete inputs *)

(** The model of the corpus ["i am good"], in which every bigram has
    probability one, so that [math.log] is only asked for [log 1.0 = 0.0]. *)
Definition demo_model : Steg.SteganographyLLM :=
  Eval vm_compute in
    match Steg.train (fun _ => 0%float) Steg.init "i am good" with
    | Ok m => m
    | Raise _ => Steg.init
    end.


(** A corpus in which "eat" is followed by "rice" after "we" and by "rye"
    after "they", twice each. *)
Definition c4_corpus : string :=
  "we eat rice we eat rice they eat rye they eat rye".

(** Its model: ids eat 0, rice 1, rye 2, they 3, we 4.  Only the ids matter
    below, whatever [math.log] returns. *)
Definition c4_model : Steg.SteganographyLLM :=
  Eval vm_compute in
    match Steg.train (fun _ => 0%float) Steg.init c4_corpus with
    | Ok m => m
    | Raise _ => Steg.init
    end.

(** The trigram table the trigram builder makes of the same tokens and ids. *)
Definition c4_trigrams : dict string (dict string (dict ascii (list nat))) :=
  Eval vm_compute in
    match Builder.build_trigram_model_from_chunks (fun _ => true)
            [Steg.preprocess c4_corpus]
            (Steg.word_to_id c4_model) (Steg.id_to_word c4_model) with
    | Ok t => t
    | Raise _ => []
    end.

(** A corpus whose most frequent word is not its first in dictionary order. *)
Definition c6_corpus : string := "the cat saw the dog".

Definition c6_model : Steg.SteganographyLLM :=
  Eval vm_compute in
    match Steg.train (fun _ => 0%float) Steg.init c6_corpus with
    | Ok m => m
    | Raise _ => Steg.init
    end.

(** One token stream, "a big a bad a bad a big", as one chunk and as two.
    Both "big" and "bad" follow "a" twice. *)
Definition c7_one_chunk : list (list string) :=
  [["a"; "big"; "a"; "bad"; "a"; "bad"; "a"; "big"]]%string.

Definition c7_two_chunks : list (list string) :=
  [["a"]; ["big"; "a"; "bad"; "a"; "bad"; "a"; "big"]]%string.

(** The bigram tables [build_model_incremental] makes of them. *)
Definition c7_table_one : dict string (dict ascii (list nat)) :=
  Eval vm_compute in
    match Builder.build_model_from_chunks (fun _ => true) c7_one_chunk with
    | Ok (_, table) => table
    | Raise _ => []
    end.

Definition c7_table_two : dict string (dict ascii (list nat)) :=
  Eval vm_compute in
    match Builder.build_model_from_chunks (fun _ => true) c7_two_chunks with
    | Ok (_, table) => table
    | Raise _ => []
    end.

(** The artifacts the main block makes of the chunks [c7_two_chunks]. *)
Definition c7_artifacts : Builder.Artifacts :=
  Eval vm_compute in
    match Builder.compile_chunks (fun _ => true) c7_two_chunks with
    | Ok art => art
    | Raise _ =>
        {| Builder.vocab_list := []; Builder.transition_graph := [];
           Builder.trigram_graph := [] |}
    end.

(** A corpus of eight words, each followed by one word only, so that every
    bigram has probability one.  In dictionary order: a, all, be, by, can,
    car, cat, do (ids 0 to 7). *)
Definition c8_corpus : string := "all by a can car be cat do".

(** Its model: every transition has the score [math.log(1.0) = 0.0]. *)
Definition c8_model : Steg.SteganographyLLM :=
  Eval vm_compute in
    match Steg.train (fun _ => 0%float) Steg.init c8_corpus with
    | Ok m => m
    | Raise _ => Steg.init
    end.

(* ================================================================== *)
(** * Further vocabulary of the statements *)

Module Views.

(** ** Letters the corpus covers *)

(** [w] starts with the character [c]. *)
Definition starts_with (c : ascii) (w : string) : bool :=
  match w with
  | String c' _ => Ascii.eqb c' c
  | EmptyString => false
  end.

(** Some token starts with [c]. *)
Definition covered (tokens : list string) (c : ascii) : bool :=
  existsb (starts_with c) tokens.

(** The longest prefix of [cs] whose characters all start a token. *)
Fixpoint covered_prefix (tokens : list string) (cs : list ascii) : list ascii :=
  match cs with
  | [] => []
  | c :: cs' => if covered tokens c then c :: covered_prefix tokens cs' else []
  end.

(** ** The tables of [train] *)

(** [transitions[a][c].get(b)], where a missing [a] or [c] reads as empty. *)
Definition lookup3 (tr : dict nat (dict ascii (dict nat float))) (a : nat) (c : ascii)
  (b : nat) : option float :=
  get b (or_default [] (get c (or_default [] (get a tr)))).

(** The sum of the counts filed under [k]: [sum(d[k].values())]. *)
Definition row_total {K1 K2 : Type} `{Key K1} (d : dict K1 (dict K2 nat)) (k : K1) : nat :=
  list_sum (values (or_default [] (get k d))).

(** The id [word_to_id] holds for a word, 0 for a word it does not hold. *)
Definition id_of (word_to_id : dict string nat) (w : string) : nat :=
  or_default 0 (get w word_to_id).

(** Every count in the table is at least 1. *)
Definition positive_counts {K1 K2 : Type} (d : dict K1 (dict K2 nat)) : Prop :=
  forall a row b n, In (a, row) d -> In (b, n) row -> 1 <= n.

(** ** Files *)

(** The line ends with a whitespace character, as every line of a file but
    its last ends with the newline. *)
Definition ends_with_space (line : string) : bool :=
  match rev (chars line) with
  | c :: _ => isspace c
  | [] => false
  end.

(** [f.read()] of a file given by its lines. *)
Definition file_text (lines : list string) : string :=
  str (List.concat (map chars lines)).

(** ** The compiled tables *)

(** A compiled bigram table holds, for a context word and a letter, the
    successors of the word that start with the letter and follow it at least
    [min_freq] times in [tokens], the [top_k] most frequent of them when there
    are more: what is in a bucket is such a successor, and such a successor
    is in the bucket unless the bucket is full of successors that are at
    least as frequent.  Words are named by their index in [vocab]. *)
Definition top_successors (top_k min_freq : nat) (vocab tokens : list string)
  (table : dict string (dict ascii (list nat))) : Prop :=
  let freq := fun wa wb : string => occurrences (wa, wb) (pairs tokens) in
  (forall ctx letter ids id,
      lookup_bucket table (str_of_nat ctx) letter = Some ids -> In id ids ->
      exists wa wb,
        nth_error vocab ctx = Some wa /\ nth_error vocab id = Some wb
        /\ first_char wb = Ok letter /\ min_freq <= freq wa wb)
  /\ (forall ctx id wa wb letter,
         nth_error vocab ctx = Some wa -> nth_error vocab id = Some wb ->
         first_char wb = Ok letter -> min_freq <= freq wa wb ->
         exists ids,
           lookup_bucket table (str_of_nat ctx) letter = Some ids
           /\ (In id ids
               \/ (List.length ids = top_k
                   /\ Forall (fun id' => exists wb', nth_error vocab id' = Some wb'
                                                     /\ freq wa wb <= freq wa wb') ids))).

(** ** The fallback pool and the decoder *)

(** The ids of the words of [vocab] that start with [c], in ascending
    order. *)
Definition ids_starting_with (c : ascii) (vocab : list string) : list nat :=
  map fst (filter (fun iw => starts_with c (snd iw)) (enumerate vocab)).

(** The lower-cased first characters of the words. *)
Definition initials (words : list string) : list ascii :=
  flat_map (fun w => match w with String c _ => [lower c] | EmptyString => [] end) words.

(** ** The compiled trigram table *)

(** The keys of a table nested three deep are distinct, at every level. *)
Definition distinct_keys3 {K1 K2 K3 V : Type} (d : dict K1 (dict K2 (dict K3 V))) : Prop :=
  NoDup (keys d) /\ Forall (fun kv => distinct_keys2 (snd kv)) d.

(** The bucket of a compiled trigram table under two context keys and a
    letter, if there is one. *)
Definition lookup_bucket3 (table : dict string (dict string (dict ascii (list nat))))
  (key1 key2 : string) (letter : ascii) : option (list nat) :=
  match get key1 table with
  | Some by_word2 => lookup_bucket by_word2 key2 letter
  | None => None
  end.

(** [top_successors] for a trigram table: the context is a pair of words. *)
Definition top_successors3 (top_k min_freq : nat) (vocab tokens : list string)
  (table : dict string (dict string (dict ascii (list nat)))) : Prop :=
  let freq := fun w1 w2 w3 : string => occurrences (w1, w2, w3) (triples tokens) in
  (forall i1 i2 letter ids id,
      lookup_bucket3 table (str_of_nat i1) (str_of_nat i2) letter = Some ids ->
      In id ids ->
      exists w1 w2 w3,
        nth_error vocab i1 = Some w1 /\ nth_error vocab i2 = Some w2
        /\ nth_error vocab id = Some w3
        /\ first_char w3 = Ok letter /\ min_freq <= freq w1 w2 w3)
  /\ (forall i1 i2 id w1 w2 w3 letter,
         nth_error vocab i1 = Some w1 -> nth_error vocab i2 = Some w2 ->
         nth_error vocab id = Some w3 ->
         first_char w3 = Ok letter -> min_freq <= freq w1 w2 w3 ->
         exists ids,
           lookup_bucket3 table (str_of_nat i1) (str_of_nat i2) letter = Some ids
           /\ (In id ids
               \/ (List.length ids = top_k
                   /\ Forall (fun id' => exists w3', nth_error vocab id' = Some w3'
                                                     /\ freq w1 w2 w3 <= freq w1 w2 w3')
                        ids))).

(** ** The score of a path *)

(** The score [get_candidates] gives the word [next] after the word [prev]
    for the character [c]; 0 when [next] is no candidate. *)
Definition step_score (m : Steg.SteganographyLLM) (prev : nat) (c : ascii) (next : nat)
  : float :=
  match get next (Steg.get_candidates m prev c) with
  | Some s => s
  | None => 0%float
  end.

(** The sum, from the left, of the step scores of the words [ids] after the
    word [prev], one step for each character, added to [acc]. *)
Fixpoint rescore_from (m : Steg.SteganographyLLM) (acc : float) (prev : nat)
  (ids : list nat) (cs : list ascii) : float :=
  match ids, cs with
  | next :: ids', c :: cs' =>
      rescore_from m (acc + step_score m prev c next)%float next ids' cs'
  | _, _ => acc
  end.

(** The score of a sequence of words for the target characters: 0.0 for the
    first word, then the step scores. *)
Definition rescore (m : Steg.SteganographyLLM) (ids : list nat) (cs : list ascii) : float :=
  match ids, cs with
  | first :: ids', _ :: cs' => rescore_from m 0%float first ids' cs'
  | _, _ => 0%float
  end.

End Views.

Import Views.

(** ** A file of three lines *)

Definition newline : string := String (ascii_of_nat 10) EmptyString.

Definition three_lines : list string :=
  [ ("I am" ++ newline)%string; ("good. I" ++ newline)%string; "am"%string ].

(* ================================================================== *)
(** * The sample sections of the two main blocks *)

Module Script.

(** The main block can also raise [ValueError], from [list.index]. *)
Inductive script_exn : Type :=
| ValueError
| Builtin (e : exn).

Inductive run (A : Type) : Type :=
| Returns (a : A)
| Throws (e : script_exn).

Arguments Returns {A} a.
Arguments Throws {A} e.

(** [l.index(x)]: the first position of [x]; [None] stands for the
    [ValueError] of a missing [x]. *)
Fixpoint index (x : string) (l : list string) : option nat :=
  match l with
  | [] => None
  | y :: l' => if String.eqb x y then Some 0 else option_map S (index x l')
  end.

(** [l[i]] for an index that is not negative. *)
Definition item (i : nat) (l : list string) : result string :=
  match nth_error l i with
  | Some w => Ok w
  | None => Raise IndexError
  end.

(** [l[z]] for any integer: a negative index counts from the end. *)
Definition item_int (z : Z) (l : list string) : result string :=
  if (0 <=? z)%Z then item (Z.to_nat z) l
  else if (0 <=? Z.of_nat (List.length l) + z)%Z
       then item (Z.to_nat (Z.of_nat (List.length l) + z)) l
       else Raise IndexError.

(** The bigram sample of both main blocks: the id of "in", the groups that
    follow it, if any, and the words that follow it and start with 't', if
    any. *)
Record BigramSample : Type := {
  in_index : nat;
  following : option (dict ascii (list nat));
  following_t : option (list string)
}.

Definition bigram_sample (vocab_list : list string)
  (transition_graph : dict string (dict ascii (list nat))) : run BigramSample :=
  match index "in" vocab_list with
  | None => Throws ValueError
  | Some i =>
      let in_id := str_of_nat i in
      match get in_id transition_graph with
      | Some groups =>
          match get "t"%char groups with
          | Some following_ids =>
              match mapM (fun id => item id vocab_list) following_ids with
              | Ok words =>
                  Returns {| in_index := i; following := Some groups;
                             following_t := Some words |}
              | Raise e => Throws (Builtin e)
              end
          | None =>
              Returns {| in_index := i; following := Some groups; following_t := None |}
          end
      | None => Returns {| in_index := i; following := None; following_t := None |}
      end
  end.

(** The trigram sample of [scripts/data_builder.py]: the first five second
    words after "in", and the first of them with its groups. *)
Record TrigramSample : Type := {
  contexts : list string;
  second_word : option (string * dict ascii (list nat))
}.

Section Int.

(** [int] of a string is Python's built-in; [None] stands for its
    [ValueError].  The sample calls it on keys of the trigram table. *)
Variable py_int : string -> option Z.

Definition trigram_sample (vocab_list : list string)
  (trigram_graph : dict string (dict string (dict ascii (list nat)))) (in_id : string)
  : run (option TrigramSample) :=
  match get in_id trigram_graph with
  | Some by_word2 =>
      let shown := slice_to 5 (keys by_word2) in
      match by_word2 with
      | [] => Returns (Some {| contexts := shown; second_word := None |})
      | _ :: _ =>
          match first_item (keys by_word2) with
          | Raise e => Throws (Builtin e)
          | Ok second_word_id =>
              match py_int second_word_id with
              | None => Throws ValueError
              | Some z =>
                  match item_int z vocab_list with
                  | Raise e => Throws (Builtin e)
                  | Ok word =>
                      match getitem second_word_id by_word2 with
                      | Raise e => Throws (Builtin e)
                      | Ok groups =>
                          Returns (Some {| contexts := shown;
                                           second_word := Some (word, groups) |})
                      end
                  end
              end
          end
      end
  | None => Returns None
  end.

(** The main block of [scripts/data_builder.py] for a file given by its
    lines: the artifacts it saves and the samples it prints. *)
Definition main (english_words : string -> bool) (lines : list string)
  : run (Builder.Artifacts * BigramSample * option TrigramSample) :=
  match Builder.main english_words lines with
  | Raise e => Throws (Builtin e)
  | Ok art =>
      match bigram_sample (Builder.vocab_list art) (Builder.transition_graph art) with
      | Throws e => Throws e
      | Returns b =>
          match trigram_sample (Builder.vocab_list art) (Builder.trigram_graph art)
                  (str_of_nat (in_index b)) with
          | Throws e => Throws e
          | Returns t => Returns (art, b, t)
          end
      end
  end.

End Int.

(** The main block of [backup/data_builder.py] for the text [data] that
    [load_data] returns: the vocabulary list and the table it saves, and the
    sample it prints. *)
Definition backup_main (data : string)
  : run (list string * dict string (dict ascii (list nat)) * BigramSample) :=
  let clean_tokens := BackupBuilder.preprocess data in
  match BackupBuilder.build_model clean_tokens with
  | Raise e => Throws (Builtin e)
  | Ok (vocab_map, transition_graph) =>
      match mapM (fun i => getitem i vocab_map) (seq 0 (List.length vocab_map)) with
      | Raise e => Throws (Builtin e)
      | Ok vocab_list =>
          match bigram_sample vocab_list transition_graph with
          | Returns s => Returns (vocab_list, transition_graph, s)
          | Throws e => Throws e
          end
      end
  end.

(** An [int] that reads the decimal numerals [str] writes. *)
Definition int_of_numeral (s : string) : option Z :=
  option_map (fun d => Z.of_nat (Nat.of_uint d)) (NilEmpty.uint_of_string s).

End Script.

(* ================================================================== *)
(** * The rounds of the search, and tables that differ by ties *)

Module Rounds.

(** ** The rounds of the loop of [encode] *)

(** [new_path] of [encode]: the path with the word of one candidate more. *)
Definition new_path (path : Steg.Path) (cand : nat * float) : Steg.Path :=
  {| Steg.sequence := Steg.sequence path ++ [fst cand];
     Steg.score := (Steg.score path + snd cand)%float |}.

(** [beam] after step 1 of [encode]. *)
Definition start_beam (self : Steg.SteganographyLLM) (first_char : ascii)
  (beam_width : Z) : list Steg.Path :=
  let start_candidates := get_default first_char [] (Steg.words_by_char self) in
  let beam := map (fun w_id => {| Steg.sequence := [w_id]; Steg.score := 0%float |})
                start_candidates in
  Steg.prune beam_width beam.

(** One round of the loop of step 2: the [beam] it starts from, its
    [target_char], and the [new_beam] it builds. *)
Definition Round : Type := (list Steg.Path * ascii * list Steg.Path)%type.

(** The loop of step 2 of [encode], as [Steg.search], with the log of its
    rounds: one entry for every target character the loop starts on, the
    last one with an empty [new_beam] when the loop is left by [break]. *)
Fixpoint search_rounds (self : Steg.SteganographyLLM) (beam_width : Z)
  (beam : list Steg.Path) (rest : list ascii) (char_idx : nat)
  : result (list Round * (list Steg.Path * option nat)) :=
  match rest with
  | [] => Ok ([], (beam, None))
  | target_char :: rest' =>
      new_beam <- Steg.expand self target_char beam ;;
      match new_beam with
      | [] => Ok ([(beam, target_char, new_beam)], (beam, Some char_idx))
      | _ =>
          '(rounds, out) <- search_rounds self beam_width
                              (Steg.prune beam_width new_beam) rest' (S char_idx) ;;
          Ok ((beam, target_char, new_beam) :: rounds, out)
      end
  end.

(** The fallback pool of a character: the first ten ids of the vocabulary
    words that start with it, each with the penalty score. *)
Definition fallback_pool (vocab : list string) (c : ascii) : list (nat * float) :=
  map (fun word_id => (word_id, (-20)%float)) (firstn 10 (ids_starting_with c vocab)).

(** ** Counts of successors, by id *)

(** How often the word of id [id] follows the word of id [ctx] in [tokens];
    the ids are indices into [vocab]. *)
Definition follow_count (vocab tokens : list string) (ctx id : nat) : nat :=
  match nth_error vocab ctx, nth_error vocab id with
  | Some wa, Some wb => occurrences (wa, wb) (pairs tokens)
  | _, _ => 0
  end.

(** How often the word of id [id] follows the words of ids [i1] and [i2], in
    that order, in [tokens]. *)
Definition follow_count3 (vocab tokens : list string) (i1 i2 id : nat) : nat :=
  match nth_error vocab i1, nth_error vocab i2, nth_error vocab id with
  | Some w1, Some w2, Some w3 => occurrences (w1, w2, w3) (triples tokens)
  | _, _, _ => 0
  end.

(** ** Tables that differ by ties *)

(** Two buckets that differ at most in candidates of equal count: both are
    missing, or both are there, hold position by position candidates with the
    same count, and a candidate of one is in the other as well unless the
    other is full, with [top_k] candidates that each have at least its
    count. *)
Definition same_up_to_ties (top_k : nat) (count : nat -> nat)
  (bucket1 bucket2 : option (list nat)) : Prop :=
  match bucket1, bucket2 with
  | None, None => True
  | Some ids1, Some ids2 =>
      Forall2 (fun id1 id2 => count id1 = count id2) ids1 ids2
      /\ (forall id, In id ids1 ->
            In id ids2
            \/ (List.length ids2 = top_k
                /\ Forall (fun id' => count id <= count id') ids2))
      /\ (forall id, In id ids2 ->
            In id ids1
            \/ (List.length ids1 = top_k
                /\ Forall (fun id' => count id <= count id') ids1))
  | _, _ => False
  end.

(** Two compiled bigram tables with the same context keys whose buckets
    differ at most in candidates of equal count; [count ctx id] is the count
    of the candidate [id] under the context [ctx]. *)
Definition tables_agree (top_k : nat) (count : nat -> nat -> nat)
  (table1 table2 : dict string (dict ascii (list nat))) : Prop :=
  (forall key, get key table1 = None <-> get key table2 = None)
  /\ forall ctx letter,
      same_up_to_ties top_k (count ctx)
        (lookup_bucket table1 (str_of_nat ctx) letter)
        (lookup_bucket table2 (str_of_nat ctx) letter).

(** The same for two compiled trigram tables: the same first context keys,
    and under each of them bigram tables that agree. *)
Definition tables_agree3 (top_k : nat) (count : nat -> nat -> nat -> nat)
  (table1 table2 : dict string (dict string (dict ascii (list nat)))) : Prop :=
  (forall key1, get key1 table1 = None <-> get key1 table2 = None)
  /\ forall word1,
      tables_agree top_k (count word1)
        (or_default [] (get (str_of_nat word1) table1))
        (or_default [] (get (str_of_nat word1) table2)).

End Rounds.

Import Rounds.

(* ================================================================== *)
(** * A full bucket *)

(** Thirty-one words that start with 'b'. *)
Definition c7_cut_words : list string :=
  [ "ba"; "bb"; "bc"; "bd"; "be"; "bf"; "bg"; "bh"; "bi"; "bj"; "bk"; "bl"; "bm";
    "bn"; "bo"; "bp"; "bq"; "br"; "bs"; "bt"; "bu"; "bv"; "bw"; "bx"; "by"; "bz";
    "baa"; "bab"; "bac"; "bad"; "bae" ]%string.

(** The token stream "x ba x bb ... x bae x ba x bb ... x bae", in which each
    of the words follows "x" twice; as one chunk, and as the two chunks "x"
    and the rest. *)
Definition c7_cut_stream : list string :=
  flat_map (fun w => [ "x"%string; w ]) (c7_cut_words ++ c7_cut_words).

Definition c7_cut_one_chunk : list (list string) := [ c7_cut_stream ].

Definition c7_cut_two_chunks : list (list string) :=
  [ [ "x"%string ]; tl c7_cut_stream ].

(** The bigram tables [build_model_incremental] makes of them. *)
Definition c7_cut_table_one : dict string (dict ascii (list nat)) :=
  Eval vm_compute in
    match Builder.build_model_from_chunks (fun _ => true) c7_cut_one_chunk with
    | Ok (_, table) => table
    | Raise _ => []
    end.

Definition c7_cut_table_two : dict string (dict ascii (list nat)) :=
  Eval vm_compute in
    match Builder.build_model_from_chunks (fun _ => true) c7_cut_two_chunks with
    | Ok (_, table) => table
    | Raise _ => []
    end.
(* ================================================================== *)
(** * Facts about the Python built-ins *)

Module PyFacts.

(** ** The error monad *)

Lemma bind_Ok_inv (A B : Type) (r : result A) (k : A -> result B) (b : B) :
  bind r k = Ok b -> exists a, r = Ok a /\ k a = Ok b.
Proof.
  destruct r as [a | e]; simpl; intros Hk; [ | discriminate ].
  exists a; split; [ reflexivity | exact Hk ].
Qed.

(** Inversion of a hypothesis [x <- e ;; k = Ok b]. *)
Ltac inv_bind H :=
  let a := fresh "a" in
  let Ha := fresh "Hbind" in
  apply bind_Ok_inv in H; destruct H as [a [Ha H]].

(** An invariant of the loop state holds after the loop, if it returns. *)
Lemma foldM_invariant (A S : Type) (P : S -> Prop) (body : S -> A -> result S) :
  forall (l : list A) (s r : S),
    P s ->
    (forall s0 x s1, In x l -> P s0 -> body s0 x = Ok s1 -> P s1) ->
    foldM body l s = Ok r ->
    P r.
Proof.
  induction l as [ | x l IH ]; simpl; intros s r Hs Hstep Hrun.
  - injection Hrun as <-. exact Hs.
  - inv_bind Hrun.
    apply (IH a r).
    + eapply Hstep; [ left; reflexivity | exact Hs | exact Hbind ].
    + intros s0 y s1 Hy. apply Hstep. right; exact Hy.
    + exact Hrun.
Qed.

(** A loop whose body never raises on states satisfying the invariant
    returns. *)
Lemma foldM_total (A S : Type) (P : S -> Prop) (body : S -> A -> result S) :
  forall (l : list A) (s : S),
    P s ->
    (forall s0 x, In x l -> P s0 -> exists s1, body s0 x = Ok s1 /\ P s1) ->
    exists r, foldM body l s = Ok r /\ P r.
Proof.
  induction l as [ | x l IH ]; simpl; intros s Hs Hstep.
  - exists s; auto.
  - destruct (Hstep s x (or_introl eq_refl) Hs) as [s1 [E1 P1]].
    rewrite E1; simpl.
    apply IH; auto.
Qed.

(** A pure loop, written with [foldM]. *)
Lemma foldM_pure (A S : Type) (f : S -> A -> S) :
  forall (l : list A) (s : S),
    foldM (fun s x => Ok (f s x)) l s = Ok (fold_left f l s).
Proof.
  induction l as [ | x l IH ]; simpl; intros s; [ reflexivity | apply IH ].
Qed.

Lemma mapM_Ok_Forall2 (A B : Type) (f : A -> result B) :
  forall (l : list A) (ys : list B),
    mapM f l = Ok ys -> Forall2 (fun x y => f x = Ok y) l ys.
Proof.
  induction l as [ | x l IH ]; simpl; intros ys Hrun.
  - injection Hrun as <-. constructor.
  - inv_bind Hrun. inv_bind Hrun. injection Hrun as <-.
    constructor; auto.
Qed.

Lemma Forall2_mapM_Ok (A B : Type) (f : A -> result B) :
  forall (l : list A) (ys : list B),
    Forall2 (fun x y => f x = Ok y) l ys -> mapM f l = Ok ys.
Proof.
  induction 1 as [ | x y l ys Hxy _ IH ]; simpl.
  - reflexivity.
  - rewrite Hxy, IH. reflexivity.
Qed.

(** ** Characters *)

Lemma is_az_not_space (c : ascii) : is_az c = true -> isspace c = false.
Proof. by_cases_on_char c. Qed.

Lemma is_AZ_not_space (c : ascii) : is_AZ c = true -> isspace c = false.
Proof. by_cases_on_char c. Qed.

Lemma lower_az (c : ascii) : is_az c = true -> lower c = c.
Proof. by_cases_on_char c. Qed.

Lemma lower_space (c : ascii) : isspace c = true -> lower c = c.
Proof. by_cases_on_char c. Qed.

Lemma upper_az_AZ (c : ascii) : is_az c = true -> is_AZ (upper c) = true.
Proof. by_cases_on_char c. Qed.

Lemma lower_upper_az (c : ascii) : is_az c = true -> lower (upper c) = c.
Proof. by_cases_on_char c. Qed.

Lemma is_az_alpha (c : ascii) : is_az c = true -> isalpha c = true.
Proof. by_cases_on_char c. Qed.

Lemma lower_alpha_az (c : ascii) :
  is_az (lower c) = true -> isalpha c = true -> is_az c = true \/ is_AZ c = true.
Proof. by_cases_on_char c. Qed.

(** ** Strings *)

Lemma chars_str (l : list ascii) : chars (str l) = l.
Proof. apply list_ascii_of_string_of_list_ascii. Qed.

Lemma str_chars (s : string) : str (chars s) = s.
Proof. apply string_of_list_ascii_of_string. Qed.

Lemma chars_String (c : ascii) (s : string) : chars (String c s) = c :: chars s.
Proof. reflexivity. Qed.

Lemma split_from_run (w : list ascii) :
  Forall (fun c => isspace c = false) w ->
  forall cur rest, split_from cur (w ++ rest) = split_from (rev w ++ cur) rest.
Proof.
  induction 1 as [ | c w Hc _ IH ]; intros cur rest; simpl.
  - reflexivity.
  - rewrite Hc, IH, <- app_assoc. reflexivity.
Qed.

Lemma split_from_word_end (w : string) :
  is_word w -> split_from [] (chars w) = [w].
Proof.
  intros [Hne Hw].
  rewrite <- (app_nil_r (chars w)), (split_from_run _ Hw), app_nil_r. simpl.
  destruct (rev (chars w)) eqn:E.
  - apply (f_equal (@rev ascii)) in E. rewrite rev_involutive in E. simpl in E.
    destruct w; [ congruence | discriminate ].
  - rewrite <- E, rev_involutive, str_chars. reflexivity.
Qed.

Lemma split_from_word_sep (w : string) (sep : ascii) (rest : list ascii) :
  is_word w -> isspace sep = true ->
  split_from [] (chars w ++ sep :: rest) = w :: split_from [] rest.
Proof.
  intros [Hne Hw] Hsep.
  rewrite (split_from_run _ Hw), app_nil_r. simpl. rewrite Hsep.
  destruct (rev (chars w)) eqn:E.
  - apply (f_equal (@rev ascii)) in E. rewrite rev_involutive in E. simpl in E.
    destruct w; [ congruence | discriminate ].
  - rewrite <- E, rev_involutive, str_chars. reflexivity.
Qed.

(** Splitting a sentence of words joined by one space gives the words back. *)
Lemma split_join (words : list string) :
  Forall is_word words -> split (join (chars " ") words) = words.
Proof.
  unfold split.
  induction 1 as [ | w ws Hw Hws IH ]; [ reflexivity | ].
  destruct ws as [ | w' ws ].
  - simpl. apply split_from_word_end; assumption.
  - change (join (chars " ") (w :: w' :: ws))
      with (chars w ++ " "%char :: join (chars " ") (w' :: ws)).
    rewrite split_from_word_sep by (assumption || reflexivity).
    rewrite IH. reflexivity.
Qed.

(** What [split] returns are words, made of characters of the text. *)
Lemma split_from_words (s : list ascii) :
  forall cur,
    Forall (fun c => isspace c = false) cur ->
    Forall (fun w => is_word w /\ incl (chars w) (cur ++ s)) (split_from cur s).
Proof.
  assert (Hw : forall cur : list ascii,
             cur <> [] -> Forall (fun c => isspace c = false) cur ->
             is_word (str (rev cur))).
  { intros cur Hne Hcur. split.
    - intros E. apply (f_equal chars) in E. rewrite chars_str in E.
      apply (f_equal (@rev ascii)) in E. rewrite rev_involutive in E. auto.
    - rewrite chars_str. apply Forall_rev. assumption. }
  induction s as [ | c s IH ]; intros cur Hcur; simpl.
  - destruct cur as [ | c0 cur ]; constructor; [ | constructor ].
    split; [ apply Hw; [ discriminate | assumption ] | ].
    rewrite chars_str, app_nil_r. intros x Hx. apply in_rev. assumption.
  - destruct (isspace c) eqn:Hc.
    + assert (Hrest : Forall (fun w => is_word w /\ incl (chars w) (cur ++ c :: s))
                        (split_from [] s)).
      { eapply Forall_impl; [ | apply (IH []); constructor ].
        simpl. intros w [Hword Hincl]. split; [ assumption | ].
        intros x Hx. apply in_or_app. right. right. auto. }
      destruct cur as [ | c0 cur ]; [ assumption | ].
      constructor; [ | assumption ].
      split; [ apply Hw; [ discriminate | assumption ] | ].
      rewrite chars_str. intros x Hx. apply in_or_app. left. apply in_rev. assumption.
    + eapply Forall_impl; [ | apply (IH (c :: cur)); constructor; assumption ].
      simpl. intros w [Hword Hincl]. split; [ assumption | ].
      intros x Hx. specialize (Hincl x Hx). simpl in Hincl.
      rewrite in_app_iff in *. simpl. tauto.
Qed.

Lemma split_words (s : list ascii) :
  Forall (fun w => is_word w /\ incl (chars w) s) (split s).
Proof. apply (split_from_words s []). constructor. Qed.

End PyFacts.

(* ================================================================== *)
(** * Facts about sorting, slices and dictionaries *)

Module CollFacts.

Import PyFacts.

Lemma In_firstn (A : Type) (n : nat) (l : list A) (x : A) :
  In x (firstn n l) -> In x l.
Proof.
  revert l. induction n as [ | n IH ]; intros [ | y l ]; simpl; try tauto.
  intros [ E | Hi ]; [ left; exact E | right; apply IH, Hi ].
Qed.

(** ** The stable sort *)

Section Sorting.
Context {A : Type} (before : A -> A -> bool).

Lemma insert_by_perm (x : A) (l : list A) :
  Permutation (insert_by before x l) (x :: l).
Proof.
  induction l as [ | q l IH ]; simpl.
  - apply Permutation_refl.
  - destruct (before q x).
    + apply perm_trans with (q :: x :: l); [ apply perm_skip, IH | apply perm_swap ].
    + apply Permutation_refl.
Qed.

Lemma sort_by_perm (l : list A) : Permutation (sort_by before l) l.
Proof.
  induction l as [ | x l IH ]; simpl.
  - apply perm_nil.
  - apply perm_trans with (x :: sort_by before l).
    + apply insert_by_perm.
    + apply perm_skip, IH.
Qed.

Lemma In_sort_by (x : A) (l : list A) : In x (sort_by before l) <-> In x l.
Proof.
  split; apply Permutation_in;
    [ apply sort_by_perm | apply Permutation_sym, sort_by_perm ].
Qed.

Lemma sort_by_length (l : list A) : List.length (sort_by before l) = List.length l.
Proof. apply Permutation_length, sort_by_perm. Qed.

Lemma sort_by_nil_inv (l : list A) : sort_by before l = [] -> l = [].
Proof.
  intros E. apply Permutation_nil.
  rewrite <- E. apply sort_by_perm.
Qed.

End Sorting.

(** Sorting by a key that is a natural number, highest first. *)
Section SortedDesc.
Context {A : Type} (key : A -> nat).

Lemma insert_desc_sorted (x : A) (l : list A) :
  StronglySorted (desc key) l ->
  StronglySorted (desc key) (insert_by (fun q y => key y <? key q) x l).
Proof.
  induction 1 as [ | q l Hl IH Hq ]; simpl.
  - constructor; constructor.
  - destruct (key x <? key q) eqn:E.
    + apply Nat.ltb_lt in E.
      constructor; [ exact IH | ].
      apply Forall_forall. intros y Hy.
      apply (Permutation_in _ (insert_by_perm _ x l)) in Hy.
      destruct Hy as [ <- | Hy ].
      * unfold desc. lia.
      * rewrite Forall_forall in Hq. apply Hq, Hy.
    + apply Nat.ltb_ge in E.
      constructor; [ constructor; assumption | ].
      constructor; [ exact E | ].
      eapply Forall_impl; [ | exact Hq ].
      unfold desc. intros y Hy. lia.
Qed.

Lemma sorted_desc_sorted (l : list A) :
  StronglySorted (desc key) (sorted_desc Nat.ltb key l).
Proof.
  unfold sorted_desc, sort_by.
  induction l as [ | x l IH ]; simpl.
  - constructor.
  - apply insert_desc_sorted, IH.
Qed.

Lemma firstn_sorted (n : nat) (l : list A) :
  StronglySorted (desc key) l -> StronglySorted (desc key) (firstn n l).
Proof.
  intros Hl. revert n.
  induction Hl as [ | q l Hl IH Hq ]; intros [ | n ]; simpl; try constructor.
  - apply IH.
  - rewrite Forall_forall in *. intros y Hy. apply Hq.
    eapply In_firstn. exact Hy.
Qed.

End SortedDesc.

(** ** Slices *)

Lemma slice_to_firstn (A : Type) (n : Z) (l : list A) :
  exists k, slice_to n l = firstn k l.
Proof.
  unfold slice_to. destruct (0 <=? n)%Z; eexists; reflexivity.
Qed.

Lemma In_slice_to (A : Type) (n : Z) (l : list A) (x : A) :
  In x (slice_to n l) -> In x l.
Proof.
  destruct (slice_to_firstn A n l) as [k ->]. apply In_firstn.
Qed.

Lemma slice_to_length (A : Type) (n : Z) (l : list A) :
  (0 <= n)%Z -> List.length (slice_to n l) <= Z.to_nat n.
Proof.
  intros Hn. unfold slice_to.
  destruct (Z.leb_spec 0 n); [ | lia ].
  rewrite length_firstn. lia.
Qed.

Lemma slice_to_nil_inv (A : Type) (n : Z) (l : list A) :
  (1 <= n)%Z -> slice_to n l = [] -> l = [].
Proof.
  intros Hn. unfold slice_to.
  destruct (Z.leb_spec 0 n); [ | lia ].
  destruct l as [ | x l ]; [ reflexivity | ].
  destruct (Z.to_nat n) eqn:E; [ lia | discriminate ].
Qed.

(** ** Dictionaries *)

Section DictFacts.
Context {K V : Type} `{Key K}.

Lemma key_eqb_refl (k : K) : key_eqb k k = true.
Proof. destruct (key_eqb_spec k k); congruence. Qed.

Lemma key_eqb_neq (k k' : K) : k <> k' -> key_eqb k k' = false.
Proof. destruct (key_eqb_spec k k'); congruence. Qed.

Lemma get_In (k : K) (v : V) (d : dict K V) : get k d = Some v -> In (k, v) d.
Proof.
  induction d as [ | [k' v'] d IH ]; simpl; [ discriminate | ].
  destruct (key_eqb_spec k k') as [ <- | Hne ].
  - intros [= <-]. left. reflexivity.
  - intros Hg. right. apply IH, Hg.
Qed.

Lemma get_None (k : K) (d : dict K V) : get k d = None <-> ~ In k (keys d).
Proof.
  induction d as [ | [k' v'] d IH ]; simpl.
  - tauto.
  - destruct (key_eqb_spec k k') as [ <- | Hne ].
    + split; [ discriminate | ]. intros Hn. exfalso. apply Hn. left. reflexivity.
    + rewrite IH. unfold keys. split; intros Hn.
      * intros [ E | Hi ]; [ congruence | exact (Hn Hi) ].
      * intros Hi. apply Hn. right. exact Hi.
Qed.

Lemma get_Some_key (k : K) (v : V) (d : dict K V) :
  get k d = Some v -> In k (keys d).
Proof.
  intros Hg. apply get_In in Hg. apply (in_map fst) in Hg. exact Hg.
Qed.

Lemma In_get (k : K) (v : V) (d : dict K V) :
  NoDup (keys d) -> In (k, v) d -> get k d = Some v.
Proof.
  induction d as [ | [k' v'] d IH ]; simpl; [ tauto | ].
  intros Hnd Hin. inversion Hnd as [ | ? ? Hnotin Hnd' ]; subst.
  destruct Hin as [ [= -> ->] | Hin ].
  - rewrite key_eqb_refl. reflexivity.
  - destruct (key_eqb_spec k k') as [ -> | Hne ].
    + exfalso. apply Hnotin. apply (in_map fst) in Hin. exact Hin.
    + apply IH; assumption.
Qed.

Lemma get_upd_eq (k : K) (f : option V -> V) (d : dict K V) :
  get k (upd k f d) = Some (f (get k d)).
Proof.
  induction d as [ | [k' v'] d IH ]; simpl.
  - rewrite key_eqb_refl. reflexivity.
  - destruct (key_eqb_spec k k') as [ <- | Hne ]; simpl.
    + rewrite key_eqb_refl. reflexivity.
    + rewrite key_eqb_neq by assumption. exact IH.
Qed.

Lemma get_upd_neq (k k' : K) (f : option V -> V) (d : dict K V) :
  k' <> k -> get k' (upd k f d) = get k' d.
Proof.
  intros Hne.
  induction d as [ | [k0 v0] d IH ]; simpl.
  - rewrite key_eqb_neq by assumption. reflexivity.
  - destruct (key_eqb_spec k k0) as [ <- | Hne0 ]; simpl.
    + rewrite key_eqb_neq by assumption. reflexivity.
    + rewrite IH. reflexivity.
Qed.

Lemma upd_notin (k : K) (f : option V -> V) (d : dict K V) :
  ~ In k (keys d) -> upd k f d = d ++ [(k, f None)].
Proof.
  induction d as [ | [k' v'] d IH ]; simpl; intros Hn.
  - reflexivity.
  - rewrite key_eqb_neq by (intros ->; apply Hn; left; reflexivity).
    rewrite IH by (intros Hi; apply Hn; right; exact Hi). reflexivity.
Qed.

Lemma keys_upd_in (k : K) (f : option V -> V) (d : dict K V) :
  In k (keys d) -> keys (upd k f d) = keys d.
Proof.
  induction d as [ | [k' v'] d IH ]; simpl; [ tauto | ].
  intros Hin.
  destruct (key_eqb_spec k k') as [ <- | Hne ]; simpl.
  - reflexivity.
  - f_equal. apply IH. destruct Hin as [ E | Hin ]; [ congruence | exact Hin ].
Qed.

Lemma keys_upd_incl (k k' : K) (f : option V -> V) (d : dict K V) :
  In k' (keys (upd k f d)) <-> k' = k \/ In k' (keys d).
Proof.
  induction d as [ | [k0 v0] d IH ]; simpl.
  - intuition congruence.
  - destruct (key_eqb_spec k k0) as [ <- | Hne ]; simpl.
    + intuition congruence.
    + rewrite IH. tauto.
Qed.

Lemma NoDup_keys_upd (k : K) (f : option V -> V) (d : dict K V) :
  NoDup (keys d) -> NoDup (keys (upd k f d)).
Proof.
  induction d as [ | [k' v'] d IH ]; simpl; intros Hnd.
  - constructor; [ simpl; tauto | constructor ].
  - inversion Hnd as [ | ? ? Hnotin Hnd' ]; subst.
    destruct (key_eqb_spec k k') as [ <- | Hne ]; simpl.
    + constructor; assumption.
    + constructor; [ | apply IH; assumption ].
      rewrite keys_upd_incl. intros [ E | Hi ]; [ congruence | contradiction ].
Qed.

(** An item of the dictionary after [d[k] = f(d[k])]: an old item, or the
    new one. *)
Lemma In_upd_inv (k k' : K) (v' : V) (f : option V -> V) (d : dict K V) :
  In (k', v') (upd k f d) -> In (k', v') d \/ (k' = k /\ v' = f (get k d)).
Proof.
  induction d as [ | [k0 v0] d IH ]; simpl.
  - intros [ [= <- <-] | [] ]. right. split; reflexivity.
  - destruct (key_eqb_spec k k0) as [ <- | Hne ]; simpl.
    + intros [ [= <- <-] | Hin ].
      * right. split; reflexivity.
      * left. right. exact Hin.
    + intros [ E | Hin ].
      * left. left. exact E.
      * destruct (IH Hin) as [ Hold | Hnew ]; [ left; right; exact Hold | right; exact Hnew ].
Qed.

(** A dictionary built from items with distinct keys is the list of the
    items. *)
Lemma dict_of_from (l : list (K * V)) :
  forall acc : dict K V,
    NoDup (keys acc ++ map fst l) ->
    fold_left (fun d kv => set (fst kv) (snd kv) d) l acc = acc ++ l.
Proof.
  induction l as [ | [k v] l IH ]; simpl; intros acc Hnd.
  - rewrite app_nil_r. reflexivity.
  - unfold set at 2. rewrite upd_notin.
    + rewrite IH.
      * rewrite <- app_assoc. reflexivity.
      * unfold keys in *. rewrite map_app, <- app_assoc. simpl. exact Hnd.
    + apply NoDup_remove_2 in Hnd. intros Hi. apply Hnd.
      apply in_or_app. left. exact Hi.
Qed.

Lemma dict_of_NoDup (l : list (K * V)) : NoDup (map fst l) -> dict_of l = l.
Proof. intros Hnd. unfold dict_of. rewrite dict_of_from; auto. Qed.

End DictFacts.

(** ** [enumerate] *)

Lemma enumerate_fst (A : Type) (l : list A) :
  map fst (enumerate l) = seq 0 (List.length l).
Proof.
  unfold enumerate. generalize 0.
  induction l as [ | x l IH ]; simpl; intros s; [ reflexivity | ].
  rewrite IH. reflexivity.
Qed.

Lemma enumerate_snd (A : Type) (l : list A) : map snd (enumerate l) = l.
Proof.
  unfold enumerate. generalize 0.
  induction l as [ | x l IH ]; simpl; intros s; [ reflexivity | ].
  rewrite IH. reflexivity.
Qed.

Lemma In_enumerate (A : Type) (l : list A) (i : nat) (x : A) :
  In (i, x) (enumerate l) <-> nth_error l i = Some x.
Proof.
  unfold enumerate.
  assert (G : forall s, In (i, x) (combine (seq s (List.length l)) l)
                        <-> s <= i /\ nth_error l (i - s) = Some x).
  { induction l as [ | y l IH ]; simpl; intros s.
    - split; [ tauto | ]. intros [_ E]. destruct (i - s); discriminate.
    - rewrite IH. split.
      + intros [ [= <- <-] | [Hle Hn] ].
        * rewrite Nat.sub_diag. simpl. auto.
        * split; [ lia | ]. replace (i - s) with (S (i - S s)) by lia. exact Hn.
      + intros [Hle Hn]. destruct (i - s) as [ | j ] eqn:E.
        * left. simpl in Hn. injection Hn as <-. f_equal. lia.
        * right. split; [ lia | ]. simpl in Hn.
          replace (i - S s) with j by lia. exact Hn. }
  rewrite G, Nat.sub_0_r. intuition lia.
Qed.

Lemma NoDup_enumerate_keys (A : Type) (l : list A) : NoDup (map fst (enumerate l)).
Proof. rewrite enumerate_fst. apply seq_NoDup. Qed.

End CollFacts.

(* ================================================================== *)
(** * backup/steganography.py: the trained model *)

Module StegFacts.

Import PyFacts CollFacts Steg.

(** ** Tokens *)

Lemma is_token_word (w : string) : is_token w -> is_word w.
Proof.
  intros [Hne Haz]. split; [ exact Hne | ].
  eapply Forall_impl; [ | exact Haz ]. apply is_az_not_space.
Qed.

Lemma preprocess_tokens (text : string) : Forall is_token (preprocess text).
Proof.
  unfold preprocess.
  eapply Forall_impl; [ | apply split_words ].
  intros w [[Hne Hns] Hincl]. split; [ exact Hne | ].
  rewrite Forall_forall in *. intros c Hc.
  specialize (Hns c Hc). apply Hincl in Hc.
  apply filter_In in Hc. destruct Hc as [_ Hkeep].
  rewrite Hns, orb_false_r in Hkeep. exact Hkeep.
Qed.

(** [sorted(list(set(tokens)))] holds each token once. *)
Lemma unique_words_spec (tokens : list string) :
  NoDup (sorted_str (set_of tokens))
  /\ forall w, In w (sorted_str (set_of tokens)) <-> In w tokens.
Proof.
  unfold sorted_str, set_of. split.
  - eapply Permutation_NoDup; [ apply Permutation_sym, sort_by_perm | ].
    apply NoDup_nodup.
  - intros w. rewrite In_sort_by. apply nodup_In.
Qed.

(** ** The two dictionaries of the vocabulary *)

Lemma In_dict_of (K V : Type) `{Key K} (l : list (K * V)) (kv : K * V) :
  In kv (dict_of l) -> In kv l.
Proof.
  unfold dict_of.
  assert (G : forall acc, In kv (fold_left (fun d kv => set (fst kv) (snd kv) d) l acc)
                          -> In kv acc \/ In kv l).
  { induction l as [ | [k v] l IH ]; simpl; intros acc Hin; [ left; exact Hin | ].
    destruct (IH _ Hin) as [ Hacc | Hl ]; [ | right; right; exact Hl ].
    destruct kv as [k' v']. unfold set in Hacc.
    destruct (In_upd_inv _ _ _ _ _ Hacc) as [ Hold | [-> ->] ].
    - left. exact Hold.
    - right. left. reflexivity. }
  intros Hin. destruct (G [] Hin) as [ [] | Hl ]. exact Hl.
Qed.

Lemma get_id_to_word (vocab : list string) (i : nat) :
  get i (dict_of (enumerate vocab)) = nth_error vocab i.
Proof.
  rewrite dict_of_NoDup by apply NoDup_enumerate_keys.
  destruct (nth_error vocab i) as [ w | ] eqn:E.
  - apply In_get; [ apply NoDup_enumerate_keys | ]. apply In_enumerate. exact E.
  - destruct (get i (enumerate vocab)) as [ w | ] eqn:G; [ | reflexivity ].
    apply get_In, In_enumerate in G. congruence.
Qed.

Lemma get_word_to_id (vocab : list string) (w : string) (i : nat) :
  get w (dict_of (map (fun iw => (snd iw, fst iw)) (enumerate vocab))) = Some i ->
  nth_error vocab i = Some w.
Proof.
  intros G. apply get_In, In_dict_of, in_map_iff in G.
  destruct G as [[j w'] [[= <- <-] Hin]]. apply In_enumerate. exact Hin.
Qed.

Lemma getitem_Ok (K V : Type) `{Key K} (k : K) (v : V) (d : dict K V) :
  getitem k d = Ok v <-> get k d = Some v.
Proof.
  unfold getitem. destruct (get k d); split; intros E; congruence.
Qed.

(** ** [train] builds a well-formed model *)

Section TrainFacts.
Variable math_log : float -> float.

Lemma train_id_to_word (corpus : string) (m : SteganographyLLM) :
  train math_log init corpus = Ok m ->
  forall i, get i (id_to_word m) = nth_error (vocab m) i.
Proof.
  unfold train. intros Hrun. repeat inv_bind Hrun. injection Hrun as <-. simpl.
  intros i. apply get_id_to_word.
Qed.

Lemma train_vocab (corpus : string) (m : SteganographyLLM) :
  train math_log init corpus = Ok m ->
  vocab m = sorted_str (set_of (preprocess corpus)).
Proof.
  unfold train. intros Hrun. repeat inv_bind Hrun. injection Hrun as <-. reflexivity.
Qed.

Lemma train_vocab_tokens (corpus : string) (m : SteganographyLLM) :
  train math_log init corpus = Ok m -> Forall is_token (vocab m).
Proof.
  intros Hrun. rewrite (train_vocab _ _ Hrun).
  apply Forall_forall. intros w Hw.
  apply (proj1 (proj2 (unique_words_spec _) w)) in Hw.
  pose proof (preprocess_tokens corpus) as Ht.
  rewrite Forall_forall in Ht. apply Ht, Hw.
Qed.

Theorem train_wf (corpus : string) (m : SteganographyLLM) :
  train math_log init corpus = Ok m -> wf_model m.
Proof.
  intros Hrun.
  pose proof (train_vocab_tokens _ _ Hrun) as Htok.
  pose proof (train_id_to_word _ _ Hrun) as Hid.
  assert (Hname : forall i w c,
             nth_error (vocab m) i = Some w -> first_char w = Ok c ->
             names_word_with (id_to_word m) c i).
  { intros i w c Hn Hc. exists w. rewrite Hid. repeat split; auto.
    - rewrite Forall_forall in Htok. apply Htok. eapply nth_error_In, Hn.
    - rewrite Forall_forall in Htok. apply Htok. eapply nth_error_In, Hn. }
  clear Htok Hid.
  unfold train in Hrun.
  inv_bind Hrun. rename a into wbc, Hbind into Hwbc.
  inv_bind Hrun. rename a into counts, Hbind into Hcounts.
  inv_bind Hrun. rename a into tr, Hbind into Htr.
  injection Hrun as <-. simpl in Hname.
  set (uw := sorted_str (set_of (preprocess corpus))) in *.
  set (itw := dict_of (enumerate uw)) in *.
  split; simpl; fold itw.
  - (* words_by_char *)
    pattern wbc. eapply foldM_invariant; [ | | exact Hwbc ].
    + intros c ids. simpl. discriminate.
    + intros s0 w s1 _ IH Hbody c ids.
      inv_bind Hbody. rename a into c0. inv_bind Hbody. rename a into i.
      injection Hbody as <-. unfold append_to.
      destruct (Ascii.eqb_spec c c0) as [ -> | Hne ].
      * rewrite get_upd_eq. intros [= <-].
        apply Forall_app. split.
        -- destruct (get c0 s0) as [ old | ] eqn:E; simpl; [ eapply IH, E | constructor ].
        -- constructor; [ | constructor ].
           apply getitem_Ok in Hbind0. apply get_word_to_id in Hbind0.
           eapply Hname; eassumption.
      * rewrite get_upd_neq by assumption. apply IH.
  - (* transitions *)
    pattern tr. eapply foldM_invariant; [ | | exact Htr ].
    + intros cur by_char c nexts. simpl. discriminate.
    + intros s0 [curr_id next_ids] s1 _ IH Hbody. unfold log_probs in Hbody.
      pattern s1. eapply foldM_invariant; [ exact IH | | exact Hbody ].
      clear IH Hbody. intros t0 [next_id count] t1 _ IH Hbody cur by_char c nexts.
      inv_bind Hbody. rename a into next_word.
      inv_bind Hbody. rename a into start_char.
      inv_bind Hbody. rename a into q.
      injection Hbody as <-. unfold set_transition.
      destruct (Nat.eqb_spec cur curr_id) as [ -> | Hne ].
      * rewrite get_upd_eq. intros [= <-].
        destruct (Ascii.eqb_spec c start_char) as [ -> | Hnec ].
        -- rewrite get_upd_eq. intros [= <-].
           apply Forall_forall. intros [i s] Hin. unfold set in Hin.
           apply In_upd_inv in Hin. destruct Hin as [ Hold | [-> _] ].
           ++ destruct (get curr_id t0) as [ bc | ] eqn:E1; simpl in Hold.
              ** destruct (get start_char bc) as [ ns | ] eqn:E2; simpl in Hold;
                   [ | contradiction ].
                 specialize (IH _ _ _ _ E1 E2). rewrite Forall_forall in IH.
                 apply (IH (i, s)), Hold.
              ** contradiction.
           ++ simpl. apply getitem_Ok in Hbind. unfold itw in Hbind.
              rewrite get_id_to_word in Hbind.
              eapply Hname; eassumption.
        -- rewrite get_upd_neq by assumption.
           destruct (get curr_id t0) as [ bc | ] eqn:E1; simpl; [ | discriminate ].
           apply (IH _ _ _ _ E1).
      * rewrite get_upd_neq by assumption. apply IH.
Qed.

End TrainFacts.

End StegFacts.

(* ================================================================== *)
(** * backup/steganography.py: the beam search and the round trip *)

Module EncodeFacts.

Import PyFacts CollFacts Steg StegFacts.

(** ** The candidates start with the target character *)

Lemma get_candidates_names (m : SteganographyLLM) (cur : nat) (c : ascii) :
  wf_model m ->
  Forall (fun cand => names_word_with (id_to_word m) c (fst cand))
    (get_candidates m cur c).
Proof.
  intros [Hwbc Htr]. unfold get_candidates.
  assert (Hfall : Forall (fun cand => names_word_with (id_to_word m) c (fst cand))
                    (strategy_b m c)).
  { apply Forall_forall. intros cand Hin. unfold strategy_b in Hin.
    apply in_map_iff in Hin. destruct Hin as [i [<- Hi]]. simpl.
    apply In_slice_to in Hi. unfold get_default in Hi.
    destruct (get c (words_by_char m)) as [ ids | ] eqn:E; [ | contradiction ].
    specialize (Hwbc _ _ E). rewrite Forall_forall in Hwbc. apply Hwbc, Hi. }
  unfold strategy_a.
  destruct (get cur (transitions m)) as [ by_char | ] eqn:E1; [ | exact Hfall ].
  destruct (get c by_char) as [ nexts | ] eqn:E2; [ | exact Hfall ].
  destruct nexts as [ | cand nexts ]; [ exact Hfall | ].
  apply (Htr _ _ _ _ E1 E2).
Qed.

Lemma extend_spells (m : SteganographyLLM) (c : ascii) (cs : list ascii) (p : Path)
  (ext : list Path) :
  wf_model m -> spells m cs p -> extend m c p = Ok ext ->
  Forall (spells m (cs ++ [c])) ext.
Proof.
  intros Hwf Hp Hext. unfold extend in Hext.
  inv_bind Hext. injection Hext as <-.
  apply Forall_forall. intros q Hq.
  apply in_map_iff in Hq. destruct Hq as [cand [<- Hcand]].
  unfold spells. simpl. apply Forall2_app; [ exact Hp | ].
  constructor; [ | constructor ].
  pose proof (get_candidates_names m a c Hwf) as Hn.
  rewrite Forall_forall in Hn. apply Hn, Hcand.
Qed.

Lemma expand_spells (m : SteganographyLLM) (c : ascii) (cs : list ascii)
  (beam new_beam : list Path) :
  wf_model m -> Forall (spells m cs) beam -> expand m c beam = Ok new_beam ->
  Forall (spells m (cs ++ [c])) new_beam.
Proof.
  intros Hwf Hbeam Hrun. unfold expand in Hrun.
  pattern new_beam. eapply foldM_invariant; [ | | exact Hrun ].
  - constructor.
  - intros s0 p s1 Hp IH Hbody. simpl in Hbody.
    inv_bind Hbody. injection Hbody as <-.
    apply Forall_app. split; [ exact IH | ].
    rewrite Forall_forall in Hbeam.
    eapply extend_spells; eauto.
Qed.

Lemma In_prune (beam_width : Z) (beam : list Path) (p : Path) :
  In p (prune beam_width beam) -> In p beam.
Proof.
  unfold prune, sorted_desc. intros Hin.
  apply In_slice_to, In_sort_by in Hin. exact Hin.
Qed.

Lemma prune_Forall (P : Path -> Prop) (beam_width : Z) (beam : list Path) :
  Forall P beam -> Forall P (prune beam_width beam).
Proof.
  rewrite !Forall_forall. intros Hb p Hp. apply Hb. eapply In_prune, Hp.
Qed.

(** The invariant of the loop: after [k] rounds every path of the beam spells
    the first [k] characters more. *)
Lemma search_spells (m : SteganographyLLM) (beam_width : Z) :
  wf_model m ->
  forall (rest : list ascii) (beam : list Path) (char_idx : nat)
         (done : list ascii) (out : list Path) (dead_end : option nat),
    Forall (spells m done) beam ->
    search m beam_width beam rest char_idx = Ok (out, dead_end) ->
    match dead_end with
    | None => Forall (spells m (done ++ rest)) out
    | Some j => char_idx <= j /\ j - char_idx < List.length rest
                /\ Forall (spells m (done ++ firstn (j - char_idx) rest)) out
    end.
Proof.
  intros Hwf.
  induction rest as [ | c rest IH ]; intros beam idx done out de Hbeam Hrun;
    simpl in Hrun.
  - injection Hrun as <- <-. rewrite app_nil_r. exact Hbeam.
  - inv_bind Hrun. rename a into new_beam.
    pose proof (expand_spells _ _ _ _ _ Hwf Hbeam Hbind) as Hnew.
    destruct new_beam as [ | p new_beam ].
    + injection Hrun as <- <-. rewrite Nat.sub_diag. simpl.
      rewrite app_nil_r. repeat split; [ lia | lia | exact Hbeam ].
    + specialize (IH _ _ (done ++ [c]) _ _ (prune_Forall _ _ _ Hnew) Hrun).
      destruct de as [ j | ].
      * destruct IH as [Hle [Hlt IH]]. repeat split; [ lia | simpl; lia | ].
        replace (j - idx) with (S (j - S idx)) by lia. simpl.
        rewrite <- app_assoc in IH. exact IH.
      * rewrite <- app_assoc in IH. exact IH.
Qed.

(** ** Rendering and reading back *)

(** The characters of a sentence of tokens: letters [a-z] and spaces. *)
Lemma join_chars (words : list string) :
  Forall is_token words ->
  Forall (fun c => is_az c = true \/ c = " "%char) (join (chars " ") words).
Proof.
  induction 1 as [ | w ws [_ Hw] Hws IH ]; [ constructor | ].
  assert (Hcw : Forall (fun c => is_az c = true \/ c = " "%char) (chars w)).
  { eapply Forall_impl; [ | exact Hw ]. intros c Hc. left. exact Hc. }
  destruct ws as [ | w' ws ]; [ exact Hcw | ].
  change (join (chars " ") (w :: w' :: ws))
    with (chars w ++ " "%char :: join (chars " ") (w' :: ws)).
  apply Forall_app. split; [ exact Hcw | ].
  constructor; [ right; reflexivity | exact IH ].
Qed.

Lemma map_lower_sentence (s : list ascii) :
  Forall (fun c => is_az c = true \/ c = " "%char) s -> map lower s = s.
Proof.
  induction 1 as [ | c s Hc _ IH ]; simpl; [ reflexivity | ].
  rewrite IH. f_equal.
  destruct Hc as [ Hc | -> ]; [ apply lower_az, Hc | reflexivity ].
Qed.

(** Capitalising a sentence of tokens only changes the first letter of the
    first word. *)
Lemma capitalize_join (c : ascii) (w : string) (ws : list string) :
  Forall is_token (String c w :: ws) ->
  capitalize (join (chars " ") (String c w :: ws))
  = join (chars " ") (String (upper c) w :: ws).
Proof.
  intros Htok. pose proof (join_chars _ Htok) as Hchars.
  destruct ws as [ | w' ws ].
  - simpl in *. inversion Hchars; subst.
    rewrite map_lower_sentence by assumption. reflexivity.
  - change (join (chars " ") (String c w :: w' :: ws))
      with (c :: (chars w ++ " "%char :: join (chars " ") (w' :: ws))) in *.
    change (join (chars " ") (String (upper c) w :: w' :: ws))
      with (upper c :: (chars w ++ " "%char :: join (chars " ") (w' :: ws))).
    inversion Hchars; subst. simpl.
    rewrite map_lower_sentence by assumption. reflexivity.
Qed.

Lemma is_letters_word (w : string) : is_letters w -> is_word w.
Proof.
  intros [Hne Hw]. split; [ exact Hne | ].
  eapply Forall_impl; [ | exact Hw ].
  intros c [ Hc | Hc ]; [ apply is_az_not_space | apply is_AZ_not_space ]; exact Hc.
Qed.

Lemma filter_keeps_letters (words : list string) :
  Forall is_letters words ->
  filter (fun c => is_az c || is_AZ c || isspace c) (join (chars " ") words)
  = join (chars " ") words.
Proof.
  intros Hw. apply forallb_filter_id. apply forallb_forall.
  assert (G : Forall (fun c => (is_az c || is_AZ c || isspace c) = true)
                (join (chars " ") words)).
  { induction Hw as [ | w ws [_ Hw] Hws IH ]; [ constructor | ].
    assert (Hcw : Forall (fun c => (is_az c || is_AZ c || isspace c) = true) (chars w)).
    { eapply Forall_impl; [ | exact Hw ].
      intros c [ Hc | Hc ]; rewrite Hc; [ reflexivity | ].
      rewrite orb_true_r. reflexivity. }
    destruct ws as [ | w' ws ]; [ exact Hcw | ].
    change (join (chars " ") (w :: w' :: ws))
      with (chars w ++ " "%char :: join (chars " ") (w' :: ws)).
    apply Forall_app. split; [ exact Hcw | ].
    constructor; [ reflexivity | exact IH ]. }
  rewrite Forall_forall in G. exact G.
Qed.

(** [decode] of a sentence of letter words followed by a full stop reads the
    first letters. *)
Lemma decode_words (words : list string) :
  Forall is_letters words ->
  decode (str (join (chars " ") words ++ chars "."))
  = (letters <- mapM (fun w => c <- first_char w ;; Ok (lower c)) words ;;
     Ok (str letters)).
Proof.
  intros Hw. unfold decode.
  rewrite chars_str, filter_app, filter_keeps_letters by assumption.
  simpl (filter _ (chars ".")). rewrite app_nil_r.
  rewrite split_join; [ reflexivity | ].
  eapply Forall_impl; [ | exact Hw ]. apply is_letters_word.
Qed.

(** What [render] makes of a path that spells [cs] decodes to [cs]. *)
Lemma render_decode (m : SteganographyLLM) (cs : list ascii) (p : Path)
  (sentence : string) :
  spells m cs p -> render m p = Ok sentence -> decode sentence = Ok (str cs).
Proof.
  unfold spells, render. intros Hp Hrun.
  inv_bind Hrun. rename a into words. injection Hrun as <-.
  apply mapM_Ok_Forall2 in Hbind.
  assert (Hwords : Forall2 (fun w c => is_token w /\ first_char w = Ok c) words cs).
  { revert cs Hp. induction Hbind as [ | i w ids ws Hiw _ IH ]; intros cs Hp;
      inversion Hp as [ | ? c ? cs' [w' [Hg [Htok Hfc]]] Hrest ]; subst; constructor.
    - apply getitem_Ok in Hiw. rewrite Hiw in Hg. injection Hg as <-. auto.
    - apply IH, Hrest. }
  clear Hbind Hp.
  assert (Hheads : forall ws ds,
             Forall2 (fun w c => is_token w /\ first_char w = Ok c) ws ds ->
             mapM (fun w => c <- first_char w ;; Ok (lower c)) ws = Ok ds).
  { induction 1 as [ | w c ws ds [[_ Haz] Hfc] _ IH ]; simpl; [ reflexivity | ].
    rewrite Hfc, IH. simpl. rewrite lower_az; [ reflexivity | ].
    destruct w as [ | c0 w ]; [ discriminate | ]. injection Hfc as <-.
    inversion Haz; assumption. }
  destruct Hwords as [ | w c ws cs [Htok Hfc] Hrest ].
  - apply (decode_words []). constructor.
  - destruct w as [ | c0 w ]; [ discriminate | ]. injection Hfc as ->.
    assert (Hall : Forall is_token (String c w :: ws)).
    { constructor; [ exact Htok | ].
      clear - Hrest. induction Hrest as [ | ? ? ? ? [H _] ]; constructor; auto. }
    rewrite capitalize_join by exact Hall.
    destruct Htok as [_ Haz]. rewrite chars_String in Haz.
    inversion Haz as [ | ? ? Hc Hw ]; subst.
    rewrite decode_words.
    + simpl. rewrite (Hheads _ _ Hrest). simpl.
      rewrite lower_upper_az by exact Hc. reflexivity.
    + constructor.
      * split; [ discriminate | ]. rewrite chars_String. constructor.
        -- right. apply upper_az_AZ, Hc.
        -- eapply Forall_impl; [ | exact Hw ]. intros x Hx. left. exact Hx.
      * inversion Hall as [ | ? ? _ Hws ]; subst.
        eapply Forall_impl; [ | exact Hws ].
        intros x [Hne Hx]. split; [ exact Hne | ].
        eapply Forall_impl; [ | exact Hx ]. intros y Hy. left. exact Hy.
Qed.

(** The best path of [encode] spells the target, or what of the target was
    consumed before the dead end. *)
Lemma encode_path_spells (m : SteganographyLLM) (hidden_text : string)
  (beam_width : Z) (best : Path) (dead_end : option nat) :
  wf_model m ->
  encode_path m hidden_text beam_width = Ok (Some (best, dead_end)) ->
  spells m
    match dead_end with
    | None => target_chars hidden_text
    | Some char_idx => firstn (S char_idx) (target_chars hidden_text)
    end
    best.
Proof.
  intros Hwf. unfold encode_path.
  destruct (target_chars hidden_text) as [ | c rest ]; [ discriminate | ].
  intros Hrun. inv_bind Hrun. destruct a as [beam de].
  inv_bind Hrun. injection Hrun as <- <-.
  unfold beam_search in Hbind.
  assert (Hstart : Forall (spells m [c])
                     (prune beam_width
                        (map (fun w_id => {| sequence := [w_id]; score := 0%float |})
                           (get_default c [] (words_by_char m))))).
  { apply prune_Forall. apply Forall_forall. intros p Hp.
    apply in_map_iff in Hp. destruct Hp as [i [<- Hi]].
    unfold spells. simpl. constructor; [ | constructor ].
    unfold get_default in Hi.
    destruct (get c (words_by_char m)) as [ ids | ] eqn:E; [ | contradiction ].
    destruct Hwf as [Hwbc _]. specialize (Hwbc _ _ E).
    rewrite Forall_forall in Hwbc. apply Hwbc, Hi. }
  pose proof (search_spells m beam_width Hwf _ _ _ _ _ _ Hstart Hbind) as Hout.
  destruct beam as [ | p beam ]; [ discriminate | ]. injection Hbind0 as <-.
  destruct de as [ j | ].
  - destruct Hout as [_ [_ Hout]]. rewrite Nat.sub_0_r in Hout.
    inversion Hout; assumption.
  - inversion Hout; assumption.
Qed.

End EncodeFacts.

(* ================================================================== *)
(** * Counters and the vocabulary *)

Module VocabFacts.

Import PyFacts CollFacts StegFacts.

(** ** Counters *)

Section Counters.
Context {K : Type} `{Key K}.

Lemma occurrences_cons (k x : K) (l : list K) :
  occurrences k (x :: l) = (if key_eqb k x then 1 else 0) + occurrences k l.
Proof. unfold occurrences. simpl. destruct (key_eqb k x); reflexivity. Qed.

Lemma occurrences_app (k : K) (l1 l2 : list K) :
  occurrences k (l1 ++ l2) = occurrences k l1 + occurrences k l2.
Proof. unfold occurrences. rewrite filter_app, length_app. reflexivity. Qed.

Lemma occurrences_pos (k : K) (l : list K) : 0 < occurrences k l <-> In k l.
Proof.
  induction l as [ | x l IH ]; simpl.
  - unfold occurrences. simpl. split; [ lia | tauto ].
  - rewrite occurrences_cons.
    destruct (key_eqb_spec k x) as [ <- | Hne ].
    + split; [ auto | lia ].
    + simpl. rewrite IH. split; [ auto | ]. intros [ E | Hi ]; [ congruence | exact Hi ].
Qed.

Lemma count1_incr (k k' : K) (c : dict K nat) :
  count1 (incr k c) k' = (if key_eqb k' k then 1 else 0) + count1 c k'.
Proof.
  unfold count1, incr.
  destruct (key_eqb_spec k' k) as [ -> | Hne ].
  - rewrite get_upd_eq. destruct (get k c); reflexivity.
  - rewrite get_upd_neq by assumption. reflexivity.
Qed.

Lemma count1_counter_update (l : list K) (c : dict K nat) (k : K) :
  count1 (counter_update l c) k = occurrences k l + count1 c k.
Proof.
  unfold counter_update. revert c.
  induction l as [ | x l IH ]; intros c; simpl.
  - reflexivity.
  - rewrite IH, count1_incr, occurrences_cons. lia.
Qed.

Lemma counter_update_app (l1 l2 : list K) (c : dict K nat) :
  counter_update (l1 ++ l2) c = counter_update l2 (counter_update l1 c).
Proof. unfold counter_update. apply fold_left_app. Qed.

Lemma NoDup_keys_counter_update (l : list K) (c : dict K nat) :
  NoDup (keys c) -> NoDup (keys (counter_update l c)).
Proof.
  unfold counter_update. revert c.
  induction l as [ | x l IH ]; intros c Hc; simpl; [ exact Hc | ].
  apply IH. unfold incr. apply NoDup_keys_upd, Hc.
Qed.

Lemma keys_counter_update (l : list K) (c : dict K nat) (k : K) :
  In k (keys (counter_update l c)) <-> In k l \/ In k (keys c).
Proof.
  unfold counter_update. revert c.
  induction l as [ | x l IH ]; intros c; simpl; [ tauto | ].
  rewrite IH. unfold incr. rewrite keys_upd_incl. intuition congruence.
Qed.

(** The items of a counter made from a list: each element once, with the
    number of its occurrences. *)
Lemma counter_items (l : list K) (k : K) (n : nat) :
  In (k, n) (counter_update l []) -> n = occurrences k l /\ In k l.
Proof.
  intros Hin.
  assert (Hk : In k l).
  { apply (in_map fst) in Hin. apply keys_counter_update in Hin.
    destruct Hin as [ Hl | [] ]. exact Hl. }
  split; [ | exact Hk ].
  apply In_get in Hin; [ | apply NoDup_keys_counter_update; constructor ].
  pose proof (count1_counter_update l [] k) as Hc.
  unfold count1 in Hc. rewrite Hin in Hc. simpl in Hc. lia.
Qed.

End Counters.

(** ** The vocabulary of the data builders *)

Lemma StronglySorted_map (A B : Type) (R : A -> A -> Prop) (S : B -> B -> Prop)
  (f : A -> B) (l : list A) :
  (forall x y, In x l -> In y l -> R x y -> S (f x) (f y)) ->
  StronglySorted R l -> StronglySorted S (map f l).
Proof.
  intros Hf Hl. induction Hl as [ | x l Hl IH Hx ]; simpl; constructor.
  - apply IH. intros a b Ha Hb. apply Hf; right; assumption.
  - rewrite Forall_forall in *. intros y Hy.
    apply in_map_iff in Hy. destruct Hy as [a [<- Ha]].
    apply Hf; [ left; reflexivity | right; exact Ha | apply Hx, Ha ].
Qed.

Lemma most_common_perm (K : Type) (c : dict K nat) : Permutation (most_common c) c.
Proof. unfold most_common, sorted_desc. apply sort_by_perm. Qed.

Lemma word_to_id_of_spec (vocab : list string) (w : string) (i : nat) :
  NoDup vocab ->
  get w (word_to_id_of vocab) = Some i <-> nth_error vocab i = Some w.
Proof.
  intros Hnd. unfold word_to_id_of.
  assert (Hkeys : map fst (map (fun iw : nat * string => (snd iw, fst iw))
                             (enumerate vocab)) = vocab).
  { rewrite map_map. simpl. apply enumerate_snd. }
  rewrite dict_of_NoDup by (rewrite Hkeys; exact Hnd).
  split.
  - intros G. apply get_In, in_map_iff in G.
    destruct G as [[j w'] [[= <- <-] Hin]]. apply In_enumerate, Hin.
  - intros Hn. apply In_get.
    + unfold keys. rewrite Hkeys. exact Hnd.
    + apply in_map_iff. exists (i, w). split; [ reflexivity | apply In_enumerate, Hn ].
Qed.

Lemma id_to_word_of_spec (vocab : list string) :
  id_to_word_of vocab = enumerate vocab.
Proof. unfold id_to_word_of. apply dict_of_NoDup, NoDup_enumerate_keys. Qed.

(** The vocabulary the builders make of the token stream [tokens]. *)
Lemma sorted_vocab_spec (tokens : list string) :
  let vocab := sorted_vocab_of (counter_update tokens []) in
  dense_vocabulary vocab tokens (word_to_id_of vocab) (id_to_word_of vocab)
  /\ by_frequency vocab tokens.
Proof.
  intros vocab.
  assert (Hperm : Permutation vocab (keys (counter_update tokens []))).
  { unfold vocab, sorted_vocab_of, keys. apply Permutation_map, most_common_perm. }
  assert (Hnd : NoDup vocab).
  { eapply Permutation_NoDup; [ apply Permutation_sym, Hperm | ].
    apply NoDup_keys_counter_update. constructor. }
  split; [ split; [ exact Hnd | split; [ | split ] ] | ].
  - intros w. split; intros Hw.
    + apply (Permutation_in _ Hperm), keys_counter_update in Hw.
      destruct Hw as [ Hw | [] ]. exact Hw.
    + apply (Permutation_in _ (Permutation_sym Hperm)), keys_counter_update.
      left. exact Hw.
  - apply id_to_word_of_spec.
  - intros w i. apply word_to_id_of_spec, Hnd.
  - unfold by_frequency, vocab, sorted_vocab_of.
    eapply StronglySorted_map; [ | apply (sorted_desc_sorted snd) ].
    intros [w1 n1] [w2 n2] H1 H2 Hdesc. unfold desc in Hdesc. simpl in *.
    apply (Permutation_in _ (most_common_perm _ _)), counter_items in H1.
    apply (Permutation_in _ (most_common_perm _ _)), counter_items in H2.
    destruct H1 as [<- _], H2 as [<- _]. exact Hdesc.
Qed.

End VocabFacts.

(* ================================================================== *)
(** * scripts/data_builder.py: the streaming aggregation *)

Module AggFacts.

Import PyFacts CollFacts VocabFacts Builder.

(** ** Windows of a concatenation *)

Lemma rev_cons_cons (A : Type) (x y : A) (l : list A) :
  exists p r, rev (y :: l) = p :: r /\ rev (x :: y :: l) = p :: r ++ [x].
Proof.
  destruct (rev (y :: l)) as [ | p r ] eqn:E.
  - apply (f_equal (@List.length A)) in E. rewrite length_rev in E. discriminate.
  - exists p, r. split; [ reflexivity | ].
    change (rev (x :: y :: l)) with (rev (y :: l) ++ [x]). rewrite E. reflexivity.
Qed.

Lemma seam_pairs_cons (A : Type) (x y : A) (l l2 : list A) :
  seam_pairs (x :: y :: l) l2 = seam_pairs (y :: l) l2.
Proof.
  unfold seam_pairs.
  destruct (rev_cons_cons A x y l) as [p [r [-> ->]]]. reflexivity.
Qed.

Lemma pairs_app (A : Type) (l1 l2 : list A) :
  pairs (l1 ++ l2) = pairs l1 ++ seam_pairs l1 l2 ++ pairs l2.
Proof.
  induction l1 as [ | x l1 IH ].
  - reflexivity.
  - destruct l1 as [ | y l1 ].
    + simpl. destruct l2; reflexivity.
    + rewrite seam_pairs_cons.
      change (pairs ((x :: y :: l1) ++ l2)) with ((x, y) :: pairs ((y :: l1) ++ l2)).
      rewrite IH. reflexivity.
Qed.

Lemma seam_triples_cons (A : Type) (x y z : A) (l l2 : list A) :
  seam_triples (x :: y :: z :: l) l2 = seam_triples (y :: z :: l) l2.
Proof.
  unfold seam_triples.
  destruct (rev_cons_cons A y z l) as [p [r [E1 E2]]].
  assert (E3 : rev (x :: y :: z :: l) = p :: (r ++ [y]) ++ [x]).
  { change (rev (x :: y :: z :: l)) with (rev (y :: z :: l) ++ [x]).
    rewrite E2. reflexivity. }
  rewrite E2, E3.
  destruct r as [ | pp r ]; reflexivity.
Qed.

Lemma triples_app (A : Type) (l1 l2 : list A) :
  triples (l1 ++ l2) = triples l1 ++ seam_triples l1 l2 ++ triples l2.
Proof.
  induction l1 as [ | x l1 IH ].
  - reflexivity.
  - destruct l1 as [ | y l1 ].
    + simpl. destruct l2 as [ | c0 [ | c1 l2 ] ]; reflexivity.
    + destruct l1 as [ | z l1 ].
      * simpl in IH. simpl. destruct l2 as [ | c0 l2 ]; [ reflexivity | ].
        rewrite IH. unfold seam_triples. simpl.
        destruct l2; reflexivity.
      * rewrite seam_triples_cons.
        change (triples ((x :: y :: z :: l1) ++ l2))
          with ((x, y, z) :: triples ((y :: z :: l1) ++ l2)).
        rewrite IH. reflexivity.
Qed.

(** ** Counts in the nested tables *)

Section NestedCounts.
Context {K1 K2 : Type} `{Key K1} `{Key K2}.

Lemma count2_incr2 (a : K1) (b : K2) (d : dict K1 (dict K2 nat)) (k1 : K1) (k2 : K2) :
  count2 (incr2 a b d) k1 k2
  = (if key_eqb (k1, k2) (a, b) then 1 else 0) + count2 d k1 k2.
Proof.
  unfold count2, incr2. simpl.
  destruct (key_eqb_spec k1 a) as [ -> | Hne ]; simpl.
  - rewrite get_upd_eq. simpl. rewrite count1_incr. reflexivity.
  - rewrite get_upd_neq by assumption. reflexivity.
Qed.

Lemma count2_fold_incr2 (ps : list (K1 * K2)) (d : dict K1 (dict K2 nat))
  (k1 : K1) (k2 : K2) :
  count2 (fold_left (fun raw cn => incr2 (fst cn) (snd cn) raw) ps d) k1 k2
  = occurrences (k1, k2) ps + count2 d k1 k2.
Proof.
  revert d. induction ps as [ | [a b] ps IH ]; intros d; simpl.
  - reflexivity.
  - rewrite IH, count2_incr2, occurrences_cons. simpl. lia.
Qed.

End NestedCounts.

Section NestedCounts3.
Context {K1 K2 K3 : Type} `{Key K1} `{Key K2} `{Key K3}.

Lemma count3_incr3 (a : K1) (b : K2) (c : K3) (d : dict K1 (dict K2 (dict K3 nat)))
  (k1 : K1) (k2 : K2) (k3 : K3) :
  count3 (incr3 a b c d) k1 k2 k3
  = (if key_eqb (k1, k2, k3) (a, b, c) then 1 else 0) + count3 d k1 k2 k3.
Proof.
  unfold count3, incr3.
  change (key_eqb (k1, k2, k3) (a, b, c))
    with (key_eqb k1 a && key_eqb k2 b && key_eqb k3 c).
  rewrite <- andb_assoc.
  change (key_eqb k2 b && key_eqb k3 c) with (key_eqb (k2, k3) (b, c)).
  destruct (key_eqb_spec k1 a) as [ -> | Hne ].
  - rewrite get_upd_eq. cbn [or_default andb]. apply count2_incr2.
  - rewrite get_upd_neq by assumption. reflexivity.
Qed.

Lemma count3_fold_incr3 (ts : list (K1 * K2 * K3))
  (d : dict K1 (dict K2 (dict K3 nat))) (k1 : K1) (k2 : K2) (k3 : K3) :
  count3 (fold_left (fun raw w => incr3 (fst (fst w)) (snd (fst w)) (snd w) raw) ts d)
    k1 k2 k3
  = occurrences (k1, k2, k3) ts + count3 d k1 k2 k3.
Proof.
  revert d. induction ts as [ | [[a b] c] ts IH ]; intros d; simpl.
  - reflexivity.
  - rewrite IH, count3_incr3, occurrences_cons. simpl. lia.
Qed.

End NestedCounts3.

(** ** The loops over the chunks *)

Section Aggregation.
Variable english_words : string -> bool.

Lemma truthy_nonempty (w : string) : w <> EmptyString -> truthy (Some w) = true.
Proof. destruct w; [ congruence | reflexivity ]. Qed.

Lemma bigram_chunk_inv (V chunk : list string) (st : BigramState) :
  Forall (fun w => w <> EmptyString) V ->
  bigram_inv V st ->
  bigram_inv (V ++ filter english_words chunk) (bigram_chunk english_words st chunk).
Proof.
  intros Hne [Hwc [Hraw Hprev]]. unfold bigram_chunk.
  set (VC := filter english_words chunk).
  split; [ | split ]; cbn [word_counts raw_bigrams prev_token].
  - rewrite Hwc. symmetry. apply counter_update_app.
  - intros w1 w2. rewrite pairs_app, !occurrences_app.
    unfold bigram_chunk_counts, seam_pairs. rewrite Hprev.
    destruct (rev V) as [ | x r ] eqn:EV; cbn [hd_error].
    + rewrite count2_fold_incr2, Hraw. destruct VC; cbn [occurrences filter List.length]; lia.
    + assert (Hx : x <> EmptyString).
      { rewrite Forall_forall in Hne. apply Hne, in_rev. rewrite EV. left. reflexivity. }
      rewrite (truthy_nonempty x Hx).
      destruct VC as [ | y VC' ].
      * rewrite count2_fold_incr2, Hraw. cbn [occurrences filter List.length]. lia.
      * rewrite count2_incr2, count2_fold_incr2, Hraw.
        rewrite (occurrences_cons (w1, w2) (x, y) []).
        cbn [occurrences filter List.length]. lia.
  - rewrite rev_app_distr. destruct (rev VC) as [ | l1 r ]; [ exact Hprev | reflexivity ].
Qed.

Lemma aggregate_bigrams_from (chunks : list (list string)) :
  forall (V : list string) (st : BigramState),
    Forall (fun w => w <> EmptyString) V ->
    Forall (Forall (fun w => w <> EmptyString)) chunks ->
    bigram_inv V st ->
    bigram_inv (V ++ valid_tokens english_words chunks)
      (fold_left (bigram_chunk english_words) chunks st).
Proof.
  unfold valid_tokens.
  induction chunks as [ | chunk chunks IH ]; intros V st HV Hchunks Hinv; simpl.
  - rewrite app_nil_r. exact Hinv.
  - inversion Hchunks as [ | ? ? Hc Hcs ]; subst.
    rewrite filter_app, app_assoc. apply IH.
    + apply Forall_app. split; [ exact HV | ].
      apply Forall_forall. intros w Hw. apply filter_In in Hw.
      rewrite Forall_forall in Hc. apply Hc, Hw.
    + exact Hcs.
    + apply bigram_chunk_inv; assumption.
Qed.

Lemma aggregate_bigrams_inv (chunks : list (list string)) :
  Forall (Forall (fun w => w <> EmptyString)) chunks ->
  bigram_inv (valid_tokens english_words chunks) (aggregate_bigrams english_words chunks).
Proof.
  intros Hchunks.
  apply (aggregate_bigrams_from chunks [] bigram_init); [ constructor | exact Hchunks | ].
  repeat split.
Qed.

(** The word counts do not depend on the tokens being non-empty. *)
Lemma aggregate_word_counts (chunks : list (list string)) :
  word_counts (aggregate_bigrams english_words chunks)
  = counter_update (valid_tokens english_words chunks) [].
Proof.
  unfold aggregate_bigrams, valid_tokens.
  assert (G : forall st,
             word_counts (fold_left (bigram_chunk english_words) chunks st)
             = counter_update (filter english_words (List.concat chunks))
                 (word_counts st)).
  { induction chunks as [ | chunk chunks IH ]; intros st; simpl; [ reflexivity | ].
    rewrite IH, filter_app, counter_update_app. reflexivity. }
  apply (G bigram_init).
Qed.

Lemma trigram_chunk_counts_spec (V VC : list string) (st : TrigramState) :
  Forall (fun w => w <> EmptyString) V ->
  trigram_inv V st ->
  forall w1 w2 w3,
    count3 (trigram_chunk_counts st VC) w1 w2 w3
    = occurrences (w1, w2, w3) (triples (V ++ VC)).
Proof.
  intros Hne [Hraw [Hp Hpp]] w1 w2 w3.
  rewrite triples_app, !occurrences_app.
  unfold trigram_chunk_counts, seam_triples. rewrite Hp, Hpp.
  destruct (rev V) as [ | p r ] eqn:EV; cbn [hd_error tl].
  - rewrite count3_fold_incr3, Hraw.
    destruct VC as [ | c0 [ | c1 VC' ] ]; cbn [occurrences filter List.length app]; lia.
  - assert (Hpne : p <> EmptyString).
    { rewrite Forall_forall in Hne. apply Hne, in_rev. rewrite EV. left. reflexivity. }
    rewrite (truthy_nonempty p Hpne).
    destruct r as [ | pp r ]; cbn [hd_error].
    + destruct VC as [ | c0 [ | c1 VC' ] ]; cbn [app].
      * rewrite count3_fold_incr3, Hraw. cbn [occurrences filter List.length]. lia.
      * rewrite count3_fold_incr3, Hraw. cbn [occurrences filter List.length]. lia.
      * rewrite count3_incr3, count3_fold_incr3, Hraw.
        rewrite (occurrences_cons (w1, w2, w3) (p, c0, c1) []).
        cbn [occurrences filter List.length]. lia.
    + assert (Hppne : pp <> EmptyString).
      { rewrite Forall_forall in Hne. apply Hne, in_rev. rewrite EV.
        right. left. reflexivity. }
      rewrite (truthy_nonempty pp Hppne). cbn [andb].
      destruct VC as [ | c0 [ | c1 VC' ] ]; cbn [app].
      * rewrite count3_fold_incr3, Hraw. cbn [occurrences filter List.length]. lia.
      * rewrite count3_incr3, count3_fold_incr3, Hraw.
        rewrite (occurrences_cons (w1, w2, w3) (pp, p, c0) []).
        cbn [occurrences filter List.length]. lia.
      * rewrite !count3_incr3, count3_fold_incr3, Hraw.
        rewrite (occurrences_cons (w1, w2, w3) (pp, p, c0) [(p, c0, c1)]).
        rewrite (occurrences_cons (w1, w2, w3) (p, c0, c1) []).
        cbn [occurrences filter List.length]. lia.
Qed.

Lemma trigram_chunk_inv (V chunk : list string) (st : TrigramState) :
  Forall (fun w => w <> EmptyString) V ->
  trigram_inv V st ->
  trigram_inv (V ++ filter english_words chunk) (trigram_chunk english_words st chunk).
Proof.
  intros Hne Hinv. unfold trigram_chunk.
  set (VC := filter english_words chunk).
  pose proof (trigram_chunk_counts_spec V VC st Hne Hinv) as Hcount.
  destruct Hinv as [_ [Hp Hpp]].
  assert (Hrev : rev (V ++ VC) = rev VC ++ rev V) by apply rev_app_distr.
  destruct (rev VC) as [ | l1 [ | l2 r ] ] eqn:EC; simpl in Hrev;
    (split; [ exact Hcount | ]);
    cbn [raw_trigrams prev_token3 prev_prev_token]; rewrite Hrev; simpl; auto.
Qed.

Lemma aggregate_trigrams_from (chunks : list (list string)) :
  forall (V : list string) (st : TrigramState),
    Forall (fun w => w <> EmptyString) V ->
    Forall (Forall (fun w => w <> EmptyString)) chunks ->
    trigram_inv V st ->
    trigram_inv (V ++ valid_tokens english_words chunks)
      (fold_left (trigram_chunk english_words) chunks st).
Proof.
  unfold valid_tokens.
  induction chunks as [ | chunk chunks IH ]; intros V st HV Hchunks Hinv; simpl.
  - rewrite app_nil_r. exact Hinv.
  - inversion Hchunks as [ | ? ? Hc Hcs ]; subst.
    rewrite filter_app, app_assoc. apply IH.
    + apply Forall_app. split; [ exact HV | ].
      apply Forall_forall. intros w Hw. apply filter_In in Hw.
      rewrite Forall_forall in Hc. apply Hc, Hw.
    + exact Hcs.
    + apply trigram_chunk_inv; assumption.
Qed.

Lemma aggregate_trigrams_inv (chunks : list (list string)) :
  Forall (Forall (fun w => w <> EmptyString)) chunks ->
  trigram_inv (valid_tokens english_words chunks)
    (aggregate_trigrams english_words chunks).
Proof.
  intros Hchunks.
  apply (aggregate_trigrams_from chunks [] trigram_init); [ constructor | exact Hchunks | ].
  repeat split.
Qed.

End Aggregation.

End AggFacts.

(* ================================================================== *)
(** * The pruning loop *)

Module PruneFacts.

Import PyFacts CollFacts StegFacts VocabFacts Pruning.

(** ** Where the items of the pruned table come from *)

Lemma char_groups_of_spec (min_freq : nat) (id_to_word : dict nat string)
  (next_words_map : dict nat nat) (char_groups : dict ascii (list (nat * nat))) :
  char_groups_of min_freq id_to_word next_words_map = Ok char_groups ->
  forall c candidates,
    In (c, candidates) char_groups ->
    Forall (fun ic =>
              In ic next_words_map /\ min_freq <= snd ic
              /\ exists w, get (fst ic) id_to_word = Some w /\ first_char w = Ok c)
      candidates.
Proof.
  unfold char_groups_of. intros Hrun.
  pattern char_groups. eapply foldM_invariant; [ | | exact Hrun ].
  - intros c candidates [].
  - clear Hrun. intros s0 [next_id count] s1 Hitem IH Hbody c candidates Hin.
    destruct (Nat.ltb_spec count min_freq) as [ Hlt | Hge ].
    + injection Hbody as <-. apply IH, Hin.
    + inv_bind Hbody. rename a into w. inv_bind Hbody. rename a into sc.
      injection Hbody as <-. unfold append_to in Hin.
      apply In_upd_inv in Hin. destruct Hin as [ Hold | [-> ->] ].
      * apply IH, Hold.
      * apply Forall_app. split.
        -- destruct (get sc s0) as [ old | ] eqn:E; simpl; [ | constructor ].
           apply (IH sc), get_In, E.
        -- constructor; [ | constructor ]. simpl.
           split; [ exact Hitem | split; [ exact Hge | ] ].
           exists w. split; [ apply getitem_Ok, Hbind | exact Hbind0 ].
Qed.

Lemma optimize_spec (top_k : Z) (char_groups : dict ascii (list (nat * nat)))
  (c : ascii) (ids : list nat) :
  In (c, ids) (optimize top_k char_groups) ->
  exists candidates, In (c, candidates) char_groups /\ ids = top_ids top_k candidates.
Proof.
  unfold optimize.
  assert (G : forall acc,
             In (c, ids)
               (fold_left
                  (fun optimized_groups '(char, candidates) =>
                     set char (top_ids top_k candidates) optimized_groups)
                  char_groups acc) ->
             In (c, ids) acc
             \/ exists candidates,
                 In (c, candidates) char_groups /\ ids = top_ids top_k candidates).
  { induction char_groups as [ | [char cands] cg IH ]; simpl; intros acc Hin.
    - left. exact Hin.
    - destruct (IH _ Hin) as [ Hacc | [cs [Hcs E]] ].
      + unfold set in Hacc. apply In_upd_inv in Hacc.
        destruct Hacc as [ Hold | [-> ->] ]; [ left; exact Hold | ].
        right. exists cands. split; [ left; reflexivity | reflexivity ].
      + right. exists cs. split; [ right; exact Hcs | exact E ]. }
  intros Hin. destruct (G [] Hin) as [ [] | Hex ]. exact Hex.
Qed.

Lemma prune_table_spec (top_k : Z) (min_freq : nat) (id_to_word : dict nat string)
  (id_counts : dict nat (dict nat nat)) (final : dict string (dict ascii (list nat))) :
  prune_table top_k min_freq id_to_word id_counts = Ok final ->
  forall key groups,
    In (key, groups) final ->
    exists ctx next_words_map char_groups,
      In (ctx, next_words_map) id_counts
      /\ key = str_of_nat ctx
      /\ char_groups_of min_freq id_to_word next_words_map = Ok char_groups
      /\ groups = optimize top_k char_groups.
Proof.
  unfold prune_table. intros Hrun.
  pattern final. eapply foldM_invariant; [ | | exact Hrun ].
  - intros key groups [].
  - clear Hrun. intros s0 [curr_id nwm] s1 Hitem IH Hbody key groups Hin.
    inv_bind Hbody. rename a into cg.
    destruct (optimize top_k cg) as [ | g gs ] eqn:Eopt.
    + injection Hbody as <-. apply IH, Hin.
    + injection Hbody as <-. unfold set in Hin. apply In_upd_inv in Hin.
      destruct Hin as [ Hold | [-> ->] ]; [ apply IH, Hold | ].
      exists curr_id, nwm, cg. rewrite Eopt. auto.
Qed.

(** ** The invariants of a bucket *)

Lemma top_ids_incl (top_k : Z) (candidates : list (nat * nat)) (id : nat) :
  In id (top_ids top_k candidates) -> exists count, In (id, count) candidates.
Proof.
  unfold top_ids, sorted_desc. intros Hin.
  apply in_map_iff in Hin. destruct Hin as [[i count] [<- Hin]].
  apply In_slice_to, In_sort_by in Hin. exists count. exact Hin.
Qed.

Lemma top_ids_length (top_k : Z) (candidates : list (nat * nat)) :
  (0 <= top_k)%Z -> (Z.of_nat (List.length (top_ids top_k candidates)) <= top_k)%Z.
Proof.
  intros Hk. unfold top_ids. rewrite length_map.
  pose proof (slice_to_length _ top_k (sorted_desc Nat.ltb snd candidates) Hk). lia.
Qed.

Lemma top_ids_sorted (top_k : Z) (candidates : list (nat * nat)) (count : nat -> nat) :
  (forall ic, In ic candidates -> count (fst ic) = snd ic) ->
  StronglySorted (fun id1 id2 => count id2 <= count id1) (top_ids top_k candidates).
Proof.
  intros Hcount. unfold top_ids.
  destruct (slice_to_firstn _ top_k (sorted_desc Nat.ltb snd candidates)) as [k Hk].
  rewrite Hk.
  assert (Hin : forall ic, In ic (firstn k (sorted_desc Nat.ltb snd candidates)) ->
                           In ic candidates).
  { intros ic Hic. apply In_firstn in Hic. unfold sorted_desc in Hic.
    apply In_sort_by in Hic. exact Hic. }
  eapply StronglySorted_map; [ | apply firstn_sorted, (sorted_desc_sorted snd) ].
  intros x y Hx Hy Hdesc. unfold desc in Hdesc.
  rewrite (Hcount x), (Hcount y) by auto. exact Hdesc.
Qed.

Lemma count2_item (id_counts : dict nat (dict nat nat)) (ctx : nat)
  (next_words_map : dict nat nat) (id n : nat) :
  distinct_keys2 id_counts ->
  In (ctx, next_words_map) id_counts -> In (id, n) next_words_map ->
  count2 id_counts ctx id = n.
Proof.
  intros [Hnd Hinner] Hctx Hid. unfold count2, count1.
  rewrite (In_get _ _ _ Hnd Hctx). simpl.
  rewrite Forall_forall in Hinner. specialize (Hinner _ Hctx). simpl in Hinner.
  rewrite (In_get _ _ _ Hinner Hid). reflexivity.
Qed.

(** The compiled table satisfies the bucket invariants with respect to the
    raw table it was pruned from. *)
Lemma prune_table_ok (top_k : Z) (min_freq : nat) (id_to_word : dict nat string)
  (id_counts : dict nat (dict nat nat)) (final : dict string (dict ascii (list nat))) :
  (0 <= top_k)%Z ->
  distinct_keys2 id_counts ->
  prune_table top_k min_freq id_to_word id_counts = Ok final ->
  table_ok top_k min_freq id_to_word id_counts final.
Proof.
  intros Hk Hdist Hrun key groups letter ids Hkey Hletter.
  destruct (prune_table_spec _ _ _ _ _ Hrun _ _ Hkey)
    as [ctx [nwm [cg [Hctx [-> [Hcg ->]]]]]].
  apply optimize_spec in Hletter. destruct Hletter as [cands [Hcands ->]].
  pose proof (char_groups_of_spec _ _ _ _ Hcg _ _ Hcands) as Hprov.
  rewrite Forall_forall in Hprov.
  exists ctx. split; [ reflexivity | split ].
  { apply (in_map fst) in Hctx. exact Hctx. }
  assert (Hcount : forall ic, In ic cands -> count2 id_counts ctx (fst ic) = snd ic).
  { intros [id n] Hic. simpl. destruct (Hprov _ Hic) as [Hin _].
    eapply count2_item; eauto. }
  split; [ | split; [ | split ] ].
  - apply Forall_forall. intros id Hid.
    apply top_ids_incl in Hid. destruct Hid as [n Hic].
    destruct (Hprov _ Hic) as [_ [_ Hw]]. exact Hw.
  - apply top_ids_length, Hk.
  - apply Forall_forall. intros id Hid.
    apply top_ids_incl in Hid. destruct Hid as [n Hic].
    destruct (Hprov _ Hic) as [_ [Hmin _]].
    pose proof (Hcount _ Hic) as E. simpl in E, Hmin. rewrite E. exact Hmin.
  - apply top_ids_sorted, Hcount.
Qed.

(** ** The id-keyed raw tables *)

Section NestedUpdate.
Context {K1 K2 V : Type} `{Key K1} `{Key K2}.
Variables (Q1 : K1 -> Prop) (Q2 : K2 -> Prop).

(** [d[a][b] = g(d[a][b])] on a [defaultdict] of dictionaries. *)
Lemma upd2_distinct (a : K1) (b : K2) (g : option V -> V) (d : dict K1 (dict K2 V)) :
  distinct_keys2 d ->
  distinct_keys2 (upd a (fun o => upd b g (or_default [] o)) d).
Proof.
  intros [Hnd Hinner]. split; [ apply NoDup_keys_upd, Hnd | ].
  apply Forall_forall. intros [k v] Hin. simpl.
  apply In_upd_inv in Hin. destruct Hin as [ Hold | [-> ->] ].
  - rewrite Forall_forall in Hinner. apply (Hinner _ Hold).
  - apply NoDup_keys_upd.
    destruct (get a d) as [ old | ] eqn:E; simpl; [ | constructor ].
    rewrite Forall_forall in Hinner. apply (Hinner _ (get_In _ _ _ E)).
Qed.

Lemma upd2_keys (a : K1) (b : K2) (g : option V -> V) (d : dict K1 (dict K2 V)) :
  Q1 a -> Q2 b -> keys2_in Q1 Q2 d ->
  keys2_in Q1 Q2 (upd a (fun o => upd b g (or_default [] o)) d).
Proof.
  intros Ha Hb Hd k v Hin.
  apply In_upd_inv in Hin. destruct Hin as [ Hold | [-> ->] ].
  - apply Hd, Hold.
  - split; [ exact Ha | ]. intros k' Hk'.
    apply keys_upd_incl in Hk'. destruct Hk' as [ -> | Hk' ]; [ exact Hb | ].
    destruct (get a d) as [ old | ] eqn:E; simpl in Hk'; [ | contradiction ].
    apply (proj2 (Hd _ _ (get_In _ _ _ E))), Hk'.
Qed.

End NestedUpdate.

Lemma keys2_in_nil (K1 K2 V : Type) (Q1 : K1 -> Prop) (Q2 : K2 -> Prop) :
  keys2_in Q1 Q2 (@nil (K1 * dict K2 V)).
Proof. intros k v []. Qed.

Lemma distinct_keys2_nil (K1 K2 V : Type) : distinct_keys2 (@nil (K1 * dict K2 V)).
Proof. split; constructor. Qed.

(** [raw_bigrams] of [build_model]. *)
Lemma backup_raw_bigrams_spec (word_to_id : dict string nat) (tokens : list string)
  (raw : dict nat (dict nat nat)) :
  BackupBuilder.raw_bigrams word_to_id tokens = Ok raw ->
  distinct_keys2 raw
  /\ keys2_in (id_of_word word_to_id) (id_of_word word_to_id) raw.
Proof.
  unfold BackupBuilder.raw_bigrams. intros Hrun.
  pattern raw. eapply foldM_invariant; [ | | exact Hrun ].
  - split; [ apply distinct_keys2_nil | apply keys2_in_nil ].
  - clear Hrun. intros s0 [curr_w next_w] s1 _ [Hd Hk] Hbody.
    inv_bind Hbody. rename a into curr_id. inv_bind Hbody. rename a into next_id.
    injection Hbody as <-. apply getitem_Ok in Hbind, Hbind0.
    unfold incr2, incr. split.
    + apply upd2_distinct, Hd.
    + apply upd2_keys; [ exists curr_w | exists next_w | ]; assumption.
Qed.

(** [id_bigrams] of [build_model_incremental]. *)
Lemma id_bigrams_of_spec (word_to_id : dict string nat)
  (raw : dict string (dict string nat)) (id_bigrams : dict nat (dict nat nat)) :
  Builder.id_bigrams_of word_to_id raw = Ok id_bigrams ->
  distinct_keys2 id_bigrams
  /\ keys2_in (id_of_word word_to_id) (id_of_word word_to_id) id_bigrams.
Proof.
  unfold Builder.id_bigrams_of. intros Hrun.
  pattern id_bigrams. eapply foldM_invariant; [ | | exact Hrun ].
  - split; [ apply distinct_keys2_nil | apply keys2_in_nil ].
  - clear Hrun. intros s0 [curr_w next_counts] s1 _ IH Hbody.
    inv_bind Hbody. rename a into curr_id. apply getitem_Ok in Hbind.
    pattern s1. eapply foldM_invariant; [ exact IH | | exact Hbody ].
    clear IH Hbody. intros t0 [next_w count] t1 _ [Hd Hk] Hbody.
    inv_bind Hbody. rename a into next_id. apply getitem_Ok in Hbind0.
    injection Hbody as <-. unfold set2, set. split.
    + apply upd2_distinct, Hd.
    + apply upd2_keys; [ exists curr_w | exists next_w | ]; assumption.
Qed.

(** An id of [word_to_id] is an index into the vocabulary. *)
Lemma id_of_word_lt (vocab : list string) (id : nat) :
  NoDup vocab -> id_of_word (word_to_id_of vocab) id -> id < List.length vocab.
Proof.
  intros Hnd [w Hw]. apply word_to_id_of_spec in Hw; [ | exact Hnd ].
  apply nth_error_Some. congruence.
Qed.

Lemma id_to_word_lt (vocab : list string) (id : nat) (w : string) :
  get id (id_to_word_of vocab) = Some w -> id < List.length vocab.
Proof.
  rewrite id_to_word_of_spec. intros Hg.
  apply get_In, In_enumerate in Hg. apply nth_error_Some. congruence.
Qed.

(** ** The trigram tables *)

Lemma fold_left_invariant (A S : Type) (P : S -> Prop) (f : S -> A -> S) :
  forall (l : list A) (s : S),
    P s -> (forall s0 x, In x l -> P s0 -> P (f s0 x)) -> P (fold_left f l s).
Proof.
  induction l as [ | x l IH ]; simpl; intros s Hs Hstep; [ exact Hs | ].
  apply IH; [ apply Hstep; [ left; reflexivity | exact Hs ] | ].
  intros s0 y Hy. apply Hstep. right. exact Hy.
Qed.

Lemma set3_keys3_ok (Q : nat -> Prop) (k1 k2 k3 v : nat)
  (d : dict nat (dict nat (dict nat nat))) :
  Q k1 -> Q k2 -> Q k3 -> keys3_ok Q d -> keys3_ok Q (Builder.set3 k1 k2 k3 v d).
Proof.
  intros H1 H2 H3 [Hnd Hd]. unfold Builder.set3. split.
  - apply NoDup_keys_upd, Hnd.
  - intros k t Hin. apply In_upd_inv in Hin.
    destruct Hin as [ Hold | [-> ->] ]; [ apply Hd, Hold | ].
    assert (Hold : distinct_keys2 (or_default [] (get k1 d))
                   /\ keys2_in Q Q (or_default [] (get k1 d))).
    { destruct (get k1 d) as [ old | ] eqn:E; simpl.
      - apply (Hd _ _ (get_In _ _ _ E)).
      - split; [ apply distinct_keys2_nil | apply keys2_in_nil ]. }
    destruct Hold as [Hdist Hkeys]. unfold set2, set.
    split; [ exact H1 | split ].
    + apply upd2_distinct, Hdist.
    + apply upd2_keys; assumption.
Qed.

Lemma id_trigrams_of_spec (word_to_id : dict string nat)
  (raw : dict string (dict string (dict string nat))) :
  keys3_ok (id_of_word word_to_id) (Builder.id_trigrams_of word_to_id raw).
Proof.
  unfold Builder.id_trigrams_of.
  apply fold_left_invariant.
  - split; [ constructor | intros k v [] ].
  - intros s0 [word1 word2_dict] _ IH1.
    destruct (get word1 word_to_id) as [ word1_id | ] eqn:E1; [ | exact IH1 ].
    apply fold_left_invariant; [ exact IH1 | ].
    intros s1 [word2 word3_counts] _ IH2.
    destruct (get word2 word_to_id) as [ word2_id | ] eqn:E2; [ | exact IH2 ].
    apply fold_left_invariant; [ exact IH2 | ].
    intros s2 [word3 count] _ IH3.
    destruct (get word3 word_to_id) as [ word3_id | ] eqn:E3; [ | exact IH3 ].
    apply set3_keys3_ok; [ exists word1 | exists word2 | exists word3 | ]; assumption.
Qed.

Lemma prune_trigrams_spec (id_to_word : dict nat string)
  (id_trigrams : dict nat (dict nat (dict nat nat)))
  (final : dict string (dict string (dict ascii (list nat)))) :
  Builder.prune_trigrams id_to_word id_trigrams = Ok final ->
  forall key1 by_word2,
    In (key1, by_word2) final ->
    exists word1 word2_dict,
      In (word1, word2_dict) id_trigrams
      /\ key1 = str_of_nat word1
      /\ prune_table Builder.TOP_K_PER_LETTER_TRIGRAM Builder.MIN_TRIGRAM_FREQ
           id_to_word word2_dict = Ok by_word2.
Proof.
  unfold Builder.prune_trigrams. intros Hrun.
  pattern final. eapply foldM_invariant; [ | | exact Hrun ].
  - intros key1 by_word2 [].
  - clear Hrun. intros s0 [word1_id word2_dict] s1 Hitem IH Hbody key1 by_word2 Hin.
    inv_bind Hbody. rename a into w1t.
    destruct w1t as [ | g gs ].
    + injection Hbody as <-. apply IH, Hin.
    + injection Hbody as <-. unfold set in Hin. apply In_upd_inv in Hin.
      destruct Hin as [ Hold | [-> ->] ]; [ apply IH, Hold | ].
      exists word1_id, word2_dict. auto.
Qed.

Lemma prune_trigrams_ok (Q : nat -> Prop) (id_to_word : dict nat string)
  (id_trigrams : dict nat (dict nat (dict nat nat)))
  (final : dict string (dict string (dict ascii (list nat)))) :
  keys3_ok Q id_trigrams ->
  Builder.prune_trigrams id_to_word id_trigrams = Ok final ->
  trigram_table_ok 20 2 id_to_word id_trigrams final.
Proof.
  intros [Hnd Hd] Hrun key1 by_word2 Hin.
  destruct (prune_trigrams_spec _ _ _ Hrun _ _ Hin) as [word1 [w2d [Hitem [-> Hprune]]]].
  exists word1. split; [ reflexivity | split ].
  - apply (in_map fst) in Hitem. exact Hitem.
  - rewrite (In_get _ _ _ Hnd Hitem). simpl.
    apply prune_table_ok in Hprune; [ exact Hprune | unfold Builder.TOP_K_PER_LETTER_TRIGRAM; lia | ].
    apply (Hd _ _ Hitem).
Qed.

(** ** The vocabulary list of the main block *)

Lemma mapM_getitem_enumerate (vocab : list string) :
  mapM (fun i => getitem i (enumerate vocab))
    (seq 0 (List.length (enumerate vocab))) = Ok vocab.
Proof.
  apply Forall2_mapM_Ok.
  assert (Hlen : List.length (enumerate vocab) = List.length vocab).
  { rewrite <- (length_map snd), enumerate_snd. reflexivity. }
  rewrite Hlen.
  assert (G : forall pre l,
             vocab = pre ++ l ->
             Forall2 (fun i y => getitem i (enumerate vocab) = Ok y)
               (seq (List.length pre) (List.length l)) l).
  { intros pre l. revert pre.
    induction l as [ | y l IH ]; intros pre E; simpl; constructor.
    - apply getitem_Ok, In_get; [ apply NoDup_enumerate_keys | ].
      apply In_enumerate. rewrite E, nth_error_app2, Nat.sub_diag by lia. reflexivity.
    - replace (S (List.length pre)) with (List.length (pre ++ [y]))
        by (rewrite length_app; simpl; lia).
      apply IH. rewrite <- app_assoc. exact E. }
  apply (G [] vocab). reflexivity.
Qed.

End PruneFacts.

(* ================================================================== *)
(** * The order of the scores *)

Module FloatFacts.

(** The comparison of the specification floats, on anything but NaN, is a
    strict weak order. *)

Ltac cases_of_compare :=
  repeat match goal with
    | H : context [ Pos.compare_cont Eq ?a ?b ] |- _ =>
        change (Pos.compare_cont Eq a b) with (Pos.compare a b) in H
    | |- context [ Pos.compare_cont Eq ?a ?b ] =>
        change (Pos.compare_cont Eq a b) with (Pos.compare a b)
    end;
  repeat match goal with
    | H : context [ Z.compare ?a ?b ] |- _ => destruct (Z.compare_spec a b)
    | |- context [ Z.compare ?a ?b ] => destruct (Z.compare_spec a b)
    | H : context [ Pos.compare ?a ?b ] |- _ => destruct (Pos.compare_spec a b)
    | |- context [ Pos.compare ?a ?b ] => destruct (Pos.compare_spec a b)
    end;
  simpl in *; subst; try discriminate; try reflexivity; try lia; auto.

Lemma SFltb_irrefl (a : spec_float) : SFltb a a = false.
Proof.
  unfold SFltb, SFcompare.
  destruct a as [ s | s | | s m e ]; try destruct s; simpl; try reflexivity;
    cases_of_compare.
Qed.

Lemma SFltb_asym (a b : spec_float) : SFltb a b = true -> SFltb b a = false.
Proof.
  unfold SFltb, SFcompare.
  destruct a as [ sa | sa | | sa ma ea ], b as [ sb | sb | | sb mb eb ];
    try destruct sa; try destruct sb; simpl; try discriminate; try reflexivity;
    intros Hab; cases_of_compare.
Qed.

Lemma SFltb_cotrans (a b c : spec_float) :
  b <> S754_nan -> SFltb a c = true -> SFltb a b = true \/ SFltb b c = true.
Proof.
  unfold SFltb, SFcompare. intros Hb.
  destruct a as [ sa | sa | | sa ma ea ], b as [ sb | sb | | sb mb eb ],
      c as [ sc | sc | | sc mc ec ];
    try congruence;
    try destruct sa; try destruct sb; try destruct sc; simpl;
    try discriminate; auto;
    intros Hac; cases_of_compare.
Qed.

(** The same for the scores. *)

Lemma ltb_irrefl (x : float) : (x <? x)%float = false.
Proof. rewrite ltb_spec. apply SFltb_irrefl. Qed.

Lemma ltb_asym (x y : float) : (x <? y)%float = true -> (y <? x)%float = false.
Proof. rewrite !ltb_spec. apply SFltb_asym. Qed.

Lemma is_nan_spec (x : float) : PrimFloat.is_nan x = false <-> Prim2SF x <> S754_nan.
Proof.
  unfold PrimFloat.is_nan. rewrite FloatAxioms.eqb_spec.
  unfold SFeqb, SFcompare.
  destruct (Prim2SF x) as [ s | s | | s m e ]; try destruct s; simpl;
    try (split; [ discriminate | reflexivity ]);
    try (split; [ intros; discriminate | congruence ]);
    try (split; [ congruence | intros; reflexivity ]).
  - rewrite Z.compare_refl.
    change (Pos.compare_cont Eq m m) with (Pos.compare m m).
    rewrite Pos.compare_refl. simpl. split; [ discriminate | reflexivity ].
  - rewrite Z.compare_refl.
    change (Pos.compare_cont Eq m m) with (Pos.compare m m).
    rewrite Pos.compare_refl. simpl. split; [ discriminate | reflexivity ].
Qed.

Lemma ltb_cotrans (x y z : float) :
  PrimFloat.is_nan y = false ->
  (x <? z)%float = true -> (x <? y)%float = true \/ (y <? z)%float = true.
Proof.
  rewrite is_nan_spec, !ltb_spec. apply SFltb_cotrans.
Qed.

(** Adding a score to the score [0.0] of an initial path gives no NaN. *)
Lemma add_zero_not_nan (s : float) :
  PrimFloat.is_nan s = false -> PrimFloat.is_nan (0 + s)%float = false.
Proof.
  rewrite !is_nan_spec, add_spec. unfold SF64add, SFadd.
  change (Prim2SF 0%float) with (S754_zero false).
  destruct (Prim2SF s) as [ sg | sg | | sg m e ]; try congruence;
    try destruct sg; simpl; discriminate.
Qed.

End FloatFacts.

(* ================================================================== *)
(** * backup/steganography.py: the beam and its width *)

Module BeamFacts.

Import PyFacts CollFacts StegFacts EncodeFacts VocabFacts FloatFacts Steg.

(** ** The head of a beam sorted by score *)

Section BestFirst.
Context {A : Type} (key : A -> float).

(** The first element of the sorted list is one of the list that no other
    beats. *)
Lemma sorted_desc_head (l : list A) :
  Forall (fun x => PrimFloat.is_nan (key x) = false) l ->
  l <> [] ->
  exists h rest,
    sorted_desc PrimFloat.ltb key l = h :: rest
    /\ In h l
    /\ forall y, In y l -> (key h <? key y)%float = false.
Proof.
  unfold sorted_desc, sort_by.
  induction 1 as [ | x l Hx Hl IH ]; intros Hne; [ congruence | ].
  destruct l as [ | x' l' ].
  - exists x, []. simpl. repeat split; [ left; reflexivity | ].
    intros y [ <- | [] ]. apply ltb_irrefl.
  - destruct IH as [h [rest [E [Hin Hmax]]]]; [ discriminate | ].
    change (fold_right (insert_by (fun q x0 => (key x0 <? key q)%float)) [] (x :: x' :: l'))
      with (insert_by (fun q x0 => (key x0 <? key q)%float) x
              (fold_right (insert_by (fun q x0 => (key x0 <? key q)%float)) [] (x' :: l'))).
    rewrite E. simpl insert_by.
    destruct (key x <? key h)%float eqn:Hlt.
    + exists h. eexists. split; [ reflexivity | split; [ right; exact Hin | ] ].
      intros y [ <- | Hy ]; [ apply ltb_asym, Hlt | apply Hmax, Hy ].
    + exists x. eexists. split; [ reflexivity | split; [ left; reflexivity | ] ].
      intros y [ <- | Hy ]; [ apply ltb_irrefl | ].
      destruct (key x <? key y)%float eqn:Hxy; [ | reflexivity ].
      assert (Hh : PrimFloat.is_nan (key h) = false).
      { rewrite Forall_forall in Hl. apply Hl, Hin. }
      destruct (ltb_cotrans _ _ _ Hh Hxy) as [ H1 | H2 ]; [ congruence | ].
      rewrite (Hmax y Hy) in H2. discriminate.
Qed.

(** Sorting a list whose keys are all the same leaves it as it is. *)
Lemma sorted_desc_const (k0 : float) (l : list A) :
  Forall (fun x => key x = k0) l -> sorted_desc PrimFloat.ltb key l = l.
Proof.
  unfold sorted_desc, sort_by.
  induction 1 as [ | x l Hx Hl IH ]; simpl; [ reflexivity | ].
  rewrite IH. destruct l as [ | q l ]; [ reflexivity | ].
  simpl. inversion Hl; subst. rewrite H1, ltb_irrefl. reflexivity.
Qed.

End BestFirst.

(** ** Slices by a positive width *)

Lemma slice_to_pos (A : Type) (w : Z) (l : list A) :
  (1 <= w)%Z -> slice_to w l = firstn (Z.to_nat w) l /\ 1 <= Z.to_nat w.
Proof.
  intros Hw. unfold slice_to. destruct (Z.leb_spec 0 w); [ | lia ].
  split; [ reflexivity | lia ].
Qed.

Lemma firstn_le_app (A : Type) (n1 n2 : nat) (l : list A) :
  n1 <= n2 -> exists rest, firstn n2 l = firstn n1 l ++ rest.
Proof.
  revert n2 l. induction n1 as [ | n1 IH ]; intros n2 l Hle.
  - exists (firstn n2 l). reflexivity.
  - destruct n2 as [ | n2 ]; [ lia | ].
    destruct l as [ | x l ]; [ exists []; reflexivity | ].
    destruct (IH n2 l) as [rest E]; [ lia | ].
    exists rest. simpl. rewrite E. reflexivity.
Qed.

(** ** The first round of the search *)

(** The initial path of a start candidate, and the path of a candidate of
    the first round. *)
Lemma prune_initial (w : Z) (ids : list nat) :
  (1 <= w)%Z ->
  prune w (map (fun w_id => {| sequence := [w_id]; score := 0%float |}) ids)
  = map (fun w_id => {| sequence := [w_id]; score := 0%float |})
      (firstn (Z.to_nat w) ids).
Proof.
  intros Hw. unfold prune.
  rewrite (sorted_desc_const score 0%float).
  - rewrite (proj1 (slice_to_pos _ w _ Hw)). apply firstn_map.
  - apply Forall_forall. intros p Hp.
    apply in_map_iff in Hp. destruct Hp as [i [<- _]]. reflexivity.
Qed.

Lemma expand_from (m : SteganographyLLM) (c : ascii) (beam : list Path) :
  forall acc,
    foldM (fun new_beam path => ext <- extend m c path ;; Ok (new_beam ++ ext)) beam acc
    = (r <- expand m c beam ;; Ok (acc ++ r)).
Proof.
  unfold expand.
  induction beam as [ | p beam IH ]; intros acc; simpl.
  - rewrite app_nil_r. reflexivity.
  - destruct (extend m c p) as [ ext | e ]; simpl; [ | reflexivity ].
    rewrite (IH (acc ++ ext)), (IH ext).
    destruct (foldM _ beam []) as [ r | e ]; simpl; [ | reflexivity ].
    rewrite app_assoc. reflexivity.
Qed.

Lemma expand_initial (m : SteganographyLLM) (c : ascii) (ids : list nat) :
  expand m c (map (fun w_id => {| sequence := [w_id]; score := 0%float |}) ids)
  = Ok (flat_map
          (fun w_id =>
             map (fun cand => {| sequence := [w_id; fst cand];
                                 score := (0 + snd cand)%float |})
               (get_candidates m w_id c))
          ids).
Proof.
  induction ids as [ | i ids IH ]; [ reflexivity | ].
  unfold expand. simpl. rewrite expand_from, IH. reflexivity.
Qed.

(** ** More on the trained model *)

Section TrainedModel.
Variable math_log : float -> float.

(** The scores of the transitions are values of [math.log]. *)
Lemma train_scores (P : float -> Prop) (corpus : string) (m : SteganographyLLM) :
  (forall x, P (math_log x)) ->
  train math_log init corpus = Ok m ->
  forall cur by_char c nexts,
    get cur (transitions m) = Some by_char ->
    get c by_char = Some nexts ->
    Forall (fun cand => P (snd cand)) nexts.
Proof.
  intros Hlog Hrun. unfold train in Hrun.
  inv_bind Hrun. rename a into wbc, Hbind into Hwbc.
  inv_bind Hrun. rename a into counts, Hbind into Hcounts.
  inv_bind Hrun. rename a into tr, Hbind into Htr.
  injection Hrun as <-. cbn [transitions].
  pattern tr. eapply foldM_invariant; [ | | exact Htr ].
  - intros cur by_char c nexts. simpl. discriminate.
  - intros s0 [curr_id next_ids] s1 _ IH Hbody. unfold log_probs in Hbody.
    pattern s1. eapply foldM_invariant; [ exact IH | | exact Hbody ].
    clear IH Hbody. intros t0 [next_id count] t1 _ IH Hbody cur by_char c nexts.
    inv_bind Hbody. rename a into next_word.
    inv_bind Hbody. rename a into start_char.
    inv_bind Hbody. rename a into q.
    injection Hbody as <-. unfold set_transition.
    destruct (Nat.eqb_spec cur curr_id) as [ -> | Hne ].
    + rewrite get_upd_eq. intros [= <-].
      destruct (Ascii.eqb_spec c start_char) as [ -> | Hnec ].
      * rewrite get_upd_eq. intros [= <-].
        apply Forall_forall. intros [i s] Hin. unfold set in Hin.
        apply In_upd_inv in Hin. destruct Hin as [ Hold | [_ ->] ].
        -- destruct (get curr_id t0) as [ bc | ] eqn:E1; simpl in Hold.
           ++ destruct (get start_char bc) as [ ns | ] eqn:E2; simpl in Hold;
                [ | contradiction ].
              specialize (IH _ _ _ _ E1 E2). rewrite Forall_forall in IH.
              apply (IH (i, s)), Hold.
           ++ contradiction.
        -- simpl. apply Hlog.
      * rewrite get_upd_neq by assumption.
        destruct (get curr_id t0) as [ bc | ] eqn:E1; simpl; [ | discriminate ].
        apply (IH _ _ _ _ E1).
    + rewrite get_upd_neq by assumption. apply IH.
Qed.

(** Every word of the vocabulary is filed in [words_by_char] under its first
    character. *)
Lemma words_by_char_loop (word_to_id : dict string nat) (l : list string) :
  forall s r : dict ascii (list nat),
    foldM (fun wbc w =>
             c <- first_char w ;;
             i <- getitem w word_to_id ;;
             Ok (append_to c i wbc)) l s = Ok r ->
    (forall c ids, get c s = Some ids ->
                   exists ids', get c r = Some ids' /\ incl ids ids')
    /\ (forall w, In w l ->
                  exists c i ids,
                    first_char w = Ok c /\ get w word_to_id = Some i
                    /\ get c r = Some ids /\ In i ids).
Proof.
  induction l as [ | x l IH ]; intros s r Hrun; simpl in Hrun.
  - injection Hrun as <-. split.
    + intros c ids Hg. exists ids. split; [ exact Hg | apply incl_refl ].
    + intros w [].
  - inv_bind Hrun. rename a into s'.
    inv_bind Hbind. rename a into c0. inv_bind Hbind. rename a into i0.
    injection Hbind as <-. apply getitem_Ok in Hbind1.
    destruct (IH _ _ Hrun) as [Hmono Hall].
    assert (Hstep : forall c ids, get c s = Some ids ->
                                  exists ids', get c (append_to c0 i0 s) = Some ids'
                                               /\ incl ids ids').
    { intros c ids Hg. unfold append_to.
      destruct (Ascii.eqb_spec c c0) as [ -> | Hne ].
      - rewrite get_upd_eq, Hg. simpl. eexists. split; [ reflexivity | ].
        apply incl_appl, incl_refl.
      - rewrite get_upd_neq by assumption. exists ids.
        split; [ exact Hg | apply incl_refl ]. }
    split.
    + intros c ids Hg. destruct (Hstep _ _ Hg) as [ids1 [Hg1 Hi1]].
      destruct (Hmono _ _ Hg1) as [ids2 [Hg2 Hi2]].
      exists ids2. split; [ exact Hg2 | eapply incl_tran; eassumption ].
    + intros w [ <- | Hw ]; [ | apply Hall, Hw ].
      assert (Hg1 : get c0 (append_to c0 i0 s)
                    = Some (or_default [] (get c0 s) ++ [i0])).
      { unfold append_to. rewrite get_upd_eq. reflexivity. }
      destruct (Hmono _ _ Hg1) as [ids2 [Hg2 Hi2]].
      exists c0, i0, ids2. repeat split; try assumption.
      apply Hi2, in_or_app. right. left. reflexivity.
Qed.

Lemma train_words_by_char (corpus : string) (m : SteganographyLLM) (i : nat)
  (w : string) (c : ascii) :
  train math_log init corpus = Ok m ->
  nth_error (vocab m) i = Some w -> first_char w = Ok c ->
  exists ids, get c (words_by_char m) = Some ids /\ In i ids.
Proof.
  intros Hrun Hn Hc.
  pose proof (train_vocab _ _ _ Hrun) as Hvocab.
  unfold train in Hrun.
  inv_bind Hrun. rename a into wbc, Hbind into Hwbc.
  inv_bind Hrun. inv_bind Hrun. injection Hrun as <-.
  cbn [vocab words_by_char] in *.
  destruct (words_by_char_loop _ _ _ _ Hwbc) as [_ Hall].
  destruct (Hall w (nth_error_In _ _ Hn)) as [c' [i' [ids [Hc' [Hi' [Hg Hin]]]]]].
  assert (c' = c) by congruence. subst c'.
  assert (i' = i).
  { apply word_to_id_of_spec in Hi';
      [ | apply (proj1 (unique_words_spec (preprocess corpus))) ].
    destruct (unique_words_spec (preprocess corpus)) as [Hnd _].
    apply (proj1 (NoDup_nth_error _) Hnd); [ | congruence ].
    apply nth_error_Some. congruence. }
  subst i'. exists ids. split; assumption.
Qed.

(** A word that has a bigram successor for a character has a fallback pool
    for it. *)
Lemma trained_pool (corpus : string) (m : SteganographyLLM) (cur : nat) (c : ascii) :
  train math_log init corpus = Ok m ->
  strategy_a m cur c <> [] ->
  get_default c [] (words_by_char m) <> [].
Proof.
  intros Hrun Ha.
  destruct (train_wf _ _ _ Hrun) as [_ Htr].
  unfold strategy_a in Ha.
  destruct (get cur (transitions m)) as [ by_char | ] eqn:E1; [ | congruence ].
  destruct (get c by_char) as [ nexts | ] eqn:E2; [ | congruence ].
  destruct nexts as [ | cand nexts ]; [ congruence | ].
  specialize (Htr _ _ _ _ E1 E2). inversion Htr as [ | ? ? [w [Hw [_ Hc]]] _ ]; subst.
  rewrite (train_id_to_word _ _ _ Hrun) in Hw.
  destruct (train_words_by_char _ _ _ _ _ Hrun Hw Hc) as [ids [Hg Hin]].
  unfold get_default. rewrite Hg. intros ->. contradiction.
Qed.

(** A dead end for one path is a dead end for every path. *)
Lemma dead_end_everywhere (corpus : string) (m : SteganographyLLM) (w0 : nat)
  (c : ascii) :
  train math_log init corpus = Ok m ->
  get_candidates m w0 c = [] ->
  forall w, get_candidates m w c = [].
Proof.
  intros Hrun H0 w. unfold get_candidates in *.
  destruct (strategy_a m w0 c) as [ | cand0 l0 ] eqn:E0; [ | discriminate ].
  assert (Hpool : get_default c [] (words_by_char m) = []).
  { unfold strategy_b in H0. apply map_eq_nil in H0.
    apply slice_to_nil_inv in H0; [ exact H0 | lia ]. }
  destruct (strategy_a m w c) as [ | cand l ] eqn:E; [ exact H0 | ].
  exfalso. apply (trained_pool corpus m w c Hrun); [ congruence | exact Hpool ].
Qed.

(** No candidate has a NaN score, if [math.log] returns none. *)
Lemma candidates_not_nan (corpus : string) (m : SteganographyLLM) (cur : nat)
  (c : ascii) :
  (forall x, PrimFloat.is_nan (math_log x) = false) ->
  train math_log init corpus = Ok m ->
  Forall (fun cand => PrimFloat.is_nan (snd cand) = false) (get_candidates m cur c).
Proof.
  intros Hlog Hrun. unfold get_candidates.
  assert (Hb : Forall (fun cand => PrimFloat.is_nan (snd cand) = false) (strategy_b m c)).
  { unfold strategy_b. apply Forall_forall. intros cand Hin.
    apply in_map_iff in Hin. destruct Hin as [i [<- _]]. reflexivity. }
  destruct (strategy_a m cur c) as [ | cand l ] eqn:E; [ exact Hb | ].
  unfold strategy_a in E.
  destruct (get cur (transitions m)) as [ by_char | ] eqn:E1; [ | discriminate ].
  destruct (get c by_char) as [ nexts | ] eqn:E2; [ | discriminate ].
  subst nexts.
  apply (train_scores (fun s => PrimFloat.is_nan s = false) corpus m Hlog Hrun _ _ _ _ E1 E2).
Qed.

End TrainedModel.

(** ** The searches of at most one round *)

Lemma best_score_one (m : SteganographyLLM) (ht : string) (w : Z) (c0 : ascii) :
  (1 <= w)%Z -> Steg.target_chars ht = [c0] ->
  Steg.best_score m ht w =
  match get_default c0 [] (Steg.words_by_char m) with
  | [] => Raise IndexError
  | _ :: _ => Ok (Some 0%float)
  end.
Proof.
  intros Hw HT. unfold Steg.best_score, Steg.encode_path. rewrite HT.
  unfold Steg.beam_search. rewrite prune_initial by assumption.
  destruct (slice_to_pos Steg.Path w [] Hw) as [_ Hn].
  destruct (Z.to_nat w) as [ | n ]; [ lia | ].
  destruct (get_default c0 [] (Steg.words_by_char m)); reflexivity.
Qed.

Lemma best_score_two (m : SteganographyLLM) (ht : string) (w : Z) (c0 c1 : ascii) :
  (1 <= w)%Z -> Steg.target_chars ht = [c0; c1] ->
  Steg.best_score m ht w =
  let ids := firstn (Z.to_nat w) (get_default c0 [] (Steg.words_by_char m)) in
  match first_round m c1 ids with
  | [] => match ids with [] => Raise IndexError | _ :: _ => Ok (Some 0%float) end
  | new_beam =>
      best <- first_item (Steg.prune w new_beam) ;; Ok (Some (Steg.score best))
  end.
Proof.
  intros Hw HT. unfold Steg.best_score, Steg.encode_path. rewrite HT.
  unfold Steg.beam_search. rewrite prune_initial by assumption.
  cbn [Steg.search]. rewrite expand_initial. cbn [bind].
  cbv zeta. unfold first_round.
  destruct (flat_map _ _) as [ | p nb ] eqn:E.
  - cbn [bind]. destruct (firstn _ _); reflexivity.
  - cbn [Steg.search bind].
    destruct (first_item _); reflexivity.
Qed.

Lemma first_round_app (m : SteganographyLLM) (c1 : ascii) (l1 l2 : list nat) :
  first_round m c1 (l1 ++ l2) = first_round m c1 l1 ++ first_round m c1 l2.
Proof. unfold first_round. apply flat_map_app. Qed.

Lemma first_round_dead_end (math_log : float -> float) (corpus : string)
  (m : SteganographyLLM) (c1 : ascii) (i0 : nat) :
  Steg.train math_log Steg.init corpus = Ok m ->
  Steg.get_candidates m i0 c1 = [] ->
  forall ids, first_round m c1 ids = [].
Proof.
  intros Htrain Ec ids. unfold first_round.
  induction ids as [ | i ids IH ]; simpl; [ reflexivity | ].
  rewrite IH, (dead_end_everywhere math_log corpus m i0 c1 Htrain Ec i). reflexivity.
Qed.

Lemma first_round_not_nan (math_log : float -> float) (corpus : string)
  (m : SteganographyLLM) (c1 : ascii) (ids : list nat) :
  (forall x, PrimFloat.is_nan (math_log x) = false) ->
  Steg.train math_log Steg.init corpus = Ok m ->
  Forall (fun p => PrimFloat.is_nan (Steg.score p) = false) (first_round m c1 ids).
Proof.
  intros Hlog Htrain. apply Forall_forall. intros p Hp.
  unfold first_round in Hp. apply in_flat_map in Hp. destruct Hp as [i [_ Hp]].
  apply in_map_iff in Hp. destruct Hp as [cand [<- Hcand]]. simpl.
  apply add_zero_not_nan.
  pose proof (candidates_not_nan math_log corpus m i c1 Hlog Htrain) as Hc.
  rewrite Forall_forall in Hc. apply Hc, Hcand.
Qed.

(** The best path of a pruned beam. *)
Lemma first_item_prune (w : Z) (beam : list Steg.Path) :
  (1 <= w)%Z ->
  Forall (fun p => PrimFloat.is_nan (Steg.score p) = false) beam ->
  beam <> [] ->
  exists best,
    first_item (Steg.prune w beam) = Ok best
    /\ In best beam
    /\ forall p, In p beam -> (Steg.score best <? Steg.score p)%float = false.
Proof.
  intros Hw Hnan Hne.
  destruct (sorted_desc_head Steg.score beam Hnan Hne) as [h [r [Es [Hin Hmax]]]].
  exists h. unfold Steg.prune. rewrite Es.
  destruct (slice_to_pos Steg.Path w (h :: r) Hw) as [-> Hn].
  destruct (Z.to_nat w) as [ | n ]; [ lia | ].
  repeat split; assumption.
Qed.

End BeamFacts.

(* ================================================================== *)
(** * backup/steganography.py: which calls return *)

Module TotalFacts.

Import PyFacts CollFacts StegFacts EncodeFacts VocabFacts Steg.

Lemma In_pairs (A : Type) (l : list A) (a b : A) :
  In (a, b) (pairs l) -> In a l /\ In b l.
Proof.
  induction l as [ | x l IH ]; [ intros [] | ].
  destruct l as [ | y l ]; [ intros [] | ].
  change (pairs (x :: y :: l)) with ((x, y) :: pairs (y :: l)).
  intros [ [= <- <-] | Hin ].
  - split; [ left | right; left ]; reflexivity.
  - destruct (IH Hin) as [Ha Hb]. split; right; assumption.
Qed.

Lemma list_sum_ge (K : Type) (d : dict K nat) (k : K) (n : nat) :
  In (k, n) d -> n <= list_sum (values d).
Proof.
  unfold values.
  induction d as [ | [k' n'] d IH ]; [ intros [] | ].
  simpl. intros [ [= <- <-] | Hin ]; [ lia | ].
  specialize (IH Hin). lia.
Qed.



Lemma last_item_total (A : Type) (l : list A) : l <> [] -> exists x, last_item l = Ok x.
Proof.
  induction l as [ | x l IH ]; [ congruence | ]. intros _.
  destruct l as [ | y l ]; [ exists x; reflexivity | ].
  destruct IH as [z Hz]; [ discriminate | ]. exists z. exact Hz.
Qed.

Lemma prune_nonempty (beam_width : Z) (beam : list Path) :
  (1 <= beam_width)%Z -> beam <> [] -> prune beam_width beam <> [].
Proof.
  intros Hw Hne E. unfold prune in E.
  apply slice_to_nil_inv in E; [ | exact Hw ].
  unfold sorted_desc in E. apply sort_by_nil_inv in E. contradiction.
Qed.

Lemma expand_total (m : SteganographyLLM) (c : ascii) (beam : list Path) :
  Forall (fun p => sequence p <> []) beam ->
  exists new_beam, expand m c beam = Ok new_beam.
Proof.
  intros Hseq. unfold expand.
  destruct (foldM_total _ _ (fun _ : list Path => True)
              (fun new_beam path => ext <- extend m c path ;; Ok (new_beam ++ ext))
              beam [] I) as [r [E _]]; [ | exists r; exact E ].
  intros s0 p Hp _. unfold extend.
  rewrite Forall_forall in Hseq.
  destruct (last_item_total _ _ (Hseq p Hp)) as [x ->]. simpl. eauto.
Qed.

Lemma spells_nonempty (m : SteganographyLLM) (cs : list ascii) (p : Path) :
  cs <> [] -> spells m cs p -> sequence p <> [].
Proof.
  unfold spells. intros Hcs Hp E. rewrite E in Hp. inversion Hp. congruence.
Qed.

Lemma search_total (m : SteganographyLLM) (beam_width : Z) :
  wf_model m -> (1 <= beam_width)%Z ->
  forall (rest : list ascii) (beam : list Path) (char_idx : nat) (done : list ascii),
    done <> [] -> beam <> [] -> Forall (spells m done) beam ->
    exists out dead_end,
      search m beam_width beam rest char_idx = Ok (out, dead_end) /\ out <> [].
Proof.
  intros Hwf Hw.
  induction rest as [ | c rest IH ]; intros beam idx done Hdone Hne Hbeam; simpl.
  - exists beam, None. split; [ reflexivity | exact Hne ].
  - destruct (expand_total m c beam) as [new_beam Hexp].
    { eapply Forall_impl; [ | exact Hbeam ]. intros p. apply spells_nonempty, Hdone. }
    rewrite Hexp. cbn [bind].
    pose proof (expand_spells _ _ _ _ _ Hwf Hbeam Hexp) as Hnew.
    destruct new_beam as [ | p new_beam ].
    + exists beam, (Some idx). split; [ reflexivity | exact Hne ].
    + apply (IH _ _ (done ++ [c])).
      * intros E. apply app_eq_nil in E. destruct E; discriminate.
      * apply prune_nonempty; [ exact Hw | discriminate ].
      * apply prune_Forall, Hnew.
Qed.

Lemma render_total (m : SteganographyLLM) (cs : list ascii) (p : Path) :
  spells m cs p -> exists sentence, render m p = Ok sentence.
Proof.
  unfold spells, render. intros Hp.
  assert (Hwords : exists words,
             mapM (fun i => getitem i (id_to_word m)) (sequence p) = Ok words).
  { induction Hp as [ | i c ids cs' [w [Hw _]] _ [ws IH] ].
    - exists []. reflexivity.
    - exists (w :: ws). simpl. apply getitem_Ok in Hw. rewrite Hw, IH. reflexivity. }
  destruct Hwords as [words ->]. simpl. eauto.
Qed.


End TotalFacts.

(* ================================================================== *)
(** * backup/steganography.py: how far [encode] gets *)

Module CoverFacts.

Import PyFacts CollFacts StegFacts EncodeFacts BeamFacts TotalFacts Steg.

Lemma covered_spec (tokens : list string) (c : ascii) :
  covered tokens c = true <-> exists w, In w tokens /\ first_char w = Ok c.
Proof.
  unfold covered. rewrite existsb_exists. split; intros [w [Hin Hw]]; exists w.
  - split; [ exact Hin | ]. destruct w as [ | c' w ]; [ discriminate | ].
    simpl in Hw. apply Ascii.eqb_eq in Hw. subst. reflexivity.
  - split; [ exact Hin | ]. destruct w as [ | c' w ]; [ discriminate | ].
    injection Hw as ->. simpl. apply Ascii.eqb_refl.
Qed.

Section Trained.
Variable math_log : float -> float.
Variables (corpus : string) (m : SteganographyLLM).
Hypothesis Htrain : train math_log init corpus = Ok m.

(** The fallback pool of a character is not empty exactly when a token of the
    corpus starts with it. *)
Lemma pool_covered (c : ascii) :
  get_default c [] (words_by_char m) <> [] <-> covered (preprocess corpus) c = true.
Proof.
  rewrite covered_spec.
  pose proof (train_vocab _ _ _ Htrain) as Hvocab.
  destruct (unique_words_spec (preprocess corpus)) as [_ Hin].
  rewrite <- Hvocab in Hin.
  split.
  - intros Hpool. unfold get_default in Hpool.
    destruct (get c (words_by_char m)) as [ ids | ] eqn:Eg; [ | congruence ].
    destruct ids as [ | i ids ]; [ congruence | ].
    destruct (train_wf _ _ _ Htrain) as [Hwbc _].
    specialize (Hwbc _ _ Eg). inversion Hwbc as [ | ? ? [w [Hw [_ Hc]]] _ ]; subst.
    exists w. split; [ | exact Hc ].
    rewrite (train_id_to_word _ _ _ Htrain) in Hw.
    apply Hin. eapply nth_error_In, Hw.
  - intros [w [Hw Hc]]. apply Hin, In_nth_error in Hw. destruct Hw as [i Hi].
    destruct (train_words_by_char _ _ _ _ _ _ Htrain Hi Hc) as [ids [Hg Hids]].
    unfold get_default. rewrite Hg. intros ->. contradiction.
Qed.

(** A path finds candidates for a character exactly when the pool of the
    character is not empty, whatever its last word. *)
Lemma candidates_covered (cur : nat) (c : ascii) :
  get_candidates m cur c <> [] <-> covered (preprocess corpus) c = true.
Proof.
  rewrite <- pool_covered. unfold get_candidates.
  destruct (strategy_a m cur c) as [ | cand cands ] eqn:Ea.
  - unfold strategy_b. split.
    + intros Hb Hpool. rewrite Hpool in Hb. apply Hb.
      destruct (slice_to_firstn _ 10 (@nil nat)) as [k ->]. rewrite firstn_nil. reflexivity.
    + intros Hpool Hb. apply map_eq_nil in Hb.
      apply slice_to_nil_inv in Hb; [ contradiction | lia ].
  - split; [ intros _ | discriminate ].
    apply (trained_pool _ _ _ cur c Htrain). rewrite Ea. discriminate.
Qed.

Lemma expand_cons (c : ascii) (p : Path) (beam : list Path) :
  expand m c (p :: beam)
  = (ext <- extend m c p ;; r <- expand m c beam ;; Ok (ext ++ r)).
Proof.
  unfold expand at 1. simpl. destruct (extend m c p) as [ ext | e ]; [ | reflexivity ].
  simpl. apply expand_from.
Qed.

Lemma expand_covered (c : ascii) (beam new_beam : list Path) :
  covered (preprocess corpus) c = true -> beam <> [] ->
  expand m c beam = Ok new_beam -> new_beam <> [].
Proof.
  intros Hc Hne Hrun. destruct beam as [ | p beam ]; [ congruence | ].
  rewrite expand_cons in Hrun. inv_bind Hrun. rename a into ext. inv_bind Hrun.
  injection Hrun as <-.
  unfold extend in Hbind. inv_bind Hbind. injection Hbind as <-.
  intros E. apply app_eq_nil in E. destruct E as [E _].
  apply map_eq_nil in E. revert E. apply candidates_covered, Hc.
Qed.

Lemma expand_uncovered (c : ascii) (beam new_beam : list Path) :
  covered (preprocess corpus) c = false ->
  expand m c beam = Ok new_beam -> new_beam = [].
Proof.
  intros Hc. revert new_beam.
  induction beam as [ | p beam IH ]; intros new_beam Hrun.
  - injection Hrun as <-. reflexivity.
  - rewrite expand_cons in Hrun. inv_bind Hrun. rename a into ext. inv_bind Hrun.
    injection Hrun as <-. rewrite (IH _ Hbind0), app_nil_r.
    unfold extend in Hbind. inv_bind Hbind. injection Hbind as <-.
    destruct (get_candidates m a0 c) eqn:E; [ reflexivity | ].
    assert (Hcov : covered (preprocess corpus) c = true).
    { apply (candidates_covered a0 c). rewrite E. discriminate. }
    congruence.
Qed.

(** The loop of [encode] consumes the longest prefix of the remaining
    characters that the corpus covers, and stops there with a dead end when
    the prefix is not all of them. *)
Lemma search_covered_prefix (beam_width : Z) :
  (1 <= beam_width)%Z ->
  forall (rest : list ascii) (beam : list Path) (char_idx : nat) (done : list ascii),
    done <> [] -> beam <> [] -> Forall (spells m done) beam ->
    exists out,
      search m beam_width beam rest char_idx
      = Ok (out,
            if List.length (covered_prefix (preprocess corpus) rest) =? List.length rest
            then None
            else Some (char_idx + List.length (covered_prefix (preprocess corpus) rest)))
      /\ out <> []
      /\ Forall (spells m (done ++ covered_prefix (preprocess corpus) rest)) out.
Proof.
  intros Hw. pose proof (train_wf _ _ _ Htrain) as Hwf.
  induction rest as [ | c rest IH ]; intros beam idx done Hdone Hne Hbeam.
  - exists beam. simpl. rewrite app_nil_r. repeat split; assumption.
  - destruct (expand_total m c beam) as [new_beam Hexp].
    { eapply Forall_impl; [ | exact Hbeam ]. intros p. apply spells_nonempty, Hdone. }
    cbn [search covered_prefix]. rewrite Hexp. cbn [bind].
    destruct (covered (preprocess corpus) c) eqn:Hc.
    + pose proof (expand_covered _ _ _ Hc Hne Hexp) as Hnew.
      destruct (IH (prune beam_width new_beam) (S idx) (done ++ [c])) as [out [E [Hout Hsp]]].
      * intros E. apply app_eq_nil in E. destruct E; discriminate.
      * apply prune_nonempty; assumption.
      * apply prune_Forall. apply (expand_spells _ _ _ _ _ Hwf Hbeam Hexp).
      * exists out. destruct new_beam as [ | p new_beam ]; [ congruence | ].
        rewrite E. rewrite <- app_assoc in Hsp. simpl in Hsp.
        split; [ | split; assumption ].
        cbn [List.length]. rewrite Nat.add_succ_r. reflexivity.
    + rewrite (expand_uncovered _ _ _ Hc Hexp). exists beam.
      simpl. rewrite app_nil_r, Nat.add_0_r. repeat split; assumption.
Qed.

End Trained.

Lemma search_nil (m : SteganographyLLM) (beam_width : Z) (rest : list ascii) (char_idx : nat) :
  exists dead_end, search m beam_width [] rest char_idx = Ok ([], dead_end).
Proof.
  destruct rest as [ | c rest ]; simpl; eauto.
Qed.

Lemma prune_nil (beam_width : Z) : prune beam_width [] = [].
Proof.
  unfold prune. destruct (slice_to_firstn _ beam_width (sorted_desc PrimFloat.ltb score []))
    as [k ->]. apply firstn_nil.
Qed.

(** ** The words and the width of the beam *)

Lemma firstn_length_firstn (A : Type) (k : nat) (l : list A) :
  firstn (List.length (firstn k l)) l = firstn k l.
Proof.
  revert l. induction k as [ | k IH ]; intros [ | x l ]; simpl; try reflexivity.
  rewrite IH. reflexivity.
Qed.

(** The words [render] joins are the words of the path. *)
Lemma render_words (m : SteganographyLLM) (cs : list ascii) (p : Path) (sentence : string) :
  spells m cs p -> render m p = Ok sentence ->
  exists words,
    sentence = str (capitalize (join (chars " ") words) ++ chars ".")
    /\ Forall2 (fun w i => get i (id_to_word m) = Some w) words (sequence p)
    /\ Forall2 (fun w c => first_char w = Ok c) words cs.
Proof.
  unfold spells, render. intros Hp Hrun.
  inv_bind Hrun. rename a into words. injection Hrun as <-.
  exists words. split; [ reflexivity | ].
  apply mapM_Ok_Forall2 in Hbind.
  revert cs Hp. induction Hbind as [ | i w ids ws Hiw _ IH ]; intros cs Hp.
  - inversion Hp; subst. split; constructor.
  - inversion Hp as [ | ? c ? cs' [w' [Hw' [_ Hc]]] Hrest ]; subst.
    apply getitem_Ok in Hiw. rewrite Hiw in Hw'. injection Hw' as <-.
    destruct (IH _ Hrest) as [H1 H2].
    split; constructor; assumption.
Qed.

Lemma search_width (m : SteganographyLLM) (beam_width : Z) :
  (0 <= beam_width)%Z ->
  forall (rest : list ascii) (beam : list Path) (char_idx : nat)
         (out : list Path) (dead_end : option nat),
    List.length beam <= Z.to_nat beam_width ->
    search m beam_width beam rest char_idx = Ok (out, dead_end) ->
    List.length out <= Z.to_nat beam_width.
Proof.
  intros Hw. induction rest as [ | c rest IH ]; intros beam idx out de Hlen Hrun.
  - injection Hrun as <- <-. exact Hlen.
  - simpl in Hrun. inv_bind Hrun. rename a into new_beam.
    destruct new_beam as [ | p new_beam ].
    + injection Hrun as <- <-. exact Hlen.
    + apply IH in Hrun; [ exact Hrun | ]. apply slice_to_length, Hw.
Qed.

End CoverFacts.

(* ================================================================== *)
(** * The bigram counts and the scores of [train] *)

Module ScoreFacts.

Import PyFacts CollFacts StegFacts VocabFacts AggFacts PruneFacts TotalFacts Steg.

Lemma foldM_Ok_fold (A S : Type) (body : S -> A -> result S) (f : S -> A -> S) :
  forall (l : list A) (s : S),
    (forall s0 x, In x l -> body s0 x = Ok (f s0 x)) ->
    foldM body l s = Ok (fold_left f l s).
Proof.
  induction l as [ | x l IH ]; intros s Hb; [ reflexivity | ].
  simpl. rewrite Hb by (left; reflexivity). simpl.
  apply IH. intros s0 y Hy. apply Hb. right. exact Hy.
Qed.

Lemma fold_left_map (A B S : Type) (g : A -> B) (f : S -> B -> S) :
  forall (l : list A) (s : S),
    fold_left f (map g l) s = fold_left (fun s x => f s (g x)) l s.
Proof. induction l as [ | x l IH ]; intros s; [ reflexivity | apply IH ]. Qed.

Lemma occurrences_map (K1 K2 : Type) `{Key K1} `{Key K2} (f : K1 -> K2)
  (l : list K1) (k : K1) :
  (forall x, In x l -> f x = f k -> x = k) ->
  occurrences (f k) (map f l) = occurrences k l.
Proof.
  induction l as [ | x l IH ]; intros Hinj; [ reflexivity | ].
  simpl map. rewrite !occurrences_cons, IH by (intros y Hy; apply Hinj; right; exact Hy).
  f_equal.
  destruct (key_eqb_spec k x) as [ -> | Hne ].
  - rewrite key_eqb_refl. reflexivity.
  - rewrite key_eqb_neq; [ reflexivity | ].
    intros E. apply Hne. symmetry. apply Hinj; [ left; reflexivity | congruence ].
Qed.

Section Rows.
Context {K1 K2 : Type} `{Key K1} `{Key K2}.

Lemma list_sum_incr (k : K2) (row : dict K2 nat) :
  list_sum (values (incr k row)) = S (list_sum (values row)).
Proof.
  unfold incr, values. induction row as [ | [k' n] row IH ]; [ reflexivity | ].
  simpl. destruct (key_eqb k k'); simpl; [ lia | ]. rewrite IH. lia.
Qed.

Lemma row_total_incr2 (a : K1) (b : K2) (d : dict K1 (dict K2 nat)) (k : K1) :
  row_total (incr2 a b d) k = (if key_eqb k a then 1 else 0) + row_total d k.
Proof.
  unfold row_total, incr2.
  destruct (key_eqb_spec k a) as [ -> | Hne ].
  - rewrite get_upd_eq. simpl or_default at 1. rewrite list_sum_incr. reflexivity.
  - rewrite get_upd_neq by exact Hne. reflexivity.
Qed.

Lemma row_total_fold_incr2 (ps : list (K1 * K2)) (d : dict K1 (dict K2 nat)) (k : K1) :
  row_total (fold_left (fun raw cn => incr2 (fst cn) (snd cn) raw) ps d) k
  = occurrences k (map fst ps) + row_total d k.
Proof.
  revert d. induction ps as [ | [a b] ps IH ]; intros d; [ reflexivity | ].
  simpl fold_left. rewrite IH, row_total_incr2. simpl map. rewrite occurrences_cons.
  simpl. lia.
Qed.

Lemma incr2_positive (a : K1) (b : K2) (d : dict K1 (dict K2 nat)) :
  positive_counts d -> positive_counts (incr2 a b d).
Proof.
  intros Hd a' row b' n Hrow Hn. unfold incr2 in Hrow.
  apply In_upd_inv in Hrow. destruct Hrow as [ Hold | [-> ->] ].
  - apply (Hd _ _ _ _ Hold Hn).
  - unfold incr in Hn. apply In_upd_inv in Hn. destruct Hn as [ Hold | [-> ->] ].
    + destruct (get a d) as [ row | ] eqn:Eg; [ | destruct Hold ].
      apply get_In in Eg. apply (Hd _ _ _ _ Eg Hold).
    + destruct (get b _); lia.
Qed.

Lemma fold_incr2_ok (ps : list (K1 * K2)) :
  let d := fold_left (fun raw cn => incr2 (fst cn) (snd cn) raw) ps [] in
  distinct_keys2 d /\ positive_counts d.
Proof.
  apply (fold_left_invariant _ _ (fun d => distinct_keys2 d /\ positive_counts d)).
  - split; [ apply distinct_keys2_nil | intros ? ? ? ? [] ].
  - intros d [a b] _ [Hd Hp]. split.
    + apply upd2_distinct, Hd.
    + apply incr2_positive, Hp.
Qed.

(** With distinct keys and positive_counts counts, [count2] tells which items the
    table holds. *)
Lemma count2_pos_item (d : dict K1 (dict K2 nat)) (a : K1) (b : K2) :
  0 < count2 d a b ->
  exists row, get a d = Some row /\ get b row = Some (count2 d a b).
Proof.
  unfold count2, count1. intros Hpos.
  destruct (get a d) as [ row | ] eqn:Ea; [ | simpl in Hpos; lia ].
  exists row. split; [ reflexivity | ]. simpl in *.
  destruct (get b row) as [ n | ]; [ reflexivity | simpl in Hpos; lia ].
Qed.

Lemma count2_zero_item (d : dict K1 (dict K2 nat)) (a : K1) (b : K2) (row : dict K2 nat)
  (n : nat) :
  distinct_keys2 d -> positive_counts d ->
  count2 d a b = 0 -> In (a, row) d -> ~ In (b, n) row.
Proof.
  intros [Hnd Hrows] Hp Hz Hrow Hn.
  pose proof (Hp _ _ _ _ Hrow Hn) as Hpos.
  rewrite Forall_forall in Hrows. specialize (Hrows _ Hrow). simpl in Hrows.
  unfold count2, count1 in Hz.
  rewrite (In_get _ _ _ Hnd Hrow) in Hz. simpl in Hz.
  rewrite (In_get _ _ _ Hrows Hn) in Hz. simpl in Hz. lia.
Qed.

End Rows.

(** ** The id-keyed counts of [build_model] *)

Lemma raw_bigrams_counts (vocab tokens : list string) (raw : dict nat (dict nat nat)) :
  NoDup vocab -> (forall w, In w tokens -> In w vocab) ->
  BackupBuilder.raw_bigrams (word_to_id_of vocab) tokens = Ok raw ->
  distinct_keys2 raw /\ positive_counts raw
  /\ forall a b wa wb,
      nth_error vocab a = Some wa -> nth_error vocab b = Some wb ->
      count2 raw a b = occurrences (wa, wb) (pairs tokens)
      /\ row_total raw a = occurrences wa (map fst (pairs tokens)).
Proof.
  intros Hnd Hin Hrun. unfold BackupBuilder.raw_bigrams in Hrun.
  assert (Hid : forall w i, nth_error vocab i = Some w -> id_of (word_to_id_of vocab) w = i).
  { intros w i Hw. unfold id_of. apply word_to_id_of_spec in Hw; [ | exact Hnd ].
    rewrite Hw. reflexivity. }
  assert (Hinj : forall w w', In w vocab -> In w' vocab ->
                   id_of (word_to_id_of vocab) w = id_of (word_to_id_of vocab) w' -> w = w').
  { intros w w' Hw Hw' E. apply In_nth_error in Hw, Hw'.
    destruct Hw as [i Hi], Hw' as [i' Hi'].
    rewrite (Hid _ _ Hi), (Hid _ _ Hi') in E. subst i'. congruence. }
  set (idp := fun p : string * string =>
                (id_of (word_to_id_of vocab) (fst p), id_of (word_to_id_of vocab) (snd p))).
  assert (Hraw : raw = fold_left (fun raw cn => incr2 (fst cn) (snd cn) raw)
                         (map idp (pairs tokens)) []).
  { rewrite fold_left_map.
    rewrite (foldM_Ok_fold _ _ _ (fun raw x => incr2 (fst (idp x)) (snd (idp x)) raw)) in Hrun.
    - injection Hrun as <-. reflexivity.
    - intros s0 [w w'] Hp. apply In_pairs in Hp. destruct Hp as [Hw Hw'].
      apply Hin, In_nth_error in Hw, Hw'. destruct Hw as [i Hi], Hw' as [i' Hi'].
      apply word_to_id_of_spec in Hi, Hi'; try exact Hnd.
      unfold getitem. rewrite Hi, Hi'. simpl.
      unfold idp, id_of. simpl. rewrite Hi, Hi'. reflexivity. }
  destruct (fold_incr2_ok (map idp (pairs tokens))) as [Hdist Hpos].
  rewrite <- Hraw in Hdist, Hpos.
  split; [ exact Hdist | split; [ exact Hpos | ] ].
  intros a b wa wb Ha Hb.
  assert (Hawa : In wa vocab) by (eapply nth_error_In, Ha).
  assert (Hbwb : In wb vocab) by (eapply nth_error_In, Hb).
  split.
  - rewrite Hraw, count2_fold_incr2. unfold count2 at 1, count1. simpl.
    rewrite Nat.add_0_r.
    rewrite <- (Hid _ _ Ha), <- (Hid _ _ Hb).
    change (id_of (word_to_id_of vocab) wa, id_of (word_to_id_of vocab) wb)
      with (idp (wa, wb)).
    apply occurrences_map. intros [w w'] Hp E. apply In_pairs in Hp.
    destruct Hp as [Hw Hw']. apply Hin in Hw, Hw'.
    unfold idp in E. simpl in E. injection E as E1 E2.
    f_equal; apply Hinj; assumption.
  - rewrite Hraw, row_total_fold_incr2. unfold row_total at 1. simpl.
    rewrite Nat.add_0_r. rewrite map_map.
    rewrite <- (Hid _ _ Ha).
    change (fun x => fst (idp x))
      with (fun x : string * string => id_of (word_to_id_of vocab) (fst x)).
    rewrite <- (map_map fst (id_of (word_to_id_of vocab))).
    apply occurrences_map. intros w Hw E. apply Hinj; try assumption.
    apply in_map_iff in Hw. destruct Hw as [[w1 w2] [<- Hp]].
    apply In_pairs in Hp. apply Hin, Hp.
Qed.

(** ** The table [transitions] *)

Lemma lookup3_set_transition (a : nat) (c : ascii) (b : nat) (v : float)
  (tr : dict nat (dict ascii (dict nat float))) (a' : nat) (c' : ascii) (b' : nat) :
  lookup3 (set_transition a c b v tr) a' c' b'
  = if (a' =? a) && Ascii.eqb c' c && (b' =? b) then Some v else lookup3 tr a' c' b'.
Proof.
  unfold lookup3, set_transition.
  destruct (Nat.eqb_spec a' a) as [ -> | Ha ]; simpl.
  2:{ rewrite get_upd_neq by exact Ha. reflexivity. }
  rewrite get_upd_eq. simpl or_default at 2.
  destruct (Ascii.eqb_spec c' c) as [ -> | Hc ]; simpl.
  2:{ rewrite get_upd_neq by exact Hc. reflexivity. }
  rewrite get_upd_eq. simpl or_default at 1. unfold set.
  destruct (Nat.eqb_spec b' b) as [ -> | Hb ].
  - rewrite get_upd_eq. reflexivity.
  - rewrite get_upd_neq by exact Hb. reflexivity.
Qed.

Lemma strategy_a_lookup3 (m : SteganographyLLM) (a : nat) (c : ascii) (b : nat) :
  get b (strategy_a m a c) = lookup3 (transitions m) a c b.
Proof.
  unfold strategy_a, lookup3.
  destruct (get a (transitions m)) as [ by_char | ]; [ | reflexivity ].
  simpl. destruct (get c by_char); reflexivity.
Qed.

Section LogProbs.
Variable math_log : float -> float.
Variable id_to_word : dict nat string.

(** The inner loop, over part of the items of one context. *)
Lemma log_probs_items (a total : nat) :
  forall (items : dict nat nat) (tr tr' : dict nat (dict ascii (dict nat float))),
    NoDup (keys items) ->
    foldM
      (fun tr '(next_id, count) =>
         next_word <- getitem next_id id_to_word ;;
         start_char <- first_char next_word ;;
         q <- true_div count total ;;
         Ok (set_transition a start_char next_id (math_log q) tr))
      items tr = Ok tr' ->
    (forall a' c b, a' <> a -> lookup3 tr' a' c b = lookup3 tr a' c b)
    /\ (forall c b, ~ In b (keys items) -> lookup3 tr' a c b = lookup3 tr a c b)
    /\ (forall b n w c,
           In (b, n) items -> get b id_to_word = Some w -> first_char w = Ok c ->
           lookup3 tr' a c b = Some (math_log (float_of_nat n / float_of_nat total))
           /\ forall c', c' <> c -> lookup3 tr' a c' b = lookup3 tr a c' b).
Proof.
  induction items as [ | [b0 n0] items IH ]; intros tr tr' Hnd Hrun.
  - injection Hrun as <-.
    split; [ reflexivity | split; [ reflexivity | intros ? ? ? ? [] ] ].
  - simpl in Hrun. inv_bind Hrun. rename a0 into tr1.
    inv_bind Hbind. rename a0 into w0. inv_bind Hbind. rename a0 into c0.
    inv_bind Hbind. rename a0 into q0. injection Hbind as <-.
    apply getitem_Ok in Hbind0.
    unfold true_div in Hbind2. destruct (total =? 0); [ discriminate | ].
    injection Hbind2 as <-.
    simpl in Hnd. inversion Hnd as [ | ? ? Hnotin Hnd' ]; subst.
    destruct (IH _ _ Hnd' Hrun) as [Hother [Hout Hin]].
    split; [ | split ].
    + intros a' c b Ha. rewrite Hother by exact Ha.
      rewrite lookup3_set_transition.
      destruct (Nat.eqb_spec a' a); [ contradiction | reflexivity ].
    + intros c b Hb. simpl in Hb.
      rewrite Hout by (intros Hk; apply Hb; right; exact Hk).
      rewrite lookup3_set_transition.
      destruct (Nat.eqb_spec b b0) as [ -> | Hne ];
        [ exfalso; apply Hb; left; reflexivity | ].
      rewrite andb_false_r. reflexivity.
    + intros b n w c [ [= <- <-] | Hitem ] Hw Hc.
      * rewrite Hw in Hbind0. injection Hbind0 as <-.
        rewrite Hc in Hbind1. injection Hbind1 as <-.
        split.
        -- rewrite Hout by exact Hnotin. rewrite lookup3_set_transition.
           rewrite !Nat.eqb_refl, Ascii.eqb_refl. reflexivity.
        -- intros c' Hc'. rewrite Hout by exact Hnotin. rewrite lookup3_set_transition.
           destruct (Ascii.eqb_spec c' c); [ contradiction | ].
           rewrite andb_false_r. reflexivity.
      * destruct (Hin _ _ _ _ Hitem Hw Hc) as [H1 H2]. split; [ exact H1 | ].
        intros c' Hc'. rewrite (H2 _ Hc'). rewrite lookup3_set_transition.
        destruct (Nat.eqb_spec b b0) as [ -> | Hne ].
        -- exfalso. apply Hnotin. apply in_map_iff. exists (b0, n). split; [ reflexivity | exact Hitem ].
        -- rewrite andb_false_r. reflexivity.
Qed.

(** The outer loop, over part of the contexts. *)
Lemma log_probs_table :
  forall (counts : dict nat (dict nat nat)) (tr tr' : dict nat (dict ascii (dict nat float))),
    distinct_keys2 counts ->
    foldM (fun tr '(curr_id, next_ids) => log_probs math_log id_to_word curr_id next_ids tr)
      counts tr = Ok tr' ->
    (forall a c b, ~ In a (keys counts) -> lookup3 tr' a c b = lookup3 tr a c b)
    /\ (forall a row, In (a, row) counts ->
          (forall c b, ~ In b (keys row) -> lookup3 tr' a c b = lookup3 tr a c b)
          /\ (forall b n w c,
                 In (b, n) row -> get b id_to_word = Some w -> first_char w = Ok c ->
                 lookup3 tr' a c b
                 = Some (math_log (float_of_nat n / float_of_nat (list_sum (values row))))
                 /\ forall c', c' <> c -> lookup3 tr' a c' b = lookup3 tr a c' b)).
Proof.
  induction counts as [ | [a0 row0] counts IH ]; intros tr tr' [Hnd Hrows] Hrun.
  - injection Hrun as <-. split; [ reflexivity | intros ? ? [] ].
  - simpl in Hrun. inv_bind Hrun. rename a into tr1.
    simpl in Hnd. inversion Hnd as [ | ? ? Hnotin Hnd' ]; subst.
    inversion Hrows as [ | ? ? Hrow0 Hrows' ]; subst. simpl in Hrow0.
    destruct (IH _ _ (conj Hnd' Hrows') Hrun) as [Hout Hin].
    destruct (log_probs_items a0 _ _ _ _ Hrow0 Hbind) as [Hother [Hmiss Hitem]].
    split.
    + intros a c b Ha. simpl in Ha.
      rewrite Hout by (intros Hk; apply Ha; right; exact Hk).
      apply Hother. intros ->. apply Ha. left. reflexivity.
    + intros a row [ [= <- <-] | Hrow ].
      * split.
        -- intros c b Hb. rewrite Hout by exact Hnotin. apply Hmiss, Hb.
        -- intros b n w c Hn Hw Hc. destruct (Hitem _ _ _ _ Hn Hw Hc) as [H1 H2].
           split; [ rewrite Hout by exact Hnotin; exact H1 | ].
           intros c' Hc'. rewrite Hout by exact Hnotin. apply H2, Hc'.
      * assert (Ha : a <> a0).
        { intros ->. apply Hnotin. apply in_map_iff. exists (a0, row). split; [ reflexivity | exact Hrow ]. }
        destruct (Hin _ _ Hrow) as [H1 H2]. split.
        -- intros c b Hb. rewrite (H1 _ _ Hb). apply Hother, Ha.
        -- intros b n w c Hn Hw Hc. destruct (H2 _ _ _ _ Hn Hw Hc) as [H3 H4].
           split; [ exact H3 | ]. intros c' Hc'. rewrite (H4 _ Hc'). apply Hother, Ha.
Qed.

End LogProbs.

End ScoreFacts.

(* ================================================================== *)
(** * The tokenizers and the chunks of [preprocess_streamed] *)

Module TokenFacts.

Import PyFacts CollFacts StegFacts.

(** ** [split] does not see what [re.sub(r'\s+', ' ', s)] and [strip] change *)

Lemma split_from_sub_ws (s : list ascii) :
  forall (cur : list ascii) (in_run : bool),
    (in_run = true -> cur = []) ->
    split_from cur (sub_ws_runs in_run s) = split_from cur s.
Proof.
  induction s as [ | c s IH ]; intros cur in_run Hrun; [ reflexivity | ].
  simpl. destruct (isspace c) eqn:Hc.
  - destruct in_run.
    + rewrite (Hrun eq_refl). apply IH. reflexivity.
    + simpl. destruct cur; rewrite IH; reflexivity.
  - simpl. rewrite Hc. apply IH. discriminate.
Qed.

Lemma split_from_lstrip (s : list ascii) : split_from [] (lstrip s) = split_from [] s.
Proof.
  induction s as [ | c s IH ]; [ reflexivity | ].
  simpl. destruct (isspace c) eqn:Hc; [ exact IH | ].
  simpl. rewrite Hc. reflexivity.
Qed.

Lemma lstrip_spec (s : list ascii) :
  exists ws, Forall (fun c => isspace c = true) ws /\ s = ws ++ lstrip s.
Proof.
  induction s as [ | c s [ws [Hws E]] ]; [ exists []; split; [ constructor | reflexivity ] | ].
  simpl. destruct (isspace c) eqn:Hc.
  - exists (c :: ws). split; [ constructor; assumption | ]. simpl. f_equal. exact E.
  - exists []. split; [ constructor | reflexivity ].
Qed.

Lemma split_from_spaces (ws : list ascii) :
  Forall (fun c => isspace c = true) ws ->
  forall cur, split_from cur ws = split_from cur [].
Proof.
  induction 1 as [ | c ws Hc _ IH ]; intros cur; [ reflexivity | ].
  simpl. rewrite Hc. destruct cur; rewrite IH; reflexivity.
Qed.

Lemma split_from_trailing (ws : list ascii) :
  Forall (fun c => isspace c = true) ws ->
  forall t cur, split_from cur (t ++ ws) = split_from cur t.
Proof.
  intros Hws. induction t as [ | c t IH ]; intros cur.
  - apply split_from_spaces, Hws.
  - simpl. destruct (isspace c); [ destruct cur | ]; rewrite ?IH; reflexivity.
Qed.

Lemma split_strip (s : list ascii) : split (strip s) = split s.
Proof.
  unfold split, strip.
  rewrite <- (split_from_lstrip s).
  destruct (lstrip_spec (rev (lstrip s))) as [ws [Hws E]].
  apply (f_equal (@rev ascii)) in E. rewrite rev_involutive, rev_app_distr in E.
  rewrite E at 2. symmetry. apply split_from_trailing.
  apply Forall_rev, Hws.
Qed.

Lemma tokens_of_line (s : list ascii) : split (strip (sub_ws_runs false s)) = split s.
Proof.
  rewrite split_strip. apply split_from_sub_ws. discriminate.
Qed.

(** ** Text that ends with whitespace ends a word *)

Lemma split_from_app (t : list ascii) (c : ascii) (s : list ascii) :
  isspace c = true ->
  forall cur,
    split_from cur ((t ++ [c]) ++ s) = split_from cur (t ++ [c]) ++ split_from [] s.
Proof.
  intros Hc. induction t as [ | x t IH ]; intros cur.
  - simpl. rewrite Hc. destruct cur; reflexivity.
  - simpl. destruct (isspace x); [ destruct cur | ]; rewrite ?IH; reflexivity.
Qed.

Lemma kept_ends_with_space (line : string) :
  ends_with_space line = true ->
  exists t c,
    filter (fun c => is_az c || isspace c) (str_lower (chars line)) = t ++ [c]
    /\ isspace c = true.
Proof.
  unfold ends_with_space. intros H.
  destruct (rev (chars line)) as [ | c r ] eqn:E; [ discriminate | ].
  apply (f_equal (@rev ascii)) in E. rewrite rev_involutive in E. simpl in E.
  rewrite E. unfold str_lower. rewrite map_app, filter_app. simpl.
  rewrite (lower_space _ H), H, orb_true_r.
  eexists. exists c. split; [ reflexivity | exact H ].
Qed.

End TokenFacts.

Module StreamFacts.

Import PyFacts CollFacts StegFacts TokenFacts Builder.

Lemma streamed_concat (chunk_size : Z) (lines : list string) :
  forall buffer,
    List.concat (preprocess_streamed_from chunk_size buffer lines)
    = buffer ++ flat_map line_tokens lines.
Proof.
  induction lines as [ | line lines IH ]; intros buffer; simpl.
  - destruct buffer; simpl; rewrite ?app_nil_r; reflexivity.
  - destruct (chunk_size <=? _)%Z.
    + simpl. rewrite IH. simpl. rewrite app_assoc. reflexivity.
    + rewrite IH, app_assoc. reflexivity.
Qed.

Lemma streamed_nonempty (chunk_size : Z) (lines : list string) :
  (1 <= chunk_size)%Z ->
  forall buffer,
    Forall (fun chunk => chunk <> []) (preprocess_streamed_from chunk_size buffer lines).
Proof.
  intros Hn. induction lines as [ | line lines IH ]; intros buffer; simpl.
  - destruct buffer; constructor; [ discriminate | constructor ].
  - destruct (chunk_size <=? _)%Z eqn:E; [ | apply IH ].
    constructor; [ | apply IH ].
    apply Z.leb_le in E. intros E0. rewrite E0 in E. simpl in E. lia.
Qed.

Lemma streamed_full (chunk_size : Z) (lines : list string) :
  forall buffer,
    Forall (fun chunk => (chunk_size <= Z.of_nat (List.length chunk))%Z)
      (removelast (preprocess_streamed_from chunk_size buffer lines)).
Proof.
  induction lines as [ | line lines IH ]; intros buffer; simpl.
  - destruct buffer; constructor.
  - destruct (chunk_size <=? _)%Z eqn:E; [ | apply IH ].
    specialize (IH []).
    destruct (preprocess_streamed_from chunk_size [] lines) as [ | ch chs ];
      [ constructor | ].
    constructor; [ apply Z.leb_le, E | exact IH ].
Qed.

Lemma line_tokens_preprocess (line : string) : line_tokens line = Steg.preprocess line.
Proof. unfold line_tokens, Steg.preprocess. apply tokens_of_line. Qed.

Lemma flat_map_line_tokens (lines : list string) :
  Forall (fun line => ends_with_space line = true) (removelast lines) ->
  flat_map line_tokens lines = Steg.preprocess (file_text lines).
Proof.
  unfold file_text, Steg.preprocess. rewrite chars_str.
  induction lines as [ | line lines IH ]; intros Hends; [ reflexivity | ].
  simpl flat_map. rewrite line_tokens_preprocess. unfold Steg.preprocess at 1.
  destruct lines as [ | line' lines ].
  - simpl. rewrite !app_nil_r. reflexivity.
  - change (removelast (line :: line' :: lines)) with (line :: removelast (line' :: lines))
      in Hends.
    inversion Hends as [ | ? ? Hline Hrest ]; subst.
    rewrite (IH Hrest).
    change (List.concat (map chars (line :: line' :: lines)))
      with (chars line ++ List.concat (map chars (line' :: lines))).
    unfold str_lower. rewrite map_app, filter_app.
    destruct (kept_ends_with_space _ Hline) as [t [c [E Hc]]].
    unfold str_lower in E. rewrite E.
    unfold split. rewrite (split_from_app _ _ _ Hc). reflexivity.
Qed.

End StreamFacts.

(* ================================================================== *)
(** * The data builders: that they return, and what their tables hold *)

From Stdlib Require DecimalNat.

Module BuildFacts.

Import PyFacts CollFacts StegFacts VocabFacts AggFacts PruneFacts TotalFacts.
Import TokenFacts StreamFacts.

Lemma keys2_in_impl (K1 K2 V : Type) (Q1 Q1' : K1 -> Prop) (Q2 Q2' : K2 -> Prop)
  (d : dict K1 (dict K2 V)) :
  (forall k, Q1 k -> Q1' k) -> (forall k, Q2 k -> Q2' k) ->
  keys2_in Q1 Q2 d -> keys2_in Q1' Q2' d.
Proof.
  intros H1 H2 Hd k v Hin. destruct (Hd _ _ Hin) as [Hk Hv].
  split; [ apply H1, Hk | ]. intros k' Hk'. apply H2, Hv, Hk'.
Qed.

(** ** The pruning loop returns when the ids name words *)

Lemma char_groups_of_total (min_freq : nat) (id_to_word : dict nat string)
  (next_words_map : dict nat nat) :
  (forall id, In id (keys next_words_map) ->
              exists w, get id id_to_word = Some w /\ w <> EmptyString) ->
  exists char_groups, char_groups_of min_freq id_to_word next_words_map = Ok char_groups.
Proof.
  intros Hids. unfold char_groups_of.
  destruct (foldM_total _ _ (fun _ : dict ascii (list (nat * nat)) => True)
              (fun char_groups '(next_id, count) =>
                 if count <? min_freq then Ok char_groups
                 else
                   next_word_str <- getitem next_id id_to_word ;;
                   start_char <- first_char next_word_str ;;
                   Ok (append_to start_char (next_id, count) char_groups))
              next_words_map [] I) as [r [E _]]; [ | exists r; exact E ].
  intros s0 [next_id count] Hin _.
  destruct (count <? min_freq); [ eauto | ].
  destruct (Hids next_id) as [w [Hw Hne]].
  { apply in_map_iff. exists (next_id, count). split; [ reflexivity | exact Hin ]. }
  apply getitem_Ok in Hw. rewrite Hw. simpl.
  destruct w as [ | c w ]; [ congruence | ]. simpl. eauto.
Qed.

Lemma prune_table_total (top_k : Z) (min_freq : nat) (id_to_word : dict nat string)
  (id_counts : dict nat (dict nat nat)) :
  keys2_in (fun _ => True)
    (fun id => exists w, get id id_to_word = Some w /\ w <> EmptyString) id_counts ->
  exists final, prune_table top_k min_freq id_to_word id_counts = Ok final.
Proof.
  intros Hkeys. unfold prune_table.
  destruct (foldM_total _ _ (fun _ : dict string (dict ascii (list nat)) => True)
              (fun final_transitions '(curr_id, next_words_map) =>
                 char_groups <- char_groups_of min_freq id_to_word next_words_map ;;
                 let optimized_groups := optimize top_k char_groups in
                 match optimized_groups with
                 | [] => Ok final_transitions
                 | _ => Ok (set (str_of_nat curr_id) optimized_groups final_transitions)
                 end)
              id_counts [] I) as [r [E _]]; [ | exists r; exact E ].
  intros s0 [curr_id next_words_map] Hin _.
  destruct (char_groups_of_total min_freq id_to_word next_words_map) as [cg ->].
  { apply (proj2 (Hkeys _ _ Hin)). }
  simpl. destruct (optimize top_k cg); eauto.
Qed.

Lemma prune_trigrams_total (id_to_word : dict nat string)
  (id_trigrams : dict nat (dict nat (dict nat nat))) :
  (forall word1 word2_dict,
      In (word1, word2_dict) id_trigrams ->
      keys2_in (fun _ => True)
        (fun id => exists w, get id id_to_word = Some w /\ w <> EmptyString) word2_dict) ->
  exists final, Builder.prune_trigrams id_to_word id_trigrams = Ok final.
Proof.
  intros Hkeys. unfold Builder.prune_trigrams.
  destruct (foldM_total _ _ (fun _ : dict string (dict string (dict ascii (list nat))) => True)
              (fun final '(word1_id, word2_dict) =>
                 word1_transitions <-
                   prune_table Builder.TOP_K_PER_LETTER_TRIGRAM Builder.MIN_TRIGRAM_FREQ
                     id_to_word word2_dict ;;
                 match word1_transitions with
                 | [] => Ok final
                 | _ => Ok (set (str_of_nat word1_id) word1_transitions final)
                 end)
              id_trigrams [] I) as [r [E _]]; [ | exists r; exact E ].
  intros s0 [word1 word2_dict] Hin _.
  destruct (prune_table_total Builder.TOP_K_PER_LETTER_TRIGRAM Builder.MIN_TRIGRAM_FREQ
              id_to_word word2_dict (Hkeys _ _ Hin)) as [t ->].
  simpl. destruct t; eauto.
Qed.

(** An id of the vocabulary names its word. *)
Lemma id_of_word_names (vocab : list string) (id : nat) :
  NoDup vocab -> Forall (fun w => w <> EmptyString) vocab ->
  id_of_word (word_to_id_of vocab) id ->
  exists w, get id (id_to_word_of vocab) = Some w /\ w <> EmptyString.
Proof.
  intros Hnd Hne [w Hw]. apply word_to_id_of_spec in Hw; [ | exact Hnd ].
  exists w. split.
  - unfold id_to_word_of. rewrite get_id_to_word. exact Hw.
  - rewrite Forall_forall in Hne. eapply Hne, nth_error_In, Hw.
Qed.

(** ** The words in the raw bigram table are valid tokens *)

Section Aggregation.
Variable english_words : string -> bool.
Variable Q : string -> Prop.

Lemma bigram_chunk_keys (st : Builder.BigramState) (chunk : list string) :
  Forall Q (filter english_words chunk) ->
  keys2_in Q Q (Builder.raw_bigrams st)
  /\ (forall p, Builder.prev_token st = Some p -> Q p) ->
  keys2_in Q Q (Builder.raw_bigrams (Builder.bigram_chunk english_words st chunk))
  /\ (forall p, Builder.prev_token (Builder.bigram_chunk english_words st chunk) = Some p
                -> Q p).
Proof.
  intros Hchunk [Hraw Hprev]. rewrite Forall_forall in Hchunk.
  unfold Builder.bigram_chunk. cbn [Builder.raw_bigrams Builder.prev_token].
  set (valid_chunk := filter english_words chunk) in *.
  split.
  - unfold Builder.bigram_chunk_counts.
    assert (Hfold : keys2_in Q Q
                      (fold_left (fun raw cn => incr2 (fst cn) (snd cn) raw)
                         (pairs valid_chunk) (Builder.raw_bigrams st))).
    { apply fold_left_invariant; [ exact Hraw | ].
      intros s0 [a b] Hp Hs0. apply In_pairs in Hp. destruct Hp as [Ha Hb].
      unfold incr2, incr. apply upd2_keys; [ apply Hchunk, Ha | apply Hchunk, Hb | exact Hs0 ]. }
    destruct (Builder.prev_token st) as [ prev | ] eqn:Ep; [ | exact Hfold ].
    destruct valid_chunk as [ | first rest ] eqn:Ev; [ exact Hfold | ].
    destruct (Builder.truthy (Some prev)); [ | exact Hfold ].
    unfold incr2, incr. apply upd2_keys; [ apply Hprev; reflexivity | | exact Hfold ].
    apply Hchunk. left. reflexivity.
  - intros p. destruct (rev valid_chunk) as [ | last1 r ] eqn:Er; [ apply Hprev | ].
    intros [= <-]. apply Hchunk. apply in_rev. rewrite Er. left. reflexivity.
Qed.

Lemma aggregate_bigrams_keys (chunks : list (list string)) :
  Forall (fun chunk => Forall Q (filter english_words chunk)) chunks ->
  keys2_in Q Q (Builder.raw_bigrams (Builder.aggregate_bigrams english_words chunks)).
Proof.
  intros Hchunks. unfold Builder.aggregate_bigrams.
  apply (fold_left_invariant _ _
           (fun st => keys2_in Q Q (Builder.raw_bigrams st)
                      /\ forall p, Builder.prev_token st = Some p -> Q p)).
  - split; [ apply keys2_in_nil | discriminate ].
  - intros st chunk Hin Hst. rewrite Forall_forall in Hchunks.
    apply bigram_chunk_keys; [ apply Hchunks, Hin | exact Hst ].
Qed.

End Aggregation.

Lemma id_bigrams_of_total (word_to_id : dict string nat)
  (raw : dict string (dict string nat)) :
  keys2_in (fun w => exists i, get w word_to_id = Some i)
    (fun w => exists i, get w word_to_id = Some i) raw ->
  exists id_bigrams, Builder.id_bigrams_of word_to_id raw = Ok id_bigrams.
Proof.
  intros Hkeys. unfold Builder.id_bigrams_of.
  destruct (foldM_total _ _ (fun _ : dict nat (dict nat nat) => True)
              (fun id_bigrams '(curr_w, next_counts) =>
                 curr_id <- getitem curr_w word_to_id ;;
                 foldM
                   (fun id_bigrams '(next_w, count) =>
                      next_id <- getitem next_w word_to_id ;;
                      Ok (set2 curr_id next_id count id_bigrams))
                   next_counts id_bigrams)
              raw [] I) as [r [E _]]; [ | exists r; exact E ].
  intros s0 [curr_w next_counts] Hin _.
  destruct (Hkeys _ _ Hin) as [[i Hi] Hinner].
  apply getitem_Ok in Hi. rewrite Hi. cbn [bind].
  apply foldM_total; [ exact I | ].
  intros s1 [next_w count] Hn _.
  destruct (Hinner next_w) as [j Hj].
  { apply in_map_iff. exists (next_w, count). split; [ reflexivity | exact Hn ]. }
  apply getitem_Ok in Hj. rewrite Hj. simpl. eauto.
Qed.

(** ** The builders return *)

Lemma compile_chunks_total (english_words : string -> bool) (chunks : list (list string)) :
  Forall (Forall (fun w => w <> EmptyString)) chunks ->
  exists art,
    Builder.compile_chunks english_words chunks = Ok art
    /\ Builder.vocab_list art
       = sorted_vocab_of (counter_update (valid_tokens english_words chunks) []).
Proof.
  intros Hne. unfold Builder.compile_chunks, Builder.build_model_from_chunks,
    Builder.bigram_finish.
  rewrite aggregate_word_counts.
  set (V := valid_tokens english_words chunks).
  set (vocab := sorted_vocab_of (counter_update V [])).
  destruct (sorted_vocab_spec V) as [[Hnd [Hin _]] _]. fold vocab in Hnd, Hin.
  assert (HV : Forall (fun w => w <> EmptyString) V).
  { unfold V, valid_tokens. apply Forall_forall. intros w Hw.
    apply filter_In in Hw. destruct Hw as [Hw _].
    apply Forall_concat in Hne. rewrite Forall_forall in Hne. apply Hne, Hw. }
  assert (Hvne : Forall (fun w => w <> EmptyString) vocab).
  { apply Forall_forall. intros w Hw. rewrite Forall_forall in HV. apply HV, Hin, Hw. }
  assert (Hknown : forall w, In w V -> exists i, get w (word_to_id_of vocab) = Some i).
  { intros w Hw. apply Hin, In_nth_error in Hw. destruct Hw as [i Hi].
    exists i. apply word_to_id_of_spec; assumption. }
  destruct (id_bigrams_of_total (word_to_id_of vocab)
              (Builder.raw_bigrams (Builder.aggregate_bigrams english_words chunks)))
    as [idb Hidb].
  { eapply keys2_in_impl; [ exact Hknown | exact Hknown | ].
    apply aggregate_bigrams_keys. apply Forall_forall. intros chunk Hchunk.
    apply Forall_forall. intros w Hw. apply filter_In in Hw. destruct Hw as [Hw Hew].
    unfold V, valid_tokens. apply filter_In. split; [ | exact Hew ].
    apply in_concat. exists chunk. split; assumption. }
  rewrite Hidb. cbn [bind].
  destruct (id_bigrams_of_spec _ _ _ Hidb) as [_ Hkeys].
  destruct (prune_table_total Builder.TOP_K_PER_LETTER Builder.MIN_BIGRAM_FREQ
              (id_to_word_of vocab) idb) as [table ->].
  { eapply keys2_in_impl; [ | | exact Hkeys ]; [ trivial | ].
    intros id. apply id_of_word_names; assumption. }
  cbn [bind].
  rewrite id_to_word_of_spec, mapM_getitem_enumerate. cbn [bind].
  unfold Builder.build_trigram_model_from_chunks, Builder.trigram_finish.
  destruct (prune_trigrams_total (enumerate vocab)
              (Builder.id_trigrams_of (word_to_id_of vocab)
                 (Builder.raw_trigrams (Builder.aggregate_trigrams english_words chunks))))
    as [t3 ->].
  { intros word1 word2_dict Hitem.
    destruct (id_trigrams_of_spec (word_to_id_of vocab)
                (Builder.raw_trigrams (Builder.aggregate_trigrams english_words chunks)))
      as [_ Hk3].
    destruct (Hk3 _ _ Hitem) as [_ [_ Hk2]].
    eapply keys2_in_impl; [ | | exact Hk2 ]; [ trivial | ].
    intros id Hid. rewrite <- id_to_word_of_spec. apply id_of_word_names; assumption. }
  cbn [bind]. eexists. split; reflexivity.
Qed.

Lemma streamed_tokens (lines : list string) (chunk_size : Z) :
  Forall (Forall (fun w => w <> EmptyString))
    (Builder.preprocess_streamed lines chunk_size).
Proof.
  apply Forall_concat. unfold Builder.preprocess_streamed.
  rewrite streamed_concat. simpl. apply Forall_forall. intros w Hw.
  apply in_flat_map in Hw. destruct Hw as [line [_ Hw]].
  rewrite line_tokens_preprocess in Hw.
  pose proof (preprocess_tokens line) as Ht. rewrite Forall_forall in Ht.
  apply (proj1 (Ht _ Hw)).
Qed.

Lemma backup_raw_bigrams_total (vocab tokens : list string) :
  NoDup vocab -> (forall w, In w tokens -> In w vocab) ->
  exists raw, BackupBuilder.raw_bigrams (word_to_id_of vocab) tokens = Ok raw.
Proof.
  intros Hnd Hin. unfold BackupBuilder.raw_bigrams.
  destruct (foldM_total _ _ (fun _ : dict nat (dict nat nat) => True)
              (fun raw '(curr_w, next_w) =>
                 curr_id <- getitem curr_w (word_to_id_of vocab) ;;
                 next_id <- getitem next_w (word_to_id_of vocab) ;;
                 Ok (incr2 curr_id next_id raw))
              (pairs tokens) [] I) as [r [E _]]; [ | exists r; exact E ].
  intros s0 [w w'] Hp _. apply In_pairs in Hp. destruct Hp as [Hw Hw'].
  apply Hin, In_nth_error in Hw, Hw'. destruct Hw as [i Hi], Hw' as [i' Hi'].
  apply word_to_id_of_spec in Hi, Hi'; try exact Hnd.
  unfold getitem. rewrite Hi, Hi'. simpl. eauto.
Qed.

End BuildFacts.

Module TopFacts.

Import PyFacts CollFacts StegFacts VocabFacts AggFacts PruneFacts ScoreFacts.

(** ** [str] of an id *)

Lemma str_of_nat_inj (n n' : nat) : str_of_nat n = str_of_nat n' -> n = n'.
Proof.
  unfold str_of_nat. intros E.
  apply (f_equal NilEmpty.uint_of_string) in E. rewrite !NilEmpty.usu in E.
  injection E as E. apply (f_equal Nat.of_uint) in E.
  rewrite !DecimalNat.Unsigned.of_to in E. exact E.
Qed.

(** ** The best [top_k] candidates *)

Lemma StronglySorted_app_le (A : Type) (R : A -> A -> Prop) (l1 l2 : list A) :
  StronglySorted R (l1 ++ l2) -> forall x y, In x l1 -> In y l2 -> R x y.
Proof.
  induction l1 as [ | a l1 IH ]; intros Hs x y Hx Hy; [ destruct Hx | ].
  simpl in Hs. inversion Hs as [ | ? ? Hs' Hall ]; subst.
  destruct Hx as [ <- | Hx ]; [ | apply IH; assumption ].
  rewrite Forall_forall in Hall. apply Hall, in_or_app. right. exact Hy.
Qed.

Lemma top_ids_complete (top_k : Z) (candidates : list (nat * nat)) (id n : nat) :
  (0 <= top_k)%Z ->
  In (id, n) candidates ->
  In id (top_ids top_k candidates)
  \/ (Z.of_nat (List.length (top_ids top_k candidates)) = top_k
      /\ forall id', In id' (top_ids top_k candidates) ->
                     exists n', In (id', n') candidates /\ n <= n').
Proof.
  intros Hk Hin. unfold top_ids, slice_to.
  destruct (Z.leb_spec 0 top_k) as [ _ | ]; [ | lia ].
  set (sorted := sorted_desc Nat.ltb snd candidates).
  assert (Hs : In (id, n) sorted) by (apply In_sort_by, Hin).
  rewrite <- (firstn_skipn (Z.to_nat top_k) sorted) in Hs.
  apply in_app_or in Hs. destruct Hs as [ Hfirst | Hrest ].
  - left. apply in_map_iff. exists (id, n). split; [ reflexivity | exact Hfirst ].
  - right. split.
    + rewrite length_map, length_firstn.
      assert (Z.to_nat top_k < List.length sorted).
      { destruct (Nat.lt_ge_cases (Z.to_nat top_k) (List.length sorted)) as [ | Hge ];
          [ assumption | ].
        rewrite skipn_all2 in Hrest by exact Hge. destruct Hrest. }
      lia.
    + intros id' Hid'. apply in_map_iff in Hid'. destruct Hid' as [[i n'] [Ei Hi]].
      simpl in Ei. subst i. exists n'. split.
      * apply In_firstn in Hi. apply In_sort_by in Hi. exact Hi.
      * pose proof (sorted_desc_sorted snd candidates) as Hsorted. fold sorted in Hsorted.
        rewrite <- (firstn_skipn (Z.to_nat top_k) sorted) in Hsorted.
        apply (StronglySorted_app_le _ _ _ _ Hsorted _ _ Hi Hrest).
Qed.

(** ** The character groups *)

Lemma char_groups_loop (min_freq : nat) (id_to_word : dict nat string)
  (items : dict nat nat) :
  forall acc char_groups : dict ascii (list (nat * nat)),
    foldM
      (fun char_groups '(next_id, count) =>
         if count <? min_freq then Ok char_groups
         else
           next_word_str <- getitem next_id id_to_word ;;
           start_char <- first_char next_word_str ;;
           Ok (append_to start_char (next_id, count) char_groups))
      items acc = Ok char_groups ->
    (NoDup (keys acc) -> NoDup (keys char_groups))
    /\ (forall c cands, get c acc = Some cands ->
                        exists cands', get c char_groups = Some cands' /\ incl cands cands')
    /\ (forall id n w c,
           In (id, n) items -> min_freq <= n ->
           get id id_to_word = Some w -> first_char w = Ok c ->
           exists cands, get c char_groups = Some cands /\ In (id, n) cands).
Proof.
  induction items as [ | [id0 n0] items IH ]; intros acc cg Hrun; simpl in Hrun.
  - injection Hrun as <-. split; [ trivial | split ].
    + intros c cands Hg. exists cands. split; [ exact Hg | apply incl_refl ].
    + intros ? ? ? ? [].
  - inv_bind Hrun. rename a into acc1.
    destruct (IH _ _ Hrun) as [Hnd [Hmono Hall]].
    destruct (Nat.ltb_spec n0 min_freq) as [ Hlt | Hge ].
    + injection Hbind as <-. split; [ exact Hnd | split; [ exact Hmono | ] ].
      intros id n w c [ [= <- <-] | Hin ] Hmin; [ lia | ]. apply Hall; assumption.
    + inv_bind Hbind. rename a into w0. inv_bind Hbind. rename a into c0.
      injection Hbind as <-. apply getitem_Ok in Hbind0.
      assert (Hstep : forall c cands, get c acc = Some cands ->
                        exists cands', get c (append_to c0 (id0, n0) acc) = Some cands'
                                       /\ incl cands cands').
      { intros c cands Hg. unfold append_to.
        destruct (Ascii.eqb_spec c c0) as [ -> | Hne ].
        - rewrite get_upd_eq, Hg. simpl. eexists. split; [ reflexivity | ].
          apply incl_appl, incl_refl.
        - rewrite get_upd_neq by assumption. exists cands.
          split; [ exact Hg | apply incl_refl ]. }
      split; [ | split ].
      * intros Hacc. apply Hnd. unfold append_to. apply NoDup_keys_upd, Hacc.
      * intros c cands Hg. destruct (Hstep _ _ Hg) as [c1 [Hg1 Hi1]].
        destruct (Hmono _ _ Hg1) as [c2 [Hg2 Hi2]].
        exists c2. split; [ exact Hg2 | eapply incl_tran; eassumption ].
      * intros id n w c [ [= <- <-] | Hin ] Hmin Hw Hc; [ | apply (Hall _ _ _ _ Hin Hmin Hw Hc) ].
        rewrite Hw in Hbind0. injection Hbind0 as <-.
        rewrite Hc in Hbind1. injection Hbind1 as <-.
        assert (Hg1 : get c (append_to c (id0, n0) acc)
                      = Some (or_default [] (get c acc) ++ [(id0, n0)])).
        { unfold append_to. rewrite get_upd_eq. reflexivity. }
        destruct (Hmono _ _ Hg1) as [c2 [Hg2 Hi2]].
        exists c2. split; [ exact Hg2 | ]. apply Hi2, in_or_app. right. left. reflexivity.
Qed.

Lemma get_optimize (top_k : Z) (char_groups : dict ascii (list (nat * nat))) (c : ascii) :
  NoDup (keys char_groups) ->
  get c (optimize top_k char_groups)
  = match get c char_groups with
    | Some cands => Some (top_ids top_k cands)
    | None => None
    end.
Proof.
  unfold optimize.
  assert (G : forall acc,
             NoDup (keys char_groups) ->
             get c (fold_left
                      (fun optimized_groups '(char, candidates) =>
                         set char (top_ids top_k candidates) optimized_groups)
                      char_groups acc)
             = match get c char_groups with
               | Some cands => Some (top_ids top_k cands)
               | None => get c acc
               end).
  { induction char_groups as [ | [ch cands] cg IH ]; intros acc Hnd; [ reflexivity | ].
    simpl in Hnd. inversion Hnd as [ | ? ? Hnotin Hnd' ]; subst.
    simpl fold_left. rewrite (IH _ Hnd'). simpl get.
    destruct (Ascii.eqb_spec c ch) as [ -> | Hne ].
    - apply get_None in Hnotin. rewrite Hnotin. unfold set. rewrite get_upd_eq. reflexivity.
    - destruct (get c cg); [ reflexivity | ].
      unfold set. rewrite get_upd_neq by exact Hne. reflexivity. }
  intros Hnd. rewrite (G [] Hnd). destruct (get c char_groups); reflexivity.
Qed.

(** ** The compiled table, by its lookups *)

Lemma prune_table_loop (top_k : Z) (min_freq : nat) (id_to_word : dict nat string)
  (id_counts : dict nat (dict nat nat)) :
  forall acc final : dict string (dict ascii (list nat)),
    NoDup (keys id_counts) ->
    foldM
      (fun final_transitions '(curr_id, next_words_map) =>
         char_groups <- char_groups_of min_freq id_to_word next_words_map ;;
         let optimized_groups := optimize top_k char_groups in
         match optimized_groups with
         | [] => Ok final_transitions
         | _ => Ok (set (str_of_nat curr_id) optimized_groups final_transitions)
         end)
      id_counts acc = Ok final ->
    (forall ctx, ~ In ctx (keys id_counts) ->
                 get (str_of_nat ctx) final = get (str_of_nat ctx) acc)
    /\ (forall ctx next_words_map,
           In (ctx, next_words_map) id_counts ->
           exists char_groups,
             char_groups_of min_freq id_to_word next_words_map = Ok char_groups
             /\ get (str_of_nat ctx) final
                = match optimize top_k char_groups with
                  | [] => get (str_of_nat ctx) acc
                  | groups => Some groups
                  end).
Proof.
  induction id_counts as [ | [c0 nwm0] idc IH ]; intros acc final Hnd Hrun; simpl in Hrun.
  - injection Hrun as <-. split; [ reflexivity | intros ? ? [] ].
  - inv_bind Hrun. rename a into acc1. inv_bind Hbind. rename a into cg0.
    simpl in Hnd. inversion Hnd as [ | ? ? Hnotin Hnd' ]; subst.
    destruct (IH _ _ Hnd' Hrun) as [Hout Hin].
    assert (Hacc1 : forall ctx, ctx <> c0 ->
                                get (str_of_nat ctx) acc1 = get (str_of_nat ctx) acc).
    { intros ctx Hne. destruct (optimize top_k cg0); injection Hbind as <-; [ reflexivity | ].
      unfold set. apply get_upd_neq. intros E. apply Hne, str_of_nat_inj, E. }
    split.
    + intros ctx Hctx. simpl in Hctx.
      rewrite Hout by (intros Hk; apply Hctx; right; exact Hk).
      apply Hacc1. intros ->. apply Hctx. left. reflexivity.
    + intros ctx nwm [ [= <- <-] | Hitem ].
      * exists cg0. split; [ exact Hbind0 | ]. rewrite Hout by exact Hnotin.
        destruct (optimize top_k cg0); injection Hbind as <-; [ reflexivity | ].
        unfold set. rewrite get_upd_eq. reflexivity.
      * destruct (Hin _ _ Hitem) as [cg [Hcg Hg]]. exists cg. split; [ exact Hcg | ].
        rewrite Hg. rewrite Hacc1; [ reflexivity | ].
        intros ->. apply Hnotin. apply in_map_iff. exists (c0, nwm). split; [ reflexivity | exact Hitem ].
Qed.

(** A successor with a count of at least [min_freq] is in the bucket of its
    letter, unless the bucket is full of successors that are at least as
    frequent. *)
Lemma prune_table_complete (top_k : Z) (min_freq : nat) (id_to_word : dict nat string)
  (id_counts : dict nat (dict nat nat)) (final : dict string (dict ascii (list nat)))
  (ctx id : nat) (w : string) (letter : ascii) :
  (0 <= top_k)%Z ->
  distinct_keys2 id_counts ->
  prune_table top_k min_freq id_to_word id_counts = Ok final ->
  0 < count2 id_counts ctx id -> min_freq <= count2 id_counts ctx id ->
  get id id_to_word = Some w -> first_char w = Ok letter ->
  exists ids,
    lookup_bucket final (str_of_nat ctx) letter = Some ids
    /\ (In id ids
        \/ (Z.of_nat (List.length ids) = top_k
            /\ Forall (fun id' => count2 id_counts ctx id <= count2 id_counts ctx id') ids)).
Proof.
  intros Hk Hdist Hrun Hpos Hmin Hw Hc.
  destruct (count2_pos_item id_counts ctx id Hpos) as [row [Hrow Hn]].
  apply get_In in Hrow, Hn.
  destruct (prune_table_loop _ _ _ _ _ _ (proj1 Hdist) Hrun) as [_ Hin].
  destruct (Hin _ _ Hrow) as [cg [Hcg Hg]].
  destruct (char_groups_loop _ _ _ _ _ Hcg) as [Hnd [_ Hall]].
  destruct (Hall _ _ _ _ Hn Hmin Hw Hc) as [cands [Hcands Hcand]].
  pose proof (get_optimize top_k cg letter (Hnd (NoDup_nil _))) as Hopt.
  rewrite Hcands in Hopt.
  exists (top_ids top_k cands). split.
  - unfold lookup_bucket. rewrite Hg.
    destruct (optimize top_k cg) eqn:E; [ discriminate | exact Hopt ].
  - destruct (top_ids_complete top_k cands _ _ Hk Hcand) as [ Hi | [Hlen Hfull] ];
      [ left; exact Hi | right ].
    split; [ exact Hlen | ]. apply Forall_forall. intros id' Hid'.
    destruct (Hfull _ Hid') as [n' [Hn' Hle]].
    pose proof (char_groups_of_spec _ _ _ _ Hcg letter cands (get_In _ _ _ Hcands)) as Hsp.
    rewrite Forall_forall in Hsp. destruct (Hsp _ Hn') as [Hitem _]. simpl in Hitem.
    rewrite (count2_item _ _ _ _ _ Hdist Hrow Hitem). exact Hle.
Qed.

(** What is in a bucket has a count of at least [min_freq]. *)
Lemma prune_table_sound (top_k : Z) (min_freq : nat) (id_to_word : dict nat string)
  (id_counts : dict nat (dict nat nat)) (final : dict string (dict ascii (list nat)))
  (ctx id : nat) (letter : ascii) (ids : list nat) :
  (0 <= top_k)%Z ->
  distinct_keys2 id_counts ->
  prune_table top_k min_freq id_to_word id_counts = Ok final ->
  lookup_bucket final (str_of_nat ctx) letter = Some ids -> In id ids ->
  In ctx (keys id_counts)
  /\ min_freq <= count2 id_counts ctx id
  /\ exists w, get id id_to_word = Some w /\ first_char w = Ok letter.
Proof.
  intros Hk Hdist Hrun Hlook Hid. unfold lookup_bucket in Hlook.
  destruct (get (str_of_nat ctx) final) as [ groups | ] eqn:Eg; [ | discriminate ].
  apply get_In in Eg, Hlook.
  destruct (prune_table_ok _ _ _ _ _ Hk Hdist Hrun _ _ _ _ Eg Hlook)
    as [ctx' [E [Hctx [Hnames [_ [Hmin _]]]]]].
  apply str_of_nat_inj in E. subst ctx'.
  rewrite Forall_forall in Hnames, Hmin.
  split; [ exact Hctx | split; [ apply Hmin, Hid | apply Hnames, Hid ] ].
Qed.

End TopFacts.

Module SuccessorFacts.

Import PyFacts CollFacts StegFacts VocabFacts AggFacts PruneFacts ScoreFacts TopFacts.

(** ** The id-keyed counts of [build_model_incremental] *)

Lemma count2_set2 (a b v : nat) (d : dict nat (dict nat nat)) (a' b' : nat) :
  count2 (set2 a b v d) a' b'
  = if (a' =? a) && (b' =? b) then v else count2 d a' b'.
Proof.
  unfold count2, count1, set2.
  destruct (Nat.eqb_spec a' a) as [ -> | Ha ]; simpl.
  2:{ rewrite get_upd_neq by exact Ha. reflexivity. }
  rewrite get_upd_eq. simpl or_default at 2. unfold set.
  destruct (Nat.eqb_spec b' b) as [ -> | Hb ].
  - rewrite get_upd_eq. reflexivity.
  - rewrite get_upd_neq by exact Hb. reflexivity.
Qed.

Section IdBigrams.
Variable word_to_id : dict string nat.
Hypothesis Hinj : forall w w' i, get w word_to_id = Some i -> get w' word_to_id = Some i -> w = w'.

Lemma id_row_counts (curr_id : nat) :
  forall (items : dict string nat) (acc acc' : dict nat (dict nat nat)),
    NoDup (keys items) ->
    foldM
      (fun id_bigrams '(next_w, count) =>
         next_id <- getitem next_w word_to_id ;;
         Ok (set2 curr_id next_id count id_bigrams))
      items acc = Ok acc' ->
    (forall a b, a <> curr_id -> count2 acc' a b = count2 acc a b)
    /\ (forall w2 i2, get w2 word_to_id = Some i2 ->
                      count2 acc' curr_id i2
                      = match get w2 items with
                        | Some n => n
                        | None => count2 acc curr_id i2
                        end).
Proof.
  induction items as [ | [w n] items IH ]; intros acc acc' Hnd Hrun; simpl in Hrun.
  - injection Hrun as <-. split; reflexivity.
  - inv_bind Hrun. rename a into acc1. inv_bind Hbind. rename a into i.
    injection Hbind as <-. apply getitem_Ok in Hbind0.
    simpl in Hnd. inversion Hnd as [ | ? ? Hnotin Hnd' ]; subst.
    destruct (IH _ _ Hnd' Hrun) as [Hother Hsame]. split.
    + intros a b Ha. rewrite (Hother _ _ Ha), count2_set2.
      destruct (Nat.eqb_spec a curr_id); [ contradiction | reflexivity ].
    + intros w2 i2 Hw2. rewrite (Hsame _ _ Hw2). simpl get.
      destruct (String.eqb_spec w2 w) as [ -> | Hne ].
      * apply get_None in Hnotin. rewrite Hnotin.
        assert (i2 = i) by congruence. subst i2.
        rewrite count2_set2, !Nat.eqb_refl. reflexivity.
      * destruct (get w2 items); [ reflexivity | ].
        rewrite count2_set2.
        destruct (Nat.eqb_spec i2 i) as [ -> | ]; [ | rewrite andb_false_r; reflexivity ].
        exfalso. apply Hne. eapply Hinj; eassumption.
Qed.

Lemma id_bigrams_loop :
  forall (raw : dict string (dict string nat)) (acc id_bigrams : dict nat (dict nat nat)),
    distinct_keys2 raw ->
    foldM
      (fun id_bigrams '(curr_w, next_counts) =>
         curr_id <- getitem curr_w word_to_id ;;
         foldM
           (fun id_bigrams '(next_w, count) =>
              next_id <- getitem next_w word_to_id ;;
              Ok (set2 curr_id next_id count id_bigrams))
           next_counts id_bigrams)
      raw acc = Ok id_bigrams ->
    forall w1 w2 i1 i2,
      get w1 word_to_id = Some i1 -> get w2 word_to_id = Some i2 ->
      count2 id_bigrams i1 i2
      = match get w1 raw with
        | Some row => match get w2 row with
                      | Some n => n
                      | None => count2 acc i1 i2
                      end
        | None => count2 acc i1 i2
        end.
Proof.
  induction raw as [ | [w row] raw IH ]; intros acc idb [Hnd Hrows] Hrun w1 w2 i1 i2 H1 H2;
    simpl in Hrun.
  - injection Hrun as <-. reflexivity.
  - inv_bind Hrun. rename a into acc1. inv_bind Hbind. rename a into i.
    apply getitem_Ok in Hbind0.
    simpl in Hnd. inversion Hnd as [ | ? ? Hnotin Hnd' ]; subst.
    inversion Hrows as [ | ? ? Hrow Hrows' ]; subst. simpl in Hrow.
    destruct (id_row_counts i _ _ _ Hrow Hbind) as [Hother Hsame].
    rewrite (IH _ _ (conj Hnd' Hrows') Hrun _ _ _ _ H1 H2). simpl get.
    destruct (String.eqb_spec w1 w) as [ -> | Hne ].
    + apply get_None in Hnotin. rewrite Hnotin.
      assert (i1 = i) by congruence. subst i1. apply (Hsame _ _ H2).
    + assert (Hi : i1 <> i).
      { intros ->. apply Hne. eapply Hinj; eassumption. }
      rewrite (Hother _ _ Hi). reflexivity.
Qed.

Lemma id_bigrams_counts (raw : dict string (dict string nat))
  (id_bigrams : dict nat (dict nat nat)) :
  distinct_keys2 raw ->
  Builder.id_bigrams_of word_to_id raw = Ok id_bigrams ->
  forall w1 w2 i1 i2,
    get w1 word_to_id = Some i1 -> get w2 word_to_id = Some i2 ->
    count2 id_bigrams i1 i2 = count2 raw w1 w2.
Proof.
  intros Hdist Hrun w1 w2 i1 i2 H1 H2.
  rewrite (id_bigrams_loop _ _ _ Hdist Hrun _ _ _ _ H1 H2).
  unfold count2, count1. destruct (get w1 raw) as [ row | ]; simpl; [ | reflexivity ].
  destruct (get w2 row); reflexivity.
Qed.

End IdBigrams.

Lemma aggregate_bigrams_distinct (english_words : string -> bool)
  (chunks : list (list string)) :
  distinct_keys2 (Builder.raw_bigrams (Builder.aggregate_bigrams english_words chunks)).
Proof.
  unfold Builder.aggregate_bigrams.
  apply (fold_left_invariant _ _ (fun st => distinct_keys2 (Builder.raw_bigrams st))).
  - apply distinct_keys2_nil.
  - intros st chunk _ Hst. unfold Builder.bigram_chunk. cbn [Builder.raw_bigrams].
    unfold Builder.bigram_chunk_counts.
    assert (Hfold : distinct_keys2
                      (fold_left (fun raw cn => incr2 (fst cn) (snd cn) raw)
                         (pairs (filter english_words chunk)) (Builder.raw_bigrams st))).
    { apply fold_left_invariant; [ exact Hst | ].
      intros s0 [a b] _ Hs0. unfold incr2, incr. apply upd2_distinct, Hs0. }
    destruct (Builder.prev_token st); [ | exact Hfold ].
    destruct (filter english_words chunk); [ exact Hfold | ].
    destruct (Builder.truthy _); [ | exact Hfold ].
    unfold incr2, incr. apply upd2_distinct, Hfold.
Qed.

(** ** From the counts to the table *)

Lemma top_successors_of_counts (top_k min_freq : nat) (vocab tokens : list string)
  (id_counts : dict nat (dict nat nat)) (table : dict string (dict ascii (list nat))) :
  0 < min_freq -> NoDup vocab ->
  distinct_keys2 id_counts ->
  keys2_in (id_of_word (word_to_id_of vocab)) (id_of_word (word_to_id_of vocab)) id_counts ->
  (forall a b wa wb,
      nth_error vocab a = Some wa -> nth_error vocab b = Some wb ->
      count2 id_counts a b = occurrences (wa, wb) (pairs tokens)) ->
  prune_table (Z.of_nat top_k) min_freq (id_to_word_of vocab) id_counts = Ok table ->
  top_successors top_k min_freq vocab tokens table.
Proof.
  intros Hmin Hnd Hdist Hkeys Hcount Hrun.
  assert (Hword : forall id w, get id (id_to_word_of vocab) = Some w ->
                               nth_error vocab id = Some w).
  { intros id w Hw. unfold id_to_word_of in Hw. rewrite get_id_to_word in Hw. exact Hw. }
  assert (Hsound : forall ctx letter ids id,
             lookup_bucket table (str_of_nat ctx) letter = Some ids -> In id ids ->
             exists wa wb,
               nth_error vocab ctx = Some wa /\ nth_error vocab id = Some wb
               /\ first_char wb = Ok letter
               /\ count2 id_counts ctx id = occurrences (wa, wb) (pairs tokens)
               /\ min_freq <= occurrences (wa, wb) (pairs tokens)).
  { intros ctx letter ids id Hlook Hid.
    destruct (prune_table_sound _ _ _ _ _ _ _ _ _ (Nat2Z.is_nonneg top_k) Hdist Hrun Hlook Hid)
      as [Hctx [Hle [wb [Hwb Hc]]]].
    apply in_map_iff in Hctx. destruct Hctx as [[ctx' row] [E Hrow]]. simpl in E. subst ctx'.
    destruct (proj1 (Hkeys _ _ Hrow)) as [wa Hwa].
    apply word_to_id_of_spec in Hwa; [ | exact Hnd ]. apply Hword in Hwb.
    exists wa, wb. rewrite <- (Hcount _ _ _ _ Hwa Hwb). auto. }
  split.
  - intros ctx letter ids id Hlook Hid.
    destruct (Hsound _ _ _ _ Hlook Hid) as [wa [wb [Ha [Hb [Hc [_ Hle]]]]]].
    exists wa, wb. auto.
  - intros ctx id wa wb letter Ha Hb Hc Hle.
    rewrite <- (Hcount _ _ _ _ Ha Hb) in Hle.
    destruct (prune_table_complete (Z.of_nat top_k) min_freq (id_to_word_of vocab)
                id_counts table ctx id wb letter) as [ids [Hlook Hids]]; try assumption.
    + apply Nat2Z.is_nonneg.
    + lia.
    + unfold id_to_word_of. rewrite get_id_to_word. exact Hb.
    + exists ids. split; [ exact Hlook | ].
      destruct Hids as [ Hi | [Hlen Hfull] ]; [ left; exact Hi | right ].
      split; [ lia | ]. apply Forall_forall. intros id' Hid'.
      rewrite Forall_forall in Hfull. specialize (Hfull _ Hid').
      destruct (Hsound _ _ _ _ Hlook Hid') as [wa' [wb' [Ha' [Hb' [_ [Hcnt _]]]]]].
      assert (wa' = wa) by congruence. subst wa'.
      exists wb'. split; [ exact Hb' | ].
      rewrite <- Hcnt, <- (Hcount _ _ _ _ Ha Hb). exact Hfull.
Qed.

End SuccessorFacts.

(* ================================================================== *)
(** * backup/steganography.py: the fallback pool, the decoder, the order of
      the ids *)

Module PoolFacts.

Import PyFacts CollFacts StegFacts VocabFacts Steg.

Lemma starts_with_first_char (c c0 : ascii) (w : string) :
  first_char w = Ok c0 -> starts_with c w = Ascii.eqb c0 c.
Proof. destruct w as [ | c' w ]; [ discriminate | ]. intros [= <-]. reflexivity. Qed.

Lemma words_by_char_from (word_to_id : dict string nat) (l : list string) :
  forall (k : nat) (s r : dict ascii (list nat)),
    (forall j w, nth_error l j = Some w -> get w word_to_id = Some (k + j)) ->
    foldM (fun wbc w =>
             c <- first_char w ;;
             i <- getitem w word_to_id ;;
             Ok (append_to c i wbc)) l s = Ok r ->
    forall c,
      get_default c [] r
      = get_default c [] s
        ++ map fst (filter (fun iw => starts_with c (snd iw))
                      (combine (seq k (List.length l)) l)).
Proof.
  induction l as [ | w l IH ]; intros k s r Hids Hrun c; simpl in Hrun.
  - injection Hrun as <-. simpl. rewrite app_nil_r. reflexivity.
  - inv_bind Hrun. rename a into s1. inv_bind Hbind. rename a into c0.
    inv_bind Hbind. rename a into i. injection Hbind as <-.
    apply getitem_Ok in Hbind1.
    pose proof (Hids 0 w eq_refl) as Hw. rewrite Nat.add_0_r in Hw.
    assert (i = k) by congruence. subst i.
    assert (Hids' : forall j w', nth_error l j = Some w' ->
                                 get w' word_to_id = Some (S k + j)).
    { intros j w' Hj. rewrite (Hids (S j) w' Hj). f_equal. lia. }
    rewrite (IH (S k) _ _ Hids' Hrun c).
    simpl. rewrite (starts_with_first_char c c0 w Hbind0).
    unfold get_default, append_to.
    destruct (Ascii.eqb_spec c0 c) as [ -> | Hne ].
    + rewrite get_upd_eq. cbn [or_default map fst filter].
      destruct (get c s) as [ old | ]; cbn [or_default]; rewrite <- ?app_assoc; reflexivity.
    + rewrite get_upd_neq by congruence. reflexivity.
Qed.

End PoolFacts.

Module DecodeFacts.

Import PyFacts CollFacts StegFacts TokenFacts Steg.

Lemma chars_app (s1 s2 : string) : chars (s1 ++ s2) = chars s1 ++ chars s2.
Proof.
  induction s1 as [ | c s1 IH ]; [ reflexivity | ].
  simpl. unfold chars in *. simpl. rewrite IH. reflexivity.
Qed.

Lemma str_app (l1 l2 : list ascii) : str (l1 ++ l2) = (str l1 ++ str l2)%string.
Proof.
  induction l1 as [ | c l1 IH ]; [ reflexivity | ].
  unfold str in *. simpl. rewrite IH. reflexivity.
Qed.

Lemma mapM_initials (words : list string) :
  Forall (fun w => w <> EmptyString) words ->
  mapM (fun w => c <- first_char w ;; Ok (lower c)) words = Ok (initials words).
Proof.
  induction 1 as [ | w ws Hw _ IH ]; [ reflexivity | ].
  destruct w as [ | c w ]; [ congruence | ].
  simpl. simpl in IH. rewrite IH. reflexivity.
Qed.

(** [decode], as the initials of the words of the filtered sentence. *)
Lemma decode_initials (sentence : string) :
  decode sentence
  = Ok (str (initials
               (split (filter (fun c => is_az c || is_AZ c || isspace c)
                         (chars sentence))))).
Proof.
  unfold decode. rewrite mapM_initials; [ reflexivity | ].
  eapply Forall_impl; [ | apply split_words ]. intros w [[Hne _] _]. exact Hne.
Qed.

Lemma initials_app (l1 l2 : list string) : initials (l1 ++ l2) = initials l1 ++ initials l2.
Proof. apply flat_map_app. Qed.

Lemma split_app_space (s1 s2 : list ascii) :
  split (s1 ++ " "%char :: s2) = split s1 ++ split s2.
Proof.
  unfold split.
  change (s1 ++ " "%char :: s2) with (s1 ++ [" "%char] ++ s2).
  rewrite app_assoc, (split_from_app s1 " "%char s2 eq_refl).
  rewrite (split_from_trailing [" "%char]); [ reflexivity | ].
  constructor; [ reflexivity | constructor ].
Qed.

Lemma lower_letter_az (c : ascii) :
  is_az c = true \/ is_AZ c = true -> is_az (lower c) = true.
Proof. by_cases_on_char c. Qed.

Lemma initials_az (s : list ascii) :
  Forall (fun c => is_az c = true)
    (initials (split (filter (fun c => is_az c || is_AZ c || isspace c) s))).
Proof.
  pose proof (split_words (filter (fun c => is_az c || is_AZ c || isspace c) s)) as Hw.
  induction Hw as [ | w ws [[Hne Hns] Hincl] _ IH ]; [ constructor | ].
  destruct w as [ | c w ]; [ congruence | ].
  simpl. constructor; [ | exact IH ].
  apply lower_letter_az.
  assert (Hc : In c (chars (String c w))) by (left; reflexivity).
  rewrite Forall_forall in Hns. specialize (Hns c Hc). apply Hincl in Hc.
  apply filter_In in Hc. destruct Hc as [_ Hkeep].
  rewrite Hns, orb_false_r in Hkeep. apply orb_true_iff in Hkeep. exact Hkeep.
Qed.

End DecodeFacts.

Module OrderFacts.

Import PyFacts CollFacts.

(** ** The order of strings *)

Lemma ascii_compare_lt_trans (a b c : ascii) :
  Ascii.compare a b = Lt -> Ascii.compare b c = Lt -> Ascii.compare a c = Lt.
Proof.
  unfold Ascii.compare. rewrite !N.compare_lt_iff. lia.
Qed.

Lemma ascii_compare_refl (a : ascii) : Ascii.compare a a = Eq.
Proof. unfold Ascii.compare. apply N.compare_refl. Qed.

Lemma compare_lt_trans (s1 : string) :
  forall s2 s3,
    String.compare s1 s2 = Lt -> String.compare s2 s3 = Lt -> String.compare s1 s3 = Lt.
Proof.
  induction s1 as [ | a s1 IH ]; intros [ | b s2 ] [ | c s3 ]; simpl; try congruence.
  destruct (Ascii.compare a b) eqn:Eab; try discriminate.
  - apply Ascii.compare_eq_iff in Eab. subst b.
    destruct (Ascii.compare a c); try congruence. apply IH.
  - intros _. destruct (Ascii.compare b c) eqn:Ebc; try discriminate.
    + apply Ascii.compare_eq_iff in Ebc. subst c. rewrite Eab. reflexivity.
    + intros _. rewrite (ascii_compare_lt_trans _ _ _ Eab Ebc). reflexivity.
Qed.

Lemma compare_refl (s : string) : String.compare s s = Eq.
Proof.
  induction s as [ | a s IH ]; [ reflexivity | ].
  simpl. rewrite ascii_compare_refl. exact IH.
Qed.

Lemma str_ltb_asym (s1 s2 : string) : String.ltb s1 s2 = true -> String.ltb s2 s1 = false.
Proof.
  unfold String.ltb. rewrite (String.compare_antisym s2 s1).
  destruct (String.compare s1 s2); simpl; congruence.
Qed.

(** [s1 <= s2], as [not (s2 < s1)], is transitive. *)
Lemma not_ltb_trans (s1 s2 s3 : string) :
  String.ltb s2 s1 = false -> String.ltb s3 s2 = false -> String.ltb s3 s1 = false.
Proof.
  unfold String.ltb. intros H12 H23.
  destruct (String.compare s3 s1) eqn:E31; try reflexivity. exfalso.
  destruct (String.compare s2 s1) eqn:E21; try discriminate.
  - apply String.compare_eq_iff in E21. subst s2. rewrite E31 in H23. discriminate.
  - rewrite String.compare_antisym in E21.
    destruct (String.compare s1 s2) eqn:E12; try discriminate.
    rewrite (compare_lt_trans _ _ _ E31 E12) in H23. discriminate.
Qed.

Lemma not_ltb_neq (s1 s2 : string) :
  String.ltb s2 s1 = false -> s1 <> s2 -> String.ltb s1 s2 = true.
Proof.
  unfold String.ltb. intros H Hne. rewrite String.compare_antisym in H.
  destruct (String.compare s1 s2) eqn:E; try reflexivity; try discriminate.
  apply String.compare_eq_iff in E. contradiction.
Qed.

(** ** [sorted] of a list of strings *)

Lemma insert_str_sorted (x : string) (l : list string) :
  StronglySorted (fun a b => String.ltb b a = false) l ->
  StronglySorted (fun a b => String.ltb b a = false) (insert_by String.ltb x l).
Proof.
  induction 1 as [ | q l Hs IH Hall ]; simpl.
  - constructor; constructor.
  - destruct (String.ltb q x) eqn:E.
    + constructor; [ exact IH | ].
      apply Forall_forall. intros y Hy.
      apply (Permutation_in _ (insert_by_perm String.ltb x l)) in Hy.
      destruct Hy as [ <- | Hy ]; [ apply str_ltb_asym, E | ].
      rewrite Forall_forall in Hall. apply Hall, Hy.
    + constructor; [ constructor; assumption | ].
      constructor; [ exact E | ].
      eapply Forall_impl; [ | exact Hall ].
      intros y Hy. apply (not_ltb_trans _ _ _ E Hy).
Qed.

Lemma sorted_str_sorted (l : list string) :
  StronglySorted (fun a b => String.ltb b a = false) (sorted_str l).
Proof.
  unfold sorted_str, sort_by. induction l as [ | x l IH ]; simpl.
  - constructor.
  - apply insert_str_sorted, IH.
Qed.

Lemma StronglySorted_nth (A : Type) (R : A -> A -> Prop) (l : list A) :
  StronglySorted R l ->
  forall i j a b, i < j -> nth_error l i = Some a -> nth_error l j = Some b -> R a b.
Proof.
  induction 1 as [ | x l Hs IH Hall ]; intros i j a b Hij Hi Hj.
  - destruct i; discriminate.
  - destruct j as [ | j ]; [ lia | ]. simpl in Hj.
    destruct i as [ | i ].
    + injection Hi as <-. rewrite Forall_forall in Hall.
      eapply Hall, nth_error_In, Hj.
    + simpl in Hi. apply (IH i j); [ lia | assumption | assumption ].
Qed.

End OrderFacts.

(* ================================================================== *)
(** * scripts/data_builder.py: what the trigram table holds *)

Module TrigramFacts.

Import PyFacts CollFacts StegFacts VocabFacts AggFacts PruneFacts.
Import ScoreFacts BuildFacts TopFacts SuccessorFacts.

Lemma count3_set3 (a b c v : nat) (d : dict nat (dict nat (dict nat nat)))
  (a' b' c' : nat) :
  count3 (Builder.set3 a b c v d) a' b' c'
  = if (a' =? a) && (b' =? b) && (c' =? c) then v else count3 d a' b' c'.
Proof.
  unfold count3, Builder.set3.
  destruct (Nat.eqb_spec a' a) as [ -> | Ha ]; simpl.
  2:{ rewrite get_upd_neq by exact Ha. reflexivity. }
  rewrite get_upd_eq. simpl or_default at 1. apply count2_set2.
Qed.

Section IdTrigrams.
Variable word_to_id : dict string nat.
Hypothesis Hinj : forall w w' i, get w word_to_id = Some i -> get w' word_to_id = Some i -> w = w'.

Lemma id_trigrams_words3 (i1 i2 : nat) :
  forall (items : dict string nat) (acc : dict nat (dict nat (dict nat nat))),
    NoDup (keys items) ->
    let acc' :=
      fold_left
        (fun id_trigrams '(word3, count) =>
           match get word3 word_to_id with
           | None => id_trigrams
           | Some word3_id => Builder.set3 i1 i2 word3_id count id_trigrams
           end)
        items acc in
    (forall a b c, a <> i1 \/ b <> i2 -> count3 acc' a b c = count3 acc a b c)
    /\ (forall w3 i3, get w3 word_to_id = Some i3 ->
                      count3 acc' i1 i2 i3
                      = match get w3 items with
                        | Some n => n
                        | None => count3 acc i1 i2 i3
                        end).
Proof.
  induction items as [ | [w n] items IH ]; intros acc Hnd; [ split; reflexivity | ].
  simpl in Hnd. inversion Hnd as [ | ? ? Hnotin Hnd' ]; subst.
  cbn zeta. simpl fold_left.
  match goal with |- context [fold_left _ items ?a] => set (acc1 := a) end.
  destruct (IH acc1 Hnd') as [Hother Hsame]. cbn zeta in Hother, Hsame. split.
  - intros a b c Hne. rewrite (Hother _ _ _ Hne). unfold acc1.
    destruct (get w word_to_id); [ | reflexivity ].
    rewrite count3_set3.
    destruct Hne as [Hne | Hne]; [ destruct (Nat.eqb_spec a i1) | destruct (Nat.eqb_spec b i2) ];
      try contradiction; rewrite ?andb_false_r; reflexivity.
  - intros w3 i3 Hw3. rewrite (Hsame _ _ Hw3). simpl get.
    destruct (String.eqb_spec w3 w) as [ -> | Hne ].
    + apply get_None in Hnotin. rewrite Hnotin. unfold acc1. rewrite Hw3.
      rewrite count3_set3, !Nat.eqb_refl. reflexivity.
    + destruct (get w3 items); [ reflexivity | ]. unfold acc1.
      destruct (get w word_to_id) as [ i | ] eqn:Ew; [ | reflexivity ].
      rewrite count3_set3.
      destruct (Nat.eqb_spec i3 i) as [ -> | ]; [ | rewrite andb_false_r; reflexivity ].
      exfalso. apply Hne. eapply Hinj; eassumption.
Qed.

Lemma id_trigrams_words2 (i1 : nat) :
  forall (items : dict string (dict string nat)) (acc : dict nat (dict nat (dict nat nat))),
    distinct_keys2 items ->
    let acc' :=
      fold_left
        (fun id_trigrams '(word2, word3_counts) =>
           match get word2 word_to_id with
           | None => id_trigrams
           | Some word2_id =>
               fold_left
                 (fun id_trigrams '(word3, count) =>
                    match get word3 word_to_id with
                    | None => id_trigrams
                    | Some word3_id => Builder.set3 i1 word2_id word3_id count id_trigrams
                    end)
                 word3_counts id_trigrams
           end)
        items acc in
    (forall a b c, a <> i1 -> count3 acc' a b c = count3 acc a b c)
    /\ (forall w2 i2 w3 i3,
           get w2 word_to_id = Some i2 -> get w3 word_to_id = Some i3 ->
           count3 acc' i1 i2 i3
           = match get w2 items with
             | Some row => match get w3 row with
                           | Some n => n
                           | None => count3 acc i1 i2 i3
                           end
             | None => count3 acc i1 i2 i3
             end).
Proof.
  induction items as [ | [w row] items IH ]; intros acc [Hnd Hrows]; [ split; reflexivity | ].
  simpl in Hnd. inversion Hnd as [ | ? ? Hnotin Hnd' ]; subst.
  inversion Hrows as [ | ? ? Hrow Hrows' ]; subst. simpl in Hrow.
  cbn zeta. simpl fold_left.
  match goal with |- context [fold_left _ items ?a] => set (acc1 := a) end.
  destruct (IH acc1 (conj Hnd' Hrows')) as [Hother Hsame]. cbn zeta in Hother, Hsame.
  assert (Hacc1 : (forall a b c, a <> i1 -> count3 acc1 a b c = count3 acc a b c)
                  /\ (forall w2 i2 w3 i3,
                         get w2 word_to_id = Some i2 -> get w3 word_to_id = Some i3 ->
                         count3 acc1 i1 i2 i3
                         = if String.eqb w2 w
                           then match get w3 row with
                                | Some n => n
                                | None => count3 acc i1 i2 i3
                                end
                           else count3 acc i1 i2 i3)).
  { unfold acc1. destruct (get w word_to_id) as [ i | ] eqn:Ew.
    - destruct (id_trigrams_words3 i1 i row acc Hrow) as [H1 H2]. cbn zeta in H1, H2.
      split.
      + intros a b c Ha. apply H1. left. exact Ha.
      + intros w2 i2 w3 i3 Hw2 Hw3.
        destruct (String.eqb_spec w2 w) as [ -> | Hne ].
        * assert (i2 = i) by congruence. subst i2. apply (H2 _ _ Hw3).
        * apply H1. right. intros ->. apply Hne. eapply Hinj; eassumption.
    - split; [ reflexivity | ].
      intros w2 i2 w3 i3 Hw2 Hw3.
      destruct (String.eqb_spec w2 w) as [ -> | Hne ]; [ congruence | reflexivity ]. }
  destruct Hacc1 as [G1 G2]. split.
  - intros a b c Ha. rewrite (Hother _ _ _ Ha). apply G1, Ha.
  - intros w2 i2 w3 i3 Hw2 Hw3. rewrite (Hsame _ _ _ _ Hw2 Hw3), (G2 _ _ _ _ Hw2 Hw3).
    simpl get. destruct (String.eqb_spec w2 w) as [ -> | Hne ].
    + apply get_None in Hnotin. rewrite Hnotin. reflexivity.
    + destruct (get w2 items) as [ row' | ]; [ | reflexivity ].
      destruct (get w3 row'); reflexivity.
Qed.

Lemma id_trigrams_words1 :
  forall (raw : dict string (dict string (dict string nat)))
         (acc : dict nat (dict nat (dict nat nat))),
    distinct_keys3 raw ->
    let acc' :=
      fold_left
        (fun id_trigrams '(word1, word2_dict) =>
           match get word1 word_to_id with
           | None => id_trigrams
           | Some word1_id =>
               fold_left
                 (fun id_trigrams '(word2, word3_counts) =>
                    match get word2 word_to_id with
                    | None => id_trigrams
                    | Some word2_id =>
                        fold_left
                          (fun id_trigrams '(word3, count) =>
                             match get word3 word_to_id with
                             | None => id_trigrams
                             | Some word3_id =>
                                 Builder.set3 word1_id word2_id word3_id count id_trigrams
                             end)
                          word3_counts id_trigrams
                    end)
                 word2_dict id_trigrams
           end)
        raw acc in
    forall w1 i1 w2 i2 w3 i3,
      get w1 word_to_id = Some i1 -> get w2 word_to_id = Some i2 ->
      get w3 word_to_id = Some i3 ->
      count3 acc' i1 i2 i3
      = match get w1 raw with
        | Some d2 =>
            match get w2 d2 with
            | Some row => match get w3 row with
                          | Some n => n
                          | None => count3 acc i1 i2 i3
                          end
            | None => count3 acc i1 i2 i3
            end
        | None => count3 acc i1 i2 i3
        end.
Proof.
  induction raw as [ | [w d2] raw IH ]; intros acc [Hnd Hrows]; [ reflexivity | ].
  simpl in Hnd. inversion Hnd as [ | ? ? Hnotin Hnd' ]; subst.
  inversion Hrows as [ | ? ? Hd2 Hrows' ]; subst. simpl in Hd2.
  cbn zeta. simpl fold_left.
  match goal with |- context [fold_left _ raw ?a] => set (acc1 := a) end.
  pose proof (IH acc1 (conj Hnd' Hrows')) as Hrest. cbn zeta in Hrest.
  intros w1 i1 w2 i2 w3 i3 H1 H2 H3.
  rewrite (Hrest _ _ _ _ _ _ H1 H2 H3). simpl get.
  assert (Hacc1 : count3 acc1 i1 i2 i3
                  = if String.eqb w1 w
                    then match get w2 d2 with
                         | Some row => match get w3 row with
                                       | Some n => n
                                       | None => count3 acc i1 i2 i3
                                       end
                         | None => count3 acc i1 i2 i3
                         end
                    else count3 acc i1 i2 i3).
  { unfold acc1. destruct (get w word_to_id) as [ i | ] eqn:Ew.
    - destruct (id_trigrams_words2 i d2 acc Hd2) as [G1 G2]. cbn zeta in G1, G2.
      destruct (String.eqb_spec w1 w) as [ -> | Hne ].
      + assert (i1 = i) by congruence. subst i1. apply (G2 _ _ _ _ H2 H3).
      + apply G1. intros ->. apply Hne. eapply Hinj; eassumption.
    - destruct (String.eqb_spec w1 w) as [ -> | Hne ]; [ congruence | reflexivity ]. }
  rewrite Hacc1.
  destruct (String.eqb_spec w1 w) as [ -> | Hne ].
  - apply get_None in Hnotin. rewrite Hnotin. reflexivity.
  - destruct (get w1 raw) as [ d2' | ]; [ | reflexivity ].
    destruct (get w2 d2') as [ row' | ]; [ | reflexivity ].
    destruct (get w3 row'); reflexivity.
Qed.

Lemma id_trigrams_counts (raw : dict string (dict string (dict string nat))) :
  distinct_keys3 raw ->
  forall w1 i1 w2 i2 w3 i3,
    get w1 word_to_id = Some i1 -> get w2 word_to_id = Some i2 ->
    get w3 word_to_id = Some i3 ->
    count3 (Builder.id_trigrams_of word_to_id raw) i1 i2 i3 = count3 raw w1 w2 w3.
Proof.
  intros Hdist w1 i1 w2 i2 w3 i3 H1 H2 H3.
  unfold Builder.id_trigrams_of.
  rewrite (id_trigrams_words1 raw [] Hdist _ _ _ _ _ _ H1 H2 H3).
  unfold count3, count2, count1.
  destruct (get w1 raw) as [ d2 | ]; simpl; [ | reflexivity ].
  destruct (get w2 d2) as [ row | ]; simpl; [ | reflexivity ].
  destruct (get w3 row); reflexivity.
Qed.

End IdTrigrams.

(** ** The raw trigram table has distinct keys *)

Lemma incr3_distinct (a b c : string) (d : dict string (dict string (dict string nat))) :
  distinct_keys3 d -> distinct_keys3 (incr3 a b c d).
Proof.
  intros [Hnd Hinner]. unfold incr3. split; [ apply NoDup_keys_upd, Hnd | ].
  apply Forall_forall. intros [k v] Hin. simpl.
  apply In_upd_inv in Hin. destruct Hin as [ Hold | [-> ->] ].
  - rewrite Forall_forall in Hinner. apply (Hinner _ Hold).
  - unfold incr2, incr. apply upd2_distinct.
    destruct (get a d) as [ old | ] eqn:E; simpl; [ | apply distinct_keys2_nil ].
    rewrite Forall_forall in Hinner. apply (Hinner _ (get_In _ _ _ E)).
Qed.

Lemma aggregate_trigrams_distinct (english_words : string -> bool)
  (chunks : list (list string)) :
  distinct_keys3 (Builder.raw_trigrams (Builder.aggregate_trigrams english_words chunks)).
Proof.
  unfold Builder.aggregate_trigrams.
  apply (fold_left_invariant _ _ (fun st => distinct_keys3 (Builder.raw_trigrams st))).
  - split; constructor.
  - intros st chunk _ Hst.
    assert (Hcounts : distinct_keys3
                        (Builder.trigram_chunk_counts st (filter english_words chunk))).
    { unfold Builder.trigram_chunk_counts.
      set (raw1 := fold_left _ (triples (filter english_words chunk)) (Builder.raw_trigrams st)).
      assert (H1 : distinct_keys3 raw1).
      { apply fold_left_invariant; [ exact Hst | ].
        intros s0 [[x y] z] _ Hs0. apply incr3_distinct, Hs0. }
      set (raw2 := match Builder.prev_prev_token st with
                   | Some pp => _
                   | None => raw1
                   end).
      assert (H2 : distinct_keys3 raw2).
      { unfold raw2. destruct (Builder.prev_prev_token st); [ | exact H1 ].
        destruct (Builder.prev_token3 st); [ | exact H1 ].
        destruct (filter english_words chunk); [ exact H1 | ].
        match goal with |- distinct_keys3 (if ?b then _ else _) => destruct b end;
          [ apply incr3_distinct, H1 | exact H1 ]. }
      destruct (Builder.prev_token3 st); [ | exact H2 ].
      destruct (filter english_words chunk) as [ | x [ | y l ] ]; try exact H2.
      match goal with |- distinct_keys3 (if ?b then _ else _) => destruct b end;
        [ apply incr3_distinct, H2 | exact H2 ]. }
    unfold Builder.trigram_chunk.
    destruct (rev (filter english_words chunk)) as [ | l1 [ | l2 r ] ]; exact Hcounts.
Qed.

(** ** The compiled trigram table, by its lookups *)

Lemma prune_trigrams_loop (id_to_word : dict nat string)
  (id_trigrams : dict nat (dict nat (dict nat nat))) :
  forall acc final : dict string (dict string (dict ascii (list nat))),
    NoDup (keys id_trigrams) ->
    foldM
      (fun final '(word1_id, word2_dict) =>
         word1_transitions <-
           prune_table Builder.TOP_K_PER_LETTER_TRIGRAM Builder.MIN_TRIGRAM_FREQ
             id_to_word word2_dict ;;
         match word1_transitions with
         | [] => Ok final
         | _ => Ok (set (str_of_nat word1_id) word1_transitions final)
         end)
      id_trigrams acc = Ok final ->
    (forall word1, ~ In word1 (keys id_trigrams) ->
                   get (str_of_nat word1) final = get (str_of_nat word1) acc)
    /\ (forall word1 word2_dict,
           In (word1, word2_dict) id_trigrams ->
           exists by_word2,
             prune_table Builder.TOP_K_PER_LETTER_TRIGRAM Builder.MIN_TRIGRAM_FREQ
               id_to_word word2_dict = Ok by_word2
             /\ get (str_of_nat word1) final
                = match by_word2 with
                  | [] => get (str_of_nat word1) acc
                  | _ => Some by_word2
                  end).
Proof.
  induction id_trigrams as [ | [k0 d0] idt IH ]; intros acc final Hnd Hrun; simpl in Hrun.
  - injection Hrun as <-. split; [ reflexivity | intros ? ? [] ].
  - inv_bind Hrun. rename a into acc1. inv_bind Hbind. rename a into t0.
    simpl in Hnd. inversion Hnd as [ | ? ? Hnotin Hnd' ]; subst.
    destruct (IH _ _ Hnd' Hrun) as [Hout Hin].
    assert (Hacc1 : forall word1, word1 <> k0 ->
                                  get (str_of_nat word1) acc1 = get (str_of_nat word1) acc).
    { intros word1 Hne. destruct t0; injection Hbind as <-; [ reflexivity | ].
      unfold set. apply get_upd_neq. intros E. apply Hne, str_of_nat_inj, E. }
    split.
    + intros word1 Hw. simpl in Hw.
      rewrite Hout by (intros Hk; apply Hw; right; exact Hk).
      apply Hacc1. intros ->. apply Hw. left. reflexivity.
    + intros word1 d [ [= <- <-] | Hitem ].
      * exists t0. split; [ exact Hbind0 | ]. rewrite Hout by exact Hnotin.
        destruct t0; injection Hbind as <-; [ reflexivity | ].
        unfold set. rewrite get_upd_eq. reflexivity.
      * destruct (Hin _ _ Hitem) as [t [Ht Hg]]. exists t. split; [ exact Ht | ].
        rewrite Hg. rewrite Hacc1; [ reflexivity | ].
        intros ->. apply Hnotin. apply in_map_iff. exists (k0, d). split; [ reflexivity | exact Hitem ].
Qed.

(** ** From the counts to the table *)

Lemma top_successors3_of_counts (vocab tokens : list string)
  (id_trigrams : dict nat (dict nat (dict nat nat)))
  (table : dict string (dict string (dict ascii (list nat)))) :
  NoDup vocab ->
  keys3_ok (id_of_word (word_to_id_of vocab)) id_trigrams ->
  (forall i1 i2 i3 w1 w2 w3,
      nth_error vocab i1 = Some w1 -> nth_error vocab i2 = Some w2 ->
      nth_error vocab i3 = Some w3 ->
      count3 id_trigrams i1 i2 i3 = occurrences (w1, w2, w3) (triples tokens)) ->
  Builder.prune_trigrams (id_to_word_of vocab) id_trigrams = Ok table ->
  top_successors3 20 2 vocab tokens table.
Proof.
  intros Hnd [Hnd1 Hk3] Hcount Hrun.
  assert (Hk20 : (0 <= Builder.TOP_K_PER_LETTER_TRIGRAM)%Z)
    by (unfold Builder.TOP_K_PER_LETTER_TRIGRAM; lia).
  destruct (prune_trigrams_loop _ _ _ _ Hnd1 Hrun) as [Hout Hin].
  assert (Hword : forall id w, get id (id_to_word_of vocab) = Some w ->
                               nth_error vocab id = Some w).
  { intros id w Hw. unfold id_to_word_of in Hw. rewrite get_id_to_word in Hw. exact Hw. }
  assert (Hsound : forall i1 i2 letter ids id,
             lookup_bucket3 table (str_of_nat i1) (str_of_nat i2) letter = Some ids ->
             In id ids ->
             exists w1 w2 w3,
               nth_error vocab i1 = Some w1 /\ nth_error vocab i2 = Some w2
               /\ nth_error vocab id = Some w3 /\ first_char w3 = Ok letter
               /\ count3 id_trigrams i1 i2 id = occurrences (w1, w2, w3) (triples tokens)
               /\ 2 <= occurrences (w1, w2, w3) (triples tokens)).
  { intros i1 i2 letter ids id Hlook Hid. unfold lookup_bucket3 in Hlook.
    destruct (get (str_of_nat i1) table) as [ t | ] eqn:Et; [ | discriminate ].
    destruct (in_dec Nat.eq_dec i1 (keys id_trigrams)) as [Hk | Hk].
    2:{ rewrite (Hout _ Hk) in Et. discriminate. }
    apply in_map_iff in Hk. destruct Hk as [[i1' d2] [E Hitem]]. simpl in E. subst i1'.
    destruct (Hin _ _ Hitem) as [t' [Ht' Hg]]. rewrite Et in Hg.
    assert (t' = t) by (destruct t'; simpl in Hg; congruence). subst t'.
    destruct (Hk3 _ _ Hitem) as [[w1 Hw1] [Hdist Hk2]].
    destruct (prune_table_sound _ _ _ _ _ _ _ _ _ Hk20 Hdist Ht' Hlook Hid)
      as [Hctx [Hle [w3 [Hw3 Hc]]]].
    apply in_map_iff in Hctx. destruct Hctx as [[i2' row] [E Hrow]]. simpl in E. subst i2'.
    destruct (proj1 (Hk2 _ _ Hrow)) as [w2 Hw2].
    apply word_to_id_of_spec in Hw1, Hw2; try exact Hnd. apply Hword in Hw3.
    exists w1, w2, w3.
    assert (Hc3 : count3 id_trigrams i1 i2 id = count2 d2 i2 id).
    { unfold count3. rewrite (In_get _ _ _ Hnd1 Hitem). reflexivity. }
    rewrite <- (Hcount _ _ _ _ _ _ Hw1 Hw2 Hw3), Hc3.
    unfold Builder.MIN_TRIGRAM_FREQ in Hle. auto 10. }
  split.
  - intros i1 i2 letter ids id Hlook Hid.
    destruct (Hsound _ _ _ _ _ Hlook Hid) as [w1 [w2 [w3 [H1 [H2 [H3 [Hc [_ Hle]]]]]]]].
    exists w1, w2, w3. auto.
  - intros i1 i2 id w1 w2 w3 letter H1 H2 H3 Hc Hle.
    rewrite <- (Hcount _ _ _ _ _ _ H1 H2 H3) in Hle.
    assert (Hd2 : exists d2, In (i1, d2) id_trigrams /\ count3 id_trigrams i1 i2 id = count2 d2 i2 id).
    { unfold count3 in *. destruct (get i1 id_trigrams) as [ d2 | ] eqn:E.
      - exists d2. split; [ apply get_In, E | reflexivity ].
      - simpl in Hle. unfold count2, count1 in Hle. simpl in Hle. lia. }
    destruct Hd2 as [d2 [Hitem Hc3]]. rewrite Hc3 in Hle.
    destruct (Hin _ _ Hitem) as [t [Ht Hg]].
    destruct (Hk3 _ _ Hitem) as [_ [Hdist _]].
    assert (Hpos : 0 < count2 d2 i2 id) by lia.
    assert (Hmin : Builder.MIN_TRIGRAM_FREQ <= count2 d2 i2 id)
      by (unfold Builder.MIN_TRIGRAM_FREQ; lia).
    assert (Hw3 : get id (id_to_word_of vocab) = Some w3).
    { unfold id_to_word_of. rewrite get_id_to_word. exact H3. }
    destruct (prune_table_complete Builder.TOP_K_PER_LETTER_TRIGRAM Builder.MIN_TRIGRAM_FREQ
                (id_to_word_of vocab) d2 t i2 id w3 letter Hk20 Hdist Ht Hpos Hmin Hw3 Hc)
      as [ids [Hlook Hids]].
    assert (Hlook3 : lookup_bucket3 table (str_of_nat i1) (str_of_nat i2) letter = Some ids).
    { unfold lookup_bucket3. rewrite Hg. destruct t; [ discriminate | exact Hlook ]. }
    exists ids. split; [ exact Hlook3 | ].
    destruct Hids as [ Hi | [Hlen Hfull] ]; [ left; exact Hi | right ].
    split; [ unfold Builder.TOP_K_PER_LETTER_TRIGRAM in Hlen; lia | ].
    apply Forall_forall. intros id' Hid'.
    rewrite Forall_forall in Hfull. specialize (Hfull _ Hid').
    destruct (Hsound _ _ _ _ _ Hlook3 Hid')
      as [w1' [w2' [w3' [H1' [H2' [H3' [_ [Hcnt _]]]]]]]].
    assert (w1' = w1) by congruence. assert (w2' = w2) by congruence. subst w1' w2'.
    exists w3'. split; [ exact H3' | ].
    rewrite <- Hcnt, <- (Hcount _ _ _ _ _ _ H1 H2 H3).
    unfold count3 in *. rewrite (In_get _ _ _ Hnd1 Hitem). simpl. exact Hfull.
Qed.

End TrigramFacts.

(* ================================================================== *)
(** * The main blocks *)

Module MainFacts.

Import PyFacts CollFacts StegFacts VocabFacts AggFacts PruneFacts.
Import BuildFacts Script.

Lemma index_spec (x : string) (l : list string) :
  match index x l with
  | Some i => nth_error l i = Some x
  | None => ~ In x l
  end.
Proof.
  induction l as [ | y l IH ]; simpl; [ tauto | ].
  destruct (String.eqb_spec x y) as [ -> | Hne ]; [ reflexivity | ].
  destruct (index x l) as [ i | ]; simpl; [ exact IH | ].
  intros [ E | Hin ]; [ congruence | contradiction ].
Qed.

Lemma mapM_item (vocab_list : list string) (ids : list nat) :
  Forall (fun id => id < List.length vocab_list) ids ->
  exists words, mapM (fun id => item id vocab_list) ids = Ok words.
Proof.
  induction 1 as [ | id ids Hid _ [ws IH] ]; [ exists []; reflexivity | ].
  simpl. unfold item at 1.
  destruct (nth_error vocab_list id) as [ w | ] eqn:E.
  - simpl. rewrite IH. simpl. eauto.
  - apply nth_error_None in E. lia.
Qed.


Lemma bigram_sample_returns (vocab_list : list string)
  (table : dict string (dict ascii (list nat))) :
  (forall key groups letter ids id,
      In (key, groups) table -> In (letter, ids) groups -> In id ids ->
      id < List.length vocab_list) ->
  (~ In "in"%string vocab_list -> bigram_sample vocab_list table = Throws ValueError)
  /\ (In "in"%string vocab_list ->
      exists b, bigram_sample vocab_list table = Returns b
                /\ nth_error vocab_list (in_index b) = Some "in"%string).
Proof.
  intros Hrange. unfold bigram_sample.
  pose proof (index_spec "in" vocab_list) as Hidx.
  destruct (index "in" vocab_list) as [ i | ].
  - split; [ intros Hno; exfalso; eapply Hno, nth_error_In, Hidx | intros _ ].
    cbv zeta.
    destruct (get (str_of_nat i) table) as [ groups | ] eqn:Eg;
      [ | eexists; split; [ reflexivity | exact Hidx ] ].
    destruct (get "t"%char groups) as [ ids | ] eqn:Et;
      [ | eexists; split; [ reflexivity | exact Hidx ] ].
    destruct (mapM_item vocab_list ids) as [words ->];
      [ | eexists; split; [ reflexivity | exact Hidx ] ].
    apply get_In in Eg, Et. apply Forall_forall. intros id Hid.
    apply (Hrange _ _ _ _ _ Eg Et Hid).
  - split; [ reflexivity | intros Hyes; contradiction ].
Qed.

Lemma artifacts_in_range :
  forall (english_words : string -> bool) (chunks : list (list string))
         (art : Builder.Artifacts),
    Builder.compile_chunks english_words chunks = Ok art ->
    let n := List.length (Builder.vocab_list art) in
    (forall key groups,
        In (key, groups) (Builder.transition_graph art) ->
        (exists ctx, key = str_of_nat ctx /\ ctx < n)
        /\ forall letter ids id, In (letter, ids) groups -> In id ids -> id < n)
    /\ (forall key1 by_word2,
           In (key1, by_word2) (Builder.trigram_graph art) ->
           (exists word1, key1 = str_of_nat word1 /\ word1 < n)
           /\ forall key2 groups,
               In (key2, groups) by_word2 ->
               (exists word2, key2 = str_of_nat word2 /\ word2 < n)
               /\ forall letter ids id,
                   In (letter, ids) groups -> In id ids -> id < n).
Proof.
  intros english_words chunks art Hrun n.
  unfold Builder.compile_chunks in Hrun.
  inv_bind Hrun. destruct a as [vocab_map tg]. rename Hbind into Hbi.
  inv_bind Hrun. rename a into vl, Hbind into Hvl.
  inv_bind Hrun. rename a into t3, Hbind into Htri.
  injection Hrun as <-. subst n. cbn [Builder.vocab_list Builder.transition_graph
                                        Builder.trigram_graph].
  unfold Builder.build_model_from_chunks, Builder.bigram_finish in Hbi.
  inv_bind Hbi. rename a into raw, Hbind into Hraw.
  inv_bind Hbi. rename Hbind into Hprune. injection Hbi as <- <-.
  set (vocab := sorted_vocab_of
                  (Builder.word_counts (Builder.aggregate_bigrams english_words chunks)))
    in *.
  assert (Hnd : NoDup vocab).
  { unfold vocab. rewrite aggregate_word_counts. apply sorted_vocab_spec. }
  rewrite id_to_word_of_spec, mapM_getitem_enumerate in Hvl. injection Hvl as <-.
  assert (Hbucket : forall id_counts table,
             distinct_keys2 id_counts ->
             keys2_in (id_of_word (word_to_id_of vocab)) (id_of_word (word_to_id_of vocab))
               id_counts ->
             forall top_k min_freq,
               (0 <= top_k)%Z ->
               prune_table top_k min_freq (id_to_word_of vocab) id_counts = Ok table ->
               forall key groups,
                 In (key, groups) table ->
                 (exists ctx, key = str_of_nat ctx /\ ctx < List.length vocab)
                 /\ forall letter ids id,
                     In (letter, ids) groups -> In id ids -> id < List.length vocab).
  { intros id_counts table Hdist Hkeys top_k min_freq Hk Hp key groups Hin. split.
    - destruct (prune_table_spec _ _ _ _ _ Hp _ _ Hin) as [ctx [nwm [cg [Hctx [-> _]]]]].
      exists ctx. split; [ reflexivity | ].
      apply id_of_word_lt; [ exact Hnd | apply (proj1 (Hkeys _ _ Hctx)) ].
    - intros letter ids id Hl Hid.
      destruct (prune_table_ok _ _ _ _ _ Hk Hdist Hp _ _ _ _ Hin Hl)
        as [ctx [_ [_ [Hnames _]]]].
      rewrite Forall_forall in Hnames. destruct (Hnames _ Hid) as [w [Hw _]].
      eapply id_to_word_lt, Hw. }
  split.
  - destruct (id_bigrams_of_spec _ _ _ Hraw) as [Hdist Hkeys].
    apply (Hbucket raw _ Hdist Hkeys Builder.TOP_K_PER_LETTER Builder.MIN_BIGRAM_FREQ);
      [ unfold Builder.TOP_K_PER_LETTER; lia | exact Hprune ].
  - intros key1 by_word2 Hin1.
    unfold Builder.build_trigram_model_from_chunks, Builder.trigram_finish in Htri.
    destruct (prune_trigrams_spec _ _ _ Htri _ _ Hin1) as [word1 [w2d [Hitem [-> Hp]]]].
    destruct (id_trigrams_of_spec (word_to_id_of vocab)
                (Builder.raw_trigrams (Builder.aggregate_trigrams english_words chunks)))
      as [_ Hk3].
    destruct (Hk3 _ _ Hitem) as [Hw1 [Hdist Hkeys]].
    split.
    + exists word1. split; [ reflexivity | apply id_of_word_lt; assumption ].
    + apply (Hbucket w2d by_word2 Hdist Hkeys Builder.TOP_K_PER_LETTER_TRIGRAM
               Builder.MIN_TRIGRAM_FREQ);
        [ unfold Builder.TOP_K_PER_LETTER_TRIGRAM; lia | exact Hp ].
Qed.


Lemma int_of_numeral_str (n : nat) : int_of_numeral (str_of_nat n) = Some (Z.of_nat n).
Proof.
  unfold int_of_numeral, str_of_nat. rewrite NilEmpty.usu. simpl.
  rewrite DecimalNat.Unsigned.of_to. reflexivity.
Qed.

Lemma trigram_sample_returns (py_int : string -> option Z) (vocab_list : list string)
  (trigram_graph : dict string (dict string (dict ascii (list nat)))) (in_id : string) :
  (forall n, py_int (str_of_nat n) = Some (Z.of_nat n)) ->
  (forall key1 by_word2 key2 groups,
      In (key1, by_word2) trigram_graph -> In (key2, groups) by_word2 ->
      exists word2, key2 = str_of_nat word2 /\ word2 < List.length vocab_list) ->
  exists t, trigram_sample py_int vocab_list trigram_graph in_id = Returns t.
Proof.
  intros Hint Hkeys. unfold trigram_sample.
  destruct (get in_id trigram_graph) as [ by_word2 | ] eqn:Eg; [ | eauto ].
  apply get_In in Eg. cbv zeta.
  destruct by_word2 as [ | [key2 groups] rest ]; [ eauto | ].
  destruct (Hkeys _ _ key2 groups Eg) as [word2 [-> Hlt]]; [ left; reflexivity | ].
  simpl first_item. cbv iota. rewrite Hint.
  unfold item_int. destruct (Z.leb_spec 0 (Z.of_nat word2)) as [ _ | ]; [ | lia ].
  rewrite Nat2Z.id. unfold item.
  destruct (nth_error vocab_list word2) as [ w | ] eqn:E;
    [ | apply nth_error_None in E; lia ].
  unfold getitem. simpl get. rewrite String.eqb_refl. eauto.
Qed.

End MainFacts.

(* ================================================================== *)
(** * backup/steganography.py: the score of a path *)

Module PathFacts.

Import PyFacts CollFacts StegFacts EncodeFacts VocabFacts BeamFacts PoolFacts Steg.

Lemma last_cons (A : Type) (l : list A) :
  forall x d d' : A, last (x :: l) d = last (x :: l) d'.
Proof.
  induction l as [ | y l IH ]; intros x d d'; [ reflexivity | ].
  change (last (x :: y :: l) d) with (last (y :: l) d).
  change (last (x :: y :: l) d') with (last (y :: l) d'). apply IH.
Qed.

Lemma rescore_from_snoc (m : SteganographyLLM) (ids : list nat) :
  forall (acc : float) (prev : nat) (cs : list ascii) (next : nat) (c : ascii),
    List.length ids = List.length cs ->
    rescore_from m acc prev (ids ++ [next]) (cs ++ [c])
    = (rescore_from m acc prev ids cs + step_score m (last ids prev) c next)%float.
Proof.
  induction ids as [ | i ids IH ]; intros acc prev [ | c0 cs ] next c Hlen;
    try discriminate; [ reflexivity | ].
  simpl in Hlen. injection Hlen as Hlen.
  change (rescore_from m acc prev ((i :: ids) ++ [next]) ((c0 :: cs) ++ [c]))
    with (rescore_from m (acc + step_score m prev c0 i)%float i (ids ++ [next]) (cs ++ [c])).
  rewrite (IH _ _ _ _ _ Hlen).
  change (rescore_from m acc prev (i :: ids) (c0 :: cs))
    with (rescore_from m (acc + step_score m prev c0 i)%float i ids cs).
  f_equal. f_equal. destruct ids as [ | j ids ]; [ reflexivity | ].
  change (last (i :: j :: ids) prev) with (last (j :: ids) prev). apply last_cons.
Qed.

Lemma rescore_from_prefix (m : SteganographyLLM) (ids : list nat) :
  forall (acc : float) (prev : nat) (cs more : list ascii),
    List.length ids = List.length cs ->
    rescore_from m acc prev ids (cs ++ more) = rescore_from m acc prev ids cs.
Proof.
  induction ids as [ | i ids IH ]; intros acc prev [ | c0 cs ] more Hlen;
    try discriminate.
  - destruct more; reflexivity.
  - simpl in Hlen. injection Hlen as Hlen. simpl. apply IH, Hlen.
Qed.

Lemma rescore_prefix (m : SteganographyLLM) (ids : list nat) (cs more : list ascii) :
  List.length ids = List.length cs ->
  rescore m ids (cs ++ more) = rescore m ids cs.
Proof.
  destruct ids as [ | i ids ]; destruct cs as [ | c cs ]; try discriminate.
  - intros _. destruct more; reflexivity.
  - intros [= Hlen]. simpl. apply rescore_from_prefix, Hlen.
Qed.

Lemma last_item_last (i : nat) (ids : list nat) : last_item (i :: ids) = Ok (last ids i).
Proof.
  revert i. induction ids as [ | j ids IH ]; intros i; [ reflexivity | ].
  change (last_item (i :: j :: ids)) with (last_item (j :: ids)). rewrite IH.
  f_equal. destruct ids as [ | k ids ]; [ reflexivity | ].
  change (last (j :: k :: ids) i) with (last (k :: ids) i). apply last_cons.
Qed.

(** ** An invariant of the beam *)

Lemma search_invariant (m : SteganographyLLM) (beam_width : Z)
  (I : list ascii -> Path -> Prop) :
  (forall done c p ext,
      I done p -> extend m c p = Ok ext -> Forall (I (done ++ [c])) ext) ->
  forall (rest : list ascii) (beam : list Path) (char_idx : nat) (done : list ascii)
         (out : list Path) (dead_end : option nat),
    Forall (I done) beam ->
    search m beam_width beam rest char_idx = Ok (out, dead_end) ->
    exists k, Forall (I (done ++ firstn k rest)) out.
Proof.
  intros Hstep. induction rest as [ | c rest IH ]; intros beam idx done out de Hbeam Hrun.
  - injection Hrun as <- <-. exists 0. rewrite app_nil_r. exact Hbeam.
  - simpl in Hrun. inv_bind Hrun. rename a into new_beam.
    assert (Hnew : Forall (I (done ++ [c])) new_beam).
    { unfold expand in Hbind. pattern new_beam.
      eapply foldM_invariant; [ | | exact Hbind ]; [ constructor | ].
      intros s0 p s1 Hp Hs0 Hbody. inv_bind Hbody. injection Hbody as <-.
      apply Forall_app. split; [ exact Hs0 | ].
      rewrite Forall_forall in Hbeam. apply (Hstep _ _ _ _ (Hbeam _ Hp) Hbind0). }
    destruct new_beam as [ | p new_beam ].
    + injection Hrun as <- <-. exists 0. rewrite app_nil_r. exact Hbeam.
    + apply (IH _ _ (done ++ [c])) in Hrun; [ | apply prune_Forall, Hnew ].
      destruct Hrun as [k Hk]. exists (S k). simpl.
      rewrite <- app_assoc in Hk. exact Hk.
Qed.

(** ** The candidates of a trained model have distinct ids *)

Section Trained.
Variable math_log : float -> float.
Variables (corpus : string) (m : SteganographyLLM).
Hypothesis Htrain : train math_log init corpus = Ok m.

Lemma transitions_distinct :
  forall cur by_char c nexts,
    get cur (transitions m) = Some by_char -> get c by_char = Some nexts ->
    NoDup (keys nexts).
Proof.
  pose proof Htrain as Hrun. unfold train in Hrun.
  inv_bind Hrun. rename a into wbc, Hbind into Hwbc.
  inv_bind Hrun. rename a into counts, Hbind into Hcounts.
  inv_bind Hrun. rename a into tr, Hbind into Htr.
  injection Hrun as <-. cbn [transitions].
  pattern tr. eapply foldM_invariant; [ | | exact Htr ].
  - intros cur by_char c nexts. simpl. discriminate.
  - intros s0 [curr_id next_ids] s1 _ IH Hbody. unfold log_probs in Hbody.
    pattern s1. eapply foldM_invariant; [ exact IH | | exact Hbody ].
    clear IH Hbody. intros t0 [next_id count] t1 _ IH Hbody cur by_char c nexts.
    inv_bind Hbody. rename a into next_word.
    inv_bind Hbody. rename a into start_char.
    inv_bind Hbody. rename a into q.
    injection Hbody as <-. unfold set_transition.
    destruct (Nat.eqb_spec cur curr_id) as [ -> | Hne ].
    + rewrite get_upd_eq. intros [= <-].
      destruct (Ascii.eqb_spec c start_char) as [ -> | Hnec ].
      * rewrite get_upd_eq. intros [= <-]. unfold set. apply NoDup_keys_upd.
        destruct (get curr_id t0) as [ bc | ] eqn:E1; simpl; [ | constructor ].
        destruct (get start_char bc) as [ ns | ] eqn:E2; simpl; [ | constructor ].
        apply (IH _ _ _ _ E1 E2).
      * rewrite get_upd_neq by assumption.
        destruct (get curr_id t0) as [ bc | ] eqn:E1; simpl; [ | discriminate ].
        apply (IH _ _ _ _ E1).
    + rewrite get_upd_neq by assumption. apply IH.
Qed.

Lemma NoDup_firstn (A : Type) (n : nat) (l : list A) : NoDup l -> NoDup (firstn n l).
Proof.
  revert l. induction n as [ | n IH ]; intros [ | x l ] Hnd; simpl; try constructor.
  - inversion Hnd as [ | ? ? Hx Hl ]; subst. intros Hin. apply Hx.
    eapply In_firstn, Hin.
  - inversion Hnd; subst. apply IH. assumption.
Qed.

Lemma ids_starting_with_NoDup (c : ascii) (vocab : list string) :
  NoDup (ids_starting_with c vocab).
Proof.
  unfold ids_starting_with.
  assert (G : forall l : list (nat * string), NoDup (map fst l) ->
                NoDup (map fst (filter (fun iw => starts_with c (snd iw)) l))).
  { induction l as [ | [i w] l IH ]; intros Hnd; simpl; [ constructor | ].
    simpl in Hnd. inversion Hnd as [ | ? ? Hx Hl ]; subst.
    destruct (starts_with c w); simpl; [ | apply IH, Hl ].
    constructor; [ | apply IH, Hl ].
    intros Hin. apply Hx. apply in_map_iff in Hin. destruct Hin as [[j w'] [E Hin]].
    apply filter_In in Hin. apply in_map_iff. exists (j, w'). tauto. }
  apply G, NoDup_enumerate_keys.
Qed.

Lemma candidates_distinct (cur : nat) (c : ascii) :
  NoDup (keys (get_candidates m cur c)).
Proof.
  unfold get_candidates.
  destruct (strategy_a m cur c) as [ | cand cands ] eqn:Ea.
  - unfold strategy_b, keys. rewrite map_map. simpl. rewrite map_id.
    destruct (slice_to_firstn _ 10 (get_default c [] (words_by_char m))) as [k ->].
    apply NoDup_firstn.
    rewrite (words_by_char_from (word_to_id m) (vocab m) 0 [] (words_by_char m)).
    + apply ids_starting_with_NoDup.
    + intros j w Hj. pose proof Htrain as Hrun. unfold train in Hrun.
      repeat inv_bind Hrun. injection Hrun as <-. cbn [word_to_id vocab] in *.
      apply word_to_id_of_spec; [ | exact Hj ].
      apply (proj1 (unique_words_spec (preprocess corpus))).
    + pose proof Htrain as Hrun. unfold train in Hrun.
      inv_bind Hrun. inv_bind Hrun. inv_bind Hrun. injection Hrun as <-.
      cbn [word_to_id vocab words_by_char]. exact Hbind.
  - rewrite <- Ea. unfold strategy_a.
    destruct (get cur (transitions m)) as [ by_char | ] eqn:E1; [ | constructor ].
    destruct (get c by_char) as [ nexts | ] eqn:E2; [ | constructor ].
    apply (transitions_distinct _ _ _ _ E1 E2).
Qed.

Lemma extend_rescore (done : list ascii) (c : ascii) (p : Path) (ext : list Path) :
  spells m done p /\ score p = rescore m (sequence p) done ->
  extend m c p = Ok ext ->
  Forall (fun q => spells m (done ++ [c]) q
                   /\ score q = rescore m (sequence q) (done ++ [c])) ext.
Proof.
  intros [Hsp Hscore] Hext.
  pose proof (extend_spells _ _ _ _ _ (train_wf _ _ _ Htrain) Hsp Hext) as Hsp'.
  unfold extend in Hext. inv_bind Hext. rename a into last_id. injection Hext as <-.
  apply Forall_forall. intros q Hq.
  split; [ rewrite Forall_forall in Hsp'; apply Hsp'; exact Hq | ].
  apply in_map_iff in Hq. destruct Hq as [[next s] [<- Hcand]]. cbn [sequence score fst snd].
  pose proof (Forall2_length Hsp) as Hlen.
  destruct (sequence p) as [ | first ids ] eqn:Eseq; [ discriminate | ].
  destruct done as [ | c0 cs ]; [ discriminate | ].
  rewrite last_item_last in Hbind. injection Hbind as <-.
  simpl in Hlen. injection Hlen as Hlen.
  change (rescore m ((first :: ids) ++ [next]) ((c0 :: cs) ++ [c]))
    with (rescore_from m 0 first (ids ++ [next]) (cs ++ [c])).
  rewrite (rescore_from_snoc _ _ _ _ _ _ _ Hlen).
  simpl in Hscore. rewrite <- Hscore. f_equal.
  unfold step_score.
  rewrite (In_get _ _ _ (candidates_distinct (last ids first) c) Hcand). reflexivity.
Qed.

End Trained.

End PathFacts.

(* ================================================================== *)
(** * backup/steganography.py: the rounds of the search and the two tiers of
      candidates *)

Module RoundFacts.

Import PyFacts CollFacts StegFacts EncodeFacts VocabFacts BeamFacts PoolFacts PathFacts.
Import CoverFacts TotalFacts ScoreFacts PruneFacts Steg.

(** ** The loop and its log *)

Lemma search_rounds_search (m : SteganographyLLM) (beam_width : Z) (rest : list ascii) :
  forall (beam : list Path) (char_idx : nat),
    search m beam_width beam rest char_idx
    = (r <- search_rounds m beam_width beam rest char_idx ;; Ok (snd r)).
Proof.
  induction rest as [ | c rest IH ]; intros beam idx; [ reflexivity | ].
  simpl. destruct (expand m c beam) as [ new_beam | e ]; [ | reflexivity ].
  simpl. destruct new_beam as [ | p new_beam ]; [ reflexivity | ].
  rewrite IH.
  destruct (search_rounds m beam_width (prune beam_width (p :: new_beam)) rest (S idx))
    as [ [rounds out] | e ]; reflexivity.
Qed.

Lemma extend_by_last (m : SteganographyLLM) (c : ascii) (path : Path) :
  sequence path <> [] ->
  extend m c path
  = Ok (map (new_path path) (get_candidates m (last (sequence path) 0) c)).
Proof.
  intros Hne. unfold extend.
  destruct (sequence path) as [ | i ids ] eqn:E; [ congruence | ].
  rewrite last_item_last. simpl bind.
  replace (last (i :: ids) 0) with (last ids i); [ unfold new_path; rewrite E; reflexivity | ].
  destruct ids as [ | j ids ]; [ reflexivity | ].
  change (last (i :: j :: ids) 0) with (last (j :: ids) 0). apply last_cons.
Qed.

Lemma expand_by_last (m : SteganographyLLM) (c : ascii) (beam : list Path) :
  Forall (fun path => sequence path <> []) beam ->
  expand m c beam
  = Ok (flat_map
          (fun path => map (new_path path) (get_candidates m (last (sequence path) 0) c))
          beam).
Proof.
  induction 1 as [ | p beam Hp _ IH ]; [ reflexivity | ].
  rewrite expand_cons, (extend_by_last _ _ _ Hp), IH. reflexivity.
Qed.

Lemma new_path_word (path : Path) (cand : nat * float) : sequence (new_path path cand) <> [].
Proof. simpl. intros E. apply app_eq_nil in E. destruct E; discriminate. Qed.

Lemma search_rounds_log (m : SteganographyLLM) (beam_width : Z) (rest : list ascii) :
  forall (beam : list Path) (char_idx : nat),
    Forall (fun path => sequence path <> []) beam ->
    exists rounds out,
      search_rounds m beam_width beam rest char_idx = Ok (rounds, out)
      /\ forall i b c new_beam,
           nth_error rounds i = Some (b, c, new_beam) ->
           nth_error rest i = Some c
           /\ Forall (fun path => sequence path <> []) b
           /\ new_beam
              = flat_map
                  (fun path =>
                     map (new_path path) (get_candidates m (last (sequence path) 0) c))
                  b.
Proof.
  induction rest as [ | c rest IH ]; intros beam idx Hbeam.
  - exists [], (beam, None). split; [ reflexivity | ].
    intros i b c nb Hi. destruct i; discriminate.
  - simpl. rewrite (expand_by_last _ _ _ Hbeam). simpl bind.
    set (nb0 := flat_map _ beam).
    assert (Hnb : Forall (fun path => sequence path <> []) nb0).
    { apply Forall_forall. intros q Hq. apply in_flat_map in Hq.
      destruct Hq as [p [_ Hq]]. apply in_map_iff in Hq. destruct Hq as [cand [<- _]].
      apply new_path_word. }
    assert (Hfirst : forall i b c' new_beam more,
               nth_error ((beam, c, nb0) :: more) i = Some (b, c', new_beam) ->
               (forall j b' c'' nb',
                   nth_error more j = Some (b', c'', nb') ->
                   nth_error rest j = Some c''
                   /\ Forall (fun path => sequence path <> []) b'
                   /\ nb' = flat_map
                              (fun path =>
                                 map (new_path path)
                                   (get_candidates m (last (sequence path) 0) c''))
                              b') ->
               nth_error (c :: rest) i = Some c'
               /\ Forall (fun path => sequence path <> []) b
               /\ new_beam
                  = flat_map
                      (fun path =>
                         map (new_path path)
                           (get_candidates m (last (sequence path) 0) c'))
                      b).
    { intros [ | i ] b c' new_beam more Hi Hmore.
      - injection Hi as <- <- <-. split; [ reflexivity | split; [ exact Hbeam | reflexivity ] ].
      - apply (Hmore i), Hi. }
    destruct nb0 as [ | p nb0' ] eqn:Enb.
    + exists [(beam, c, [])], (beam, Some idx). split; [ reflexivity | ].
      intros i b c' new_beam Hi. apply (Hfirst i b c' new_beam [] Hi).
      intros j ? ? ? Hj. destruct j; discriminate.
    + destruct (IH (prune beam_width (p :: nb0')) (S idx)) as [rounds [out [E Hlog]]].
      { apply prune_Forall, Hnb. }
      rewrite E. simpl bind.
      exists ((beam, c, p :: nb0') :: rounds), out. split; [ reflexivity | ].
      intros i b c' new_beam Hi. apply (Hfirst i b c' new_beam rounds Hi Hlog).
Qed.

(** ** The two tiers of a trained model *)

Section Trained.
Variable math_log : float -> float.
Variables (corpus : string) (m : SteganographyLLM).
Hypothesis Htrain : train math_log init corpus = Ok m.

Lemma trained_strategy_b (c : ascii) : strategy_b m c = fallback_pool (vocab m) c.
Proof.
  assert (Hpool : get_default c [] (words_by_char m) = ids_starting_with c (vocab m)).
  { pose proof Htrain as Hrun. unfold train in Hrun.
    set (uw := sorted_str (set_of (preprocess corpus))) in *.
    fold (word_to_id_of uw) in Hrun.
    inv_bind Hrun. rename a into wbc. inv_bind Hrun. inv_bind Hrun.
    injection Hrun as <-. cbn [words_by_char vocab].
    destruct (unique_words_spec (preprocess corpus)) as [Hnd _]. fold uw in Hnd.
    assert (Hids : forall j w, nth_error uw j = Some w ->
                               get w (word_to_id_of uw) = Some (0 + j)).
    { intros j w Hj. apply word_to_id_of_spec; assumption. }
    rewrite (words_by_char_from _ _ 0 _ _ Hids Hbind c). reflexivity. }
  unfold strategy_b, fallback_pool. rewrite Hpool. reflexivity.
Qed.

Lemma trained_candidates (a : nat) (c : ascii) :
  get_candidates m a c
  = match strategy_a m a c with
    | [] => fallback_pool (vocab m) c
    | bucket => bucket
    end.
Proof. unfold get_candidates. rewrite trained_strategy_b. reflexivity. Qed.

Lemma fallback_pool_words (c : ascii) :
  List.length (fallback_pool (vocab m) c) <= 10
  /\ Forall (fun cand =>
               snd cand = (-20)%float
               /\ exists w, nth_error (vocab m) (fst cand) = Some w /\ first_char w = Ok c)
       (fallback_pool (vocab m) c).
Proof.
  unfold fallback_pool. split.
  - rewrite length_map, length_firstn. lia.
  - apply Forall_forall. intros cand Hin. apply in_map_iff in Hin.
    destruct Hin as [id [<- Hid]]. split; [ reflexivity | ]. simpl.
    apply In_firstn in Hid. unfold ids_starting_with in Hid.
    apply in_map_iff in Hid. destruct Hid as [[i w] [<- Hiw]]. simpl.
    apply filter_In in Hiw. destruct Hiw as [Hiw Hs]. simpl in Hs.
    apply In_enumerate in Hiw. exists w. split; [ exact Hiw | ].
    destruct w as [ | c' w ]; [ discriminate | ]. simpl in Hs.
    apply Ascii.eqb_eq in Hs. subst c'. reflexivity.
Qed.

Lemma trained_lookup :
  let bigrams := pairs (preprocess corpus) in
  (forall a b wa wb c,
      nth_error (vocab m) a = Some wa -> nth_error (vocab m) b = Some wb ->
      first_char wb = Ok c ->
      get b (strategy_a m a c)
      = if occurrences (wa, wb) bigrams =? 0 then None
        else Some (math_log (float_of_nat (occurrences (wa, wb) bigrams)
                             / float_of_nat (occurrences wa (map fst bigrams)))%float))
  /\ (forall a b c, nth_error (vocab m) a = None -> get b (strategy_a m a c) = None).
Proof.
  intros bigrams. pose proof Htrain as Hrun.
  unfold train in Hrun.
  set (tokens := preprocess corpus) in *.
  set (uw := sorted_str (set_of tokens)) in *.
  fold (word_to_id_of uw) in Hrun. fold (id_to_word_of uw) in Hrun.
  inv_bind Hrun. rename a into wbc. inv_bind Hrun. rename a into counts.
  inv_bind Hrun. rename a into tr. injection Hrun as <-.
  cbn [transitions vocab] in *.
  destruct (unique_words_spec tokens) as [Hnd Hin]. fold uw in Hnd, Hin.
  change (BackupBuilder.raw_bigrams (word_to_id_of uw) tokens = Ok counts) in Hbind0.
  destruct (raw_bigrams_counts uw tokens counts Hnd (fun w => proj2 (Hin w)) Hbind0)
    as [Hdist [Hpos Hcounts]].
  destruct (backup_raw_bigrams_spec _ _ _ Hbind0) as [_ Hkeys].
  destruct (log_probs_table math_log _ _ _ _ Hdist Hbind1) as [Hout Hrows].
  split.
  - intros i j wa wb c Ha Hb Hc. rewrite strategy_a_lookup3. cbn [transitions].
    destruct (Hcounts i j wa wb Ha Hb) as [Hcount Htotal].
    fold bigrams in Hcount, Htotal.
    assert (Hwb : get j (id_to_word_of uw) = Some wb).
    { unfold id_to_word_of. rewrite get_id_to_word. exact Hb. }
    destruct (occurrences (wa, wb) bigrams =? 0) eqn:Ez.
    + apply Nat.eqb_eq in Ez. rewrite <- Hcount in Ez.
      destruct (in_dec Nat.eq_dec i (keys counts)) as [Hk | Hk].
      * apply in_map_iff in Hk. destruct Hk as [[a' row] [Ea Hrow]]. simpl in Ea. subst a'.
        destruct (Hrows _ _ Hrow) as [Hmiss _]. rewrite Hmiss; [ reflexivity | ].
        intros Hk. apply in_map_iff in Hk. destruct Hk as [[b' n] [Eb Hn]].
        simpl in Eb. subst b'.
        apply (count2_zero_item _ _ _ _ _ Hdist Hpos Ez Hrow Hn).
      * rewrite Hout by exact Hk. reflexivity.
    + apply Nat.eqb_neq in Ez. rewrite <- Hcount in Ez.
      destruct (count2_pos_item counts i j) as [row [Hrow Hn]]; [ lia | ].
      apply get_In in Hrow, Hn.
      destruct (Hrows _ _ Hrow) as [_ Hitem].
      destruct (Hitem _ _ _ _ Hn Hwb Hc) as [-> _].
      rewrite Hcount. f_equal. f_equal. f_equal.
      rewrite <- Htotal. unfold row_total.
      destruct Hdist as [Hnd1 _]. rewrite (In_get _ _ _ Hnd1 Hrow). reflexivity.
  - intros i j c Hi. rewrite strategy_a_lookup3. cbn [transitions].
    rewrite Hout; [ reflexivity | ].
    intros Hk. apply in_map_iff in Hk. destruct Hk as [[a' row] [Ea Hrow]].
    simpl in Ea. subst a'.
    destruct (proj1 (Hkeys _ _ Hrow)) as [w Hw].
    apply word_to_id_of_spec in Hw; [ | exact Hnd ]. congruence.
Qed.

Lemma strategy_a_distinct (a : nat) (c : ascii) : NoDup (keys (strategy_a m a c)).
Proof.
  unfold strategy_a.
  destruct (get a (transitions m)) as [ by_char | ] eqn:E1; [ | constructor ].
  destruct (get c by_char) as [ nexts | ] eqn:E2; [ | constructor ].
  apply (transitions_distinct _ _ _ Htrain _ _ _ _ E1 E2).
Qed.

Lemma trained_bucket (a : nat) (c : ascii) (b : nat) (s : float) :
  let bigrams := pairs (preprocess corpus) in
  In (b, s) (strategy_a m a c)
  <-> exists wa wb,
        nth_error (vocab m) a = Some wa /\ nth_error (vocab m) b = Some wb
        /\ first_char wb = Ok c
        /\ 1 <= occurrences (wa, wb) bigrams
        /\ s = math_log (float_of_nat (occurrences (wa, wb) bigrams)
                         / float_of_nat (occurrences wa (map fst bigrams)))%float.
Proof.
  intros bigrams. destruct trained_lookup as [Hnamed Hnone]. fold bigrams in Hnamed.
  split.
  - intros Hin.
    assert (Hb : exists wb, nth_error (vocab m) b = Some wb /\ first_char wb = Ok c).
    { destruct (train_wf _ _ _ Htrain) as [_ Hwf]. unfold strategy_a in Hin.
      destruct (get a (transitions m)) as [ by_char | ] eqn:E1; [ | destruct Hin ].
      destruct (get c by_char) as [ nexts | ] eqn:E2; [ | destruct Hin ].
      pose proof (Hwf _ _ _ _ E1 E2) as Hall. rewrite Forall_forall in Hall.
      destruct (Hall _ Hin) as [w [Hw [_ Hc]]]. simpl in Hw.
      rewrite (train_id_to_word _ _ _ Htrain) in Hw. exists w. auto. }
    destruct Hb as [wb [Hb Hc]].
    apply (In_get _ _ _ (strategy_a_distinct a c)) in Hin.
    destruct (nth_error (vocab m) a) as [ wa | ] eqn:Ea.
    2:{ rewrite (Hnone a b c Ea) in Hin. discriminate. }
    rewrite (Hnamed a b wa wb c Ea Hb Hc) in Hin.
    exists wa, wb.
    destruct (Nat.eqb_spec (occurrences (wa, wb) bigrams) 0) as [ | Hnz ]; [ discriminate | ].
    injection Hin as <-. repeat split; try assumption; lia.
  - intros [wa [wb [Ha [Hb [Hc [Hpos ->]]]]]]. apply get_In.
    rewrite (Hnamed a b wa wb c Ha Hb Hc).
    destruct (Nat.eqb_spec (occurrences (wa, wb) bigrams) 0) as [ | Hnz ]; [ lia | reflexivity ].
Qed.

End Trained.

End RoundFacts.

(* ================================================================== *)
(** * The data builders: tables that differ by ties *)

Module TieFacts.

Import PyFacts CollFacts StegFacts VocabFacts AggFacts PruneFacts ScoreFacts TopFacts.
Import PathFacts OrderFacts TrigramFacts BuildFacts SuccessorFacts MainFacts.

(** ** Two choices of the best candidates *)

Lemma Forall2_nth_error (A B : Type) (R : A -> B -> Prop) (l1 : list A) :
  forall l2 : list B,
    List.length l1 = List.length l2 ->
    (forall i x y, nth_error l1 i = Some x -> nth_error l2 i = Some y -> R x y) ->
    Forall2 R l1 l2.
Proof.
  induction l1 as [ | a l1 IH ]; intros [ | b l2 ] Hlen Hnth; try discriminate.
  - constructor.
  - constructor; [ apply (Hnth 0); reflexivity | ].
    apply IH; [ simpl in Hlen; lia | ].
    intros i x y Hx Hy. apply (Hnth (S i)); assumption.
Qed.

Lemma In_firstn_nth_error (A : Type) (n : nat) (l : list A) (x : A) :
  In x (firstn n l) <-> exists j, j < n /\ nth_error l j = Some x.
Proof.
  revert l. induction n as [ | n IH ]; intros l.
  - simpl. split; [ tauto | intros [j [Hj _]]; lia ].
  - destruct l as [ | y l ].
    + simpl. split; [ tauto | intros [j [_ Hj]]; destruct j; discriminate ].
    + simpl. rewrite IH. split.
      * intros [ <- | [j [Hj E]] ]; [ exists 0; split; [ lia | reflexivity ] | ].
        exists (S j). split; [ lia | exact E ].
      * intros [[ | j ] [Hj E]]; [ left; simpl in E; congruence | ].
        right. exists j. split; [ lia | exact E ].
Qed.

Section TopChoice.
Variables (count : nat -> nat) (Q : nat -> Prop) (top_k : nat).

Lemma top_length_le (b1 b2 : list nat) :
  (forall id, Q id ->
     In id b1 \/ (List.length b1 = top_k /\ Forall (fun id' => count id <= count id') b1)) ->
  NoDup b2 -> (forall id, In id b2 -> Q id) -> List.length b2 <= top_k ->
  List.length b2 <= List.length b1.
Proof.
  intros Hc Hnd HQ Hlen.
  destruct (Forall_Exists_dec (fun x => In x b1) (fun x => in_dec Nat.eq_dec x b1) b2)
    as [ Hall | Hex ].
  - apply NoDup_incl_length; [ exact Hnd | ].
    intros x Hx. rewrite Forall_forall in Hall. apply Hall, Hx.
  - apply Exists_exists in Hex. destruct Hex as [x [Hx Hn]].
    destruct (Hc x (HQ x Hx)) as [ Hin | [E _] ]; [ contradiction | lia ].
Qed.

Lemma top_count_le (b1 b2 : list nat) :
  NoDup b1 -> (forall id, In id b1 -> Q id) ->
  StronglySorted (fun id1 id2 => count id2 <= count id1) b1 ->
  StronglySorted (fun id1 id2 => count id2 <= count id1) b2 ->
  (forall id, Q id ->
     In id b2 \/ (List.length b2 = top_k /\ Forall (fun id' => count id <= count id') b2)) ->
  forall i x y, nth_error b1 i = Some x -> nth_error b2 i = Some y -> count x <= count y.
Proof.
  intros Hnd HQ Hs1 Hs2 Hc i x y Hx Hy.
  destruct (Nat.le_gt_cases (count x) (count y)) as [ | Hlt ]; [ assumption | exfalso ].
  assert (Hincl : incl (firstn (S i) b1) (firstn i b2)).
  { intros z Hz. apply In_firstn_nth_error in Hz. destruct Hz as [j [Hj Hzj]].
    assert (Hzx : count x <= count z).
    { destruct (Nat.eq_dec j i) as [ -> | Hne ]; [ assert (z = x) by congruence; subst; lia | ].
      apply (StronglySorted_nth _ _ _ Hs1 j i z x); [ lia | assumption | assumption ]. }
    assert (Hzin : In z b2).
    { destruct (Hc z (HQ z (nth_error_In _ _ Hzj))) as [ Hin | [_ Hfull] ]; [ exact Hin | ].
      rewrite Forall_forall in Hfull. specialize (Hfull y (nth_error_In _ _ Hy)). lia. }
    apply In_nth_error in Hzin. destruct Hzin as [k Hk].
    apply In_firstn_nth_error. exists k. split; [ | exact Hk ].
    destruct (Nat.lt_ge_cases k i) as [ | Hge ]; [ assumption | exfalso ].
    destruct (Nat.eq_dec k i) as [ -> | Hne ]; [ assert (z = y) by congruence; subst; lia | ].
    assert (count z <= count y)
      by (apply (StronglySorted_nth _ _ _ Hs2 i k y z); [ lia | assumption | assumption ]).
    lia. }
  apply NoDup_incl_length in Hincl; [ | apply NoDup_firstn, Hnd ].
  rewrite !length_firstn in Hincl.
  assert (i < List.length b1) by (apply nth_error_Some; congruence).
  lia.
Qed.

Lemma top_same_counts (b1 b2 : list nat) :
  NoDup b1 -> (forall id, In id b1 -> Q id) ->
  StronglySorted (fun id1 id2 => count id2 <= count id1) b1 ->
  List.length b1 <= top_k ->
  (forall id, Q id ->
     In id b1 \/ (List.length b1 = top_k /\ Forall (fun id' => count id <= count id') b1)) ->
  NoDup b2 -> (forall id, In id b2 -> Q id) ->
  StronglySorted (fun id1 id2 => count id2 <= count id1) b2 ->
  List.length b2 <= top_k ->
  (forall id, Q id ->
     In id b2 \/ (List.length b2 = top_k /\ Forall (fun id' => count id <= count id') b2)) ->
  Forall2 (fun id1 id2 => count id1 = count id2) b1 b2.
Proof.
  intros Hnd1 HQ1 Hs1 Hl1 Hc1 Hnd2 HQ2 Hs2 Hl2 Hc2.
  apply Forall2_nth_error.
  - apply Nat.le_antisymm; [ apply (top_length_le b2 b1) | apply (top_length_le b1 b2) ];
      assumption.
  - intros i x y Hx Hy. apply Nat.le_antisymm.
    + apply (top_count_le b1 b2 Hnd1 HQ1 Hs1 Hs2 Hc2 i x y Hx Hy).
    + apply (top_count_le b2 b1 Hnd2 HQ2 Hs2 Hs1 Hc1 i y x Hy Hx).
Qed.

End TopChoice.

(** ** The shape of a bucket *)

Lemma top_ids_NoDup (top_k : Z) (candidates : list (nat * nat)) :
  NoDup (map fst candidates) -> NoDup (top_ids top_k candidates).
Proof.
  intros Hnd. unfold top_ids.
  destruct (slice_to_firstn _ top_k (sorted_desc Nat.ltb snd candidates)) as [k ->].
  rewrite <- firstn_map. apply NoDup_firstn.
  eapply Permutation_NoDup; [ | exact Hnd ].
  apply Permutation_map, Permutation_sym. unfold sorted_desc. apply sort_by_perm.
Qed.

Lemma top_ids_nonempty (top_k : Z) (candidates : list (nat * nat)) :
  (1 <= top_k)%Z -> candidates <> [] -> top_ids top_k candidates <> [].
Proof.
  intros Hk Hne E. unfold top_ids in E. apply map_eq_nil in E.
  apply slice_to_nil_inv in E; [ | exact Hk ].
  unfold sorted_desc in E. apply sort_by_nil_inv in E. contradiction.
Qed.

Lemma char_groups_shape (min_freq : nat) (id_to_word : dict nat string)
  (items : dict nat nat) :
  forall acc char_groups : dict ascii (list (nat * nat)),
    NoDup (keys items) ->
    (forall c cands, In (c, cands) acc ->
       cands <> [] /\ NoDup (map fst cands)
       /\ forall id, In id (map fst cands) -> ~ In id (keys items)) ->
    foldM
      (fun char_groups '(next_id, count) =>
         if count <? min_freq then Ok char_groups
         else
           next_word_str <- getitem next_id id_to_word ;;
           start_char <- first_char next_word_str ;;
           Ok (append_to start_char (next_id, count) char_groups))
      items acc = Ok char_groups ->
    forall c cands, In (c, cands) char_groups -> cands <> [] /\ NoDup (map fst cands).
Proof.
  induction items as [ | [id0 n0] items IH ]; intros acc cg Hnd Hacc Hrun; simpl in Hrun.
  - injection Hrun as <-. intros c cands Hin. destruct (Hacc _ _ Hin) as [H1 [H2 _]]. auto.
  - inv_bind Hrun. rename a into acc1.
    simpl in Hnd. inversion Hnd as [ | ? ? Hnotin Hnd' ]; subst.
    apply (IH acc1 cg Hnd'); [ | exact Hrun ].
    intros c cands Hin.
    destruct (n0 <? min_freq).
    + injection Hbind as <-. destruct (Hacc _ _ Hin) as [H1 [H2 H3]].
      split; [ exact H1 | split; [ exact H2 | ] ].
      intros id Hid Hk. apply (H3 id Hid). right. exact Hk.
    + inv_bind Hbind. rename a into w0. inv_bind Hbind. rename a into c0.
      injection Hbind as <-. unfold append_to in Hin. apply In_upd_inv in Hin.
      destruct Hin as [ Hold | [-> ->] ].
      * destruct (Hacc _ _ Hold) as [H1 [H2 H3]].
        split; [ exact H1 | split; [ exact H2 | ] ].
        intros id Hid Hk. apply (H3 id Hid). right. exact Hk.
      * assert (Hold : NoDup (map fst (or_default [] (get c0 acc)))
                       /\ forall id, In id (map fst (or_default [] (get c0 acc))) ->
                                     ~ In id (keys ((id0, n0) :: items))).
        { destruct (get c0 acc) as [ old | ] eqn:E; simpl or_default.
          - destruct (Hacc _ _ (get_In _ _ _ E)) as [_ [H2 H3]]. split; assumption.
          - split; [ constructor | intros id [] ]. }
        destruct Hold as [H2 H3].
        split; [ intros E; apply app_eq_nil in E; destruct E; discriminate | split ].
        -- rewrite map_app. simpl.
           apply NoDup_app; [ exact H2 | constructor; [ intros [] | constructor ] | ].
           intros id Hid [ <- | [] ]. apply (H3 _ Hid). left. reflexivity.
        -- intros id Hid Hk. rewrite map_app in Hid. apply in_app_or in Hid.
           destruct Hid as [ Hid | [ <- | [] ] ].
           ++ apply (H3 _ Hid). right. exact Hk.
           ++ apply Hnotin. exact Hk.
Qed.

Lemma prune_bucket_shape (top_k : Z) (min_freq : nat) (id_to_word : dict nat string)
  (id_counts : dict nat (dict nat nat)) (final : dict string (dict ascii (list nat)))
  (key : string) (letter : ascii) (ids : list nat) :
  (1 <= top_k)%Z ->
  distinct_keys2 id_counts ->
  prune_table top_k min_freq id_to_word id_counts = Ok final ->
  lookup_bucket final key letter = Some ids ->
  ids <> [] /\ NoDup ids.
Proof.
  intros Hk [_ Hrows] Hrun Hlook. unfold lookup_bucket in Hlook.
  destruct (get key final) as [ groups | ] eqn:Eg; [ | discriminate ].
  apply get_In in Eg, Hlook.
  destruct (prune_table_spec _ _ _ _ _ Hrun _ _ Eg) as [ctx [nwm [cg [Hctx [-> [Hcg ->]]]]]].
  apply optimize_spec in Hlook. destruct Hlook as [cands [Hcands ->]].
  rewrite Forall_forall in Hrows. specialize (Hrows _ Hctx). simpl in Hrows.
  destruct (char_groups_shape _ _ _ _ _ Hrows (fun c cs (H : In (c, cs) []) => match H with end)
              Hcg _ _ Hcands) as [Hne Hnd].
  split; [ apply top_ids_nonempty; assumption | apply top_ids_NoDup, Hnd ].
Qed.

Lemma prune_key_bucket (top_k : Z) (min_freq : nat) (id_to_word : dict nat string)
  (id_counts : dict nat (dict nat nat)) (final : dict string (dict ascii (list nat)))
  (key : string) (groups : dict ascii (list nat)) :
  NoDup (keys id_counts) ->
  prune_table top_k min_freq id_to_word id_counts = Ok final ->
  get key final = Some groups ->
  exists ctx letter ids,
    key = str_of_nat ctx /\ lookup_bucket final (str_of_nat ctx) letter = Some ids.
Proof.
  intros Hnd Hrun Hg.
  destruct (prune_table_spec _ _ _ _ _ Hrun _ _ (get_In _ _ _ Hg))
    as [ctx [nwm [cg [Hctx [-> [Hcg ->]]]]]].
  destruct (prune_table_loop _ _ _ _ _ _ Hnd Hrun) as [_ Hin].
  destruct (Hin _ _ Hctx) as [cg' [Hcg' Hget]].
  assert (cg' = cg) by congruence. subst cg'.
  destruct (optimize top_k cg) as [ | [letter ids] rest ] eqn:Eopt.
  - rewrite Hg in Hget. discriminate.
  - exists ctx, letter, ids. split; [ reflexivity | ].
    unfold lookup_bucket. rewrite Hg. simpl. rewrite Ascii.eqb_refl. reflexivity.
Qed.

Section Agree.
Variables (top_k : Z) (min_freq : nat) (id_to_word : dict nat string).
Variable count : nat -> nat -> nat.
Hypothesis Hk : (1 <= top_k)%Z.
Hypothesis Hmin : 0 < min_freq.

Lemma prune_bucket_choice (id_counts : dict nat (dict nat nat))
  (final : dict string (dict ascii (list nat))) (ctx : nat) (letter : ascii) :
  distinct_keys2 id_counts ->
  (forall a b, count2 id_counts a b = count a b) ->
  prune_table top_k min_freq id_to_word id_counts = Ok final ->
  let Q := fun id => min_freq <= count ctx id
                     /\ exists w, get id id_to_word = Some w /\ first_char w = Ok letter in
  match lookup_bucket final (str_of_nat ctx) letter with
  | Some ids =>
      ids <> [] /\ NoDup ids /\ (forall id, In id ids -> Q id)
      /\ StronglySorted (fun id1 id2 => count ctx id2 <= count ctx id1) ids
      /\ List.length ids <= Z.to_nat top_k
      /\ (forall id, Q id ->
            In id ids
            \/ (List.length ids = Z.to_nat top_k
                /\ Forall (fun id' => count ctx id <= count ctx id') ids))
  | None => forall id, ~ Q id
  end.
Proof.
  intros Hdist Hcount Hrun Q.
  assert (Hk0 : (0 <= top_k)%Z) by lia.
  assert (Hcomplete : forall id, Q id ->
            exists ids, lookup_bucket final (str_of_nat ctx) letter = Some ids
              /\ (In id ids
                  \/ (List.length ids = Z.to_nat top_k
                      /\ Forall (fun id' => count ctx id <= count ctx id') ids))).
  { intros id [Hle [w [Hw Hc]]]. rewrite <- Hcount in Hle.
    destruct (prune_table_complete top_k min_freq id_to_word id_counts final ctx id w letter
                Hk0 Hdist Hrun) as [ids [Hlook Hids]]; try assumption; [ lia | ].
    exists ids. split; [ exact Hlook | ].
    destruct Hids as [ Hin | [Hlen Hfull] ]; [ left; exact Hin | right ].
    split; [ lia | ]. eapply Forall_impl; [ | exact Hfull ].
    intros id'. cbv beta. rewrite !Hcount. trivial. }
  destruct (lookup_bucket final (str_of_nat ctx) letter) as [ ids | ] eqn:Hlook.
  - destruct (prune_bucket_shape _ _ _ _ _ _ _ _ Hk Hdist Hrun Hlook) as [Hne Hnd].
    pose proof Hlook as Hlook'. unfold lookup_bucket in Hlook'.
    destruct (get (str_of_nat ctx) final) as [ groups | ] eqn:Eg; [ | discriminate ].
    apply get_In in Eg, Hlook'.
    destruct (prune_table_ok _ _ _ _ _ Hk0 Hdist Hrun _ _ _ _ Eg Hlook')
      as [ctx' [E [Hctx [Hnames [Hlen [Hge Hsorted]]]]]].
    apply str_of_nat_inj in E. subst ctx'.
    split; [ exact Hne | split; [ exact Hnd | split; [ | split; [ | split ] ] ] ].
    + intros id Hid. rewrite Forall_forall in Hnames, Hge. split.
      * rewrite <- Hcount. apply Hge, Hid.
      * apply Hnames, Hid.
    + eapply StronglySorted_map with (f := fun x : nat => x) in Hsorted.
      * rewrite map_id in Hsorted. exact Hsorted.
      * intros x y _ _. cbv beta. rewrite !Hcount. trivial.
    + lia.
    + intros id HQ. destruct (Hcomplete id HQ) as [ids' [E Hids]].
      injection E as <-. exact Hids.
  - intros id HQ. destruct (Hcomplete id HQ) as [ids' [E _]]. discriminate.
Qed.

Lemma prune_table_agree (id_counts1 id_counts2 : dict nat (dict nat nat))
  (table1 table2 : dict string (dict ascii (list nat))) :
  distinct_keys2 id_counts1 -> distinct_keys2 id_counts2 ->
  (forall a b, count2 id_counts1 a b = count a b) ->
  (forall a b, count2 id_counts2 a b = count a b) ->
  prune_table top_k min_freq id_to_word id_counts1 = Ok table1 ->
  prune_table top_k min_freq id_to_word id_counts2 = Ok table2 ->
  tables_agree (Z.to_nat top_k) count table1 table2.
Proof.
  intros Hd1 Hd2 Hc1 Hc2 Hrun1 Hrun2.
  assert (Hbuckets : forall ctx letter,
             same_up_to_ties (Z.to_nat top_k) (count ctx)
               (lookup_bucket table1 (str_of_nat ctx) letter)
               (lookup_bucket table2 (str_of_nat ctx) letter)).
  { intros ctx letter.
    pose proof (prune_bucket_choice _ _ ctx letter Hd1 Hc1 Hrun1) as H1.
    pose proof (prune_bucket_choice _ _ ctx letter Hd2 Hc2 Hrun2) as H2.
    cbv zeta in H1, H2.
    destruct (lookup_bucket table1 (str_of_nat ctx) letter) as [ ids1 | ];
      destruct (lookup_bucket table2 (str_of_nat ctx) letter) as [ ids2 | ]; simpl.
    - destruct H1 as [_ [Hnd1 [HQ1 [Hs1 [Hl1 Hco1]]]]].
      destruct H2 as [_ [Hnd2 [HQ2 [Hs2 [Hl2 Hco2]]]]].
      split; [ | split ].
      + apply (top_same_counts (count ctx)
                 (fun id => min_freq <= count ctx id
                            /\ exists w, get id id_to_word = Some w
                                         /\ first_char w = Ok letter)
                 (Z.to_nat top_k)); assumption.
      + intros id Hid. apply Hco2, HQ1, Hid.
      + intros id Hid. apply Hco1, HQ2, Hid.
    - destruct H1 as [Hne [_ [HQ1 _]]]. destruct ids1 as [ | id ids1 ]; [ congruence | ].
      apply (H2 id), HQ1. left. reflexivity.
    - destruct H2 as [Hne [_ [HQ2 _]]]. destruct ids2 as [ | id ids2 ]; [ congruence | ].
      apply (H1 id), HQ2. left. reflexivity.
    - exact I. }
  split; [ | exact Hbuckets ].
  assert (Hkey : forall (idc idc' : dict nat (dict nat nat)) t t',
             NoDup (keys idc) ->
             prune_table top_k min_freq id_to_word idc = Ok t ->
             (forall ctx letter,
                 lookup_bucket t (str_of_nat ctx) letter <> None ->
                 lookup_bucket t' (str_of_nat ctx) letter <> None) ->
             forall key, get key t' = None -> get key t = None).
  { intros idc idc' t t' Hnd Hrun Himp key Hnone.
    destruct (get key t) as [ groups | ] eqn:Eg; [ exfalso | reflexivity ].
    destruct (prune_key_bucket _ _ _ _ _ _ _ Hnd Hrun Eg) as [ctx [letter [ids [-> Hlook]]]].
    apply (Himp ctx letter); [ congruence | ].
    unfold lookup_bucket. rewrite Hnone. reflexivity. }
  intros key. split.
  - apply (Hkey id_counts2 id_counts1 table2 table1 (proj1 Hd2) Hrun2).
    intros ctx letter Hsome. specialize (Hbuckets ctx letter).
    destruct (lookup_bucket table1 (str_of_nat ctx) letter);
      destruct (lookup_bucket table2 (str_of_nat ctx) letter); simpl in Hbuckets;
      try congruence; contradiction.
  - apply (Hkey id_counts1 id_counts2 table1 table2 (proj1 Hd1) Hrun1).
    intros ctx letter Hsome. specialize (Hbuckets ctx letter).
    destruct (lookup_bucket table1 (str_of_nat ctx) letter);
      destruct (lookup_bucket table2 (str_of_nat ctx) letter); simpl in Hbuckets;
      try congruence; contradiction.
Qed.

End Agree.

(** ** The trigram table *)

Lemma pruned_row (id_to_word : dict nat string)
  (id_trigrams : dict nat (dict nat (dict nat nat)))
  (table : dict string (dict string (dict ascii (list nat)))) (word1 : nat) :
  NoDup (keys id_trigrams) ->
  Builder.prune_trigrams id_to_word id_trigrams = Ok table ->
  prune_table Builder.TOP_K_PER_LETTER_TRIGRAM Builder.MIN_TRIGRAM_FREQ id_to_word
    (or_default [] (get word1 id_trigrams))
  = Ok (or_default [] (get (str_of_nat word1) table))
  /\ (get (str_of_nat word1) table = None ->
      or_default [] (get (str_of_nat word1) table) = []).
Proof.
  intros Hnd Hrun.
  destruct (prune_trigrams_loop _ _ _ _ Hnd Hrun) as [Hout Hin].
  split; [ | intros ->; reflexivity ].
  destruct (get word1 id_trigrams) as [ d2 | ] eqn:E.
  - destruct (Hin _ _ (get_In _ _ _ E)) as [by_word2 [Hp Hg]]. simpl or_default at 1.
    rewrite Hp, Hg. destruct by_word2; reflexivity.
  - apply get_None in E. rewrite (Hout _ E). reflexivity.
Qed.

Lemma prune_trigrams_agree (id_to_word : dict nat string)
  (count : nat -> nat -> nat -> nat)
  (id_trigrams1 id_trigrams2 : dict nat (dict nat (dict nat nat)))
  (table1 table2 : dict string (dict string (dict ascii (list nat)))) :
  NoDup (keys id_trigrams1) -> NoDup (keys id_trigrams2) ->
  (forall k v, In (k, v) id_trigrams1 -> distinct_keys2 v) ->
  (forall k v, In (k, v) id_trigrams2 -> distinct_keys2 v) ->
  (forall a b c, count3 id_trigrams1 a b c = count a b c) ->
  (forall a b c, count3 id_trigrams2 a b c = count a b c) ->
  Builder.prune_trigrams id_to_word id_trigrams1 = Ok table1 ->
  Builder.prune_trigrams id_to_word id_trigrams2 = Ok table2 ->
  tables_agree3 20 count table1 table2.
Proof.
  intros Hnd1 Hnd2 Hd1 Hd2 Hc1 Hc2 Hrun1 Hrun2.
  assert (Hrow : forall (idt : dict nat (dict nat (dict nat nat))) word1,
             (forall k v, In (k, v) idt -> distinct_keys2 v) ->
             distinct_keys2 (or_default [] (get word1 idt))).
  { intros idt word1 Hd. destruct (get word1 idt) as [ d2 | ] eqn:E; simpl.
    - apply (Hd _ _ (get_In _ _ _ E)).
    - apply distinct_keys2_nil. }
  assert (Hrows : forall word1,
             tables_agree 20 (count word1)
               (or_default [] (get (str_of_nat word1) table1))
               (or_default [] (get (str_of_nat word1) table2))).
  { intros word1.
    destruct (pruned_row _ _ _ word1 Hnd1 Hrun1) as [Hp1 _].
    destruct (pruned_row _ _ _ word1 Hnd2 Hrun2) as [Hp2 _].
    apply (prune_table_agree Builder.TOP_K_PER_LETTER_TRIGRAM Builder.MIN_TRIGRAM_FREQ
             id_to_word (count word1)) with (3 := Hrow _ word1 Hd1) (4 := Hrow _ word1 Hd2)
                                            (7 := Hp1) (8 := Hp2).
    - unfold Builder.TOP_K_PER_LETTER_TRIGRAM. lia.
    - unfold Builder.MIN_TRIGRAM_FREQ. lia.
    - intros a b. apply (Hc1 word1 a b).
    - intros a b. apply (Hc2 word1 a b). }
  split; [ | exact Hrows ].
  assert (Hkey : forall (idt : dict nat (dict nat (dict nat nat)))
                        (t t' : dict string (dict string (dict ascii (list nat)))),
             NoDup (keys idt) ->
             Builder.prune_trigrams id_to_word idt = Ok t ->
             (forall word1 key2,
                 get key2 (or_default [] (get (str_of_nat word1) t)) <> None ->
                 get key2 (or_default [] (get (str_of_nat word1) t')) <> None) ->
             forall key1, get key1 t' = None -> get key1 t = None).
  { intros idt t t' Hnd Hrun Himp key1 Hnone.
    destruct (get key1 t) as [ by_word2 | ] eqn:Eg; [ exfalso | reflexivity ].
    destruct (prune_trigrams_spec _ _ _ Hrun _ _ (get_In _ _ _ Eg))
      as [word1 [d2 [Hitem [-> Hp]]]].
    destruct (prune_trigrams_loop _ _ _ _ Hnd Hrun) as [_ Hin].
    destruct (Hin _ _ Hitem) as [bw [Hp' Hg]].
    assert (bw = by_word2) by congruence. subst bw.
    destruct by_word2 as [ | [key2 groups] rest ].
    - rewrite Eg in Hg. discriminate.
    - apply (Himp word1 key2).
      + rewrite Eg. simpl. rewrite String.eqb_refl. discriminate.
      + rewrite Hnone. reflexivity. }
  intros key1. split.
  - apply (Hkey id_trigrams2 table2 table1 Hnd2 Hrun2). intros word1 key2 Hsome E.
    apply Hsome. apply (proj1 (Hrows word1)), E.
  - apply (Hkey id_trigrams1 table1 table2 Hnd1 Hrun1). intros word1 key2 Hsome E.
    apply Hsome. apply (proj1 (Hrows word1)), E.
Qed.

(** ** The tables of the main block *)

Lemma count2_outside (Q1 Q2 : nat -> Prop) (d : dict nat (dict nat nat)) (a b : nat) :
  keys2_in Q1 Q2 d -> ~ Q1 a \/ ~ Q2 b -> count2 d a b = 0.
Proof.
  intros Hkeys Hout. unfold count2, count1.
  destruct (get a d) as [ row | ] eqn:E; [ | reflexivity ]. simpl.
  destruct (Hkeys _ _ (get_In _ _ _ E)) as [Ha Hb].
  destruct (get b row) as [ n | ] eqn:Eb; [ exfalso | reflexivity ].
  destruct Hout as [ Hn | Hn ]; [ exact (Hn Ha) | ].
  apply Hn, Hb. eapply get_Some_key, Eb.
Qed.

Lemma id_of_word_nth (vocab : list string) (i : nat) :
  NoDup vocab ->
  id_of_word (word_to_id_of vocab) i <-> exists w, nth_error vocab i = Some w.
Proof.
  intros Hnd. unfold id_of_word.
  split; intros [w Hw]; exists w; apply (word_to_id_of_spec vocab w i Hnd); exact Hw.
Qed.

Lemma compile_chunks_counts (english_words : string -> bool) (chunks : list (list string))
  (art : Builder.Artifacts) :
  Forall (Forall (fun w => w <> EmptyString)) chunks ->
  Builder.compile_chunks english_words chunks = Ok art ->
  let tokens := valid_tokens english_words chunks in
  let vocab := sorted_vocab_of (counter_update tokens []) in
  Builder.vocab_list art = vocab
  /\ (exists id_bigrams,
         distinct_keys2 id_bigrams
         /\ (forall a b, count2 id_bigrams a b = follow_count vocab tokens a b)
         /\ prune_table 30 2 (id_to_word_of vocab) id_bigrams
            = Ok (Builder.transition_graph art))
  /\ (exists id_trigrams,
         NoDup (keys id_trigrams)
         /\ (forall k v, In (k, v) id_trigrams -> distinct_keys2 v)
         /\ (forall a b c, count3 id_trigrams a b c = follow_count3 vocab tokens a b c)
         /\ Builder.prune_trigrams (id_to_word_of vocab) id_trigrams
            = Ok (Builder.trigram_graph art))
  /\ top_successors 30 2 vocab tokens (Builder.transition_graph art)
  /\ top_successors3 20 2 vocab tokens (Builder.trigram_graph art).
Proof.
  intros Hne Hrun tokens vocab.
  unfold Builder.compile_chunks in Hrun.
  inv_bind Hrun. destruct a as [vocab_map tg]. rename Hbind into Hbi.
  inv_bind Hrun. rename a into vl, Hbind into Hvl.
  inv_bind Hrun. rename a into t3, Hbind into Htri.
  injection Hrun as <-.
  cbn [Builder.vocab_list Builder.transition_graph Builder.trigram_graph].
  unfold Builder.build_model_from_chunks, Builder.bigram_finish in Hbi.
  inv_bind Hbi. rename a into idb, Hbind into Hidb.
  inv_bind Hbi. rename Hbind into Hprune. injection Hbi as <- <-.
  rewrite aggregate_word_counts in *.
  fold tokens in Hidb, Hprune, Hvl, Htri. fold vocab in Hidb, Hprune, Hvl, Htri.
  destruct (sorted_vocab_spec tokens) as [[Hnd _] _]. fold vocab in Hnd.
  rewrite id_to_word_of_spec, mapM_getitem_enumerate in Hvl. injection Hvl as <-.
  assert (Hinj : forall w w' k,
             get w (word_to_id_of vocab) = Some k -> get w' (word_to_id_of vocab) = Some k ->
             w = w').
  { intros w w' k Hw Hw'. apply word_to_id_of_spec in Hw, Hw'; try exact Hnd. congruence. }
  destruct (id_bigrams_of_spec _ _ _ Hidb) as [Hdist Hkeys].
  assert (Hcount2 : forall i j, count2 idb i j = follow_count vocab tokens i j).
  { intros i j. unfold follow_count.
    destruct (nth_error vocab i) as [ wa | ] eqn:Ei.
    2:{ apply (count2_outside _ _ _ _ _ Hkeys). left.
        rewrite (id_of_word_nth _ _ Hnd). intros [w Hw]. congruence. }
    destruct (nth_error vocab j) as [ wb | ] eqn:Ej.
    2:{ apply (count2_outside _ _ _ _ _ Hkeys). right.
        rewrite (id_of_word_nth _ _ Hnd). intros [w Hw]. congruence. }
    apply word_to_id_of_spec in Ei, Ej; try exact Hnd.
    rewrite (id_bigrams_counts (word_to_id_of vocab) Hinj _ _
               (aggregate_bigrams_distinct english_words chunks) Hidb _ _ _ _ Ei Ej).
    destruct (aggregate_bigrams_inv english_words chunks Hne) as [_ [Hraw _]]. apply Hraw. }
  unfold Builder.build_trigram_model_from_chunks, Builder.trigram_finish in Htri.
  set (idt := Builder.id_trigrams_of (word_to_id_of vocab)
                (Builder.raw_trigrams (Builder.aggregate_trigrams english_words chunks)))
    in *.
  destruct (id_trigrams_of_spec (word_to_id_of vocab)
              (Builder.raw_trigrams (Builder.aggregate_trigrams english_words chunks)))
    as [Hnd3 Hk3]. fold idt in Hnd3, Hk3.
  assert (Hcount3 : forall i1 i2 i3,
             count3 idt i1 i2 i3 = follow_count3 vocab tokens i1 i2 i3).
  { intros i1 i2 i3. unfold follow_count3.
    assert (Hout : (~ exists w, nth_error vocab i1 = Some w)
                   \/ (~ exists w, nth_error vocab i2 = Some w)
                   \/ (~ exists w, nth_error vocab i3 = Some w) ->
                   count3 idt i1 i2 i3 = 0).
    { intros Hout. unfold count3.
      destruct (get i1 idt) as [ v | ] eqn:E; [ | reflexivity ]. simpl.
      destruct (Hk3 _ _ (get_In _ _ _ E)) as [H1 [_ Hkeys3]].
      destruct Hout as [ Hn | Hn ].
      - exfalso. apply Hn. apply (id_of_word_nth _ _ Hnd), H1.
      - apply (count2_outside _ _ _ _ _ Hkeys3).
        rewrite !(id_of_word_nth _ _ Hnd). exact Hn. }
    destruct (nth_error vocab i1) as [ w1 | ] eqn:E1.
    2:{ apply Hout. left. intros [w Hw]. discriminate. }
    destruct (nth_error vocab i2) as [ w2 | ] eqn:E2.
    2:{ apply Hout. right. left. intros [w Hw]. discriminate. }
    destruct (nth_error vocab i3) as [ w3 | ] eqn:E3.
    2:{ apply Hout. right. right. intros [w Hw]. discriminate. }
    apply word_to_id_of_spec in E1, E2, E3; try exact Hnd.
    unfold idt.
    rewrite (id_trigrams_counts (word_to_id_of vocab)) with (w1 := w1) (w2 := w2) (w3 := w3);
      try assumption.
    - destruct (aggregate_trigrams_inv english_words chunks Hne) as [Hraw _]. apply Hraw.
    - apply aggregate_trigrams_distinct. }
  split; [ reflexivity | split; [ | split; [ | split ] ] ].
  - exists idb. split; [ exact Hdist | split; [ exact Hcount2 | exact Hprune ] ].
  - exists idt. split; [ exact Hnd3 | split; [ | split; [ exact Hcount3 | exact Htri ] ] ].
    intros k v Hin. apply (Hk3 _ _ Hin).
  - apply (top_successors_of_counts 30 2 vocab tokens idb); try assumption; [ lia | ].
    intros i j wa wb Hi Hj. rewrite Hcount2. unfold follow_count. rewrite Hi, Hj.
    reflexivity.
  - apply (top_successors3_of_counts vocab tokens idt _ Hnd); [ split; assumption | | exact Htri ].
    intros i1 i2 i3 w1 w2 w3 H1 H2 H3. rewrite Hcount3. unfold follow_count3.
    rewrite H1, H2, H3. reflexivity.
Qed.

End TieFacts.

(* ================================================================== *)
(** * The properties of the encoder and decoder *)

Import PyFacts CollFacts StegFacts EncodeFacts RoundFacts.

(** C1 (round trip on success).  For a model trained from any corpus: when
    [encode] returns a sentence and the search met no dead end, [decode] of
    that sentence is the target sequence, that is the letters of the message,
    lower-cased. *)
Theorem roundtrip_on_success :
  forall (math_log : float -> float) (corpus : string) (m : Steg.SteganographyLLM)
         (hidden_text : string) (beam_width : Z) (sentence : string),
    Steg.train math_log Steg.init corpus = Ok m ->
    Steg.encode m hidden_text beam_width = Ok sentence ->
    Steg.dead_end_step m hidden_text beam_width = None ->
    Steg.decode sentence = Ok (str (Steg.target_chars hidden_text)).
Proof.
  intros math_log corpus m hidden_text beam_width sentence Htrain Henc Hdead.
  apply train_wf in Htrain.
  unfold Steg.encode in Henc. unfold Steg.dead_end_step in Hdead.
  inv_bind Henc. rewrite Hbind in Hdead.
  destruct a as [ [best [ j | ]] | ]; [ discriminate | | ].
  - eapply render_decode; [ | exact Henc ].
    apply (encode_path_spells _ _ _ _ _ Htrain Hbind).
  - injection Henc as <-. unfold Steg.encode_path in Hbind.
    destruct (Steg.target_chars hidden_text) as [ | c rest ]; [ reflexivity | ].
    inv_bind Hbind. destruct a as [beam de]. inv_bind Hbind. discriminate.
Qed.

Lemma roundtrip_on_success_witness :
  Steg.train (fun _ => 0%float) Steg.init "i am good" = Ok demo_model
  /\ Steg.encode demo_model "I, a G!" 5 = Ok "I am good."%string
  /\ Steg.dead_end_step demo_model "I, a G!" 5 = None
  /\ Steg.decode "I am good." = Ok (str (Steg.target_chars "I, a G!")).
Proof.
  assert (H1 : Steg.train (fun _ => 0%float) Steg.init "i am good" = Ok demo_model)
    by (vm_compute; reflexivity).
  assert (H2 : Steg.encode demo_model "I, a G!" 5 = Ok "I am good."%string)
    by (vm_compute; reflexivity).
  assert (H3 : Steg.dead_end_step demo_model "I, a G!" 5 = None)
    by (vm_compute; reflexivity).
  split; [ exact H1 | split; [ exact H2 | split; [ exact H3 | ] ] ].
  exact (roundtrip_on_success _ _ _ _ _ _ H1 H2 H3).
Defined.

(** C2 (prefix on dead end).  For a model trained from any corpus: when the
    search dead-ends at step [i], having consumed the first [i] characters of
    the target, and [encode] returns a sentence, [decode] of that sentence is
    exactly those [i] characters. *)
Theorem prefix_on_dead_end :
  forall (math_log : float -> float) (corpus : string) (m : Steg.SteganographyLLM)
         (hidden_text : string) (beam_width : Z) (sentence : string) (i : nat),
    Steg.train math_log Steg.init corpus = Ok m ->
    Steg.encode m hidden_text beam_width = Ok sentence ->
    Steg.dead_end_step m hidden_text beam_width = Some i ->
    Steg.decode sentence = Ok (str (firstn i (Steg.target_chars hidden_text))).
Proof.
  intros math_log corpus m hidden_text beam_width sentence i Htrain Henc Hdead.
  apply train_wf in Htrain.
  unfold Steg.encode in Henc. unfold Steg.dead_end_step in Hdead.
  inv_bind Henc. rewrite Hbind in Hdead.
  destruct a as [ [best [ j | ]] | ]; try discriminate.
  injection Hdead as <-.
  eapply render_decode; [ | exact Henc ].
  apply (encode_path_spells _ _ _ _ _ Htrain Hbind).
Qed.

Lemma prefix_on_dead_end_witness :
  Steg.train (fun _ => 0%float) Steg.init "i am good" = Ok demo_model
  /\ Steg.encode demo_model "I am quite good" 5 = Ok "I am."%string
  /\ Steg.dead_end_step demo_model "I am quite good" 5 = Some 2
  /\ Steg.decode "I am." = Ok (str (firstn 2 (Steg.target_chars "I am quite good"))).
Proof.
  assert (H1 : Steg.train (fun _ => 0%float) Steg.init "i am good" = Ok demo_model)
    by (vm_compute; reflexivity).
  assert (H2 : Steg.encode demo_model "I am quite good" 5 = Ok "I am."%string)
    by (vm_compute; reflexivity).
  assert (H3 : Steg.dead_end_step demo_model "I am quite good" 5 = Some 2)
    by (vm_compute; reflexivity).
  split; [ exact H1 | split; [ exact H2 | split; [ exact H3 | ] ] ].
  exact (prefix_on_dead_end _ _ _ _ _ _ _ H1 H2 H3).
Defined.

(** C9 (empty target).  A message without a letter encodes to the empty
    string, whatever the model and the beam width. *)
Theorem encode_no_letters :
  forall (m : Steg.SteganographyLLM) (hidden_text : string) (beam_width : Z),
    Forall (fun c => isalpha c = false) (chars hidden_text) ->
    Steg.encode m hidden_text beam_width = Ok EmptyString.
Proof.
  intros m hidden_text beam_width Hnone.
  unfold Steg.encode, Steg.encode_path, Steg.target_chars.
  replace (filter isalpha (chars hidden_text)) with (@nil ascii); [ reflexivity | ].
  symmetry. induction Hnone as [ | c s Hc _ IH ]; simpl; [ reflexivity | ].
  rewrite Hc. exact IH.
Qed.

Lemma encode_no_letters_witness :
  Forall (fun c => isalpha c = false) (chars "2024: 12.5 %")
  /\ Steg.encode demo_model "2024: 12.5 %" 3 = Ok EmptyString.
Proof.
  assert (H : Forall (fun c => isalpha c = false) (chars "2024: 12.5 %"))
    by (repeat constructor).
  split; [ exact H | exact (encode_no_letters demo_model _ 3 H) ].
Defined.

(** C3, at the failing input.  The model trained from the empty corpus is
    the empty model, and [encode] of the message ["a"] against it raises
    [IndexError] (at [beam[0]]: the initial beam is empty), whatever the beam
    width. *)
Theorem encode_empty_model_raises :
  forall (math_log : float -> float) (beam_width : Z),
    Steg.train math_log Steg.init "" = Ok Steg.init
    /\ Steg.encode Steg.init "a" beam_width = Raise IndexError.
Proof.
  intros math_log beam_width. split; [ reflexivity | ].
  unfold Steg.encode, Steg.encode_path. simpl.
  unfold Steg.beam_search, Steg.prune. simpl.
  destruct (slice_to_firstn _ beam_width (@nil Steg.Path)) as [k ->].
  rewrite firstn_nil. reflexivity.
Qed.

(** C4, the claim as stated fails.  In the model of [c4_corpus] the path
    "we eat" has an entry for 'r' in the trigram table, the one word "rice";
    [get_candidates] for that path and 'r' returns "rice" and "rye", the
    bigram successors of "eat": it never looks at the word before the
    last. *)
Lemma get_candidates_ignores_trigrams :
  Steg.train (fun _ => 0%float) Steg.init c4_corpus = Ok c4_model
  /\ Builder.build_trigram_model_from_chunks (fun _ => true)
       [Steg.preprocess c4_corpus]
       (Steg.word_to_id c4_model) (Steg.id_to_word c4_model) = Ok c4_trigrams
  /\ spec_candidate_ids c4_trigrams c4_model [4; 0] "r" = [1]
  /\ map fst (Steg.get_candidates c4_model 0 "r") = [1; 2].
Proof. repeat split; vm_compute; reflexivity. Qed.

(** C4, amended.  For a model trained from any corpus, at every round of the
    loop of [encode], that is for every target character after the first:
    every path of the beam has a last word, and the new beam is, path by
    path, the path extended by each of its candidates, where the candidates
    of a path are the bucket of the bigram table under the path's last word
    id and the target character when that bucket is not empty, and otherwise
    the fallback pool; so the two kinds are never mixed for a path.  This is
    what [get_candidates] returns.  The bucket holds the words that start
    with the character and follow the last word somewhere in the corpus, each
    with the logarithm of its share among the successors of the last word.
    The fallback pool holds the first, at most ten, vocabulary words that
    start with the character, each with the score -20.  No trigram table is
    consulted. *)
Theorem candidates_bigram_then_fallback :
  forall (math_log : float -> float) (corpus : string) (m : Steg.SteganographyLLM)
         (c0 : ascii) (rest : list ascii) (beam_width : Z),
    Steg.train math_log Steg.init corpus = Ok m ->
    let bigrams := pairs (Steg.preprocess corpus) in
    let candidates := fun (last_word_id : nat) (c : ascii) =>
      match Steg.strategy_a m last_word_id c with
      | [] => fallback_pool (Steg.vocab m) c
      | bucket => bucket
      end in
    (exists rounds out,
        search_rounds m beam_width (start_beam m c0 beam_width) rest 0 = Ok (rounds, out)
        /\ Steg.beam_search m c0 rest beam_width = Ok out
        /\ forall i beam c new_beam,
             nth_error rounds i = Some (beam, c, new_beam) ->
             nth_error rest i = Some c
             /\ Forall (fun path => Steg.sequence path <> []) beam
             /\ new_beam
                = flat_map
                    (fun path =>
                       map (new_path path) (candidates (last (Steg.sequence path) 0) c))
                    beam)
    /\ (forall last_word_id c,
           Steg.get_candidates m last_word_id c = candidates last_word_id c)
    /\ (forall a c b s,
           In (b, s) (Steg.strategy_a m a c)
           <-> exists wa wb,
                 nth_error (Steg.vocab m) a = Some wa
                 /\ nth_error (Steg.vocab m) b = Some wb
                 /\ first_char wb = Ok c
                 /\ 1 <= occurrences (wa, wb) bigrams
                 /\ s = math_log (Steg.float_of_nat (occurrences (wa, wb) bigrams)
                                  / Steg.float_of_nat (occurrences wa (map fst bigrams)))%float)
    /\ (forall c,
           List.length (fallback_pool (Steg.vocab m) c) <= 10
           /\ Forall (fun cand =>
                        snd cand = (-20)%float
                        /\ exists w, nth_error (Steg.vocab m) (fst cand) = Some w
                                     /\ first_char w = Ok c)
                (fallback_pool (Steg.vocab m) c)).
Proof.
  intros math_log corpus m c0 rest beam_width Htrain bigrams candidates.
  split; [ | split; [ | split ] ].
  - destruct (search_rounds_log m beam_width rest (start_beam m c0 beam_width) 0)
      as [rounds [out [Hrun Hlog]]].
    { unfold start_beam. apply prune_Forall, Forall_forall. intros p Hp.
      apply in_map_iff in Hp. destruct Hp as [w_id [<- _]]. discriminate. }
    exists rounds, out. split; [ exact Hrun | split ].
    + unfold Steg.beam_search. rewrite search_rounds_search.
      fold (start_beam m c0 beam_width). rewrite Hrun. reflexivity.
    + intros i beam c new_beam Hi.
      destruct (Hlog i beam c new_beam Hi) as [Hc [Hbeam ->]].
      split; [ exact Hc | split; [ exact Hbeam | ] ].
      apply flat_map_ext. intros path.
      rewrite (trained_candidates _ _ _ Htrain). reflexivity.
  - intros a c. apply (trained_candidates _ _ _ Htrain).
  - intros a c b s. apply (trained_bucket _ _ _ Htrain).
  - intros c. apply (fallback_pool_words m c).
Qed.

Lemma candidates_bigram_then_fallback_witness :
  Steg.train (fun _ => 0%float) Steg.init "i am good" = Ok demo_model
  /\ (exists rounds out,
         search_rounds demo_model 3 (start_beam demo_model "i" 3) ["g"%char] 0
         = Ok (rounds, out)
         /\ Steg.beam_search demo_model "i" ["g"%char] 3 = Ok out)
  /\ Steg.get_candidates demo_model 2 "a" = [(0, 0%float)]
  /\ Steg.get_candidates demo_model 2 "g" = [(1, (-20)%float)].
Proof.
  assert (H1 : Steg.train (fun _ => 0%float) Steg.init "i am good" = Ok demo_model)
    by (vm_compute; reflexivity).
  split; [ exact H1 | ].
  destruct (candidates_bigram_then_fallback _ _ _ "i"%char ["g"%char] 3 H1)
    as [[rounds [out [Hrun [Hout _]]]] [Hcand _]].
  split; [ exists rounds, out; split; assumption | ].
  split; rewrite Hcand; vm_compute; reflexivity.
Defined.

(* ================================================================== *)
(** * The properties of the data builders *)

Import VocabFacts AggFacts BuildFacts TieFacts.

(** C6, the claim as stated fails for [SteganographyLLM.train].  Trained on
    "the cat saw the dog", it gives id 0 to "cat", which occurs once, and
    id 3 to "the", which occurs twice: the ids follow the dictionary order of
    the words, not their frequency. *)
Lemma train_ids_not_by_frequency :
  Steg.train (fun _ => 0%float) Steg.init c6_corpus = Ok c6_model
  /\ get 0 (Steg.id_to_word c6_model) = Some "cat"%string
  /\ get 3 (Steg.id_to_word c6_model) = Some "the"%string
  /\ occurrences "cat"%string (Steg.preprocess c6_corpus) = 1
  /\ occurrences "the"%string (Steg.preprocess c6_corpus) = 2
  /\ ~ by_frequency (Steg.vocab c6_model) (Steg.preprocess c6_corpus).
Proof.
  repeat split; try (vm_compute; reflexivity).
  intros Hsorted. vm_compute in Hsorted.
  inversion Hsorted as [ | ? ? _ Hall ]; subst.
  rewrite Forall_forall in Hall.
  specialize (Hall "the"%string). simpl in Hall.
  assert (Hle : 2 <= 1) by (apply Hall; auto).
  lia.
Qed.

(** C6, amended.  The vocabulary of the data builders
    ([build_model_incremental] over the chunks, [build_model] over the
    tokens: [sorted_vocab], [word_to_id], [id_to_word]) holds each valid token
    once, numbers the words [0 .. len - 1] without gaps or duplicates, and
    lists them in non-increasing order of frequency, so that id 0 is a most
    frequent word.  The vocabulary of [SteganographyLLM.train] is dense in
    the same way; its order is not promised to follow the frequency. *)
Theorem vocabulary_dense :
  (forall (english_words : string -> bool) (chunks : list (list string)),
      let tokens := valid_tokens english_words chunks in
      let vocab :=
        sorted_vocab_of
          (Builder.word_counts (Builder.aggregate_bigrams english_words chunks)) in
      dense_vocabulary vocab tokens (word_to_id_of vocab) (id_to_word_of vocab)
      /\ by_frequency vocab tokens)
  /\ (forall tokens : list string,
         let vocab := sorted_vocab_of (counter_update tokens []) in
         dense_vocabulary vocab tokens (word_to_id_of vocab) (id_to_word_of vocab)
         /\ by_frequency vocab tokens)
  /\ (forall (math_log : float -> float) (corpus : string)
             (m : Steg.SteganographyLLM),
         Steg.train math_log Steg.init corpus = Ok m ->
         dense_vocabulary (Steg.vocab m) (Steg.preprocess corpus)
           (Steg.word_to_id m) (Steg.id_to_word m)).
Proof.
  split; [ | split ].
  - intros english_words chunks. rewrite aggregate_word_counts.
    apply sorted_vocab_spec.
  - intros tokens. apply sorted_vocab_spec.
  - intros math_log corpus m Htrain.
    unfold Steg.train in Htrain. repeat inv_bind Htrain. injection Htrain as <-.
    cbn [Steg.vocab Steg.word_to_id Steg.id_to_word].
    destruct (unique_words_spec (Steg.preprocess corpus)) as [Hnd Hin].
    split; [ exact Hnd | split; [ exact Hin | split ] ].
    + apply id_to_word_of_spec.
    + intros w i. apply word_to_id_of_spec, Hnd.
Qed.

Lemma vocabulary_dense_witness :
  Steg.train (fun _ => 0%float) Steg.init c6_corpus = Ok c6_model
  /\ dense_vocabulary (Steg.vocab c6_model) (Steg.preprocess c6_corpus)
       (Steg.word_to_id c6_model) (Steg.id_to_word c6_model).
Proof.
  assert (H1 : Steg.train (fun _ => 0%float) Steg.init c6_corpus = Ok c6_model)
    by (vm_compute; reflexivity).
  split; [ exact H1 | ].
  exact (proj2 (proj2 vocabulary_dense) _ _ _ H1).
Defined.

(** C7, the claim as stated fails.  The token stream "a big a bad a bad a
    big" gives, in one chunk, the bucket [big, bad] (ids 1, 2) under "a" and
    'b', and in the two chunks "a" | "big a bad a bad a big" the bucket
    [bad, big]: both words follow "a" twice, the sort is stable, and the
    cross-chunk bigram (a, big) is counted after the bigrams within the
    second chunk.  In the stream [c7_cut_stream] 31 words follow "x" twice
    each, one more than a bucket holds: in one chunk the bucket under "x"
    and 'b' keeps the ids 1 to 30, in the two chunks "x" | the rest it keeps
    the ids 2 to 31. *)
Lemma chunked_tables_differ :
  List.concat c7_two_chunks = List.concat c7_one_chunk
  /\ (exists vocab_map,
         Builder.build_model_from_chunks (fun _ => true) c7_one_chunk
         = Ok (vocab_map, c7_table_one))
  /\ (exists vocab_map,
         Builder.build_model_from_chunks (fun _ => true) c7_two_chunks
         = Ok (vocab_map, c7_table_two))
  /\ lookup_bucket c7_table_one "0" "b" = Some [1; 2]
  /\ lookup_bucket c7_table_two "0" "b" = Some [2; 1]
  /\ List.concat c7_cut_two_chunks = List.concat c7_cut_one_chunk
  /\ (exists vocab_map,
         Builder.build_model_from_chunks (fun _ => true) c7_cut_one_chunk
         = Ok (vocab_map, c7_cut_table_one))
  /\ (exists vocab_map,
         Builder.build_model_from_chunks (fun _ => true) c7_cut_two_chunks
         = Ok (vocab_map, c7_cut_table_two))
  /\ lookup_bucket c7_cut_table_one "0" "b" = Some (seq 1 30)
  /\ lookup_bucket c7_cut_table_two "0" "b" = Some (seq 2 30).
Proof.
  split; [ reflexivity | ].
  split; [ eexists; vm_compute; reflexivity | ].
  split; [ eexists; vm_compute; reflexivity | ].
  split; [ vm_compute; reflexivity | ].
  split; [ vm_compute; reflexivity | ].
  split; [ reflexivity | ].
  split; [ eexists; vm_compute; reflexivity | ].
  split; [ eexists; vm_compute; reflexivity | ].
  split; vm_compute; reflexivity.
Qed.

(** C7, amended.  For every partition of a stream of non-empty tokens into
    chunks, the chunk-by-chunk aggregation ends with the same word counts as
    the aggregation of the whole stream in one chunk, and both hold, for
    every window of two and of three words, the number of its occurrences in
    the stream of valid tokens.  Both runs of the main block return, with the
    same vocabulary list, and their pruned bigram and trigram tables differ
    at most in candidates of equal count: the same context keys, under a
    context the same letters, and under a letter two buckets that hold,
    position by position, candidates with the same count in the token
    stream; a candidate of one bucket is missing from the other only when
    that one is full (30 ids in a bigram, 20 in a trigram bucket) of
    candidates with at least its count.  Each of the four tables holds the
    most frequent successors of its contexts. *)
Theorem chunked_tables_agree :
  forall (english_words : string -> bool) (chunks : list (list string)),
    Forall (Forall (fun w => w <> EmptyString)) chunks ->
    let tokens := valid_tokens english_words chunks in
    let whole := [List.concat chunks] in
    Builder.word_counts (Builder.aggregate_bigrams english_words chunks)
    = Builder.word_counts (Builder.aggregate_bigrams english_words whole)
    /\ (forall w1 w2,
           count2 (Builder.raw_bigrams (Builder.aggregate_bigrams english_words chunks))
             w1 w2
           = occurrences (w1, w2) (pairs tokens)
           /\ count2 (Builder.raw_bigrams (Builder.aggregate_bigrams english_words whole))
                w1 w2
              = occurrences (w1, w2) (pairs tokens))
    /\ (forall w1 w2 w3,
           count3 (Builder.raw_trigrams (Builder.aggregate_trigrams english_words chunks))
             w1 w2 w3
           = occurrences (w1, w2, w3) (triples tokens)
           /\ count3 (Builder.raw_trigrams
                        (Builder.aggregate_trigrams english_words whole))
                w1 w2 w3
              = occurrences (w1, w2, w3) (triples tokens))
    /\ exists chunked single : Builder.Artifacts,
         Builder.compile_chunks english_words chunks = Ok chunked
         /\ Builder.compile_chunks english_words whole = Ok single
         /\ Builder.vocab_list chunked = Builder.vocab_list single
         /\ tables_agree 30 (follow_count (Builder.vocab_list single) tokens)
              (Builder.transition_graph chunked) (Builder.transition_graph single)
         /\ tables_agree3 20 (follow_count3 (Builder.vocab_list single) tokens)
              (Builder.trigram_graph chunked) (Builder.trigram_graph single)
         /\ top_successors 30 2 (Builder.vocab_list single) tokens
              (Builder.transition_graph chunked)
         /\ top_successors 30 2 (Builder.vocab_list single) tokens
              (Builder.transition_graph single)
         /\ top_successors3 20 2 (Builder.vocab_list single) tokens
              (Builder.trigram_graph chunked)
         /\ top_successors3 20 2 (Builder.vocab_list single) tokens
              (Builder.trigram_graph single).
Proof.
  intros english_words chunks Hne tokens whole.
  assert (Hwhole : Forall (Forall (fun w => w <> EmptyString)) whole).
  { constructor; [ | constructor ]. apply Forall_concat. exact Hne. }
  assert (Htok : valid_tokens english_words whole = tokens).
  { unfold valid_tokens, whole, tokens, valid_tokens. simpl.
    rewrite app_nil_r. reflexivity. }
  pose proof (aggregate_bigrams_inv english_words chunks Hne) as [_ [H2 _]].
  pose proof (aggregate_bigrams_inv english_words whole Hwhole) as [_ [H2' _]].
  pose proof (aggregate_trigrams_inv english_words chunks Hne) as [H3 _].
  pose proof (aggregate_trigrams_inv english_words whole Hwhole) as [H3' _].
  rewrite Htok in H2', H3'.
  split; [ | split; [ | split ] ].
  - rewrite !aggregate_word_counts, Htok. reflexivity.
  - intros w1 w2. split; [ apply H2 | apply H2' ].
  - intros w1 w2 w3. split; [ apply H3 | apply H3' ].
  - destruct (compile_chunks_total english_words chunks Hne) as [chunked [Hc _]].
    destruct (compile_chunks_total english_words whole Hwhole) as [single [Hs _]].
    exists chunked, single.
    destruct (compile_chunks_counts _ _ _ Hne Hc)
      as [Hv1 [[idb1 [Hd1 [Hn1 Hp1]]] [[idt1 [Hnd1 [Hr1 [Hm1 Hq1]]]] [Ht1 Ht1']]]].
    destruct (compile_chunks_counts _ _ _ Hwhole Hs)
      as [Hv2 [[idb2 [Hd2 [Hn2 Hp2]]] [[idt2 [Hnd2 [Hr2 [Hm2 Hq2]]]] [Ht2 Ht2']]]].
    rewrite Htok in Hv2, Hn2, Hp2, Hm2, Hq2, Ht2, Ht2'.
    fold tokens in Hv1, Hn1, Hp1, Hm1, Hq1, Ht1, Ht1'.
    split; [ exact Hc | split; [ exact Hs | split; [ congruence | ] ] ].
    rewrite Hv2.
    split; [ | split; [ | split; [ exact Ht1 | split; [ exact Ht2 | split; assumption ] ] ] ].
    + eapply (prune_table_agree 30 2) with (id_counts1 := idb1) (id_counts2 := idb2);
        try eassumption; lia.
    + eapply prune_trigrams_agree with (id_trigrams1 := idt1) (id_trigrams2 := idt2);
        eassumption.
Qed.

Lemma chunked_tables_agree_witness :
  Forall (Forall (fun w => w <> EmptyString)) c7_two_chunks
  /\ exists chunked single : Builder.Artifacts,
      Builder.compile_chunks (fun _ => true) c7_two_chunks = Ok chunked
      /\ Builder.compile_chunks (fun _ => true) [List.concat c7_two_chunks] = Ok single
      /\ Builder.vocab_list chunked = Builder.vocab_list single
      /\ tables_agree 30
           (follow_count (Builder.vocab_list single)
              (valid_tokens (fun _ => true) c7_two_chunks))
           (Builder.transition_graph chunked) (Builder.transition_graph single).
Proof.
  assert (H : Forall (Forall (fun w => w <> EmptyString)) c7_two_chunks)
    by (repeat constructor; discriminate).
  split; [ exact H | ].
  destruct (chunked_tables_agree (fun _ => true) c7_two_chunks H)
    as [_ [_ [_ [chunked [single [Hc [Hs [Hv [Hb _]]]]]]]]].
  exists chunked, single.
  split; [ exact Hc | split; [ exact Hs | split; [ exact Hv | exact Hb ] ] ].
Defined.

Import PruneFacts.

(** C5 (bucket invariants).  In the table [build_model_incremental] returns,
    in the one [build_trigram_model_incremental] returns and in the one
    [build_model] returns, every letter bucket stands under the [str] of a
    context id; every id in it names a word whose first character is the
    letter of the bucket; it holds at most [K] ids (30 in the bigram tables,
    20 in the trigram table); every id in it has, under that context, a raw
    count of at least [minFreq] (2); and its ids stand in descending order of
    raw count.  The raw counts are those of the id-keyed table the pruning
    loop reads. *)
Theorem bucket_invariants :
  (forall (english_words : string -> bool) (chunks : list (list string))
          (vocab_map : dict nat string) (table : dict string (dict ascii (list nat))),
      Builder.build_model_from_chunks english_words chunks = Ok (vocab_map, table) ->
      exists raw,
        id_bigrams english_words chunks = Ok raw
        /\ table_ok 30 2 vocab_map raw table)
  /\ (forall (english_words : string -> bool) (chunks : list (list string))
             (word_to_id : dict string nat) (id_to_word : dict nat string)
             (table : dict string (dict string (dict ascii (list nat)))),
         Builder.build_trigram_model_from_chunks english_words chunks
           word_to_id id_to_word = Ok table ->
         trigram_table_ok 20 2 id_to_word
           (id_trigrams english_words chunks word_to_id) table)
  /\ (forall (tokens : list string) (id_to_word : dict nat string)
             (table : dict string (dict ascii (list nat))),
         BackupBuilder.build_model tokens = Ok (id_to_word, table) ->
         exists raw,
           BackupBuilder.raw_bigrams
             (word_to_id_of (sorted_vocab_of (counter_update tokens []))) tokens
           = Ok raw
           /\ table_ok 30 2 id_to_word raw table).
Proof.
  split; [ | split ].
  - intros english_words chunks vocab_map table Hrun.
    unfold Builder.build_model_from_chunks, Builder.bigram_finish in Hrun.
    inv_bind Hrun. rename a into raw. inv_bind Hrun. injection Hrun as <- <-.
    exists raw. split; [ exact Hbind | ].
    apply prune_table_ok in Hbind0; [ exact Hbind0 | unfold Builder.TOP_K_PER_LETTER; lia | ].
    apply (id_bigrams_of_spec _ _ _ Hbind).
  - intros english_words chunks word_to_id id_to_word table Hrun.
    unfold Builder.build_trigram_model_from_chunks, Builder.trigram_finish in Hrun.
    eapply prune_trigrams_ok; [ apply id_trigrams_of_spec | exact Hrun ].
  - intros tokens id_to_word table Hrun.
    unfold BackupBuilder.build_model in Hrun.
    inv_bind Hrun. rename a into raw. inv_bind Hrun. injection Hrun as <- <-.
    exists raw. split; [ exact Hbind | ].
    apply prune_table_ok in Hbind0;
      [ exact Hbind0 | unfold BackupBuilder.TOP_K_PER_LETTER; lia | ].
    apply (backup_raw_bigrams_spec _ _ _ Hbind).
Qed.

Lemma bucket_invariants_witness :
  (exists vocab_map,
      Builder.build_model_from_chunks (fun _ => true) c7_two_chunks
      = Ok (vocab_map, c7_table_two))
  /\ exists vocab_map raw,
      id_bigrams (fun _ => true) c7_two_chunks = Ok raw
      /\ table_ok 30 2 vocab_map raw c7_table_two.
Proof.
  assert (H : Builder.build_model_from_chunks (fun _ => true) c7_two_chunks
              = Ok (id_to_word_of ["a"; "big"; "bad"]%string, c7_table_two))
    by (vm_compute; reflexivity).
  split; [ eexists; exact H | ].
  exists (id_to_word_of ["a"; "big"; "bad"]%string).
  exact (proj1 bucket_invariants _ _ _ _ H).
Defined.

(** C10 (ids in range).  In the artifacts of the main block, for any chunks
    of tokens: every context key of the bigram table and both levels of
    context keys of the trigram table are the [str] of an index into
    [vocab_list], and every candidate id in every letter bucket of both
    tables is an index into [vocab_list]. *)
Theorem ids_in_range :
  forall (english_words : string -> bool) (chunks : list (list string))
         (art : Builder.Artifacts),
    Builder.compile_chunks english_words chunks = Ok art ->
    let n := List.length (Builder.vocab_list art) in
    (forall key groups,
        In (key, groups) (Builder.transition_graph art) ->
        (exists ctx, key = str_of_nat ctx /\ ctx < n)
        /\ forall letter ids id, In (letter, ids) groups -> In id ids -> id < n)
    /\ (forall key1 by_word2,
           In (key1, by_word2) (Builder.trigram_graph art) ->
           (exists word1, key1 = str_of_nat word1 /\ word1 < n)
           /\ forall key2 groups,
               In (key2, groups) by_word2 ->
               (exists word2, key2 = str_of_nat word2 /\ word2 < n)
               /\ forall letter ids id,
                   In (letter, ids) groups -> In id ids -> id < n).
Proof.
  intros english_words chunks art Hrun n.
  unfold Builder.compile_chunks in Hrun.
  inv_bind Hrun. destruct a as [vocab_map tg]. rename Hbind into Hbi.
  inv_bind Hrun. rename a into vl, Hbind into Hvl.
  inv_bind Hrun. rename a into t3, Hbind into Htri.
  injection Hrun as <-. subst n. cbn [Builder.vocab_list Builder.transition_graph
                                        Builder.trigram_graph].
  unfold Builder.build_model_from_chunks, Builder.bigram_finish in Hbi.
  inv_bind Hbi. rename a into raw, Hbind into Hraw.
  inv_bind Hbi. rename Hbind into Hprune. injection Hbi as <- <-.
  set (vocab := sorted_vocab_of
                  (Builder.word_counts (Builder.aggregate_bigrams english_words chunks)))
    in *.
  assert (Hnd : NoDup vocab).
  { unfold vocab. rewrite aggregate_word_counts. apply sorted_vocab_spec. }
  rewrite id_to_word_of_spec, mapM_getitem_enumerate in Hvl. injection Hvl as <-.
  assert (Hbucket : forall id_counts table,
             distinct_keys2 id_counts ->
             keys2_in (id_of_word (word_to_id_of vocab)) (id_of_word (word_to_id_of vocab))
               id_counts ->
             forall top_k min_freq,
               (0 <= top_k)%Z ->
               prune_table top_k min_freq (id_to_word_of vocab) id_counts = Ok table ->
               forall key groups,
                 In (key, groups) table ->
                 (exists ctx, key = str_of_nat ctx /\ ctx < List.length vocab)
                 /\ forall letter ids id,
                     In (letter, ids) groups -> In id ids -> id < List.length vocab).
  { intros id_counts table Hdist Hkeys top_k min_freq Hk Hp key groups Hin. split.
    - destruct (prune_table_spec _ _ _ _ _ Hp _ _ Hin) as [ctx [nwm [cg [Hctx [-> _]]]]].
      exists ctx. split; [ reflexivity | ].
      apply id_of_word_lt; [ exact Hnd | apply (proj1 (Hkeys _ _ Hctx)) ].
    - intros letter ids id Hl Hid.
      destruct (prune_table_ok _ _ _ _ _ Hk Hdist Hp _ _ _ _ Hin Hl)
        as [ctx [_ [_ [Hnames _]]]].
      rewrite Forall_forall in Hnames. destruct (Hnames _ Hid) as [w [Hw _]].
      eapply id_to_word_lt, Hw. }
  split.
  - destruct (id_bigrams_of_spec _ _ _ Hraw) as [Hdist Hkeys].
    apply (Hbucket raw _ Hdist Hkeys Builder.TOP_K_PER_LETTER Builder.MIN_BIGRAM_FREQ);
      [ unfold Builder.TOP_K_PER_LETTER; lia | exact Hprune ].
  - intros key1 by_word2 Hin1.
    unfold Builder.build_trigram_model_from_chunks, Builder.trigram_finish in Htri.
    destruct (prune_trigrams_spec _ _ _ Htri _ _ Hin1) as [word1 [w2d [Hitem [-> Hp]]]].
    destruct (id_trigrams_of_spec (word_to_id_of vocab)
                (Builder.raw_trigrams (Builder.aggregate_trigrams english_words chunks)))
      as [_ Hk3].
    destruct (Hk3 _ _ Hitem) as [Hw1 [Hdist Hkeys]].
    split.
    + exists word1. split; [ reflexivity | apply id_of_word_lt; assumption ].
    + apply (Hbucket w2d by_word2 Hdist Hkeys Builder.TOP_K_PER_LETTER_TRIGRAM
               Builder.MIN_TRIGRAM_FREQ);
        [ unfold Builder.TOP_K_PER_LETTER_TRIGRAM; lia | exact Hp ].
Qed.

Lemma ids_in_range_witness :
  Builder.compile_chunks (fun _ => true) c7_two_chunks = Ok c7_artifacts
  /\ forall key groups,
      In (key, groups) (Builder.transition_graph c7_artifacts) ->
      (exists ctx, key = str_of_nat ctx /\ ctx < 3)
      /\ forall letter ids id, In (letter, ids) groups -> In id ids -> id < 3.
Proof.
  assert (H : Builder.compile_chunks (fun _ => true) c7_two_chunks = Ok c7_artifacts)
    by (vm_compute; reflexivity).
  split; [ exact H | ].
  exact (proj1 (ids_in_range _ _ _ H)).
Defined.

(* ================================================================== *)
(** * The width of the beam *)

Import FloatFacts BeamFacts.

(** The model [c8_model] is what [train] makes of [c8_corpus] with any
    [math.log] that returns [0.0] at [1.0]. *)
Lemma c8_model_trained (math_log : float -> float) :
  math_log 1%float = 0%float ->
  Steg.train math_log Steg.init c8_corpus = Ok c8_model.
Proof. intros H. vm_compute. rewrite !H. reflexivity. Qed.

(** C8, the claim as stated fails.  Against the model of [c8_corpus] and for
    the message "abcd", the beam of width 1 ends with the path "a be cat do"
    of score -20 (one fallback step), and the beam of width 2 with the path
    "all by can do" of score -40 (two fallback steps): in the third round the
    fallback extensions of "all by" are sorted in front of "a be cat", at the
    same score, and fill the beam. *)
Lemma wider_beam_lower_score :
  Steg.train (fun _ => 0%float) Steg.init c8_corpus = Ok c8_model
  /\ Steg.best_score c8_model "abcd" 1 = Ok (Some (-20)%float)
  /\ Steg.best_score c8_model "abcd" 2 = Ok (Some (-40)%float)
  /\ Steg.encode c8_model "abcd" 1 = Ok "A be cat do."%string
  /\ Steg.encode c8_model "abcd" 2 = Ok "All by can do."%string
  /\ ((-40) <? (-20))%float = true.
Proof. repeat split; vm_compute; reflexivity. Qed.

(** C8, amended.  For a model trained from any corpus with a [math.log] that
    never returns NaN, and a target sequence of at most two characters
    (at most one round of extensions): for all widths [1 <= w1 <= w2], if
    the search with [w1] returns a best path, so does the search with [w2],
    and its score is not lower. *)
Theorem wider_beam_two_characters :
  forall (math_log : float -> float) (corpus : string) (m : Steg.SteganographyLLM)
         (hidden_text : string) (w1 w2 : Z) (s1 : float),
    (forall x, PrimFloat.is_nan (math_log x) = false) ->
    Steg.train math_log Steg.init corpus = Ok m ->
    List.length (Steg.target_chars hidden_text) <= 2 ->
    (1 <= w1 <= w2)%Z ->
    Steg.best_score m hidden_text w1 = Ok (Some s1) ->
    exists s2,
      Steg.best_score m hidden_text w2 = Ok (Some s2) /\ (s2 <? s1)%float = false.
Proof.
  intros math_log corpus m hidden_text w1 w2 s1 Hlog Htrain Hlen [Hw1 Hw12].
  assert (Hw2 : (1 <= w2)%Z) by lia.
  destruct (Steg.target_chars hidden_text) as [ | c0 [ | c1 [ | c2 rest ] ] ] eqn:HT;
    [ | | | simpl in Hlen; lia ]; clear Hlen.
  - unfold Steg.best_score, Steg.encode_path. rewrite HT. discriminate.
  - rewrite (best_score_one m _ w1 c0 Hw1 HT), (best_score_one m _ w2 c0 Hw2 HT).
    destruct (get_default c0 [] (Steg.words_by_char m)); [ discriminate | ].
    intros [= <-]. exists 0%float. split; reflexivity.
  - rewrite (best_score_two m _ w1 c0 c1 Hw1 HT), (best_score_two m _ w2 c0 c1 Hw2 HT).
    cbv zeta.
    set (start := get_default c0 [] (Steg.words_by_char m)).
    destruct (firstn_le_app nat (Z.to_nat w1) (Z.to_nat w2) start ltac:(lia))
      as [extra Hextra].
    rewrite Hextra, first_round_app.
    set (ids1 := firstn (Z.to_nat w1) start) in *.
    destruct (first_round m c1 ids1) as [ | p nb ] eqn:E1.
    + (* a dead end for the narrow beam *)
      destruct ids1 as [ | i0 ids1' ] eqn:Eids; [ discriminate | ].
      intros [= <-].
      assert (Ec : Steg.get_candidates m i0 c1 = []).
      { unfold first_round in E1. simpl in E1.
        apply app_eq_nil in E1. destruct E1 as [E1 _].
        apply map_eq_nil in E1. exact E1. }
      rewrite (first_round_dead_end math_log corpus m c1 i0 Htrain Ec extra).
      cbn [app]. exists 0%float. split; reflexivity.
    + assert (Hnan1 : Forall (fun q => PrimFloat.is_nan (Steg.score q) = false) (p :: nb)).
      { rewrite <- E1. apply (first_round_not_nan math_log corpus); assumption. }
      assert (Hnan2 : Forall (fun q => PrimFloat.is_nan (Steg.score q) = false)
                        ((p :: nb) ++ first_round m c1 extra)).
      { apply Forall_app. split; [ exact Hnan1 | ].
        apply (first_round_not_nan math_log corpus); assumption. }
      destruct (first_item_prune w1 (p :: nb) Hw1 Hnan1 ltac:(discriminate))
        as [b1 [Eb1 [Hin1 _]]].
      destruct (first_item_prune w2 ((p :: nb) ++ first_round m c1 extra) Hw2 Hnan2
                  ltac:(discriminate))
        as [b2 [Eb2 [_ Hmax2]]].
      rewrite Eb1. cbn [bind]. intros [= <-].
      change ((p :: nb) ++ first_round m c1 extra)
        with (p :: (nb ++ first_round m c1 extra)) in Eb2 |- *.
      cbv iota. rewrite Eb2. cbn [bind].
      exists (Steg.score b2). split; [ reflexivity | ].
      apply Hmax2, in_or_app. left. exact Hin1.
Qed.

Lemma wider_beam_two_characters_witness :
  (forall x : float, PrimFloat.is_nan ((fun _ => 0%float) x) = false)
  /\ Steg.train (fun _ => 0%float) Steg.init c8_corpus = Ok c8_model
  /\ List.length (Steg.target_chars "ab") <= 2
  /\ (1 <= 1 <= 2)%Z
  /\ Steg.best_score c8_model "ab" 1 = Ok (Some (-20)%float)
  /\ exists s2,
      Steg.best_score c8_model "ab" 2 = Ok (Some s2) /\ (s2 <? (-20))%float = false.
Proof.
  assert (H0 : forall x : float, PrimFloat.is_nan ((fun _ => 0%float) x) = false)
    by (intros x; reflexivity).
  assert (H1 : Steg.train (fun _ => 0%float) Steg.init c8_corpus = Ok c8_model)
    by (vm_compute; reflexivity).
  assert (H2 : List.length (Steg.target_chars "ab") <= 2) by (vm_compute; lia).
  assert (H3 : (1 <= 1 <= 2)%Z) by lia.
  assert (H4 : Steg.best_score c8_model "ab" 1 = Ok (Some (-20)%float))
    by (vm_compute; reflexivity).
  split; [ exact H0 | split; [ exact H1 | split; [ exact H2 | split; [ exact H3 | ] ] ] ].
  split; [ exact H4 | ].
  exact (wider_beam_two_characters _ _ _ _ _ _ _ H0 H1 H2 H3 H4).
Defined.

(* ================================================================== *)
(** * When training and encoding return *)

Import TotalFacts VocabFacts Steg.

(** X1 (training returns).  [train] on a fresh model returns a model for every
    corpus and every logarithm: none of its dictionary lookups, its [w[0]]
    or its division raises. *)
Theorem train_total (math_log : float -> float) (corpus : string) :
  exists m, Steg.train math_log Steg.init corpus = Ok m.
Proof.
  unfold Steg.train.
  set (tokens := preprocess corpus).
  set (uw := sorted_str (set_of tokens)).
  fold (word_to_id_of uw). fold (id_to_word_of uw).
  destruct (unique_words_spec tokens) as [Hnd Hin]. fold uw in Hnd, Hin.
  assert (Htok : Forall is_token uw).
  { apply Forall_forall. intros w Hw. apply Hin in Hw.
    pose proof (preprocess_tokens corpus) as Ht.
    rewrite Forall_forall in Ht. apply Ht, Hw. }
  assert (Hid : forall w, In w tokens -> exists i, getitem w (word_to_id_of uw) = Ok i
                                                  /\ nth_error uw i = Some w).
  { intros w Hw. apply Hin, In_nth_error in Hw. destruct Hw as [i Hi].
    exists i. split; [ | exact Hi ]. apply getitem_Ok, word_to_id_of_spec; assumption. }
  assert (Hfirst : forall w, In w uw -> exists c, first_char w = Ok c).
  { intros w Hw. rewrite Forall_forall in Htok. destruct (Htok w Hw) as [Hne _].
    destruct w as [ | c w ]; [ congruence | exists c; reflexivity ]. }
  (* 1. words_by_char *)
  destruct (foldM_total _ _ (fun _ : dict ascii (list nat) => True)
              (fun wbc w =>
                 c <- first_char w ;;
                 i <- getitem w (word_to_id_of uw) ;;
                 Ok (append_to c i wbc))
              uw (words_by_char init) I) as [wbc [-> _]].
  { intros s0 w Hw _. destruct (Hfirst w Hw) as [c ->].
    destruct (Hid w (proj1 (Hin w) Hw)) as [i [-> _]]. simpl. eauto. }
  cbn [bind].
  (* 2. bigram counts *)
  destruct (foldM_total _ _
              (fun counts : dict nat (dict nat nat) =>
                 forall cur nexts,
                   In (cur, nexts) counts ->
                   Forall (fun kv => (exists w, nth_error uw (fst kv) = Some w)
                                     /\ 1 <= snd kv) nexts)
              (fun counts '(curr_w, next_w) =>
                 curr_id <- getitem curr_w (word_to_id_of uw) ;;
                 next_id <- getitem next_w (word_to_id_of uw) ;;
                 Ok (incr2 curr_id next_id counts))
              (pairs tokens) []) as [counts [-> Hcounts]].
  { intros cur nexts []. }
  { intros s0 [a b] Hab IH. apply In_pairs in Hab. destruct Hab as [Ha Hb].
    destruct (Hid a Ha) as [ia [-> _]]. destruct (Hid b Hb) as [ib [-> Hib]].
    simpl. eexists. split; [ reflexivity | ].
    intros cur nexts Hitem. unfold incr2 in Hitem.
    apply In_upd_inv in Hitem.
    destruct Hitem as [ Hold | [-> ->] ]; [ apply (IH _ _ Hold) | ].
    apply Forall_forall. intros [k n] Hkn. unfold incr in Hkn.
    apply In_upd_inv in Hkn. destruct Hkn as [ Hold | [-> ->] ].
    - destruct (get ia s0) as [ old | ] eqn:E; simpl in Hold; [ | contradiction ].
      specialize (IH _ _ (get_In _ _ _ E)). rewrite Forall_forall in IH.
      apply (IH (k, n)), Hold.
    - simpl. split; [ exists b; exact Hib | ].
      destruct (get ib (or_default [] (get ia s0))); lia. }
  cbn [bind].
  (* 3. log probabilities *)
  destruct (foldM_total _ _ (fun _ : dict nat (dict ascii (dict nat float)) => True)
              (fun tr '(curr_id, next_ids) =>
                 log_probs math_log (id_to_word_of uw) curr_id next_ids tr)
              counts (transitions init) I) as [tr [-> _]].
  { intros s0 [curr_id next_ids] Hitem _. unfold log_probs.
    specialize (Hcounts _ _ Hitem). rewrite Forall_forall in Hcounts.
    destruct (foldM_total _ _ (fun _ : dict nat (dict ascii (dict nat float)) => True)
                (fun tr '(next_id, count) =>
                   next_word <- getitem next_id (id_to_word_of uw) ;;
                   start_char <- first_char next_word ;;
                   q <- true_div count (list_sum (values next_ids)) ;;
                   Ok (set_transition curr_id start_char next_id (math_log q) tr))
                next_ids s0 I) as [s1 [E _]]; [ | exists s1; split; [ exact E | exact I ] ].
    intros t0 [next_id count] Hnc _.
    destruct (Hcounts _ Hnc) as [[w Hw] Hpos]. simpl in Hw, Hpos.
    assert (Hg : getitem next_id (id_to_word_of uw) = Ok w).
    { apply getitem_Ok. unfold id_to_word_of. rewrite get_id_to_word. exact Hw. }
    rewrite Hg. cbn [bind].
    destruct (Hfirst w (nth_error_In _ _ Hw)) as [c ->]. cbn [bind].
    unfold true_div.
    pose proof (list_sum_ge _ _ _ _ Hnc) as Hsum.
    destruct (Nat.eqb_spec (list_sum (values next_ids)) 0) as [ E0 | _ ]; [ lia | ].
    cbn [bind]. eexists. split; [ reflexivity | exact I ]. }
  cbn [bind]. eexists. reflexivity.
Qed.


(** X2 (encoding returns).  For a trained model and a beam width of at least 1,
    [encode] returns a sentence whenever some word of the vocabulary starts
    with the first character of the target. *)
Theorem encode_returns (math_log : float -> float) (corpus : string)
  (m : SteganographyLLM) (hidden_text : string) (beam_width : Z)
  (c : ascii) (rest : list ascii) :
  train math_log init corpus = Ok m ->
  (1 <= beam_width)%Z ->
  target_chars hidden_text = c :: rest ->
  get_default c [] (words_by_char m) <> [] ->
  exists sentence, encode m hidden_text beam_width = Ok sentence.
Proof.
  intros Htrain Hw HT Hstart.
  pose proof (train_wf _ _ _ Htrain) as Hwf.
  assert (Hpath : exists best dead_end,
             encode_path m hidden_text beam_width = Ok (Some (best, dead_end))).
  { unfold encode_path. rewrite HT. unfold beam_search.
    set (beam := prune beam_width
                   (map (fun w_id => {| sequence := [w_id]; score := 0%float |})
                      (get_default c [] (words_by_char m)))).
    destruct (search_total m beam_width Hwf Hw rest beam 0 [c]) as [out [de [E Hout]]].
    - discriminate.
    - apply prune_nonempty; [ exact Hw | ].
      intros E. apply map_eq_nil in E. contradiction.
    - apply prune_Forall. apply Forall_forall. intros p Hp.
      apply in_map_iff in Hp. destruct Hp as [i [<- Hi]].
      unfold spells. simpl. constructor; [ | constructor ].
      unfold get_default in Hi.
      destruct (get c (words_by_char m)) as [ ids | ] eqn:Eg; [ | contradiction ].
      destruct Hwf as [Hwbc _]. specialize (Hwbc _ _ Eg).
      rewrite Forall_forall in Hwbc. apply Hwbc, Hi.
    - rewrite E. cbn [bind].
      destruct out as [ | best out ]; [ congruence | ].
      exists best, de. reflexivity. }
  destruct Hpath as [best [de Hpath]].
  pose proof (encode_path_spells _ _ _ _ _ Hwf Hpath) as Hsp.
  unfold encode. rewrite Hpath. cbn [bind].
  eapply render_total, Hsp.
Qed.

Lemma encode_returns_witness :
  Steg.train (fun _ => 0%float) Steg.init "i am good" = Ok demo_model /\
  exists sentence, Steg.encode demo_model "I, a G!" 3 = Ok sentence.
Proof.
  split; [ vm_compute; reflexivity | ].
  apply (encode_returns (fun _ => 0%float) "i am good" demo_model "I, a G!" 3
           "i"%char [ "a"%char; "g"%char ]).
  - vm_compute. reflexivity.
  - lia.
  - vm_compute. reflexivity.
  - vm_compute. discriminate.
Defined.

(* ================================================================== *)
(** * Further properties of the encoder *)

Import CoverFacts ScoreFacts.

(** X4 (what the decoder gets back).  For a model trained from any corpus and
    a beam width of at least 1, let the covered prefix be the longest prefix
    of the target characters each of which starts some token of the corpus.
    If the target is not empty and the prefix is, that is the first letter of
    the message starts no word, [encode] raises [IndexError].  Otherwise
    [encode] returns a sentence, [decode] of the sentence is exactly the
    covered prefix, and the search met a dead end exactly when the prefix is
    not the whole target, at the length of the prefix. *)
Theorem decode_encode_covered_prefix :
  forall (math_log : float -> float) (corpus : string) (m : Steg.SteganographyLLM)
         (hidden_text : string) (beam_width : Z),
    Steg.train math_log Steg.init corpus = Ok m ->
    (1 <= beam_width)%Z ->
    let target := Steg.target_chars hidden_text in
    let prefix := covered_prefix (Steg.preprocess corpus) target in
    (target <> [] -> prefix = [] ->
     Steg.encode m hidden_text beam_width = Raise IndexError)
    /\ (target = [] \/ prefix <> [] ->
        exists sentence,
          Steg.encode m hidden_text beam_width = Ok sentence
          /\ Steg.decode sentence = Ok (str prefix)
          /\ Steg.dead_end_step m hidden_text beam_width
             = if List.length prefix =? List.length target then None
               else Some (List.length prefix)).
Proof.
  intros math_log corpus m ht bw Htrain Hw target prefix.
  pose proof (train_wf _ _ _ Htrain) as Hwf.
  subst prefix. unfold encode, dead_end_step, encode_path. fold target.
  destruct target as [ | c rest ].
  - split; [ congruence | ]. intros _. exists EmptyString. repeat split.
  - cbn [covered_prefix]. unfold beam_search.
    destruct (covered (preprocess corpus) c) eqn:Hc.
    + split; [ congruence | ]. intros _.
      destruct (search_covered_prefix math_log corpus m Htrain bw Hw rest
                  (prune bw (map (fun w_id => {| sequence := [w_id]; score := 0%float |})
                               (get_default c [] (words_by_char m))))
                  0 [c]) as [out [E [Hout Hsp]]].
      * discriminate.
      * apply prune_nonempty; [ exact Hw | ].
        intros E. apply map_eq_nil in E. revert E.
        apply (pool_covered math_log corpus m Htrain), Hc.
      * apply prune_Forall. apply Forall_forall. intros p Hp.
        apply in_map_iff in Hp. destruct Hp as [i [<- Hi]].
        unfold spells. simpl. constructor; [ | constructor ].
        unfold get_default in Hi.
        destruct (get c (words_by_char m)) as [ ids | ] eqn:Eg; [ | contradiction ].
        destruct Hwf as [Hwbc _]. specialize (Hwbc _ _ Eg).
        rewrite Forall_forall in Hwbc. apply Hwbc, Hi.
      * rewrite E. cbn [bind]. destruct out as [ | best out ]; [ congruence | ].
        cbn [first_item bind]. inversion Hsp as [ | ? ? Hbest _ ]; subst.
        simpl in Hbest.
        destruct (render_total _ _ _ Hbest) as [sentence Hr].
        exists sentence. split; [ exact Hr | split ].
        -- apply (render_decode _ _ _ _ Hbest Hr).
        -- cbn [List.length]. 
           destruct (List.length (covered_prefix (preprocess corpus) rest) =? List.length rest) eqn:El.
           ++ change (S ?a =? S ?b) with (a =? b). rewrite El. reflexivity.
           ++ change (S ?a =? S ?b) with (a =? b). rewrite El. reflexivity.
    + split; [ intros _ _ | intros [ | ]; congruence ].
      assert (Hpool : get_default c [] (words_by_char m) = []).
      { destruct (get_default c [] (words_by_char m)) eqn:E; [ reflexivity | ].
        assert (covered (preprocess corpus) c = true).
        { apply (pool_covered math_log corpus m Htrain). rewrite E. discriminate. }
        congruence. }
      rewrite Hpool. simpl map. rewrite prune_nil.
      destruct (search_nil m bw rest 0) as [de ->]. reflexivity.
Qed.

Lemma decode_encode_covered_prefix_witness :
  Steg.train (fun _ => 0%float) Steg.init "i am good" = Ok demo_model
  /\ exists sentence,
      Steg.encode demo_model "I am quite good" 5 = Ok sentence
      /\ Steg.decode sentence = Ok "ia"%string
      /\ Steg.dead_end_step demo_model "I am quite good" 5 = Some 2.
Proof.
  assert (H1 : Steg.train (fun _ => 0%float) Steg.init "i am good" = Ok demo_model)
    by (vm_compute; reflexivity).
  split; [ exact H1 | ].
  destruct (decode_encode_covered_prefix _ _ _ "I am quite good" 5 H1 ltac:(lia))
    as [_ Hok].
  destruct Hok as [sentence [Hs [Hd Hstep]]]; [ right; vm_compute; discriminate | ].
  exists sentence. split; [ exact Hs | split; [ exact Hd | exact Hstep ] ].
Defined.

(** X5 (beam width 0).  With a beam width of 0 [encode] raises [IndexError]
    for every message that has a letter, whatever the model: the beam is cut
    to nothing and [beam[0]] is out of range. *)
Theorem encode_zero_width_raises :
  forall (m : Steg.SteganographyLLM) (hidden_text : string),
    Steg.target_chars hidden_text <> [] ->
    Steg.encode m hidden_text 0 = Raise IndexError.
Proof.
  intros m ht Hne. unfold encode, encode_path.
  destruct (target_chars ht) as [ | c rest ]; [ congruence | ].
  unfold beam_search. change (prune 0 ?l) with (@nil Path).
  destruct (search_nil m 0 rest 0) as [de ->]. reflexivity.
Qed.

Lemma encode_zero_width_raises_witness :
  Steg.target_chars "I am good" <> []
  /\ Steg.encode demo_model "I am good" 0 = Raise IndexError.
Proof.
  assert (H : Steg.target_chars "I am good" <> []) by (vm_compute; discriminate).
  split; [ exact H | exact (encode_zero_width_raises demo_model _ H) ].
Defined.

(** X6 (the words of the cover sentence).  When [encode] of a trained model
    returns a sentence for a message with a letter, the sentence is the
    capitalised join, with single spaces and a final full stop, of at least
    one word; every word is a token of the corpus, and the words start, one
    each and in order, with the first target characters. *)
Theorem cover_sentence_words :
  forall (math_log : float -> float) (corpus : string) (m : Steg.SteganographyLLM)
         (hidden_text : string) (beam_width : Z) (sentence : string),
    Steg.train math_log Steg.init corpus = Ok m ->
    Steg.target_chars hidden_text <> [] ->
    Steg.encode m hidden_text beam_width = Ok sentence ->
    exists words,
      sentence = str (capitalize (join (chars " ") words) ++ chars ".")
      /\ words <> []
      /\ Forall (fun w => In w (Steg.preprocess corpus)) words
      /\ Forall2 (fun w c => first_char w = Ok c) words
           (firstn (List.length words) (Steg.target_chars hidden_text)).
Proof.
  intros math_log corpus m ht bw sentence Htrain Hne Henc.
  pose proof (train_wf _ _ _ Htrain) as Hwf.
  unfold encode in Henc. inv_bind Henc.
  destruct a as [ [best de] | ].
  2:{ unfold encode_path in Hbind. destruct (target_chars ht); [ congruence | ].
      inv_bind Hbind. destruct a0 as [beam de]. inv_bind Hbind. discriminate. }
  pose proof (encode_path_spells _ _ _ _ _ Hwf Hbind) as Hsp.
  destruct (render_words _ _ _ _ Hsp Henc) as [words [-> [Hids Hcs]]].
  exists words. split; [ reflexivity | ].
  assert (Hlen : List.length words
                 = List.length match de with
                               | None => target_chars ht
                               | Some char_idx => firstn (S char_idx) (target_chars ht)
                               end).
  { eapply Forall2_length, Hcs. }
  split; [ | split ].
  - intros ->. simpl in Hlen. destruct de as [ j | ].
    + destruct (target_chars ht); [ congruence | discriminate ].
    + destruct (target_chars ht); [ congruence | discriminate ].
  - pose proof (train_vocab _ _ _ Htrain) as Hvocab.
    destruct (unique_words_spec (preprocess corpus)) as [_ Hin].
    rewrite <- Hvocab in Hin.
    clear Hcs Hlen Hsp Henc Hbind. remember (sequence best) as ids0 eqn:E0. clear E0.
    induction Hids as [ | w i ws ids Hw _ IH ]; [ constructor | constructor; [ | exact IH ] ].
    rewrite (train_id_to_word _ _ _ Htrain) in Hw. apply Hin. eapply nth_error_In, Hw.
  - rewrite Hlen. destruct de as [ j | ].
    + rewrite firstn_length_firstn. exact Hcs.
    + rewrite firstn_all. exact Hcs.
Qed.

Lemma cover_sentence_words_witness :
  Steg.train (fun _ => 0%float) Steg.init "i am good" = Ok demo_model
  /\ Steg.target_chars "I, a G!" <> []
  /\ Steg.encode demo_model "I, a G!" 5 = Ok "I am good."%string
  /\ exists words,
      "I am good."%string = str (capitalize (join (chars " ") words) ++ chars ".")
      /\ words <> []
      /\ Forall (fun w => In w (Steg.preprocess "i am good")) words.
Proof.
  assert (H1 : Steg.train (fun _ => 0%float) Steg.init "i am good" = Ok demo_model)
    by (vm_compute; reflexivity).
  assert (H2 : Steg.target_chars "I, a G!" <> []) by (vm_compute; discriminate).
  assert (H3 : Steg.encode demo_model "I, a G!" 5 = Ok "I am good."%string)
    by (vm_compute; reflexivity).
  split; [ exact H1 | split; [ exact H2 | split; [ exact H3 | ] ] ].
  destruct (cover_sentence_words _ _ _ _ _ _ H1 H2 H3) as [words [E [Hne [Hin _]]]].
  exists words. split; [ exact E | split; [ exact Hne | exact Hin ] ].
Defined.

(** X7 (the beam).  For a trained model and a beam width of at least 0, the
    beam that steps 1 and 2 of [encode] end with never holds more than
    [beam_width] paths, and each of its paths has one word for every target
    character consumed. *)
Theorem beam_width_bound :
  forall (math_log : float -> float) (corpus : string) (m : Steg.SteganographyLLM)
         (first_char : ascii) (rest : list ascii) (beam_width : Z)
         (beam : list Steg.Path) (dead_end : option nat),
    Steg.train math_log Steg.init corpus = Ok m ->
    (0 <= beam_width)%Z ->
    Steg.beam_search m first_char rest beam_width = Ok (beam, dead_end) ->
    (Z.of_nat (List.length beam) <= beam_width)%Z
    /\ Forall (fun p => List.length (Steg.sequence p)
                        = match dead_end with
                          | None => S (List.length rest)
                          | Some char_idx => S char_idx
                          end) beam.
Proof.
  intros math_log corpus m c rest bw beam de Htrain Hw Hrun.
  pose proof (train_wf _ _ _ Htrain) as Hwf.
  unfold beam_search in Hrun. split.
  - apply search_width in Hrun; [ lia | exact Hw | apply slice_to_length, Hw ].
  - apply (search_spells m bw Hwf rest _ 0 [c]) in Hrun.
    + destruct de as [ j | ].
      * destruct Hrun as [_ [Hj Hsp]]. eapply Forall_impl; [ | exact Hsp ].
        intros p Hp. apply Forall2_length in Hp. rewrite Hp.
        rewrite length_app, length_firstn. simpl. lia.
      * eapply Forall_impl; [ | exact Hrun ].
        intros p Hp. apply Forall2_length in Hp. rewrite Hp. reflexivity.
    + apply prune_Forall. apply Forall_forall. intros p Hp.
      apply in_map_iff in Hp. destruct Hp as [i [<- Hi]].
      unfold spells. simpl. constructor; [ | constructor ].
      unfold get_default in Hi.
      destruct (get c (words_by_char m)) as [ ids | ] eqn:Eg; [ | contradiction ].
      destruct Hwf as [Hwbc _]. specialize (Hwbc _ _ Eg).
      rewrite Forall_forall in Hwbc. apply Hwbc, Hi.
Qed.

Lemma beam_width_bound_witness :
  Steg.train (fun _ => 0%float) Steg.init c8_corpus = Ok c8_model
  /\ exists beam,
      Steg.beam_search c8_model "a" [ "b"; "c"; "d" ]%char 2 = Ok (beam, None)
      /\ (Z.of_nat (List.length beam) <= 2)%Z
      /\ Forall (fun p => List.length (Steg.sequence p) = 4) beam.
Proof.
  assert (H1 : Steg.train (fun _ => 0%float) Steg.init c8_corpus = Ok c8_model)
    by (vm_compute; reflexivity).
  split; [ exact H1 | ].
  eexists. split; [ vm_compute; reflexivity | ].
  refine (beam_width_bound _ _ _ "a"%char [ "b"; "c"; "d" ]%char 2 _ None H1 _ _);
    [ lia | vm_compute; reflexivity ].
Defined.

(** X8 (the scores of [train]).  In a trained model, for vocabulary words
    [wa] and [wb] with ids [a] and [b], [wb] starting with [c]: the table
    [transitions[a][c]] has an entry for [b] exactly when [wb] follows [wa]
    somewhere in the corpus, and the entry is [math.log(count / total)], where
    [count] is the number of times [wb] follows [wa] and [total] the number
    of times any word follows [wa]. *)
Theorem train_log_probabilities :
  forall (math_log : float -> float) (corpus : string) (m : Steg.SteganographyLLM)
         (a b : nat) (wa wb : string) (c : ascii),
    Steg.train math_log Steg.init corpus = Ok m ->
    nth_error (Steg.vocab m) a = Some wa ->
    nth_error (Steg.vocab m) b = Some wb ->
    first_char wb = Ok c ->
    let bigrams := pairs (Steg.preprocess corpus) in
    let count := occurrences (wa, wb) bigrams in
    let total := occurrences wa (map fst bigrams) in
    get b (Steg.strategy_a m a c)
    = if count =? 0 then None
      else Some (math_log (Steg.float_of_nat count / Steg.float_of_nat total)%float).
Proof.
  intros math_log corpus m a b wa wb c Htrain Ha Hb Hc bigrams count total.
  rewrite strategy_a_lookup3.
  unfold Steg.train in Htrain.
  set (tokens := Steg.preprocess corpus) in *.
  set (uw := sorted_str (set_of tokens)) in *.
  fold (word_to_id_of uw) in Htrain. fold (id_to_word_of uw) in Htrain.
  inv_bind Htrain. rename a0 into wbc. inv_bind Htrain. rename a0 into counts.
  inv_bind Htrain. rename a0 into tr. injection Htrain as <-.
  cbn [Steg.transitions Steg.vocab] in *.
  destruct (unique_words_spec tokens) as [Hnd Hin]. fold uw in Hnd, Hin.
  change (BackupBuilder.raw_bigrams (word_to_id_of uw) tokens = Ok counts) in Hbind0.
  destruct (raw_bigrams_counts uw tokens counts Hnd (fun w => proj2 (Hin w)) Hbind0)
    as [Hdist [Hpos Hcounts]].
  destruct (Hcounts a b wa wb Ha Hb) as [Hcount Htotal].
  fold bigrams in Hcount, Htotal. fold count in Hcount. fold total in Htotal.
  destruct (log_probs_table math_log _ _ _ _ Hdist Hbind1) as [Hout Hrows].
  assert (Hwb : get b (id_to_word_of uw) = Some wb).
  { unfold id_to_word_of. rewrite get_id_to_word. exact Hb. }
  destruct (count =? 0) eqn:Ez.
  - apply Nat.eqb_eq in Ez. rewrite <- Hcount in Ez.
    destruct (in_dec Nat.eq_dec a (keys counts)) as [Hk | Hk].
    + apply in_map_iff in Hk. destruct Hk as [[a' row] [Ea Hrow]]. simpl in Ea. subst a'.
      destruct (Hrows _ _ Hrow) as [Hmiss _]. rewrite Hmiss; [ reflexivity | ].
      intros Hk. apply in_map_iff in Hk. destruct Hk as [[b' n] [Eb Hn]].
      simpl in Eb. subst b'.
      apply (count2_zero_item _ _ _ _ _ Hdist Hpos Ez Hrow Hn).
    + rewrite Hout by exact Hk. reflexivity.
  - apply Nat.eqb_neq in Ez. rewrite <- Hcount in Ez.
    destruct (count2_pos_item counts a b) as [row [Hrow Hn]]; [ lia | ].
    apply get_In in Hrow, Hn.
    destruct (Hrows _ _ Hrow) as [_ Hitem].
    destruct (Hitem _ _ _ _ Hn Hwb Hc) as [-> _].
    rewrite Hcount. f_equal. f_equal. f_equal.
    rewrite <- Htotal. unfold row_total.
    destruct Hdist as [Hnd1 _]. rewrite (In_get _ _ _ Hnd1 Hrow). reflexivity.
Qed.

Lemma train_log_probabilities_witness :
  exists m,
    Steg.train (fun q => q) Steg.init c6_corpus = Ok m
    /\ get 0 (Steg.strategy_a m 3 "c") = Some 0.5%float
    /\ get 1 (Steg.strategy_a m 3 "d") = Some 0.5%float
    /\ get 2 (Steg.strategy_a m 3 "s") = None.
Proof.
  eexists. split; [ vm_compute; reflexivity | ]. split; [ | split ].
  - refine (train_log_probabilities (fun q => q) c6_corpus _ 3 0 "the" "cat" "c" _ _ _ _);
      vm_compute; reflexivity.
  - refine (train_log_probabilities (fun q => q) c6_corpus _ 3 1 "the" "dog" "d" _ _ _ _);
      vm_compute; reflexivity.
  - refine (train_log_probabilities (fun q => q) c6_corpus _ 3 2 "the" "saw" "s" _ _ _ _);
      vm_compute; reflexivity.
Defined.

(* ================================================================== *)
(** * Further properties of the data builders *)

Import TokenFacts StreamFacts BuildFacts TopFacts SuccessorFacts.

(** X9 (one tokenizer).  [preprocess] of [backup/data_builder.py], the
    per-line tokenizing of [preprocess_streamed] and [preprocess] of
    [SteganographyLLM] return the same tokens for every text: collapsing the
    whitespace and stripping the ends changes nothing for [split]; and every
    token is a non-empty word of the letters a to z. *)
Theorem tokenizers_agree :
  forall text : string,
    BackupBuilder.preprocess text = Steg.preprocess text
    /\ Builder.line_tokens text = Steg.preprocess text
    /\ Forall is_token (Steg.preprocess text).
Proof.
  intros text. split; [ | split ].
  - unfold BackupBuilder.preprocess, Steg.preprocess. apply tokens_of_line.
  - apply line_tokens_preprocess.
  - apply preprocess_tokens.
Qed.

(** X10 (the chunks).  For every file and chunk size, the chunks
    [preprocess_streamed] yields are, one after the other, the tokens of the
    lines in order, none lost or repeated; for a chunk size of at least 1 no
    chunk is empty; and every chunk but the last holds at least [chunk_size]
    tokens. *)
Theorem streamed_chunks :
  forall (lines : list string) (chunk_size : Z),
    let chunks := Builder.preprocess_streamed lines chunk_size in
    List.concat chunks = flat_map Builder.line_tokens lines
    /\ ((1 <= chunk_size)%Z -> Forall (fun chunk => chunk <> []) chunks)
    /\ Forall (fun chunk => (chunk_size <= Z.of_nat (List.length chunk))%Z)
         (removelast chunks).
Proof.
  intros lines chunk_size chunks. subst chunks. unfold Builder.preprocess_streamed.
  split; [ | split ].
  - apply (streamed_concat chunk_size lines []).
  - intros Hn. apply streamed_nonempty, Hn.
  - apply streamed_full.
Qed.

Lemma streamed_chunks_witness :
  List.concat (Builder.preprocess_streamed [ "a b c"; "d e"; "f" ]%string 2)
  = flat_map Builder.line_tokens [ "a b c"; "d e"; "f" ]%string
  /\ Forall (fun chunk => chunk <> [])
       (Builder.preprocess_streamed [ "a b c"; "d e"; "f" ]%string 2).
Proof.
  destruct (streamed_chunks [ "a b c"; "d e"; "f" ]%string 2) as [H1 [H2 _]].
  split; [ exact H1 | apply H2; lia ].
Defined.

(** X11 (streaming reads the same tokens).  When every line of the file but
    the last ends with a whitespace character (its newline), the chunks of
    [preprocess_streamed], one after the other, are the tokens that
    [preprocess] of [backup/data_builder.py] returns for the whole text of
    the file, whatever the chunk size. *)
Theorem streamed_tokens_of_file :
  forall (lines : list string) (chunk_size : Z),
    Forall (fun line => ends_with_space line = true) (removelast lines) ->
    List.concat (Builder.preprocess_streamed lines chunk_size)
    = BackupBuilder.preprocess (file_text lines).
Proof.
  intros lines chunk_size Hends.
  unfold BackupBuilder.preprocess. rewrite tokens_of_line.
  change (split _) with (Steg.preprocess (file_text lines)).
  unfold Builder.preprocess_streamed. rewrite streamed_concat. simpl.
  apply flat_map_line_tokens, Hends.
Qed.

Lemma streamed_tokens_of_file_witness :
  Forall (fun line => ends_with_space line = true)
    (removelast three_lines)
  /\ List.concat (Builder.preprocess_streamed three_lines 3)
     = BackupBuilder.preprocess (file_text three_lines).
Proof.
  assert (H : Forall (fun line => ends_with_space line = true)
                (removelast three_lines))
    by (repeat constructor).
  split; [ exact H | exact (streamed_tokens_of_file _ 3 H) ].
Defined.

(** X12 (the builders return).  The main block of [scripts/data_builder.py]
    returns its artifacts for every file and every set of English words: no
    lookup [word_to_id[w]], [id_to_word[id]], [vocab_map[i]] and no [word[0]]
    raises; and its vocabulary list is the list of the valid tokens of the
    file by descending count.  [build_model] of [backup/data_builder.py]
    returns for the tokens of every text. *)
Theorem builders_never_raise :
  (forall (english_words : string -> bool) (lines : list string),
      exists art,
        Builder.main english_words lines = Ok art
        /\ Builder.vocab_list art
           = sorted_vocab_of
               (counter_update
                  (filter english_words (flat_map Builder.line_tokens lines)) []))
  /\ (forall text : string,
         exists table,
           BackupBuilder.build_model (BackupBuilder.preprocess text)
           = Ok (id_to_word_of
                   (sorted_vocab_of (counter_update (BackupBuilder.preprocess text) [])),
                 table)).
Proof.
  split.
  - intros english_words lines. unfold Builder.main.
    destruct (compile_chunks_total english_words _
                (streamed_tokens lines Builder.CHUNK_SIZE)) as [art [E Hv]].
    exists art. split; [ exact E | ]. rewrite Hv. unfold valid_tokens.
    unfold Builder.preprocess_streamed. rewrite streamed_concat. reflexivity.
  - intros text. unfold BackupBuilder.build_model.
    set (tokens := BackupBuilder.preprocess text).
    set (vocab := sorted_vocab_of (counter_update tokens [])).
    destruct (sorted_vocab_spec tokens) as [[Hnd [Hin _]] _]. fold vocab in Hnd, Hin.
    destruct (backup_raw_bigrams_total vocab tokens Hnd) as [raw Hraw].
    { intros w. apply Hin. }
    rewrite Hraw. cbn [bind].
    destruct (backup_raw_bigrams_spec _ _ _ Hraw) as [_ Hkeys].
    destruct (prune_table_total BackupBuilder.TOP_K_PER_LETTER BackupBuilder.MIN_BIGRAM_FREQ
                (id_to_word_of vocab) raw) as [table ->].
    { eapply keys2_in_impl; [ | | exact Hkeys ]; [ trivial | ].
      intros id. apply id_of_word_names; [ exact Hnd | ].
      apply Forall_forall. intros w Hw. apply Hin in Hw.
      unfold tokens in Hw. unfold BackupBuilder.preprocess in Hw.
      rewrite tokens_of_line in Hw.
      pose proof (preprocess_tokens text) as Ht. rewrite Forall_forall in Ht.
      apply (proj1 (Ht _ Hw)). }
    cbn [bind]. exists table. reflexivity.
Qed.

(** X13 (what a bucket holds).  In the bigram table of
    [build_model_incremental], for chunks of non-empty tokens, and in the one
    of [build_model]: an id in the bucket of a context word and a letter is a
    word that starts with the letter and follows the context word at least
    twice in the token stream; and a word that starts with the letter and
    follows the context word at least twice is in that bucket, unless the
    bucket holds 30 words that each follow the context word at least as
    often. *)
Theorem buckets_hold_top_successors :
  (forall (english_words : string -> bool) (chunks : list (list string))
          (vocab_map : dict nat string) (table : dict string (dict ascii (list nat))),
      Forall (Forall (fun w => w <> EmptyString)) chunks ->
      Builder.build_model_from_chunks english_words chunks = Ok (vocab_map, table) ->
      let tokens := valid_tokens english_words chunks in
      top_successors 30 2 (sorted_vocab_of (counter_update tokens [])) tokens table)
  /\ (forall (tokens : list string) (id_to_word : dict nat string)
             (table : dict string (dict ascii (list nat))),
         BackupBuilder.build_model tokens = Ok (id_to_word, table) ->
         top_successors 30 2 (sorted_vocab_of (counter_update tokens [])) tokens table).
Proof.
  split.
  - intros english_words chunks vocab_map table Hne Hrun tokens.
    unfold Builder.build_model_from_chunks, Builder.bigram_finish in Hrun.
    rewrite aggregate_word_counts in Hrun. fold tokens in Hrun.
    set (vocab := sorted_vocab_of (counter_update tokens [])) in *.
    inv_bind Hrun. rename a into idb. inv_bind Hrun. injection Hrun as <- <-.
    destruct (sorted_vocab_spec tokens) as [[Hnd _] _]. fold vocab in Hnd.
    destruct (id_bigrams_of_spec _ _ _ Hbind) as [Hdist Hkeys].
    destruct (aggregate_bigrams_inv english_words chunks Hne) as [_ [Hraw _]].
    apply (top_successors_of_counts 30 2 vocab tokens idb); try assumption; [ lia | ].
    intros i j wa wb Ha Hb.
    apply word_to_id_of_spec in Ha, Hb; try exact Hnd.
    rewrite (id_bigrams_counts (word_to_id_of vocab)) with (w1 := wa) (w2 := wb)
                                                            (raw := Builder.raw_bigrams (Builder.aggregate_bigrams english_words chunks));
      try assumption.
    + apply Hraw.
    + intros w w' k Hw Hw'. apply word_to_id_of_spec in Hw, Hw'; try exact Hnd. congruence.
    + apply aggregate_bigrams_distinct.
  - intros tokens id_to_word table Hrun.
    unfold BackupBuilder.build_model in Hrun.
    set (vocab := sorted_vocab_of (counter_update tokens [])) in *.
    inv_bind Hrun. rename a into raw. inv_bind Hrun. injection Hrun as <- <-.
    destruct (sorted_vocab_spec tokens) as [[Hnd [Hin _]] _]. fold vocab in Hnd, Hin.
    destruct (raw_bigrams_counts vocab tokens raw Hnd (fun w => proj2 (Hin w)) Hbind)
      as [Hdist [_ Hcount]].
    destruct (backup_raw_bigrams_spec _ _ _ Hbind) as [_ Hkeys].
    apply (top_successors_of_counts 30 2 vocab tokens raw); try assumption; [ lia | ].
    intros i j wa wb Ha Hb. apply (Hcount _ _ _ _ Ha Hb).
Qed.

Lemma buckets_hold_top_successors_witness :
  Forall (Forall (fun w => w <> EmptyString)) c7_two_chunks
  /\ (exists vocab_map,
         Builder.build_model_from_chunks (fun _ => true) c7_two_chunks
         = Ok (vocab_map, c7_table_two))
  /\ top_successors 30 2
       (sorted_vocab_of (counter_update (valid_tokens (fun _ => true) c7_two_chunks) []))
       (valid_tokens (fun _ => true) c7_two_chunks) c7_table_two.
Proof.
  assert (H : Forall (Forall (fun w => w <> EmptyString)) c7_two_chunks)
    by (repeat constructor; discriminate).
  assert (H2 : Builder.build_model_from_chunks (fun _ => true) c7_two_chunks
               = Ok (id_to_word_of [ "a"; "big"; "bad" ]%string, c7_table_two))
    by (vm_compute; reflexivity).
  split; [ exact H | split; [ eexists; exact H2 | ] ].
  exact (proj1 buckets_hold_top_successors _ _ _ _ H H2).
Defined.

(* ================================================================== *)
(** * The fallback pool, the decoder and the order of the ids *)

Import PoolFacts DecodeFacts OrderFacts.

(** X14 (the fallback pool).  In a model trained from a fresh object, the
    words filed under a letter are the ids of the vocabulary words that start
    with the letter, in ascending order of id; so the fallback candidates of
    [get_candidates] are the first ten of them, each with the score -20. *)
Theorem fallback_pool_in_id_order :
  forall (math_log : float -> float) (corpus : string) (m : Steg.SteganographyLLM)
         (c : ascii),
    Steg.train math_log Steg.init corpus = Ok m ->
    get_default c [] (Steg.words_by_char m) = ids_starting_with c (Steg.vocab m)
    /\ Steg.strategy_b m c
       = map (fun word_id => (word_id, (-20)%float))
           (firstn 10 (ids_starting_with c (Steg.vocab m))).
Proof.
  intros math_log corpus m c Htrain.
  assert (Hpool : get_default c [] (Steg.words_by_char m)
                  = ids_starting_with c (Steg.vocab m)).
  { unfold train in Htrain.
    set (uw := sorted_str (set_of (preprocess corpus))) in *.
    fold (word_to_id_of uw) in Htrain.
    inv_bind Htrain. rename a into wbc. inv_bind Htrain. inv_bind Htrain.
    injection Htrain as <-. cbn [words_by_char vocab].
    destruct (unique_words_spec (preprocess corpus)) as [Hnd _]. fold uw in Hnd.
    assert (Hids : forall j w, nth_error uw j = Some w ->
                               get w (word_to_id_of uw) = Some (0 + j)).
    { intros j w Hj. apply word_to_id_of_spec; assumption. }
    rewrite (words_by_char_from _ _ 0 _ _ Hids Hbind c). reflexivity. }
  split; [ exact Hpool | ].
  unfold strategy_b. rewrite Hpool. reflexivity.
Qed.

Lemma fallback_pool_in_id_order_witness :
  Steg.train (fun _ => 0%float) Steg.init c8_corpus = Ok c8_model
  /\ get_default "c"%char [] (Steg.words_by_char c8_model) = [4; 5; 6]
  /\ Steg.vocab c8_model = [ "a"; "all"; "be"; "by"; "can"; "car"; "cat"; "do" ]%string.
Proof.
  assert (H1 : Steg.train (fun _ => 0%float) Steg.init c8_corpus = Ok c8_model)
    by (vm_compute; reflexivity).
  split; [ exact H1 | split; [ | vm_compute; reflexivity ] ].
  exact (proj1 (fallback_pool_in_id_order _ _ _ "c"%char H1)).
Defined.

(** X15 (training again).  [train] never resets [words_by_char]: called on an
    object that was trained before, it leaves under every letter the ids
    that were there, which now index the new vocabulary, and appends the ids
    of the new vocabulary words that start with the letter. *)
Theorem train_keeps_old_pool :
  forall (math_log : float -> float) (self : Steg.SteganographyLLM) (corpus : string)
         (m : Steg.SteganographyLLM) (c : ascii),
    Steg.train math_log self corpus = Ok m ->
    get_default c [] (Steg.words_by_char m)
    = get_default c [] (Steg.words_by_char self) ++ ids_starting_with c (Steg.vocab m).
Proof.
  intros math_log self corpus m c Htrain.
  unfold Steg.train in Htrain.
  set (uw := sorted_str (set_of (Steg.preprocess corpus))) in *.
  fold (word_to_id_of uw) in Htrain.
  inv_bind Htrain. rename a into wbc. inv_bind Htrain. inv_bind Htrain.
  injection Htrain as <-. cbn [Steg.words_by_char Steg.vocab].
  destruct (unique_words_spec (Steg.preprocess corpus)) as [Hnd _]. fold uw in Hnd.
  assert (Hids : forall j w, nth_error uw j = Some w ->
                             get w (word_to_id_of uw) = Some (0 + j)).
  { intros j w Hj. apply word_to_id_of_spec; assumption. }
  apply (words_by_char_from _ _ 0 _ _ Hids Hbind c).
Qed.

Lemma train_keeps_old_pool_witness :
  exists m1 m2,
    Steg.train (fun _ => 0%float) Steg.init "a b" = Ok m1
    /\ Steg.train (fun _ => 0%float) m1 "b" = Ok m2
    /\ get_default "a"%char [] (Steg.words_by_char m2)
       = get_default "a"%char [] (Steg.words_by_char m1)
         ++ ids_starting_with "a" (Steg.vocab m2)
    /\ get_default "a"%char [] (Steg.words_by_char m2) = [0]
    /\ Steg.vocab m2 = [ "b"%string ]
    /\ Steg.encode m2 "a" 3 = Ok "B."%string.
Proof.
  eexists. eexists.
  split; [ vm_compute; reflexivity | ].
  split; [ vm_compute; reflexivity | ].
  split; [ | repeat split; vm_compute; reflexivity ].
  match goal with
  | |- get_default _ _ (Steg.words_by_char ?m2)
       = get_default _ _ (Steg.words_by_char ?m1) ++ _ =>
      apply (train_keeps_old_pool (fun _ => 0%float) m1 "b" m2 "a"%char)
  end.
  vm_compute. reflexivity.
Defined.

(** X16 (decoding a concatenation).  [decode] of two sentences joined by a
    space is the decoding of the first followed by the decoding of the
    second. *)
Theorem decode_concat :
  forall (s1 s2 r1 r2 : string),
    Steg.decode s1 = Ok r1 -> Steg.decode s2 = Ok r2 ->
    Steg.decode (s1 ++ " " ++ s2) = Ok (r1 ++ r2)%string.
Proof.
  intros s1 s2 r1 r2 H1 H2. rewrite decode_initials in *.
  injection H1 as <-. injection H2 as <-.
  rewrite chars_app. change (chars (" " ++ s2)) with (" "%char :: chars s2).
  rewrite filter_app. simpl filter.
  rewrite split_app_space, initials_app, str_app. reflexivity.
Qed.

Lemma decode_concat_witness :
  Steg.decode "I am." = Ok "ia"%string
  /\ Steg.decode "Good!" = Ok "g"%string
  /\ Steg.decode "I am. Good!" = Ok "iag"%string.
Proof.
  assert (H1 : Steg.decode "I am." = Ok "ia"%string) by (vm_compute; reflexivity).
  assert (H2 : Steg.decode "Good!" = Ok "g"%string) by (vm_compute; reflexivity).
  split; [ exact H1 | split; [ exact H2 | ] ].
  exact (decode_concat "I am." "Good!" "ia" "g" H1 H2).
Defined.

(** X3 (the decoded alphabet).  [decode] returns for every sentence, without
    raising, and what it returns is a string of the letters a to z only. *)
Theorem decode_letters :
  forall (sentence : string),
    exists letters,
      Steg.decode sentence = Ok letters
      /\ Forall (fun c => is_az c = true) (chars letters).
Proof.
  intros sentence. rewrite decode_initials. eexists. split; [ reflexivity | ].
  rewrite chars_str. apply initials_az.
Qed.

(** X18 (the order of the ids of [train]).  In a trained model the ids follow
    the order of the words as strings: a smaller id names a word that is
    strictly smaller in the lexicographic order of the character codes. *)
Theorem train_ids_in_dictionary_order :
  forall (math_log : float -> float) (corpus : string) (m : Steg.SteganographyLLM)
         (i j : nat) (wi wj : string),
    Steg.train math_log Steg.init corpus = Ok m ->
    get i (Steg.id_to_word m) = Some wi ->
    get j (Steg.id_to_word m) = Some wj ->
    i < j ->
    String.ltb wi wj = true.
Proof.
  intros math_log corpus m i j wi wj Htrain Hi Hj Hij.
  rewrite (train_id_to_word _ _ _ Htrain) in Hi, Hj.
  pose proof (train_vocab _ _ _ Htrain) as Hvocab.
  destruct (unique_words_spec (preprocess corpus)) as [Hnd _].
  rewrite <- Hvocab in Hnd.
  apply not_ltb_neq.
  - pose proof (sorted_str_sorted (set_of (preprocess corpus))) as Hs.
    rewrite <- Hvocab in Hs.
    apply (StronglySorted_nth _ _ _ Hs i j wi wj Hij Hi Hj).
  - intros ->. rewrite NoDup_nth_error in Hnd.
    assert (i = j); [ | lia ].
    apply Hnd; [ apply nth_error_Some; congruence | congruence ].
Qed.

Lemma train_ids_in_dictionary_order_witness :
  Steg.train (fun _ => 0%float) Steg.init c6_corpus = Ok c6_model
  /\ get 0 (Steg.id_to_word c6_model) = Some "cat"%string
  /\ get 3 (Steg.id_to_word c6_model) = Some "the"%string
  /\ String.ltb "cat" "the" = true.
Proof.
  assert (H1 : Steg.train (fun _ => 0%float) Steg.init c6_corpus = Ok c6_model)
    by (vm_compute; reflexivity).
  assert (H2 : get 0 (Steg.id_to_word c6_model) = Some "cat"%string) by reflexivity.
  assert (H3 : get 3 (Steg.id_to_word c6_model) = Some "the"%string) by reflexivity.
  split; [ exact H1 | split; [ exact H2 | split; [ exact H3 | ] ] ].
  exact (train_ids_in_dictionary_order _ _ _ 0 3 _ _ H1 H2 H3 ltac:(lia)).
Defined.

(* ================================================================== *)
(** * The trigram table and the main blocks *)

Import TrigramFacts MainFacts.

(** X19 (what a trigram bucket holds).  In the artifacts of the main block of
    [scripts/data_builder.py], for chunks of non-empty tokens: an id in the
    trigram bucket of two context words and a letter is a word that starts
    with the letter and follows the two words, in that order, at least twice
    in the stream of valid tokens; and a word that starts with the letter and
    follows the two words at least twice is in that bucket, unless the bucket
    holds 20 words that each follow them at least as often.  So the lookup
    [word not in word_to_id] of the trigram builder drops nothing. *)
Theorem trigram_buckets_hold_top_successors :
  forall (english_words : string -> bool) (chunks : list (list string))
         (art : Builder.Artifacts),
    Forall (Forall (fun w => w <> EmptyString)) chunks ->
    Builder.compile_chunks english_words chunks = Ok art ->
    top_successors3 20 2 (Builder.vocab_list art) (valid_tokens english_words chunks)
      (Builder.trigram_graph art).
Proof.
  intros english_words chunks art Hne Hrun.
  unfold Builder.compile_chunks in Hrun.
  inv_bind Hrun. destruct a as [vocab_map tg]. rename Hbind into Hbi.
  inv_bind Hrun. rename a into vl, Hbind into Hvl.
  inv_bind Hrun. rename a into t3, Hbind into Htri.
  injection Hrun as <-. cbn [Builder.vocab_list Builder.trigram_graph].
  unfold Builder.build_model_from_chunks, Builder.bigram_finish in Hbi.
  inv_bind Hbi. inv_bind Hbi. injection Hbi as <- <-.
  rewrite aggregate_word_counts in *.
  set (tokens := valid_tokens english_words chunks) in *.
  set (vocab := sorted_vocab_of (counter_update tokens [])) in *.
  destruct (sorted_vocab_spec tokens) as [[Hnd _] _]. fold vocab in Hnd.
  rewrite id_to_word_of_spec, mapM_getitem_enumerate in Hvl. injection Hvl as <-.
  unfold Builder.build_trigram_model_from_chunks, Builder.trigram_finish in Htri.
  apply (top_successors3_of_counts vocab tokens _ _ Hnd) in Htri; [ exact Htri | | ].
  - apply id_trigrams_of_spec.
  - intros i1 i2 i3 w1 w2 w3 H1 H2 H3.
    apply word_to_id_of_spec in H1, H2, H3; try exact Hnd.
    rewrite (id_trigrams_counts (word_to_id_of vocab)) with (w1 := w1) (w2 := w2) (w3 := w3);
      try assumption.
    + destruct (aggregate_trigrams_inv english_words chunks Hne) as [Hraw _]. apply Hraw.
    + intros w w' k Hw Hw'. apply word_to_id_of_spec in Hw, Hw'; try exact Hnd. congruence.
    + apply aggregate_trigrams_distinct.
Qed.

Lemma trigram_buckets_hold_top_successors_witness :
  Forall (Forall (fun w => w <> EmptyString)) [Steg.preprocess c4_corpus]
  /\ exists art,
      Builder.compile_chunks (fun _ => true) [Steg.preprocess c4_corpus] = Ok art
      /\ top_successors3 20 2 (Builder.vocab_list art)
           (valid_tokens (fun _ => true) [Steg.preprocess c4_corpus])
           (Builder.trigram_graph art).
Proof.
  assert (H : Forall (Forall (fun w => w <> EmptyString)) [Steg.preprocess c4_corpus])
    by (vm_compute; repeat constructor; discriminate).
  split; [ exact H | ].
  eexists. split; [ vm_compute; reflexivity | ].
  refine (trigram_buckets_hold_top_successors (fun _ => true) _ _ H _).
  vm_compute. reflexivity.
Defined.

(** X20 (the sample section needs the word "in").  The main block of
    [scripts/data_builder.py], for an [int] that reads back what [str]
    writes: when "in" is not among the valid tokens of the file, the block
    raises [ValueError], at [vocab_list.index('in')], after the two models
    were built; when it is, the block completes, and the index it prints is
    that of "in" in the vocabulary list. *)
Theorem scripts_main_needs_in :
  forall (py_int : string -> option Z) (english_words : string -> bool)
         (lines : list string),
    (forall n, py_int (str_of_nat n) = Some (Z.of_nat n)) ->
    let tokens := filter english_words (flat_map Builder.line_tokens lines) in
    (~ In "in"%string tokens ->
     Script.main py_int english_words lines = Script.Throws Script.ValueError)
    /\ (In "in"%string tokens ->
        exists art b t,
          Script.main py_int english_words lines = Script.Returns (art, b, t)
          /\ nth_error (Builder.vocab_list art) (Script.in_index b) = Some "in"%string).
Proof.
  intros py_int english_words lines Hint tokens.
  unfold Script.main, Builder.main.
  destruct (compile_chunks_total english_words _
              (streamed_tokens lines Builder.CHUNK_SIZE)) as [art [Hart Hv]].
  rewrite Hart.
  assert (Htok : valid_tokens english_words
                   (Builder.preprocess_streamed lines Builder.CHUNK_SIZE) = tokens).
  { unfold valid_tokens, Builder.preprocess_streamed. rewrite streamed_concat. reflexivity. }
  rewrite Htok in Hv.
  destruct (sorted_vocab_spec tokens) as [[_ [Hin _]] _]. rewrite <- Hv in Hin.
  destruct (artifacts_in_range _ _ _ Hart) as [Hbi Htri].
  destruct (bigram_sample_returns (Builder.vocab_list art) (Builder.transition_graph art))
    as [Hno Hyes].
  { intros key groups letter ids id Hk Hl Hi.
    apply (proj2 (Hbi _ _ Hk) _ _ _ Hl Hi). }
  split.
  - intros Hnot. rewrite Hno; [ reflexivity | ]. intros H. apply Hnot, Hin, H.
  - intros Hyes'. destruct Hyes as [b [-> Hb]]; [ apply Hin, Hyes' | ].
    destruct (trigram_sample_returns py_int (Builder.vocab_list art)
                (Builder.trigram_graph art) (str_of_nat (Script.in_index b)) Hint)
      as [t ->].
    + intros key1 by_word2 key2 groups H1 H2.
      apply (proj1 (proj2 (Htri _ _ H1) _ _ H2)).
    + exists art, b, t. split; [ reflexivity | exact Hb ].
Qed.

Lemma scripts_main_needs_in_witness :
  (forall n, Script.int_of_numeral (str_of_nat n) = Some (Z.of_nat n))
  /\ Script.main Script.int_of_numeral (fun _ => true) three_lines
     = Script.Throws Script.ValueError.
Proof.
  split; [ exact int_of_numeral_str | ].
  refine (proj1 (scripts_main_needs_in Script.int_of_numeral (fun _ => true) three_lines
                   int_of_numeral_str) _).
  vm_compute. intuition discriminate.
Defined.

(** X21 (the same for the older builder).  The main block of
    [backup/data_builder.py] raises [ValueError] when the text has no token
    "in", and otherwise completes, printing the index of "in" in the
    vocabulary list. *)
Theorem backup_main_needs_in :
  forall data : string,
    (~ In "in"%string (BackupBuilder.preprocess data) ->
     Script.backup_main data = Script.Throws Script.ValueError)
    /\ (In "in"%string (BackupBuilder.preprocess data) ->
        exists vocab_list table b,
          Script.backup_main data = Script.Returns (vocab_list, table, b)
          /\ nth_error vocab_list (Script.in_index b) = Some "in"%string).
Proof.
  intros data. unfold Script.backup_main.
  set (tokens := BackupBuilder.preprocess data).
  set (vocab := sorted_vocab_of (counter_update tokens [])).
  destruct (sorted_vocab_spec tokens) as [[Hnd [Hin _]] _]. fold vocab in Hnd, Hin.
  assert (Hbuild : exists table,
             BackupBuilder.build_model tokens = Ok (id_to_word_of vocab, table)).
  { unfold BackupBuilder.build_model. fold vocab.
    destruct (backup_raw_bigrams_total vocab tokens Hnd) as [raw Hraw].
    { intros w. apply Hin. }
    rewrite Hraw. cbn [bind].
    destruct (backup_raw_bigrams_spec _ _ _ Hraw) as [_ Hkeys].
    destruct (prune_table_total BackupBuilder.TOP_K_PER_LETTER BackupBuilder.MIN_BIGRAM_FREQ
                (id_to_word_of vocab) raw) as [table ->].
    { eapply keys2_in_impl; [ | | exact Hkeys ]; [ trivial | ].
      intros id. apply id_of_word_names; [ exact Hnd | ].
      apply Forall_forall. intros w Hw. apply Hin in Hw.
      unfold tokens, BackupBuilder.preprocess in Hw. rewrite tokens_of_line in Hw.
      pose proof (preprocess_tokens data) as Ht. rewrite Forall_forall in Ht.
      apply (proj1 (Ht _ Hw)). }
    cbn [bind]. exists table. reflexivity. }
  destruct Hbuild as [table Hbuild]. rewrite Hbuild.
  rewrite id_to_word_of_spec, mapM_getitem_enumerate.
  destruct (bigram_sample_returns vocab table) as [Hno Hyes].
  { intros key groups letter ids id Hk Hl Hi.
    unfold BackupBuilder.build_model in Hbuild. fold vocab in Hbuild.
    inv_bind Hbuild. rename a into raw. inv_bind Hbuild. injection Hbuild as <-.
    destruct (backup_raw_bigrams_spec _ _ _ Hbind) as [Hdist _].
    assert (Hk30 : (0 <= BackupBuilder.TOP_K_PER_LETTER)%Z)
      by (unfold BackupBuilder.TOP_K_PER_LETTER; lia).
    destruct (prune_table_ok _ _ _ _ _ Hk30 Hdist Hbind0 _ _ _ _ Hk Hl)
      as [ctx [_ [_ [Hnames _]]]].
    rewrite Forall_forall in Hnames. destruct (Hnames _ Hi) as [w [Hw _]].
    eapply id_to_word_lt, Hw. }
  split.
  - intros Hnot. rewrite Hno; [ reflexivity | ]. intros H. apply Hnot, Hin, H.
  - intros Hyes'. destruct Hyes as [b [-> Hb]]; [ apply Hin, Hyes' | ].
    exists vocab, table, b. split; [ reflexivity | exact Hb ].
Qed.

Lemma backup_main_needs_in_witness :
  ~ In "in"%string (BackupBuilder.preprocess "I am good. I am.")
  /\ Script.backup_main "I am good. I am." = Script.Throws Script.ValueError.
Proof.
  assert (H : ~ In "in"%string (BackupBuilder.preprocess "I am good. I am."))
    by (vm_compute; intuition discriminate).
  split; [ exact H | exact (proj1 (backup_main_needs_in "I am good. I am.") H) ].
Defined.

(* ================================================================== *)
(** * The score of a path; a vocabulary that misses words *)

Import PathFacts.

(** X22 (what a score is).  For a trained model, the score of every path of
    the beam that steps 1 and 2 of [encode] end with is determined by its
    words: it is 0.0 plus, added one after the other from the left, the score
    that [get_candidates] gives each word after the word before it for its
    target character. *)
Theorem path_scores :
  forall (math_log : float -> float) (corpus : string) (m : Steg.SteganographyLLM)
         (first_char : ascii) (rest : list ascii) (beam_width : Z)
         (beam : list Steg.Path) (dead_end : option nat),
    Steg.train math_log Steg.init corpus = Ok m ->
    Steg.beam_search m first_char rest beam_width = Ok (beam, dead_end) ->
    Forall (fun p => Steg.score p = rescore m (Steg.sequence p) (first_char :: rest)) beam.
Proof.
  intros math_log corpus m c rest bw beam de Htrain Hrun.
  pose proof (train_wf _ _ _ Htrain) as Hwf.
  unfold beam_search in Hrun.
  apply (search_invariant m bw
           (fun done p => spells m done p /\ score p = rescore m (sequence p) done)
           (extend_rescore math_log corpus m Htrain) rest _ 0 [c]) in Hrun.
  - destruct Hrun as [k Hk]. eapply Forall_impl; [ | exact Hk ].
    intros p [Hsp Hscore]. rewrite Hscore.
    rewrite <- (firstn_skipn k rest) at 2.
    change (c :: firstn k rest ++ skipn k rest) with (([c] ++ firstn k rest) ++ skipn k rest).
    symmetry. apply rescore_prefix. apply (Forall2_length Hsp).
  - apply prune_Forall. apply Forall_forall. intros p Hp.
    apply in_map_iff in Hp. destruct Hp as [i [<- Hi]]. split; [ | reflexivity ].
    unfold spells. simpl. constructor; [ | constructor ].
    unfold get_default in Hi.
    destruct (get c (words_by_char m)) as [ ids | ] eqn:Eg; [ | contradiction ].
    destruct Hwf as [Hwbc _]. specialize (Hwbc _ _ Eg).
    rewrite Forall_forall in Hwbc. apply Hwbc, Hi.
Qed.

Lemma path_scores_witness :
  Steg.train (fun _ => 0%float) Steg.init c8_corpus = Ok c8_model
  /\ exists beam,
      Steg.beam_search c8_model "a" [ "b"; "c"; "d" ]%char 2 = Ok (beam, None)
      /\ Forall (fun p => Steg.score p
                          = rescore c8_model (Steg.sequence p) [ "a"; "b"; "c"; "d" ]%char)
           beam.
Proof.
  assert (H1 : Steg.train (fun _ => 0%float) Steg.init c8_corpus = Ok c8_model)
    by (vm_compute; reflexivity).
  split; [ exact H1 | ].
  eexists. split; [ vm_compute; reflexivity | ].
  refine (path_scores _ _ _ "a"%char [ "b"; "c"; "d" ]%char 2 _ None H1 _).
  vm_compute. reflexivity.
Defined.

(** X17 (a vocabulary that misses words).  [build_trigram_model_incremental]
    returns for every [word_to_id] whose ids [id_to_word] names with a
    non-empty word, also when [word_to_id] misses words of the file: a
    trigram with a missing word is skipped, and every context key of the
    table is the [str] of an id of [word_to_id]. *)
Theorem trigram_builder_skips_unknown_words :
  forall (english_words : string -> bool) (chunks : list (list string))
         (word_to_id : dict string nat) (id_to_word : dict nat string),
    (forall w i, get w word_to_id = Some i ->
                 exists w', get i id_to_word = Some w' /\ w' <> EmptyString) ->
    exists table,
      Builder.build_trigram_model_from_chunks english_words chunks word_to_id id_to_word
      = Ok table
      /\ forall key1 by_word2 key2 groups,
          In (key1, by_word2) table -> In (key2, groups) by_word2 ->
          exists word1 word2,
            key1 = str_of_nat word1 /\ key2 = str_of_nat word2
            /\ id_of_word word_to_id word1 /\ id_of_word word_to_id word2.
Proof.
  intros english_words chunks word_to_id id_to_word Hnames.
  unfold Builder.build_trigram_model_from_chunks, Builder.trigram_finish.
  set (idt := Builder.id_trigrams_of word_to_id
                (Builder.raw_trigrams (Builder.aggregate_trigrams english_words chunks))).
  destruct (id_trigrams_of_spec word_to_id
              (Builder.raw_trigrams (Builder.aggregate_trigrams english_words chunks)))
    as [Hnd Hk3]. fold idt in Hnd, Hk3.
  destruct (prune_trigrams_total id_to_word idt) as [table Htable].
  { intros word1 word2_dict Hitem. destruct (Hk3 _ _ Hitem) as [_ [_ Hk2]].
    eapply keys2_in_impl; [ | | exact Hk2 ]; [ trivial | ].
    intros id [w Hw]. apply (Hnames _ _ Hw). }
  exists table. split; [ exact Htable | ].
  intros key1 by_word2 key2 groups H1 H2.
  destruct (prune_trigrams_spec _ _ _ Htable _ _ H1) as [word1 [w2d [Hitem [-> Hp]]]].
  destruct (Hk3 _ _ Hitem) as [Hw1 [_ Hk2]].
  destruct (prune_table_spec _ _ _ _ _ Hp _ _ H2) as [word2 [nwm [cg [Hctx [-> _]]]]].
  exists word1, word2. repeat split; try assumption.
  apply (proj1 (Hk2 _ _ Hctx)).
Qed.

Lemma trigram_builder_skips_unknown_words_witness :
  (forall w i, get w [("a"%string, 0)] = Some i ->
               exists w', get i [(0, "a"%string)] = Some w' /\ w' <> EmptyString)
  /\ Builder.build_trigram_model_from_chunks (fun _ => true) c7_two_chunks
       [("a"%string, 0)] [(0, "a"%string)] = Ok [].
Proof.
  assert (H : forall w i, get w [("a"%string, 0)] = Some i ->
                          exists w', get i [(0, "a"%string)] = Some w' /\ w' <> EmptyString).
  { intros w i. simpl. destruct (String.eqb w "a"); [ | discriminate ].
    intros [= <-]. exists "a"%string. split; [ reflexivity | discriminate ]. }
  split; [ exact H | ].
  destruct (trigram_builder_skips_unknown_words (fun _ => true) c7_two_chunks _ _ H)
    as [table [E _]].
  rewrite E. vm_compute in E. injection E as <-. reflexivity.
Defined.
